(** * lunafirpay: payment dispatch and settlement engine

    A shallow embedding of the parts of the gateway that the specification
    talks about: the fee arithmetic, the MD5 signature codec, the channel
    eligibility filter, the order table operations, the request handlers
    up to order creation, and the callback / settlement pipeline; and of
    the code around them: the identity card check, the channel
    administration, the helpers for random strings and PEM keys, the V1
    routes, the order queries, the automatic closing of channels, the
    whitelist of callback domains, pausing and restoring merchants, the
    store of verification codes and the client address.

    Conventions of the embedding.
    - A JavaScript number is a [number]: NaN, an infinity, or a finite
      value, a binary64 double carried as the rational it stands for.
      Parsing, the division of a rate by 100 and the product and the sum
      of the fee lines round to the nearest double, the one with the even
      significand of two equally near; a product or sum beyond the largest
      double is left out.  The difference [money - fee_money] of a
      settlement and the balance it is added to are taken exactly.  A
      numeric column of a row holds the number its statement was given.
    - A JavaScript string is a [string] of bytes (ASCII text).
    - An SQL table is the list of its rows in primary-key order.
    - Calls that leave the repository (the plugins, RSA and MD5 request
      verification of utils/payment, the HTTP client) are parameters. *)

From Stdlib Require Import List ZArith NArith QArith Qround Qabs Bool Lia Lqa.
From Stdlib Require Import QArith.Qpower.
From Stdlib Require Import Strings.String Strings.Ascii.
From Stdlib Require Import Numbers.DecimalString.
From Stdlib Require Numbers.DecimalZ Numbers.DecimalPos.
From Stdlib Require Import Sorting.Permutation Sorting.Sorted.
Import ListNotations.

Local Open Scope string_scope.
Local Open Scope Z_scope.

(* ================================================================== *)
(** * Part I.  JavaScript values and the built-ins the code relies on  *)
(* ================================================================== *)

Module JS.

(** A JavaScript Number. *)
Inductive number : Type :=
| NaN
| Inf (negative : bool)
| Fin (q : Q).

(** The primitive values that reach the functions below. *)
Inductive value : Type :=
| VUndefined
| VNull
| VBool (b : bool)
| VNum (n : number)
| VStr (s : string).

(** Equality of numbers as [===] sees it on non-NaN values. *)
Definition num_eq (a b : number) : Prop :=
  match a, b with
  | Fin x, Fin y => (x == y)%Q
  | Inf s, Inf t => s = t
  | _, _ => False
  end.

Definition isNaN (n : number) : bool :=
  match n with NaN => true | _ => false end.

(** [a >= b] on numbers; any comparison with NaN is false. *)
Definition num_geb (a : number) (b : Q) : bool :=
  match a with
  | NaN => false
  | Inf neg => negb neg
  | Fin x => Qle_bool b x
  end.

(** ** Binary64 arithmetic

    A finite Number is a double: an integer of less than 54 bits times a
    power of two from [2^-1074] up.  The result of an operation is the
    double nearest to the exact result, the one with the even significand
    when two are equally near, and an infinity from [2^1024] on. *)

Definition pow2 (e : Z) : Q := Qpower 2 e.

(** The integer part of the binary logarithm of a positive rational. *)
Definition ilog2 (a : Q) : Z :=
  let k := Z.log2 (Qnum a) - Z.log2 (Zpos (Qden a)) in
  if Qle_bool (pow2 k) a then k else k - 1.

(** The integer nearest to [x], the even one of two equally near. *)
Definition even_nearest (x : Q) : Z :=
  let f := Qfloor x in
  match Qcompare (x - inject_Z f) (1 # 2) with
  | Lt => f
  | Gt => f + 1
  | Eq => if Z.even f then f else f + 1
  end.

(** The exponent of the last place of the doubles around a positive
    [a]: 52 below its binary logarithm, and -1074 for the subnormals. *)
Definition ulp_exponent (a : Q) : Z := Z.max (ilog2 a - 52) (-1074).

Definition nearest64_pos (a : Q) : Q :=
  let e := ulp_exponent a in
  inject_Z (even_nearest (a / pow2 e)) * pow2 e.

(** Rounding to binary64 before the check for overflow. *)
Definition nearest64 (q : Q) : Q :=
  match Qcompare q 0 with
  | Eq => 0
  | Gt => Qred (nearest64_pos q)
  | Lt => Qred (- nearest64_pos (- q))
  end.

(** The Number value for a rational. *)
Definition round64 (q : Q) : number :=
  let y := nearest64 q in
  if Qle_bool (pow2 1024) (Qabs y) then Inf (negb (Qle_bool 0 y)) else Fin y.

(** The rationals that are significand times power of two. *)
Definition representable (x : Q) : Prop :=
  exists m e : Z, -1074 <= e /\ Z.abs m < 2 ^ 53 /\ (x == inject_Z m * pow2 e)%Q.

(** The finite values of a Number. *)
Definition is_double (x : Q) : Prop := representable x /\ (Qabs x < pow2 1024)%Q.

(** [y] is a double nearest to [x], before the check for overflow. *)
Definition nearest_double (x y : Q) : Prop :=
  representable y /\ forall z, representable z -> (Qabs (y - x) <= Qabs (z - x))%Q.

(** A value as the engine meets it: its number, if it is a finite one,
    is a double. *)
Definition is_js_value (v : value) : Prop :=
  match v with
  | VNum (Fin q) => is_double q
  | _ => True
  end.

(** [a / d] for a finite positive divisor [d]. *)
Definition num_div (a : number) (d : Q) : number :=
  match a with
  | NaN => NaN
  | Inf neg => Inf neg
  | Fin x => round64 (x / d)
  end.

(** ** Scanning of numeric literals *)

(** StrWhiteSpaceChar restricted to ASCII: TAB, LF, VT, FF, CR, SP. *)
Definition is_ws (c : ascii) : bool :=
  let n := nat_of_ascii c in
  ((9 <=? n) && (n <=? 13))%nat || (n =? 32)%nat.

Fixpoint skip_ws (s : string) : string :=
  match s with
  | String c r => if is_ws c then skip_ws r else s
  | EmptyString => s
  end.

Definition digit_of (c : ascii) : option Z :=
  let n := nat_of_ascii c in
  if ((48 <=? n) && (n <=? 57))%nat then Some (Z.of_nat n - 48) else None.

Definition hexdigit_of (c : ascii) : option Z :=
  let n := nat_of_ascii c in
  if ((48 <=? n) && (n <=? 57))%nat then Some (Z.of_nat n - 48)
  else if ((65 <=? n) && (n <=? 70))%nat then Some (Z.of_nat n - 55)
  else if ((97 <=? n) && (n <=? 102))%nat then Some (Z.of_nat n - 87)
  else None.

(** The longest prefix of digits (read by [dig]) and what follows it. *)
Fixpoint take_digits (dig : ascii -> option Z) (s : string) : list Z * string :=
  match s with
  | String c r =>
      match dig c with
      | Some d => let '(ds, rest) := take_digits dig r in (d :: ds, rest)
      | None => ([], s)
      end
  | EmptyString => ([], s)
  end.

Definition digits_value (radix : Z) (ds : list Z) : Z :=
  fold_left (fun acc d => acc * radix + d) ds 0.

(** An optional leading sign: [(negative, rest)]. *)
Definition take_sign (s : string) : bool * string :=
  match s with
  | String "-" r => (true, r)
  | String "+" r => (false, r)
  | _ => (false, s)
  end.

Definition apply_sign (neg : bool) (z : Z) : Z := if neg then - z else z.

(** [parseInt(string)] with no radix argument: leading white space, a
    sign, an optional [0x]/[0X] prefix selecting radix 16, then the longest
    run of digits; [None] is NaN. *)
Definition parseInt_string (s : string) : option Z :=
  let '(neg, s1) := take_sign (skip_ws s) in
  let '(radix, dig, s2) :=
    match s1 with
    | String "0" (String "x" r) => (16, hexdigit_of, r)
    | String "0" (String "X" r) => (16, hexdigit_of, r)
    | _ => (10, digit_of, s1)
    end in
  match fst (take_digits dig s2) with
  | [] => None
  | ds => Some (apply_sign neg (digits_value radix ds))
  end.

(** [m * 10^e] as a rational. *)
Definition scale10 (m e : Z) : Q :=
  if 0 <=? e then inject_Z (m * 10 ^ e)
  else Qmake m (Z.to_pos (10 ^ (- e))).

(** The exponent part [e[+-]ddd] of a decimal literal, when well formed. *)
Definition take_exponent (s : string) : Z :=
  let after_e :=
    match s with
    | String "e" r => Some r
    | String "E" r => Some r
    | _ => None
    end in
  match after_e with
  | Some r =>
      let '(neg, r1) := take_sign r in
      match fst (take_digits digit_of r1) with
      | [] => 0
      | ds => apply_sign neg (digits_value 10 ds)
      end
  | None => 0
  end.

(** [parseFloat(string)]: leading white space, then the longest prefix
    that is a StrDecimalLiteral, and the Number value for its decimal
    value. *)
Definition parseFloat_string (s : string) : number :=
  let '(neg, s1) := take_sign (skip_ws s) in
  if prefix "Infinity" s1 then Inf neg
  else
    let '(ip, s2) := take_digits digit_of s1 in
    let '(fp, s3) :=
      match s2 with
      | String "." r => take_digits digit_of r
      | _ => ([], s2)
      end in
    match (ip ++ fp)%list with
    | [] => NaN
    | ds =>
        let m := apply_sign neg (digits_value 10 ds) in
        round64 (scale10 m (take_exponent s3 - Z.of_nat (List.length fp)))
    end.

(** ToString on the values that are not already strings.  Finite
    non-integral numbers never reach [ToString] in the embedded code
    paths; an integral number prints as its decimal digits. *)
Definition string_of_Z (z : Z) : string :=
  NilZero.string_of_int (Z.to_int z).

Definition toString (v : value) : string :=
  match v with
  | VUndefined => "undefined"
  | VNull => "null"
  | VBool true => "true"
  | VBool false => "false"
  | VNum NaN => "NaN"
  | VNum (Inf true) => "-Infinity"
  | VNum (Inf false) => "Infinity"
  | VNum (Fin q) => string_of_Z (Qfloor q)
  | VStr s => s
  end.

(** [parseFloat(v)].  On a number the round trip through ToString gives
    the number back. *)
Definition parseFloat (v : value) : number :=
  match v with
  | VNum n => n
  | _ => parseFloat_string (toString v)
  end.

(** [parseInt(v)]; [None] is NaN.  A finite number is truncated toward
    zero: its printed form up to the decimal point, for the magnitudes
    that print in positional notation (from 1e-6 up to 1e21). *)
Definition parseInt (v : value) : option Z :=
  match v with
  | VNum (Fin q) => Some (Z.quot (Qnum q) (Zpos (Qden q)))
  | _ => parseInt_string (toString v)
  end.

(** Truthiness of a value ([!!v]). *)
Definition truthy (v : value) : bool :=
  match v with
  | VUndefined | VNull => false
  | VBool b => b
  | VNum NaN => false
  | VNum (Inf _) => true
  | VNum (Fin q) => negb (Qeq_bool q 0)
  | VStr s => negb (String.eqb s "")
  end.

(** [!!p] on a string that may be absent. *)
Definition present (p : option string) : bool :=
  match p with
  | Some s => negb (String.eqb s "")
  | None => false
  end.

Definition text (p : option string) : string :=
  match p with Some s => s | None => "" end.

Definition as_value (p : option string) : value :=
  match p with Some s => VStr s | None => VUndefined end.

(** [p || null]. *)
Definition nonempty (p : option string) : option string :=
  if present p then p else None.

End JS.

(* ================================================================== *)
(** * Part II.  Fee resolver                                            *)
(* ================================================================== *)

Module Fee.
Import JS.

(** [normalizeRateToDecimal(rate)]. *)
Definition normalizeRateToDecimal (rate : value) : number :=
  let value := parseFloat rate in
  if isNaN value then Fin 0
  else if num_geb value 1 then num_div value 100 else value.

(** The numeral [x.toFixed(2)] of a finite number, as a rational.
    [toFixed] works on the magnitude, picks the integer [n] with [n / 100]
    closest to it (the larger one on a tie) and restores the sign; from
    1e21 on it prints the number itself. *)
Definition hundredths (x : Q) : Z := Qfloor (Qabs x * 100 + (1 # 2)).

Definition toFixed2 (x : Q) : Q :=
  if Qle_bool (inject_Z (10 ^ 21)) (Qabs x) then x
  else
    let n := hundredths x in
    if Qle_bool 0 x then inject_Z n / 100 else - (inject_Z n / 100).

(** [parseFloat(x.toFixed(2))] on a finite number: the double nearest
    to the numeral that [toFixed] prints. *)
Definition fixed2 (x : Q) : Q := nearest64 (toFixed2 x).

(** The fee lines shared by [createOrder] and the [/dopay] handler:
    [feeRate ? parseFloat((moneyFloat * feeRate).toFixed(2)) : 0].  An
    absent rate ([undefined], NaN) is [None].  The product is the double
    product.  Amounts and rates are taken in the range in which that
    product is finite, below [2^1024]: an infinite fee is no value of a
    column, and the statement that is given one raises. *)
Definition feeMoney (moneyFloat : Q) (feeRate : option Q) : Q :=
  match feeRate with
  | Some r => if Qeq_bool r 0 then 0 else fixed2 (nearest64 (moneyFloat * r))
  | None => 0
  end.

(** [feePayer === 'buyer' ? parseFloat((moneyFloat + feeMoney).toFixed(2))
    : moneyFloat], with the double sum. *)
Definition realMoney (moneyFloat fee : Q) (feePayer : string) : Q :=
  if String.eqb feePayer "buyer" then fixed2 (nearest64 (moneyFloat + fee)) else moneyFloat.

(** The statement of idempotence at one raw rate. *)
Definition idempotent_at (r : value) : Prop :=
  num_eq (normalizeRateToDecimal (VNum (normalizeRateToDecimal r)))
         (normalizeRateToDecimal r).

(** The raw rate reads as a finite number below 100, or as no finite
    number at all. *)
Definition rate_below_100 (r : value) : Prop :=
  forall x, parseFloat r = Fin x -> (x < 100)%Q.

(** A rational with at most two decimal places. *)
Definition two_decimals (x : Q) : Prop := exists n : Z, (x == inject_Z n / 100)%Q.

(** [y] is [x] rounded to two decimal places, away from zero when [x]
    lies half way between two of them. *)
Definition rounds_to_cents (x y : Q) : Prop :=
  two_decimals y /\ (Qabs (y - x) <= 1 # 200)%Q /\
  ((Qabs (y - x) == 1 # 200)%Q -> (Qabs x <= Qabs y)%Q).

(** The range in which [toFixed] prints decimal digits. *)
Definition printable (x : Q) : Prop := (Qabs x < inject_Z (10 ^ 21))%Q.

(** [z] is what [parseFloat(x.toFixed(2))] gives for the double [x]: a
    double nearest to [x] rounded to two decimal places, and [x] itself
    beyond the range in which [toFixed] prints decimal digits. *)
Definition two_decimal_double (x z : Q) : Prop :=
  exists cents,
    (printable x -> rounds_to_cents x cents) /\
    (~ printable x -> cents = x) /\
    nearest_double cents z.

(** The fee of an order: 0 without a rate, and otherwise the double
    product of the amount and the rate, rounded to two decimals. *)
Definition fee_rule (money : Q) (rate : option Q) (fee : Q) : Prop :=
  match rate with
  | Some r =>
      if Qeq_bool r 0 then fee = 0%Q
      else exists product,
             nearest_double (money * r) product /\ two_decimal_double product fee
  | None => fee = 0%Q
  end.

(** The amount collected: the double sum of the amount and the fee,
    rounded to two decimals, when the buyer pays the fee; the amount
    itself otherwise. *)
Definition real_money_rule (money fee : Q) (payer : string) (real : Q) : Prop :=
  if String.eqb payer "buyer"
  then exists sum, nearest_double (money + fee) sum /\ two_decimal_double sum real
  else real = money.

(** An amount of two decimals as a double: printing it with two decimals
    and reading it back gives the same double. *)
Definition amount_of_two_decimals (x : Q) : Prop := (fixed2 x == x)%Q.

End Fee.

(* ================================================================== *)
(** * Part II-b.  Signature codec (utils/helpers)                       *)
(* ================================================================== *)

Module Codec.

(** ** MD5, as [crypto.createHash('md5').update(str).digest('hex')]
    computes it (RFC 1321), on 32-bit words carried as integers. *)

Definition two32 : Z := 2 ^ 32.

Definition add32 (a b : Z) : Z := (a + b) mod two32.

Definition not32 (x : Z) : Z := Z.lxor x (two32 - 1).

Definition rotl32 (x c : Z) : Z :=
  Z.lor (Z.shiftl x c mod two32) (Z.shiftr x (32 - c)).

(** The sine table and the per-round shift amounts. *)
Definition sines : list Z :=
  [3614090360; 3905402710; 606105819; 3250441966; 4118548399; 1200080426;
   2821735955; 4249261313; 1770035416; 2336552879; 4294925233; 2304563134;
   1804603682; 4254626195; 2792965006; 1236535329; 4129170786; 3225465664;
   643717713; 3921069994; 3593408605; 38016083; 3634488961; 3889429448;
   568446438; 3275163606; 4107603335; 1163531501; 2850285829; 4243563512;
   1735328473; 2368359562; 4294588738; 2272392833; 1839030562; 4259657740;
   2763975236; 1272893353; 4139469664; 3200236656; 681279174; 3936430074;
   3572445317; 76029189; 3654602809; 3873151461; 530742520; 3299628645;
   4096336452; 1126891415; 2878612391; 4237533241; 1700485571; 2399980690;
   4293915773; 2240044497; 1873313359; 4264355552; 2734768916; 1309151649;
   4149444226; 3174756917; 718787259; 3951481745].

Definition shifts : list Z :=
  [7; 12; 17; 22; 7; 12; 17; 22; 7; 12; 17; 22; 7; 12; 17; 22;
   5; 9; 14; 20; 5; 9; 14; 20; 5; 9; 14; 20; 5; 9; 14; 20;
   4; 11; 16; 23; 4; 11; 16; 23; 4; 11; 16; 23; 4; 11; 16; 23;
   6; 10; 15; 21; 6; 10; 15; 21; 6; 10; 15; 21; 6; 10; 15; 21].

Definition word_at (ws : list Z) (i : Z) : Z := nth (Z.to_nat i) ws 0.

(** One of the 64 operations on the working state [(A, B, C, D)]. *)
Definition md5_op (M : list Z) (st : Z * Z * Z * Z) (i : Z) : Z * Z * Z * Z :=
  let '(A, B, C, D) := st in
  let '(f, g) :=
    if i <? 16 then (Z.lor (Z.land B C) (Z.land (not32 B) D), i)
    else if i <? 32 then (Z.lor (Z.land D B) (Z.land (not32 D) C), (5 * i + 1) mod 16)
    else if i <? 48 then (Z.lxor (Z.lxor B C) D, (3 * i + 5) mod 16)
    else (Z.lxor C (Z.lor B (not32 D)), (7 * i) mod 16) in
  let f' := add32 (add32 (add32 f A) (word_at sines i)) (word_at M g) in
  (D, add32 B (rotl32 f' (word_at shifts i)), B, C).

Definition op_indices : list Z := map Z.of_nat (seq 0 64).

Definition md5_block (st : Z * Z * Z * Z) (M : list Z) : Z * Z * Z * Z :=
  let '(a0, b0, c0, d0) := st in
  let '(A, B, C, D) := fold_left (md5_op M) op_indices st in
  (add32 a0 A, add32 b0 B, add32 c0 C, add32 d0 D).

(** Little-endian words of a byte sequence. *)
Fixpoint le_words (bytes : list Z) : list Z :=
  match bytes with
  | b0 :: b1 :: b2 :: b3 :: rest =>
      (b0 + 256 * b1 + 65536 * b2 + 16777216 * b3) :: le_words rest
  | _ => []
  end.

Fixpoint blocks16 (fuel : nat) (ws : list Z) : list (list Z) :=
  match fuel, ws with
  | S n, _ :: _ => firstn 16 ws :: blocks16 n (skipn 16 ws)
  | _, _ => []
  end.

Definition le_bytes (count : nat) (x : Z) : list Z :=
  map (fun i => (x / 256 ^ Z.of_nat i) mod 256) (seq 0 count).

Definition md5_pad (msg : list Z) : list Z :=
  let len := Z.of_nat (List.length msg) in
  (msg ++ [128] ++ repeat 0 (Z.to_nat ((55 - len) mod 64))
       ++ le_bytes 8 ((8 * len) mod 2 ^ 64))%list.

Definition md5_bytes (msg : list Z) : list Z :=
  let ws := le_words (md5_pad msg) in
  let '(a, b, c, d) :=
    fold_left md5_block (blocks16 (List.length ws) ws)
      (1732584193, 4023233417, 2562383102, 271733878) in
  (le_bytes 4 a ++ le_bytes 4 b ++ le_bytes 4 c ++ le_bytes 4 d)%list.

Definition hex_digit (n : Z) : ascii :=
  ascii_of_nat (Z.to_nat (if n <? 10 then 48 + n else 87 + n)).

Fixpoint hex_of_bytes (bytes : list Z) : string :=
  match bytes with
  | [] => ""
  | b :: rest => String (hex_digit (b / 16)) (String (hex_digit (b mod 16)) (hex_of_bytes rest))
  end.

Definition bytes_of_string (s : string) : list Z :=
  map (fun c => Z.of_nat (nat_of_ascii c)) (list_ascii_of_string s).

(** [md5Sign(str)]. *)
Definition md5Sign (str : string) : string :=
  hex_of_bytes (md5_bytes (bytes_of_string str)).

(** ** The canonical string *)

(** A parameter object: its own properties in enumeration order.  The
    keys of an object are distinct. *)
Definition params : Type := list (string * string).

Definition well_formed (p : params) : Prop := NoDup (map fst p).

(** [params[k]]; [None] is [undefined]. *)
Fixpoint get (p : params) (k : string) : option string :=
  match p with
  | [] => None
  | (k', v) :: rest => if String.eqb k' k then Some v else get rest k
  end.

(** The template literal of an entry: [k=params(k)]. *)
Definition pair_text (p : params) (k : string) : string :=
  k ++ "=" ++ match get p k with Some v => v | None => "undefined" end.

(** The order of [Array.prototype.sort()] on strings. *)
Definition key_le (a b : string) : Prop := String.leb a b = true.

(** [Array.prototype.sort()] on strings: ascending by code unit. *)
Fixpoint insert_sorted (k : string) (l : list string) : list string :=
  match l with
  | [] => [k]
  | h :: t => if String.leb k h then k :: l else h :: insert_sorted k t
  end.

Fixpoint sort (l : list string) : list string :=
  match l with
  | [] => []
  | h :: t => insert_sorted h (sort t)
  end.

(** The filter callback: [k !== 'sign' && k !== 'sign_type' &&
    params(k) !== '']. *)
Definition signed_key (p : params) (k : string) : bool :=
  negb (String.eqb k "sign") && negb (String.eqb k "sign_type")
  && negb (match get p k with Some v => String.eqb v "" | None => false end).

(** [Object.keys(params).filter(...).sort()]. *)
Definition signed_keys (p : params) : list string :=
  sort (filter (signed_key p) (map fst p)).

(** [... .map(k => k=params(k)).join('&')]. *)
Definition sortedParams (p : params) : string :=
  String.concat "&" (map (pair_text p) (signed_keys p)).

(** [createSign(params, key)]. *)
Definition createSign (p : params) (key : string) : string :=
  md5Sign (sortedParams p ++ key).

(** [verifySign(params, key, sign)]. *)
Definition verifySign (p : params) (key sign : string) : bool :=
  let expectedSign := md5Sign (sortedParams p ++ key) in
  String.eqb expectedSign sign.

(** ** Changes of a string *)

(** The number of places at which two strings differ, up to the end of
    the shorter one. *)
Fixpoint differences (a b : string) : nat :=
  match a, b with
  | String x a', String y b' =>
      ((if Ascii.eqb x y then 0 else 1) + differences a' b')%nat
  | _, _ => 0%nat
  end.

(** [b] is [a] with one character replaced by another. *)
Definition one_character_changed (a b : string) : Prop :=
  String.length a = String.length b /\ differences a b = 1%nat.

(** ** The digests there are *)

(** The lists of [n] elements of [alphabet]. *)
Fixpoint lists_over (alphabet : list Z) (n : nat) : list (list Z) :=
  match n with
  | O => [[]]
  | S n' => flat_map (fun x => map (cons x) (lists_over alphabet n')) alphabet
  end.

Definition byte_values : list Z := map Z.of_nat (seq 0 256).

(** The hexadecimal forms of the sequences of 16 bytes. *)
Definition digests : list string := map hex_of_bytes (lists_over byte_values 16).

(** A value of [n] characters, [n] at least 1. *)
Fixpoint ones (n : nat) : string :=
  match n with
  | O => "1"
  | S n' => String "1" (ones n')
  end.

End Codec.

(* ================================================================== *)
(** * Part III.  Channel eligibility by minimum age                     *)
(* ================================================================== *)

Module Channel.
Import JS.

(** A JSON document.  Numbers are whole (age limits and row ids are). *)
#[warnings="-register-all"]
Inductive json : Type :=
| JNull
| JBool (b : bool)
| JNum (n : Z)
| JStr (s : string)
| JArr (items : list json)
| JObj (fields : list (string * json)).

(** A [config] column as the driver hands it over: SQL NULL; a string,
    given by what [JSON.parse] makes of it ([None] when it throws); or a
    value other than a string, which the driver has already decoded. *)
Inductive config_column : Type :=
| CfgNull
| CfgText (parsed : option json)
| CfgValue (j : json).

(** A row of [provider_channels]. *)
Record channel : Type := mkChannel {
  ch_id : Z;
  ch_channel_name : string;
  ch_plugin_name : string;
  ch_pay_type : string;
  ch_status : Z;
  ch_priority : Z;
  ch_min_money : Q;
  ch_max_money : Q;
  ch_is_deleted : option Z;
  ch_config : config_column
}.

(** [obj[key]] on a document; [None] is [undefined].  Only objects carry
    own properties of these names. *)
Fixpoint assoc_get (key : string) (fields : list (string * json)) : option json :=
  match fields with
  | [] => None
  | (k, v) :: rest => if String.eqb k key then Some v else assoc_get key rest
  end.

Definition get_prop (key : string) (j : json) : option json :=
  match j with
  | JObj fields => assoc_get key fields
  | _ => None
  end.

(** ToString of a document: an array prints its items separated by
    commas, a [null] item as the empty string. *)
Fixpoint json_toString (j : json) : string :=
  match j with
  | JNull => "null"
  | JBool true => "true"
  | JBool false => "false"
  | JNum n => string_of_Z n
  | JStr s => s
  | JArr items =>
      String.concat ","
        (map (fun i => match i with JNull => "" | _ => json_toString i end) items)
  | JObj _ => "[object Object]"
  end.

(** Falsy documents ([null], [false], [0], the empty string). *)
Definition json_falsy (j : json) : bool :=
  match j with
  | JNull | JBool false | JNum 0 | JStr "" => true
  | _ => false
  end.

Definition parseInt_json (j : json) : option Z :=
  parseInt_string (json_toString j).

(** [typeof c === 'string' ? JSON.parse(c) : (c || {})]; [None] when
    [JSON.parse] throws. *)
Definition read_config (c : config_column) : option json :=
  match c with
  | CfgNull => Some (JObj [])
  | CfgText parsed => parsed
  | CfgValue j => if json_falsy j then Some (JObj []) else Some j
  end.

(** [config.params?.force_min_age]; the outer [None] is the TypeError of
    reading a property of [null], the inner [None] is [undefined]. *)
Definition force_min_age_of (config : json) : option (option json) :=
  match config with
  | JNull => None
  | _ =>
      match get_prop "params" config with
      | None | Some JNull => Some None
      | Some params => Some (get_prop "force_min_age" params)
      end
  end.

(** The body of the filter callback in the polling-group branch of
    [selectChannelFromGroup]. *)
Definition group_filter_callback (merchantMinAge : Z) (c : channel) : bool :=
  match read_config (ch_config c) with
  | None => true
  | Some config =>
      match force_min_age_of config with
      | None => true
      | Some forceMinAge =>
          match forceMinAge with
          | None | Some JNull | Some (JStr "") => true
          | Some v =>
              match parseInt_json v with
              | None => false
              | Some channelMinAge => channelMinAge <=? merchantMinAge
              end
          end
      end
  end.

(** The body of the filter callback in the direct branch. *)
Definition direct_filter_callback (merchantMinAge : Z) (c : channel) : bool :=
  match read_config (ch_config c) with
  | None => true
  | Some config =>
      match force_min_age_of config with
      | None => true
      | Some forceMinAge =>
          match forceMinAge with
          | None | Some JNull | Some (JStr "") => true
          | Some v =>
              match parseInt_json v with
              | None => false
              | Some channelMinAge => channelMinAge <=? merchantMinAge
              end
          end
      end
  end.

(** [minAge !== null && minAge !== undefined], then [parseInt(minAge)]
    and the [isNaN] test: the age to filter by, if any. *)
Definition requested_min_age (minAge : value) : option Z :=
  match minAge with
  | VNull | VUndefined => None
  | _ => parseInt minAge
  end.

(** [eligibleChannels] of the polling-group branch. *)
Definition eligibleChannels (minAge : value) (allGroupChannels : list channel)
  : list channel :=
  match requested_min_age minAge with
  | Some merchantMinAge => filter (group_filter_callback merchantMinAge) allGroupChannels
  | None => allGroupChannels
  end.

(** [filteredChannels] of the direct branch. *)
Definition filteredChannels (minAge : value) (channels : list channel)
  : list channel :=
  match requested_min_age minAge with
  | Some merchantMinAge => filter (direct_filter_callback merchantMinAge) channels
  | None => channels
  end.

(** What a channel declares as its own minimum age. *)
Inductive age_rule : Type :=
| ConfigUnreadable          (* JSON.parse threw, or the document is null *)
| NoForcedAge               (* absent, null or the empty string *)
| ForcedAge (a : Z)         (* reads as the integer a *)
| ForcedAgeNotANumber.      (* present, but parseInt gives NaN *)

Definition age_rule_of (c : channel) : age_rule :=
  match read_config (ch_config c) with
  | None => ConfigUnreadable
  | Some config =>
      match force_min_age_of config with
      | None => ConfigUnreadable
      | Some None | Some (Some JNull) | Some (Some (JStr "")) => NoForcedAge
      | Some (Some v) =>
          match parseInt_json v with
          | Some a => ForcedAge a
          | None => ForcedAgeNotANumber
          end
      end
  end.

(** A channel whose config is [{"params": {"force_min_age": v}}]. *)
Definition channel_with_force_min_age (id : Z) (v : json) : channel :=
  mkChannel id "demo" "alipay" "alipay" 1 0 0 0 None
    (CfgText (Some (JObj [("params", JObj [("force_min_age", v)])]))).

(** A channel with no [force_min_age] in its config. *)
Definition channel_without_force_min_age (id : Z) : channel :=
  mkChannel id "demo" "alipay" "alipay" 1 0 0 0 None
    (CfgText (Some (JObj [("params", JObj [("appid", JStr "2021")])]))).

(** What the callback decides, by the channel's own age rule. *)
Definition meets_age_rule (m : Z) (c : channel) : Prop :=
  match age_rule_of c with
  | ConfigUnreadable | NoForcedAge => True
  | ForcedAge a => a <= m
  | ForcedAgeNotANumber => False
  end.

End Channel.

(* ================================================================== *)
(** * Part IV.  The relational store and the order table                *)
(* ================================================================== *)

Module Store.
Import JS Fee Channel.

(** The buyer identity constraints kept in [orders.cert_info] (the JSON
    text written by [JSON.stringify] and read back by [JSON.parse]). *)
Record cert_info : Type := mkCertInfo {
  cert_no : option string;
  cert_name : option string;
  min_age : option Z
}.

(** The object serialised into [orders.param]. *)
Record extend_params : Type := mkExtendParams {
  ep_auth_code : option string;
  ep_sub_openid : option string;
  ep_sub_appid : option string;
  ep_param : option string
}.

(** A row of [orders]. *)
Record order : Type := mkOrder {
  o_id : Z;
  o_merchant_id : Z;
  o_channel_id : option Z;
  o_trade_no : string;
  o_out_trade_no : string;
  o_pay_type : string;
  o_plugin_name : option string;
  o_name : string;
  o_money : Q;
  o_real_money : Q;
  o_fee_money : Q;
  o_fee_payer : string;
  o_client_ip : string;
  o_notify_url : string;
  o_return_url : string;
  o_status : Z;
  o_order_type : string;
  o_crypto_pid : option string;
  o_cert_info : option cert_info;
  o_param : option extend_params;
  o_created_at : Z;
  o_paid_at : option Z;
  o_api_trade_no : option string;
  o_buyer : option string;
  o_balance_added : bool;
  o_notify_status : Z;
  o_notify_count : Z;
  o_notify_time : option Z
}.

(** A row of [merchants]. *)
Record merchant : Type := mkMerchant {
  m_user_id : Z;
  m_pid : string;
  m_status : string;
  m_api_key : string;
  m_rsa_public_key : option string;
  m_rsa_private_key : option string;
  m_fee_payer : option string;
  m_pay_group_id : option Z;
  m_balance : Q
}.

(** One entry of a pay group's [config] document, keyed there by the
    pay type id: [{channel_mode, group_id}]. *)
Record type_config : Type := mkTypeConfig {
  channel_mode : option Z;
  group_id : option Z
}.

(** A row of [provider_pay_groups]; [pg_config] is the decoded [config]
    document, [None] when it is missing or does not parse. *)
Record pay_group : Type := mkPayGroup {
  pg_id : Z;
  pg_is_default : Z;
  pg_config : option (list (Z * type_config))
}.

(** One member of a polling group: [{id, weight}]. *)
Record group_member : Type := mkGroupMember {
  gm_id : Z;
  gm_weight : option Q
}.

(** A row of [channel_groups]; [cg_channels] is the decoded member
    list, empty when it is missing or does not parse. *)
Record channel_group : Type := mkChannelGroup {
  cg_id : Z;
  cg_status : Z;
  cg_mode : Z;
  cg_channels : list group_member
}.

(** The tables the engine reads and writes, with the next
    AUTO_INCREMENT value of [orders.id]. *)
Record db : Type := mkDb {
  orders : list order;
  merchants : list merchant;
  channels : list channel;
  pay_groups : list pay_group;
  channel_groups : list channel_group;
  next_order_id : Z
}.

Definition set_orders (rows : list order) (s : db) : db :=
  mkDb rows (merchants s) (channels s) (pay_groups s) (channel_groups s)
       (next_order_id s).

Definition set_merchants (rows : list merchant) (s : db) : db :=
  mkDb (orders s) rows (channels s) (pay_groups s) (channel_groups s)
       (next_order_id s).

(** [UPDATE orders SET ... WHERE id = ?]: apply [f] to the rows with
    that id. *)
Definition update_order_where_id (id : Z) (f : order -> order) (s : db) : db :=
  set_orders (map (fun o => if o_id o =? id then f o else o) (orders s)) s.

(** [SELECT * FROM orders WHERE trade_no = ?]. *)
Definition orders_by_trade_no (trade_no : string) (s : db) : list order :=
  filter (fun o => String.eqb (o_trade_no o) trade_no) (orders s).

(** [SELECT * FROM orders WHERE id = ?]. *)
Definition orders_by_id (id : Z) (s : db) : list order :=
  filter (fun o => o_id o =? id) (orders s).

(** [SELECT ... FROM merchants WHERE user_id = ?]. *)
Definition merchants_by_user_id (user_id : Z) (s : db) : list merchant :=
  filter (fun m => m_user_id m =? user_id) (merchants s).

(** [SELECT * FROM provider_channels WHERE id = ?]. *)
Definition channels_by_id (id : Z) (s : db) : list channel :=
  filter (fun c => ch_id c =? id) (channels s).

(** The row with the greatest id ([ORDER BY id DESC LIMIT 1]). *)
Fixpoint greatest_id (rows : list order) (best : option order) : option order :=
  match rows with
  | [] => best
  | r :: rest =>
      greatest_id rest
        (match best with
         | Some b => if o_id b <? o_id r then Some r else best
         | None => Some r
         end)
  end.

(** [SELECT * FROM orders WHERE merchant_id = ? AND out_trade_no = ? AND
    status = 0 ORDER BY id DESC LIMIT 1]. *)
Definition is_pending_for (merchantId : Z) (outTradeNo : string) (o : order) : bool :=
  (o_merchant_id o =? merchantId) && String.eqb (o_out_trade_no o) outTradeNo
  && (o_status o =? 0).

Definition existing_pending_order (merchantId : Z) (outTradeNo : string) (s : db)
  : option order :=
  greatest_id (filter (is_pending_for merchantId outTradeNo) (orders s)) None.

(** The argument of [createOrder]. *)
Record order_data : Type := mkOrderData {
  merchantId : Z;
  channelId : option Z;
  tradeNo : string;
  outTradeNo : string;
  type : string;
  name : string;
  money : Q;
  clientIp : string;
  device : string;
  notifyUrl : string;
  returnUrl : string;
  feeRate : option Q;
  feePayer : string;
  orderType : option string;
  cryptoPid : option string;
  certInfo : option cert_info
}.

Record create_result : Type := mkCreateResult {
  orderId : Z;
  res_tradeNo : string;
  isExisting : bool
}.

(** [x || d] on strings. *)
Definition or_default (x d : string) : string :=
  if String.eqb x "" then d else x.

Definition opt_or_default (x : option string) (d : string) : string :=
  match x with
  | Some v => or_default v d
  | None => d
  end.

(** The SET list of the UPDATE in [createOrder]. *)
Definition reuse_update (d : order_data) (fee real : Q) (o : order) : order :=
  mkOrder (o_id o) (o_merchant_id o) (channelId d) (o_trade_no o) (o_out_trade_no o)
    (type d) (o_plugin_name o) (o_name o) (o_money o) real fee
    (or_default (feePayer d) "merchant") (o_client_ip o) (notifyUrl d) (returnUrl d)
    (o_status o) (o_order_type o) (o_crypto_pid o) (certInfo d) (o_param o)
    (o_created_at o) (o_paid_at o) (o_api_trade_no o) (o_buyer o)
    (o_balance_added o) (o_notify_status o) (o_notify_count o) (o_notify_time o).

(** The row written by the INSERT in [createOrder]; the columns it does
    not list take their defaults. *)
Definition inserted_row (id now : Z) (d : order_data) (fee real : Q) : order :=
  mkOrder id (merchantId d) (channelId d) (tradeNo d) (outTradeNo d)
    (type d) None (name d) (money d) real fee
    (or_default (feePayer d) "merchant") (clientIp d) (notifyUrl d) (returnUrl d)
    0 (opt_or_default (orderType d) "normal") (cryptoPid d) (certInfo d) None
    now None None None
    false 0 0 None.

(** [createOrder(data)] served alone, its SELECT and its UPDATE or INSERT
    with no statement of another request in between: reuse the pending
    order of the same merchant and out-trade-no if there is one, insert a
    new row otherwise.  [Statements.statement] takes the two statements one
    at a time. *)
Definition createOrder (now : Z) (d : order_data) (s : db) : create_result * db :=
  let existingOrders := existing_pending_order (merchantId d) (outTradeNo d) s in
  let moneyFloat := money d in
  let fee := feeMoney moneyFloat (feeRate d) in
  let real := realMoney moneyFloat fee (feePayer d) in
  match existingOrders with
  | Some existingOrder =>
      (mkCreateResult (o_id existingOrder) (o_trade_no existingOrder) true,
       update_order_where_id (o_id existingOrder) (reuse_update d fee real) s)
  | None =>
      let id := next_order_id s in
      (mkCreateResult id (tradeNo d) false,
       mkDb (orders s ++ [inserted_row id now d fee real])
            (merchants s) (channels s) (pay_groups s) (channel_groups s) (id + 1))
  end.

(** [UPDATE orders SET pay_type = ? WHERE id = ?] (the [/select_channel]
    route). *)
Definition set_pay_type (pay_type : string) (o : order) : order :=
  mkOrder (o_id o) (o_merchant_id o) (o_channel_id o) (o_trade_no o) (o_out_trade_no o)
    pay_type (o_plugin_name o) (o_name o) (o_money o) (o_real_money o) (o_fee_money o)
    (o_fee_payer o) (o_client_ip o) (o_notify_url o) (o_return_url o)
    (o_status o) (o_order_type o) (o_crypto_pid o) (o_cert_info o) (o_param o)
    (o_created_at o) (o_paid_at o) (o_api_trade_no o) (o_buyer o)
    (o_balance_added o) (o_notify_status o) (o_notify_count o) (o_notify_time o).

(** [UPDATE orders SET param = ? WHERE ...]. *)
Definition set_param (param : extend_params) (o : order) : order :=
  mkOrder (o_id o) (o_merchant_id o) (o_channel_id o) (o_trade_no o) (o_out_trade_no o)
    (o_pay_type o) (o_plugin_name o) (o_name o) (o_money o) (o_real_money o) (o_fee_money o)
    (o_fee_payer o) (o_client_ip o) (o_notify_url o) (o_return_url o)
    (o_status o) (o_order_type o) (o_crypto_pid o) (o_cert_info o) (Some param)
    (o_created_at o) (o_paid_at o) (o_api_trade_no o) (o_buyer o)
    (o_balance_added o) (o_notify_status o) (o_notify_count o) (o_notify_time o).

(** The SET list of the channel-lock UPDATE in [/dopay]. *)
Definition lock_update (channel_id : Z) (pay_type plugin_name : string)
    (fee real : Q) (fee_payer : string) (o : order) : order :=
  mkOrder (o_id o) (o_merchant_id o) (Some channel_id) (o_trade_no o) (o_out_trade_no o)
    pay_type (Some plugin_name) (o_name o) (o_money o) real fee
    fee_payer (o_client_ip o) (o_notify_url o) (o_return_url o)
    (o_status o) (o_order_type o) (o_crypto_pid o) (o_cert_info o) (o_param o)
    (o_created_at o) (o_paid_at o) (o_api_trade_no o) (o_buyer o)
    (o_balance_added o) (o_notify_status o) (o_notify_count o) (o_notify_time o).

(** The handler's own copy of the row after the lock
    ([order.real_money = realMoney; order.channel_id = channelConfig.id]). *)
Definition local_after_lock (channel_id : Z) (real : Q) (o : order) : order :=
  mkOrder (o_id o) (o_merchant_id o) (Some channel_id) (o_trade_no o) (o_out_trade_no o)
    (o_pay_type o) (o_plugin_name o) (o_name o) (o_money o) real (o_fee_money o)
    (o_fee_payer o) (o_client_ip o) (o_notify_url o) (o_return_url o)
    (o_status o) (o_order_type o) (o_crypto_pid o) (o_cert_info o) (o_param o)
    (o_created_at o) (o_paid_at o) (o_api_trade_no o) (o_buyer o)
    (o_balance_added o) (o_notify_status o) (o_notify_count o) (o_notify_time o).

(** [UPDATE orders SET status = 1, paid_at = NOW(), api_trade_no = ?,
    buyer = ? WHERE id = ?]. *)
Definition paid_update (now : Z) (api_trade_no buyer : option string) (o : order) : order :=
  mkOrder (o_id o) (o_merchant_id o) (o_channel_id o) (o_trade_no o) (o_out_trade_no o)
    (o_pay_type o) (o_plugin_name o) (o_name o) (o_money o) (o_real_money o) (o_fee_money o)
    (o_fee_payer o) (o_client_ip o) (o_notify_url o) (o_return_url o)
    1 (o_order_type o) (o_crypto_pid o) (o_cert_info o) (o_param o)
    (o_created_at o) (Some now) api_trade_no buyer
    (o_balance_added o) (o_notify_status o) (o_notify_count o) (o_notify_time o).

(** [UPDATE orders SET balance_added = 1 WHERE id = ?]. *)
Definition balance_added_update (o : order) : order :=
  mkOrder (o_id o) (o_merchant_id o) (o_channel_id o) (o_trade_no o) (o_out_trade_no o)
    (o_pay_type o) (o_plugin_name o) (o_name o) (o_money o) (o_real_money o) (o_fee_money o)
    (o_fee_payer o) (o_client_ip o) (o_notify_url o) (o_return_url o)
    (o_status o) (o_order_type o) (o_crypto_pid o) (o_cert_info o) (o_param o)
    (o_created_at o) (o_paid_at o) (o_api_trade_no o) (o_buyer o)
    true (o_notify_status o) (o_notify_count o) (o_notify_time o).

(** [UPDATE orders SET notify_status = ?, notify_count = notify_count + 1,
    notify_time = NOW() WHERE id = ?]. *)
Definition notify_update (now : Z) (success : bool) (o : order) : order :=
  mkOrder (o_id o) (o_merchant_id o) (o_channel_id o) (o_trade_no o) (o_out_trade_no o)
    (o_pay_type o) (o_plugin_name o) (o_name o) (o_money o) (o_real_money o) (o_fee_money o)
    (o_fee_payer o) (o_client_ip o) (o_notify_url o) (o_return_url o)
    (o_status o) (o_order_type o) (o_crypto_pid o) (o_cert_info o) (o_param o)
    (o_created_at o) (o_paid_at o) (o_api_trade_no o) (o_buyer o)
    (o_balance_added o) (if success then 1 else 2) (o_notify_count o + 1) (Some now).

(** [UPDATE merchants SET balance = balance + ? WHERE user_id = ?]. *)
Definition credit_merchant (user_id : Z) (amount : Q) (s : db) : db :=
  set_merchants
    (map (fun m =>
            if m_user_id m =? user_id
            then mkMerchant (m_user_id m) (m_pid m) (m_status m) (m_api_key m)
                   (m_rsa_public_key m) (m_rsa_private_key m) (m_fee_payer m)
                   (m_pay_group_id m) (m_balance m + amount)
            else m)
         (merchants s)) s.

(** [if (order.channel_id)]: a channel id that is neither NULL nor 0. *)
Definition channel_locked (o : order) : bool :=
  match o_channel_id o with
  | Some c => negb (c =? 0)
  | None => false
  end.

(** [orders.id] is the primary key. *)
Definition ids_unique (s : db) : Prop := NoDup (map o_id (orders s)).

End Store.

(* ================================================================== *)
(** * Part V.  Request handlers up to order creation                    *)
(* ================================================================== *)

Module Gateway.
Import JS Fee Channel Store.

(** The merged [req.query] and [req.body]: every parameter is a string
    or absent. *)
Record request : Type := mkRequest {
  q_pid : option string;
  q_type : option string;
  q_out_trade_no : option string;
  q_notify_url : option string;
  q_return_url : option string;
  q_name : option string;
  q_money : option string;
  q_sign : option string;
  q_sign_type : option string;
  q_timestamp : option string;
  q_method : option string;
  q_device : option string;
  q_clientip : option string;
  q_auth_code : option string;
  q_sub_openid : option string;
  q_sub_appid : option string;
  q_channel_id : option string;
  q_param : option string;
  q_sitename : option string;
  q_cert_no : option string;
  q_cert_name : option string;
  q_min_age : option string;
  q_remote_ip : string
}.

(** [validateTimestamp(timestamp)], with [Date.now()] as an argument. *)
Definition validateTimestamp (date_now : Z) (timestamp : value) : bool :=
  let now := date_now / 1000 in
  match parseInt timestamp with
  | Some t => Z.abs (now - t) <=? 300
  | None => false
  end.

(** ** [isValidIdCard] and [buildCertInfo] *)

Definition is_digit (c : ascii) : bool :=
  match digit_of c with Some _ => true | None => false end.

Definition digit_in (lo hi : Z) (c : ascii) : bool :=
  match digit_of c with Some d => (lo <=? d) && (d <=? hi) | None => false end.

(** The regular expression
    [^[1-9]\d{5}(19|20)\d{2}(0[1-9]|1[0-2])(0[1-9]|[12]\d|3[01])\d{3}[\dXx]$]. *)
Definition id_card_shape (cs : list ascii) : bool :=
  match cs with
  | [c0; c1; c2; c3; c4; c5; c6; c7; c8; c9; c10; c11; c12; c13; c14; c15; c16; c17] =>
      digit_in 1 9 c0
      && forallb is_digit [c1; c2; c3; c4; c5]
      && ((Ascii.eqb c6 "1" && Ascii.eqb c7 "9") || (Ascii.eqb c6 "2" && Ascii.eqb c7 "0"))
      && forallb is_digit [c8; c9]
      && ((Ascii.eqb c10 "0" && digit_in 1 9 c11) || (Ascii.eqb c10 "1" && digit_in 0 2 c11))
      && ((Ascii.eqb c12 "0" && digit_in 1 9 c13)
          || (digit_in 1 2 c12 && is_digit c13)
          || (Ascii.eqb c12 "3" && digit_in 0 1 c13))
      && forallb is_digit [c14; c15; c16]
      && (is_digit c17 || Ascii.eqb c17 "X" || Ascii.eqb c17 "x")
  | _ => false
  end.

Definition id_weights : list Z := [7; 9; 10; 5; 8; 4; 2; 1; 6; 3; 7; 9; 10; 5; 8; 4; 2].

Definition checkCodes : list ascii :=
  ["1"; "0"; "X"; "9"; "8"; "7"; "6"; "5"; "4"; "3"; "2"]%char.

Fixpoint weighted_sum (cs : list ascii) (ws : list Z) : Z :=
  match cs, ws with
  | c :: cs', w :: ws' =>
      match digit_of c with
      | Some d => d * w + weighted_sum cs' ws'
      | None => weighted_sum cs' ws'
      end
  | _, _ => 0
  end.

Definition upper (c : ascii) : ascii :=
  if Ascii.eqb c "x" then "X"%char else c.

Definition isValidIdCard (idCard : string) : bool :=
  let cs := list_ascii_of_string idCard in
  id_card_shape cs
  && match nth_error checkCodes (Z.to_nat (weighted_sum cs id_weights mod 11)),
           nth_error cs 17 with
     | Some code, Some last => Ascii.eqb (upper last) code
     | _, _ => false
     end.

Inductive cert_error : Type :=
| BadIdCard       (* the id card number is malformed *)
| BadMinAge.      (* the minimum age is not a non-negative integer *)

Inductive cert_outcome : Type :=
| CertError (why : cert_error)
| CertNone
| CertInfo (c : cert_info).

(** [buildCertInfo({cert_no, cert_name, min_age})]. *)
Definition buildCertInfo (cert_no cert_name min_age : option string) : cert_outcome :=
  if present cert_no && negb (isValidIdCard (text cert_no))
  then CertError BadIdCard
  else
    let bad_age :=
      if present min_age then
        match parseInt_string (text min_age) with
        | Some age => age <? 0
        | None => true
        end
      else false in
    if bad_age then CertError BadMinAge
    else if negb (present cert_no) && negb (present cert_name) && negb (present min_age)
    then CertNone
    else CertInfo (mkCertInfo (nonempty cert_no) (nonempty cert_name)
                     (if present min_age then parseInt_string (text min_age) else None)).

(** ** Replies *)

Inductive reject : Type :=
| MissingParams
| TimestampExpired
| CertInfoInvalid (why : cert_error)
| MerchantNotFound
| DomainRejected (msg : string)
| RsaKeyMissing
| SignatureInvalid
| ChannelUnavailable
| AmountTooSmall
| AmountTooLarge
| SystemError.

(** The [code] field of a [/create] error reply. *)
Definition create_code (r : reject) : Z :=
  match r with
  | MissingParams => 1001
  | TimestampExpired => 1002
  | MerchantNotFound => 1003
  | SignatureInvalid => 1004
  | DomainRejected _ => 1005
  | ChannelUnavailable => 1005
  | AmountTooSmall => 1006
  | AmountTooLarge => 1007
  | CertInfoInvalid _ => 1008
  | RsaKeyMissing => 9999
  | SystemError => 9999
  end.

Inductive response : Type :=
| Rejected (why : reject)
| Created (trade_no pay_type : string)        (* [/create]: code 0 *)
| RedirectToCashier (trade_no : string)       (* [handleSubmit] *)
| MapiReply (trade_no pay_type : string).     (* [handleMapi] *)

(** What a handler does outside its own frame, in order. *)
Inductive event : Type :=
| EvMerchantLookup (pid : string)
| EvDomainCheck (notify_url : string)
| EvVerifyRSA (public_key : string)
| EvVerifyMD5 (api_key : string)
| EvChannelLookup
| EvFeeRate
| EvCreateOrder (d : order_data).

Record world : Type := mkWorld {
  w_db : db;
  w_log : list event
}.

(** A handler body: it either goes on with a value or has replied. *)
Inductive flow (A : Type) : Type :=
| Next (a : A)
| Reply (r : response).
Arguments Next {A} a.
Arguments Reply {A} r.

Definition handler (A : Type) : Type := world -> flow A * world.

Definition ret {A} (a : A) : handler A := fun w => (Next a, w).

Definition bind {A B} (m : handler A) (k : A -> handler B) : handler B :=
  fun w =>
    match m w with
    | (Next a, w') => k a w'
    | (Reply r, w') => (Reply r, w')
    end.

Definition reply {A} (r : response) : handler A := fun w => (Reply r, w).

Definition emit (e : event) : handler unit :=
  fun w => (Next tt, mkWorld (w_db w) (w_log w ++ [e])%list).

Definition read {A} (f : db -> A) : handler A :=
  fun w => (Next (f (w_db w)), w).

Definition write {A} (f : db -> A * db) : handler A :=
  fun w => let '(a, s') := f (w_db w) in (Next a, mkWorld s' (w_log w)).

(** [if (cond) return reply]. *)
Definition reject_if (cond : bool) (why : reject) : handler unit :=
  if cond then reply (Rejected why) else ret tt.

Declare Scope handler_scope.
Delimit Scope handler_scope with handler.
Notation "x <- m ;; k" := (bind m (fun x => k))
  (at level 61, m at next level, right associativity) : handler_scope.
Notation "m ;;; k" := (bind m (fun _ => k))
  (at level 61, right associativity) : handler_scope.

(** [getMerchantByPid(pid)]. *)
Definition merchant_active (m : merchant) : bool :=
  String.eqb (m_status m) "active" || String.eqb (m_status m) "approved".

Definition getMerchantByPid (pid : string) (s : db) : option merchant :=
  hd_error (filter (fun m => String.eqb (m_pid m) pid && merchant_active m) (merchants s)).

(** [FIND_IN_SET(x, set)] on a comma-separated set. *)
Fixpoint split_commas (s : string) (cur : string) : list string :=
  match s with
  | EmptyString => [cur]
  | String c r =>
      if Ascii.eqb c "," then cur :: split_commas r ""
      else split_commas r (cur ++ String c "")
  end.

Definition find_in_set (x set : string) : bool :=
  existsb (String.eqb x) (split_commas set "").

(** The first row of greatest priority ([ORDER BY priority DESC LIMIT 1]). *)
Fixpoint greatest_priority (rows : list channel) (best : option channel) : option channel :=
  match rows with
  | [] => best
  | r :: rest =>
      greatest_priority rest
        (match best with
         | Some b => if ch_priority b <? ch_priority r then Some r else best
         | None => Some r
         end)
  end.

(** [getChannel(type)]. *)
Definition getChannel (type : string) (s : db) : option channel :=
  greatest_priority
    (filter (fun c => find_in_set type (ch_pay_type c) && (ch_status c =? 1)
                      && match ch_is_deleted c with Some d => d =? 0 | None => true end)
            (channels s)) None.

(** ** Channel selection *)

(** The [payTypes] table and [getPayTypeByName(name)] for the default
    device: every entry is enabled and device-neutral. *)
Definition payTypes : list (Z * string) :=
  [(1, "alipay"); (2, "wxpay"); (3, "qqpay"); (4, "bank");
   (5, "jdpay"); (6, "paypal"); (7, "ecny")].

Definition getPayTypeByName (name : string) : option Z :=
  option_map fst (find (fun pt => String.eqb (snd pt) name) payTypes).

(** The pay group in force: the one asked for, else the default one,
    else the first by id. *)
Definition resolve_pay_group (payGroupId : option Z) (s : db) : option pay_group :=
  let asked :=
    match payGroupId with
    | Some g => if g =? 0 then None
                else hd_error (filter (fun p => pg_id p =? g) (pay_groups s))
    | None => None
    end in
  match asked with
  | Some p => Some p
  | None =>
      match hd_error (filter (fun p => pg_is_default p =? 1) (pay_groups s)) with
      | Some p => Some p
      | None => hd_error (pay_groups s)
      end
  end.

Fixpoint lookup_type_config (id : Z) (config : list (Z * type_config))
  : option type_config :=
  match config with
  | [] => None
  | (k, v) :: rest => if k =? id then Some v else lookup_type_config id rest
  end.

(** [array.find(c => c.id === id)]. *)
Definition find_channel (id : Z) (cs : list channel) : option channel :=
  find (fun c => ch_id c =? id) cs.

(** [c.weight || 1]. *)
Definition weight_or_1 (m : group_member) : Q :=
  match gm_weight m with
  | Some w => if Qeq_bool w 0 then 1%Q else w
  | None => 1%Q
  end.

(** The loop of the weighted draw: the first member at which the running
    remainder drops to zero or below. *)
Fixpoint weighted_pick (random : Q) (members : list group_member) : option Z :=
  match members with
  | [] => None
  | m :: rest =>
      let random' := (random - weight_or_1 m)%Q in
      if Qle_bool random' 0 then Some (gm_id m) else weighted_pick random' rest
  end.

(** [Math.floor(r * n)] for a draw [r]. *)
Definition random_index (r : Q) (n : nat) : nat :=
  Z.to_nat (Qfloor (r * inject_Z (Z.of_nat n))).

(** The result of a selection; [SelectThrows] is a TypeError raised on
    the way (reading [.id] of a missing array element). *)
Inductive selection : Type :=
| Selected (c : channel)
| NoChannel
| SelectThrows.

(** The polling-group branch of [selectChannelFromGroup]; [None] means
    that the code goes on to the direct branch. *)
Definition select_in_polling_group (r : Q) (minAge : value) (gid : Z) (s : db)
  : option selection :=
  match hd_error (filter (fun g => (cg_id g =? gid) && (cg_status g =? 1))
                         (channel_groups s)) with
  | None => None
  | Some group =>
      let groupChannels := cg_channels group in
      match groupChannels with
      | [] => None
      | _ =>
          let channelIds := map gm_id groupChannels in
          let allGroupChannels :=
            filter (fun c => existsb (Z.eqb (ch_id c)) channelIds && (ch_status c =? 1))
                   (channels s) in
          let eligible := eligibleChannels minAge allGroupChannels in
          match eligible with
          | [] => None
          | first :: _ =>
              let filteredGroupChannels :=
                filter (fun m => existsb (fun c => ch_id c =? gm_id m) eligible)
                       groupChannels in
              if cg_mode group =? 2 then
                match match filteredGroupChannels with
                      | m :: _ => find_channel (gm_id m) eligible
                      | [] => None
                      end with
                | Some c => Some (Selected c)
                | None => Some (Selected first)
                end
              else if cg_mode group =? 1 then
                let totalWeight :=
                  fold_left (fun sum m => (sum + weight_or_1 m)%Q) filteredGroupChannels 0%Q in
                let picked :=
                  match weighted_pick (r * totalWeight) filteredGroupChannels with
                  | Some id => if id =? 0 then None else Some id
                  | None => None
                  end in
                match picked, filteredGroupChannels with
                | Some id, _ | None, {| gm_id := id |} :: _ =>
                    match find_channel id eligible with
                    | Some c => Some (Selected c)
                    | None => None
                    end
                | None, [] => Some SelectThrows
                end
              else
                match nth_error filteredGroupChannels
                        (random_index r (List.length filteredGroupChannels)) with
                | Some randomCh =>
                    match find_channel (gm_id randomCh) eligible with
                    | Some c => Some (Selected c)
                    | None => None
                    end
                | None => Some SelectThrows
                end
          end
      end
  end.

(** [selectChannelFromGroup(payType, payGroupId, {minAge})], with the
    value of [Math.random()] as the argument [r]. *)
Definition selectChannelFromGroup (r : Q) (payType : string) (payGroupId : option Z)
    (minAge : value) (s : db) : selection :=
  let payGroup := resolve_pay_group payGroupId s in
  let payTypeId := getPayTypeByName payType in
  let config :=
    match payGroup with
    | Some p => match pg_config p with Some c => c | None => [] end
    | None => []
    end in
  let typeConfig :=
    match payTypeId with
    | Some id => lookup_type_config id config
    | None => None
    end in
  if match typeConfig with
     | Some tc => match channel_mode tc with Some 0 => true | _ => false end
     | None => false
     end
  then NoChannel
  else
    let mode :=
      match typeConfig with
      | Some tc => match channel_mode tc with Some m => m | None => -1 end
      | None => -1
      end in
    let via_group :=
      match typeConfig with
      | Some tc =>
          match group_id tc with
          | Some gid =>
              if (mode =? -3) && negb (gid =? 0)
              then select_in_polling_group r minAge gid s
              else None
          | None => None
          end
      | None => None
      end in
    match via_group with
    | Some result => result
    | None =>
        let channels :=
          filter (fun c => find_in_set payType (ch_pay_type c) && (ch_status c =? 1))
                 (channels s) in
        match filteredChannels minAge channels with
        | [] => NoChannel
        | [only] => Selected only
        | (first :: _) as filtered =>
            if 0 <? mode then
              match find_channel mode filtered with
              | Some specified => Selected specified
              | None => Selected first
              end
            else if mode =? -5 then Selected first
            else
              match nth_error filtered (random_index r (List.length filtered)) with
              | Some c => Selected c
              | None => NoChannel
              end
        end
    end.

Local Open Scope handler_scope.

Section Handlers.

(** Request verification of utils/payment, over the signed parameters,
    the signature and the key. *)
Variable verifySignRSA : list (string * string) -> string -> string -> bool.
Variable verifySignMD5 : list (string * string) -> string -> string -> bool.

(** [validateCallbackDomain(merchantId, notifyUrl)]: the message of a
    refusal, if any. *)
Variable validateCallbackDomain : Z -> string -> db -> option string.

(** [getMerchantFeeRate(merchant, payType)]; [None] is a rate that is
    not a number. *)
Variable getMerchantFeeRate : merchant -> string -> db -> option Q.

(** The channel named by a [channel_id] parameter, as the query of
    [/create] and the query of the unified handlers find it. *)
Variable create_channel_by_id : string -> db -> option channel.
Variable unified_channel_by_id : string -> db -> option channel.

(** [if (p) signParams.k = p]. *)
Definition opt_param (k : string) (p : option string) : list (string * string) :=
  if present p then [(k, text p)] else [].

(** [moneyFloat < limit] and [moneyFloat > limit]; false on NaN. *)
Definition num_ltb (a : number) (b : Q) : bool :=
  match a with
  | NaN => false
  | Inf neg => neg
  | Fin x => negb (Qle_bool b x)
  end.

Definition num_gtb (a : number) (b : Q) : bool :=
  match a with
  | NaN => false
  | Inf neg => negb neg
  | Fin x => negb (Qle_bool x b)
  end.

(** The amount checks, on the [min_amount] and [max_amount] columns the
    handler's query has selected ([None] when it has not). *)
Definition check_limits (min_amount max_amount : option Q) (moneyFloat : number)
  : handler unit :=
  reject_if (match min_amount with
             | Some lo => negb (Qeq_bool lo 0) && num_ltb moneyFloat lo
             | None => false
             end) AmountTooSmall ;;;
  reject_if (match max_amount with
             | Some hi => negb (Qeq_bool hi 0) && num_gtb moneyFloat hi
             | None => false
             end) AmountTooLarge.

(** An amount that is not a finite number cannot be written to the
    store: the query throws and the handler ends in its [catch] branch. *)
Definition storable (moneyFloat : number) : handler Q :=
  match moneyFloat with
  | Fin q => ret q
  | _ => reply (Rejected SystemError)
  end.

Definition extendParams (req : request) : extend_params :=
  mkExtendParams (q_auth_code req) (q_sub_openid req) (q_sub_appid req) (q_param req).

Definition fee_payer_of (m : merchant) : string :=
  opt_or_default (m_fee_payer m) "merchant".

Definition cert_of (c : cert_outcome) : option cert_info :=
  match c with CertInfo i => Some i | _ => None end.

(** The parameters [/create] insists on. *)
Definition create_params_present (req : request) : bool :=
  present (q_pid req) && present (q_type req)
  && present (q_out_trade_no req) && present (q_notify_url req)
  && present (q_name req) && present (q_money req)
  && present (q_sign req) && present (q_timestamp req).

(** The parameters [handleSubmit] and [handleMapi] insist on. *)
Definition unified_params_present (req : request) : bool :=
  present (q_pid req) && present (q_out_trade_no req)
  && present (q_notify_url req) && present (q_name req)
  && present (q_money req) && present (q_sign req).

(** [sign_type || (isV2 ? 'RSA' : 'MD5')]. *)
Definition effectiveSignType (req : request) : string :=
  if present (q_sign_type req) then text (q_sign_type req)
  else if present (q_timestamp req) then "RSA" else "MD5".

(** The parameters a [/create] request is signed over. *)
Definition create_signParams (req : request) : list (string * string) :=
  ([("pid", text (q_pid req)); ("type", text (q_type req));
    ("out_trade_no", text (q_out_trade_no req)); ("notify_url", text (q_notify_url req));
    ("name", text (q_name req)); ("money", text (q_money req));
    ("timestamp", text (q_timestamp req))]
   ++ opt_param "return_url" (q_return_url req)
   ++ opt_param "method" (q_method req)
   ++ opt_param "device" (q_device req)
   ++ opt_param "clientip" (q_clientip req)
   ++ opt_param "auth_code" (q_auth_code req)
   ++ opt_param "sub_openid" (q_sub_openid req)
   ++ opt_param "sub_appid" (q_sub_appid req)
   ++ opt_param "channel_id" (q_channel_id req)
   ++ opt_param "param" (q_param req))%list.

(** The signature check of [/create]: RSA when the merchant has a public
    key, MD5 with the merchant's api_key otherwise. *)
Definition create_verify (req : request) (merchant : merchant) : handler bool :=
  if present (m_rsa_public_key merchant)
  then emit (EvVerifyRSA (text (m_rsa_public_key merchant))) ;;;
       ret (verifySignRSA (create_signParams req) (text (q_sign req))
              (text (m_rsa_public_key merchant)))
  else emit (EvVerifyMD5 (m_api_key merchant)) ;;;
       ret (verifySignMD5 (create_signParams req) (text (q_sign req)) (m_api_key merchant)).

(** The signature check of [handleSubmit] and [handleMapi], by the
    effective sign type. *)
Definition unified_verify (req : request) (signParams : list (string * string))
    (merchant : merchant) : handler bool :=
  if String.eqb (effectiveSignType req) "RSA"
  then reject_if (negb (present (m_rsa_public_key merchant))) RsaKeyMissing ;;;
       emit (EvVerifyRSA (text (m_rsa_public_key merchant))) ;;;
       ret (verifySignRSA signParams (text (q_sign req)) (text (m_rsa_public_key merchant)))
  else emit (EvVerifyMD5 (m_api_key merchant)) ;;;
       ret (verifySignMD5 signParams (text (q_sign req)) (m_api_key merchant)).

(** [router.all('/create')]. *)
Definition create (date_now : Z) (fresh_trade_no : string) (req : request)
  : handler response :=
  reject_if (negb (create_params_present req)) MissingParams ;;;
  reject_if (negb (validateTimestamp date_now (as_value (q_timestamp req))))
            TimestampExpired ;;;
  let certInfo := buildCertInfo (q_cert_no req) (q_cert_name req) (q_min_age req) in
  match certInfo with CertError why => reply (Rejected (CertInfoInvalid why)) | _ => ret tt end ;;;
  emit (EvMerchantLookup (text (q_pid req))) ;;;
  found <- read (getMerchantByPid (text (q_pid req))) ;;
  match found with
  | None => reply (Rejected MerchantNotFound)
  | Some merchant =>
      emit (EvDomainCheck (text (q_notify_url req))) ;;;
      domainCheck <- read (validateCallbackDomain (m_user_id merchant)
                                                  (text (q_notify_url req))) ;;
      match domainCheck with
      | Some msg => reply (Rejected (DomainRejected msg))
      | None => ret tt
      end ;;;
      signValid <- create_verify req merchant ;;
      reject_if (negb signValid) SignatureInvalid ;;;
      emit EvChannelLookup ;;;
      channel <- read (if present (q_channel_id req)
                       then create_channel_by_id (text (q_channel_id req))
                       else getChannel (text (q_type req))) ;;
      match channel with
      | None => reply (Rejected ChannelUnavailable)
      | Some channel =>
          let moneyFloat := parseFloat_string (text (q_money req)) in
          (if present (q_channel_id req)
           then check_limits None None moneyFloat
           else check_limits (Some (ch_min_money channel)) (Some (ch_max_money channel))
                  moneyFloat) ;;;
          emit EvFeeRate ;;;
          feeRate <- read (getMerchantFeeRate merchant (text (q_type req))) ;;
          moneyFloat <- storable moneyFloat ;;
          let data :=
            mkOrderData (m_user_id merchant) (Some (ch_id channel)) fresh_trade_no
              (text (q_out_trade_no req)) (text (q_type req)) (text (q_name req))
              moneyFloat
              (if present (q_clientip req) then text (q_clientip req) else q_remote_ip req)
              (if present (q_device req) then text (q_device req) else "pc")
              (text (q_notify_url req)) (text (q_return_url req))
              feeRate (fee_payer_of merchant) None None (cert_of certInfo) in
          emit (EvCreateOrder data) ;;;
          orderResult <- write (createOrder (date_now / 1000) data) ;;
          (if present (q_auth_code req) || present (q_sub_openid req)
              || present (q_sub_appid req) || present (q_param req)
           then write (fun s => (tt, update_order_where_id (orderId orderResult)
                                       (set_param (extendParams req)) s))
           else ret tt) ;;;
          let payType :=
            match text (q_method req) with
            | "scan" => "qrcode"
            | "jsapi" => "jsapi"
            | "app" => "app"
            | "applet" => "wxapp"
            | _ => "jump"
            end in
          ret (Created (res_tradeNo orderResult) payType)
      end
  end.

(** The part common to [handleSubmit] and [handleMapi]: everything up to
    and including [createOrder].  [signParams] is what the caller signs. *)
Definition unified (date_now : Z) (fresh_trade_no : string) (req : request)
    (signParams : list (string * string)) (clientIp device : string)
  : handler create_result :=
  let isV2 := present (q_timestamp req) in
  reject_if (negb (unified_params_present req)) MissingParams ;;;
  reject_if (isV2 && negb (validateTimestamp date_now (as_value (q_timestamp req))))
            TimestampExpired ;;;
  let certInfo := buildCertInfo (q_cert_no req) (q_cert_name req) (q_min_age req) in
  match certInfo with CertError why => reply (Rejected (CertInfoInvalid why)) | _ => ret tt end ;;;
  emit (EvMerchantLookup (text (q_pid req))) ;;;
  found <- read (getMerchantByPid (text (q_pid req))) ;;
  match found with
  | None => reply (Rejected MerchantNotFound)
  | Some merchant =>
      signValid <- unified_verify req signParams merchant ;;
      reject_if (negb signValid) SignatureInvalid ;;;
      channel <-
        (if present (q_type req)
         then emit EvChannelLookup ;;;
              channel <- read (if present (q_channel_id req)
                               then unified_channel_by_id (text (q_channel_id req))
                               else getChannel (text (q_type req))) ;;
              match channel with
              | None => reply (Rejected ChannelUnavailable)
              | Some c =>
                  check_limits (Some (ch_min_money c)) (Some (ch_max_money c))
                    (parseFloat_string (text (q_money req))) ;;;
                  ret (Some c)
              end
         else ret None) ;;
      feeRate <-
        (if present (q_type req)
         then emit EvFeeRate ;;; read (getMerchantFeeRate merchant (text (q_type req)))
         else ret (Some 0%Q)) ;;
      moneyFloat <- storable (parseFloat_string (text (q_money req))) ;;
      let data :=
        mkOrderData (m_user_id merchant) (option_map ch_id channel) fresh_trade_no
          (text (q_out_trade_no req)) (text (q_type req)) (text (q_name req))
          moneyFloat clientIp device
          (text (q_notify_url req)) (text (q_return_url req))
          feeRate (fee_payer_of merchant) (Some "normal") None (cert_of certInfo) in
      emit (EvCreateOrder data) ;;;
      write (createOrder (date_now / 1000) data)
  end.

(** [handleSubmit]. *)
Definition handleSubmit (date_now : Z) (fresh_trade_no : string) (req : request)
  : handler response :=
  let signParams :=
    ([("pid", text (q_pid req)); ("out_trade_no", text (q_out_trade_no req));
     ("notify_url", text (q_notify_url req)); ("name", text (q_name req));
     ("money", text (q_money req))]
    ++ opt_param "type" (q_type req)
    ++ opt_param "return_url" (q_return_url req)
    ++ opt_param "timestamp" (q_timestamp req)
    ++ opt_param "sitename" (q_sitename req)
    ++ opt_param "param" (q_param req)
    ++ opt_param "channel_id" (q_channel_id req))%list in
  orderResult <- unified date_now fresh_trade_no req signParams (q_remote_ip req) "pc" ;;
  ret (RedirectToCashier (res_tradeNo orderResult)).

(** [handleMapi]. *)
Definition handleMapi (date_now : Z) (fresh_trade_no : string) (req : request)
  : handler response :=
  let signParams :=
    ([("pid", text (q_pid req)); ("out_trade_no", text (q_out_trade_no req));
     ("notify_url", text (q_notify_url req)); ("name", text (q_name req));
     ("money", text (q_money req))]
    ++ opt_param "type" (q_type req)
    ++ opt_param "return_url" (q_return_url req)
    ++ opt_param "timestamp" (q_timestamp req)
    ++ opt_param "device" (q_device req)
    ++ opt_param "clientip" (q_clientip req)
    ++ opt_param "method" (q_method req)
    ++ opt_param "sitename" (q_sitename req)
    ++ opt_param "param" (q_param req)
    ++ opt_param "channel_id" (q_channel_id req)
    ++ opt_param "sub_openid" (q_sub_openid req)
    ++ opt_param "sub_appid" (q_sub_appid req)
    ++ opt_param "auth_code" (q_auth_code req))%list in
  orderResult <- unified date_now fresh_trade_no req signParams
                   (if present (q_clientip req) then text (q_clientip req) else q_remote_ip req)
                   (if present (q_device req) then text (q_device req) else "pc") ;;
  (if present (q_sub_openid req) || present (q_sub_appid req)
      || present (q_auth_code req) || present (q_param req)
   then write (fun s =>
          (tt, set_orders
                 (map (fun o => if String.eqb (o_trade_no o) (res_tradeNo orderResult)
                                then set_param (extendParams req) o else o)
                      (orders s)) s))
   else ret tt) ;;;
  let payType :=
    match text (q_method req) with
    | "scan" => "qrcode"
    | "jsapi" => "jsapi"
    | "app" => "app"
    | _ => "jump"
    end in
  ret (MapiReply (res_tradeNo orderResult) payType).

(** ** The cashier routes *)

(** [getMerchantFeeRate] on the three columns that [/dopay] selects
    ([None]: no merchant row, the empty object). *)
Variable getMerchantFeeRate_dopay : option merchant -> string -> db -> option Q.

Inductive cashier_error : Type :=
| NoTradeNo
| NoPayTypeGiven
| OrderNotFound
| OrderStatusInvalid
| ChannelGone
| NoPayType
| NoEligibleChannel
| CashierThrows.

Inductive dopay_outcome : Type :=
| DopayRejected (e : cashier_error)
| Dispatch (o : order) (channelConfig : channel) (finalPayType : string).

(** The age handed to the selection: [certInfo.min_age] when it is
    truthy. *)
Definition merchantMinAge (o : order) : value :=
  match o_cert_info o with
  | Some ci =>
      match min_age ci with
      | Some a => if a =? 0 then VNull else VNum (Fin (inject_Z a))
      | None => VNull
      end
  | None => VNull
  end.

(** [router.post('/dopay')] up to the call of the plugin, served alone:
    the statements it awaits run with no statement of another request in
    between; nothing after that point writes to [orders].
    [Statements.statement] takes the statements one at a time. *)
Definition dopay (r : Q) (trade_no pay_type : option string) (group_id : option Z)
    (s : db) : dopay_outcome * db :=
  if negb (present trade_no) then (DopayRejected NoTradeNo, s)
  else
    match orders_by_trade_no (text trade_no) s with
    | [] => (DopayRejected OrderNotFound, s)
    | order :: _ =>
        if negb (o_status order =? 0) then (DopayRejected OrderStatusInvalid, s)
        else if channel_locked order then
          match channels_by_id (match o_channel_id order with Some c => c | None => 0 end) s with
          | [] => (DopayRejected ChannelGone, s)
          | channelConfig :: _ => (Dispatch order channelConfig (o_pay_type order), s)
          end
        else
          let finalPayType := if present pay_type then text pay_type else o_pay_type order in
          if String.eqb finalPayType "" then (DopayRejected NoPayType, s)
          else
            match selectChannelFromGroup r finalPayType group_id (merchantMinAge order) s with
            | SelectThrows => (DopayRejected CashierThrows, s)
            | NoChannel => (DopayRejected NoEligibleChannel, s)
            | Selected channelConfig =>
                let merchant := hd_error (merchants_by_user_id (o_merchant_id order) s) in
                let feeRate := getMerchantFeeRate_dopay merchant finalPayType s in
                let feePayer :=
                  match merchant with
                  | Some m => fee_payer_of m
                  | None => "merchant"
                  end in
                let moneyFloat := o_money order in
                let fee := feeMoney moneyFloat feeRate in
                let real := realMoney moneyFloat fee feePayer in
                let s' :=
                  update_order_where_id (o_id order)
                    (lock_update (ch_id channelConfig) finalPayType
                       (ch_plugin_name channelConfig) fee real feePayer) s in
                (Dispatch (local_after_lock (ch_id channelConfig) real order)
                          channelConfig finalPayType, s')
            end
    end.

(** [router.post('/select_channel')] served alone, its SELECT and its
    UPDATE with no statement of another request in between; [None] is the
    success reply.  [Statements.statement] takes the two one at a time. *)
Definition select_channel (trade_no pay_type : option string) (s : db)
  : option cashier_error * db :=
  if negb (present trade_no) then (Some NoTradeNo, s)
  else if negb (present pay_type) then (Some NoPayTypeGiven, s)
  else
    match orders_by_trade_no (text trade_no) s with
    | [] => (Some OrderNotFound, s)
    | order :: _ =>
        if negb (o_status order =? 0) then (Some OrderStatusInvalid, s)
        else (None, update_order_where_id (o_id order) (set_pay_type (text pay_type)) s)
    end.

End Handlers.

(** Running a handler from a store with an empty log. *)
Definition run {A} (h : handler A) (s : db) : flow A * world :=
  h (mkWorld s []).

(** A request that has passed the checks made before the signature. *)
Definition reaches_signature_check (date_now : Z) (req : request) (s : db) (m : merchant)
  : Prop :=
  unified_params_present req = true /\
  (present (q_timestamp req) = true ->
   validateTimestamp date_now (as_value (q_timestamp req)) = true) /\
  (forall why, buildCertInfo (q_cert_no req) (q_cert_name req) (q_min_age req)
               <> CertError why) /\
  getMerchantByPid (text (q_pid req)) s = Some m.

End Gateway.

(* ================================================================== *)
(** * Part VI.  Callback and settlement pipeline                        *)
(* ================================================================== *)

Module Settlement.
Import JS Fee Channel Store.

(** What a plugin's [notify] or [returnCallback] answers. *)
Record verdict : Type := mkVerdict {
  v_success : bool;
  v_api_trade_no : option string;
  v_buyer : option string;
  v_msg : option string
}.

Inductive plugin_result : Type :=
| NoPlugin                  (* no plugin of that name, or it lacks the method *)
| PluginThrows
| Answer (v : verdict).

Inductive transport : Type := ViaNotify | ViaReturn.

(** One inbound callback request, with what the outside world answers
    while it is served: the plugin on the raw parameters, the merchant's
    server on the forwarded notification, and the clock. *)
Record delivery : Type := mkDelivery {
  d_transport : transport;
  d_trade_no : string;
  d_plugin : channel -> order -> plugin_result;
  d_merchant_ack : bool;
  d_now : Z
}.

Inductive reply : Type :=
| Ack (ok : bool)           (* notify: the success or failure acknowledgement *)
| ErrorPage
| RedirectToMerchant
| SuccessPage.

(** Effects that leave the process. *)
Inductive out_event : Type :=
| TelegramPayment (order_id : Z)
| MerchantNotify (order_id : Z) (notify_url : string).

(** The state shared by the requests in flight: the store, the row locks
    on [orders] held by open transactions (order id, holder), and three
    records kept for the statements below: every balance credit applied
    (merchant, amount), every order row moved from pending to paid, and
    every outbound notification. *)
Record shared : Type := mkShared {
  store : db;
  row_locks : list (Z * nat);
  ledger : list (Z * Q);
  transitions : list Z;
  outbox : list out_event
}.

(** Where a request stands: the statement it executes next, with the
    local variables that are live there. *)
Inductive pc : Type :=
| AtStart
| AtChannel (order : order)
| AtPlugin (order : order) (channel : channel)
| AtMarkPaid (order : order) (v : verdict)
| AtReread (order : order)
| AtMerchant (order : order) (updated : option Store.order)
| AtLock (order updated : order) (m : merchant) (settleAmount : Q)
| AtCredit (order updated : order) (m : merchant) (settleAmount : Q)
| AtFlag (order updated : order) (m : merchant) (settleAmount : Q)
| AtCommit (order updated : order) (m : merchant) (pending : option Q)
| AtOutbound (order updated : order) (m : merchant)
| AtNotifyStatus (order updated : order) (success : bool)
| AtRespond (order : order)
| Finished (r : reply).

(** No other request holds the lock on order row [k]. *)
Definition lock_free (k : Z) (me : nat) (locks : list (Z * nat)) : bool :=
  forallb (fun l => negb (fst l =? k) || (snd l =? me)%nat) locks.

Definition release (me : nat) (locks : list (Z * nat)) : list (Z * nat) :=
  filter (fun l => negb (snd l =? me)%nat) locks.

Definition with_store (s : db) (h : shared) : shared :=
  mkShared s (row_locks h) (ledger h) (transitions h) (outbox h).

(** The reply when nothing can be verified: [res.send('fail')] on the
    notify transport. *)
Definition answer_failure (d : delivery) : pc :=
  match d_transport d with
  | ViaNotify => Finished (Ack false)
  | ViaReturn => Finished ErrorPage
  end.

(** [parseFloat(order.money) - parseFloat(order.fee_money || 0)], the
    difference of the two columns, taken as the rational it stands for. *)
Definition settleAmount_of (o : order) : Q := (o_money o - o_fee_money o)%Q.

(** One statement of request [me].  [None]: the request has finished, or
    its next statement waits for a row lock. *)
Definition step (me : nat) (d : delivery) (p : pc) (h : shared) : option (pc * shared) :=
  match p with
  | AtStart =>
      (* SELECT * FROM orders WHERE trade_no = ? *)
      match orders_by_trade_no (d_trade_no d) (store h) with
      | [] => Some (answer_failure d, h)
      | order :: _ =>
          match d_transport d with
          | ViaNotify =>
              if channel_locked order then Some (AtChannel order, h)
              else Some (Finished (Ack false), h)
          | ViaReturn =>
              if channel_locked order then Some (AtChannel order, h)
              else Some (AtRespond order, h)
          end
      end
  | AtChannel order =>
      (* SELECT * FROM provider_channels WHERE id = ? *)
      match channels_by_id (match o_channel_id order with Some c => c | None => 0 end)
                           (store h) with
      | [] =>
          match d_transport d with
          | ViaNotify => Some (Finished (Ack false), h)
          | ViaReturn => Some (AtRespond order, h)
          end
      | channel :: _ => Some (AtPlugin order channel, h)
      end
  | AtPlugin order channel =>
      (* plugin.notify / plugin.returnCallback *)
      match d_plugin d channel order, d_transport d with
      | NoPlugin, ViaNotify => Some (Finished (Ack false), h)
      | NoPlugin, ViaReturn => Some (AtRespond order, h)
      | PluginThrows, ViaNotify => Some (Finished (Ack false), h)
      | PluginThrows, ViaReturn => Some (Finished ErrorPage, h)
      | Answer v, tr =>
          if v_success v then
            if o_status order =? 0 then Some (AtMarkPaid order v, h)
            else Some (AtRespond order, h)
          else
            match tr with
            | ViaNotify => Some (Finished (Ack false), h)
            | ViaReturn =>
                if present (v_msg v) then Some (Finished ErrorPage, h)
                else Some (AtRespond order, h)
            end
      end
  | AtMarkPaid order v =>
      (* UPDATE orders SET status = 1, paid_at = NOW(), ... WHERE id = ? *)
      if lock_free (o_id order) me (row_locks h) then
        let moved :=
          map o_id (filter (fun o => o_status o =? 0) (orders_by_id (o_id order) (store h))) in
        Some (AtReread order,
              mkShared
                (update_order_where_id (o_id order)
                   (paid_update (d_now d) (nonempty (v_api_trade_no v))
                      (nonempty (v_buyer v)))
                   (store h))
                (row_locks h) (ledger h) (transitions h ++ moved)%list (outbox h))
      else None
  | AtReread order =>
      (* SELECT * FROM orders WHERE id = ? *)
      Some (AtMerchant order (hd_error (orders_by_id (o_id order) (store h))), h)
  | AtMerchant order None =>
      (* sendDownstreamNotify(undefined): the TypeError is caught inside *)
      Some (AtRespond order, h)
  | AtMerchant order (Some updated) =>
      (* SELECT api_key, pid FROM merchants WHERE user_id = ? *)
      match merchants_by_user_id (o_merchant_id updated) (store h) with
      | [] => Some (AtRespond order, h)
      | m :: _ =>
          let settleAmount := settleAmount_of updated in
          if Qle_bool settleAmount 0 then Some (AtOutbound order updated m, h)
          else Some (AtLock order updated m settleAmount, h)
      end
  | AtLock order updated m settleAmount =>
      (* beginTransaction; SELECT balance_added FROM orders WHERE id = ? FOR UPDATE *)
      if lock_free (o_id updated) me (row_locks h) then
        match orders_by_id (o_id updated) (store h) with
        | [] => Some (AtCommit order updated m None, h)
        | orderCheck :: _ =>
            let h' := mkShared (store h) ((o_id updated, me) :: row_locks h)
                        (ledger h) (transitions h) (outbox h) in
            if o_balance_added orderCheck
            then Some (AtCommit order updated m None, h')
            else Some (AtCredit order updated m settleAmount, h')
        end
      else None
  | AtCredit order updated m settleAmount =>
      (* UPDATE merchants SET balance = balance + ? WHERE user_id = ? *)
      Some (AtFlag order updated m settleAmount, h)
  | AtFlag order updated m settleAmount =>
      (* UPDATE orders SET balance_added = 1 WHERE id = ? *)
      Some (AtCommit order updated m (Some settleAmount), h)
  | AtCommit order updated m pending =>
      (* commit: the writes of the transaction become visible, the lock goes *)
      let h' :=
        match pending with
        | Some amount =>
            mkShared
              (update_order_where_id (o_id updated) balance_added_update
                 (credit_merchant (o_merchant_id updated) amount (store h)))
              (row_locks h)
              (ledger h ++ [(o_merchant_id updated, amount)])%list
              (transitions h) (outbox h)
        | None => h
        end in
      Some (AtOutbound order updated m,
            mkShared (store h') (release me (row_locks h')) (ledger h')
                     (transitions h') (outbox h'))
  | AtOutbound order updated m =>
      (* telegramService.notifyPayment; then sendNotify unless there is no url *)
      let out := (outbox h ++ [TelegramPayment (o_id updated)])%list in
      if String.eqb (o_notify_url updated) "" then
        Some (AtRespond order,
              mkShared (store h) (row_locks h) (ledger h) (transitions h) out)
      else
        Some (AtNotifyStatus order updated (d_merchant_ack d),
              mkShared (store h) (row_locks h) (ledger h) (transitions h)
                (out ++ [MerchantNotify (o_id updated) (o_notify_url updated)])%list)
  | AtNotifyStatus order updated success =>
      (* UPDATE orders SET notify_status = ?, notify_count = notify_count + 1, ... *)
      if lock_free (o_id updated) me (row_locks h) then
        Some (AtRespond order,
              with_store (update_order_where_id (o_id updated)
                            (notify_update (d_now d) success) (store h)) h)
      else None
  | AtRespond order =>
      match d_transport d with
      | ViaNotify => Some (Finished (Ack true), h)
      | ViaReturn =>
          (* SELECT api_key, pid FROM merchants WHERE user_id = ? *)
          if String.eqb (o_return_url order) "" then Some (Finished SuccessPage, h)
          else Some (Finished RedirectToMerchant, h)
      end
  | Finished _ => None
  end.

(** The requests in flight with the state they share. *)
Record config : Type := mkConfig {
  shared_state : shared;
  procs : list pc
}.

Fixpoint set_nth {A} (i : nat) (x : A) (l : list A) : list A :=
  match l, i with
  | [], _ => []
  | _ :: t, O => x :: t
  | a :: t, S j => a :: set_nth j x t
  end.

(** Any one request executes its next statement. *)
Inductive sys_step (ds : list delivery) : config -> config -> Prop :=
| SysStep (i : nat) (d : delivery) (p p' : pc) (c : config) (h' : shared) :
    nth_error ds i = Some d ->
    nth_error (procs c) i = Some p ->
    step i d p (shared_state c) = Some (p', h') ->
    sys_step ds c (mkConfig h' (set_nth i p' (procs c))).

Inductive sys_steps (ds : list delivery) : config -> config -> Prop :=
| StepsRefl (c : config) : sys_steps ds c c
| StepsCons (c1 c2 c3 : config) :
    sys_step ds c1 c2 -> sys_steps ds c2 c3 -> sys_steps ds c1 c3.

Definition is_finished (p : pc) : bool :=
  match p with Finished _ => true | _ => false end.

Definition all_finished (c : config) : bool := forallb is_finished (procs c).

(** The requests as they arrive, on a quiet store. *)
Definition initial (s : db) (ds : list delivery) : config :=
  mkConfig (mkShared s [] [] [] []) (map (fun _ => AtStart) ds).

(** One request served alone, statement after statement. *)
Fixpoint run_alone (fuel : nat) (me : nat) (d : delivery) (p : pc) (h : shared)
  : pc * shared :=
  match fuel with
  | O => (p, h)
  | S n =>
      match step me d p h with
      | Some (p', h') => run_alone n me d p' h'
      | None => (p, h)
      end
  end.

(** The statements of [sendDownstreamNotify] run by one request, up to
    the point where the function returns to its caller. *)
Fixpoint run_settlement (fuel : nat) (me : nat) (d : delivery) (p : pc) (h : shared)
  : pc * shared :=
  match p with
  | AtRespond _ | Finished _ => (p, h)
  | _ =>
      match fuel with
      | O => (p, h)
      | S n =>
          match step me d p h with
          | Some (p', h') => run_settlement n me d p' h'
          | None => (p, h)
          end
      end
  end.

(** [sendDownstreamNotify(order)] called by request [me] serving [d],
    whose own copy of the order row is [caller_order]. *)
Definition sendDownstreamNotify (me : nat) (d : delivery) (caller_order order : order)
    (h : shared) : pc * shared :=
  run_settlement 7 me d (AtMerchant caller_order (Some order)) h.

(** The columns of an order row that no statement of the pipeline
    writes. *)
Definition core (o : order)
  : Z * Z * option Z * string * Q * Q * string * string :=
  (o_id o, o_merchant_id o, o_channel_id o, o_trade_no o,
   o_money o, o_fee_money o, o_notify_url o, o_return_url o).

(** The request is inside its balance transaction. *)
Definition in_txn (p : pc) : bool :=
  match p with
  | AtCredit _ _ _ _ | AtFlag _ _ _ _ | AtCommit _ _ _ _ => true
  | _ => false
  end.

(** The request has marked the order paid and has not yet been through
    the balance transaction. *)
Definition owes (p : pc) : bool :=
  match p with
  | AtReread _ | AtMerchant _ _ | AtLock _ _ _ _
  | AtCredit _ _ _ _ | AtFlag _ _ _ _ | AtCommit _ _ _ (Some _) => true
  | _ => false
  end.

(** The request is past the verification by the plugin. *)
Definition passed (p : pc) : bool :=
  match p with
  | AtStart | AtChannel _ | AtPlugin _ _ | AtMarkPaid _ _ => false
  | _ => true
  end.

(** The number of statements a request has at most left. *)
Definition rank (p : pc) : nat :=
  match p with
  | AtStart => 13
  | AtChannel _ => 12
  | AtPlugin _ _ => 11
  | AtMarkPaid _ _ => 10
  | AtReread _ => 9
  | AtMerchant _ _ => 8
  | AtLock _ _ _ _ => 7
  | AtCredit _ _ _ _ => 6
  | AtFlag _ _ _ _ => 5
  | AtCommit _ _ _ _ => 4
  | AtOutbound _ _ _ => 3
  | AtNotifyStatus _ _ _ => 2
  | AtRespond _ => 1
  | Finished _ => 0
  end%nat.

Definition total_rank (c : config) : nat :=
  fold_right (fun p n => (rank p + n)%nat) 0%nat (procs c).

(** The plugin accepts the callback of this delivery, whatever the
    state of the order row it is shown. *)
Definition verifies (d : delivery) : Prop :=
  forall c o, exists v, d_plugin d c o = Answer v /\ v_success v = true.

(** ** The invariant of concurrent deliveries

    The facts that hold in every state reached by the requests [ds]
    serving the order row [o0] of merchant [m0], from the store [s0]. *)
Section Invariant.
Variable ds : list delivery.
Variable s0 : db.
Variable o0 : order.
Variable m0 : merchant.

(** The store as the requests have left it: one row for the order, one
    for the merchant, and the books in step with the two flags. *)
Record data_ok (h : shared) (row : order) (m : merchant) : Prop := mkDataOk {
  by_trade : orders_by_trade_no (o_trade_no o0) (store h) = [row];
  by_id : orders_by_id (o_id o0) (store h) = [row];
  row_core : core row = core o0;
  row_status : o_status row = 0 \/ o_status row = 1;
  by_user : merchants_by_user_id (o_merchant_id o0) (store h) = [m];
  chans : channels (store h) = channels s0;
  bal : (m_balance m
         == m_balance m0 + (if o_balance_added row then settleAmount_of o0 else 0))%Q;
  led : ledger h
        = if o_balance_added row then [(o_merchant_id o0, settleAmount_of o0)] else [];
  trans : transitions h = if o_status row =? 1 then [o_id o0] else []
}.

(** What a request knows at each of its statements. *)
Definition local_ok (row : order) (p : pc) : Prop :=
  match p with
  | AtChannel o | AtPlugin o _ =>
      core o = core o0 /\ (o_status o = 0 \/ o_status row = 1)
  | AtMarkPaid o _ => core o = core o0
  | AtReread o => core o = core o0 /\ o_status row = 1
  | AtMerchant _ upd =>
      o_status row = 1 /\ exists x, upd = Some x /\ core x = core o0
  | AtLock _ x _ s => core x = core o0 /\ o_status row = 1 /\ s = settleAmount_of o0
  | AtCredit _ x _ s | AtFlag _ x _ s =>
      core x = core o0 /\ o_status row = 1 /\ s = settleAmount_of o0 /\
      o_balance_added row = false
  | AtCommit _ x _ pending =>
      core x = core o0 /\ o_status row = 1 /\
      match pending with
      | Some a => a = settleAmount_of o0 /\ o_balance_added row = false
      | None => o_balance_added row = true
      end
  | AtOutbound _ x _ | AtNotifyStatus _ x _ => core x = core o0 /\ o_status row = 1
  | AtStart | AtRespond _ | Finished _ => True
  end.

(** The row lock is held by the one request that is inside its
    transaction, if any. *)
Definition locks_ok (h : shared) (ps : list pc) : Prop :=
  (forall i p, nth_error ps i = Some p -> in_txn p = true ->
               row_locks h = [(o_id o0, i)]) /\
  (row_locks h = [] \/
   exists i p, row_locks h = [(o_id o0, i)] /\ nth_error ps i = Some p /\ in_txn p = true).

(** The invariant, with the two rows it speaks of: the books are in
    order, every request knows what it should, the lock is where it should
    be, a paid order is credited or some request is still going to credit
    it, and a request whose delivery the plugin accepts has left the order
    paid once it is past the paid UPDATE. *)
Definition Inv_at (h : shared) (ps : list pc) (row : order) (m : merchant) : Prop :=
  data_ok h row m /\
  (forall i p, nth_error ps i = Some p -> local_ok row p) /\
  locks_ok h ps /\
  (o_status row = 1 ->
   o_balance_added row = true \/ exists i p, nth_error ps i = Some p /\ owes p = true) /\
  (forall i d p, nth_error ds i = Some d -> verifies d -> nth_error ps i = Some p ->
                 passed p = true -> o_status row = 1) /\
  List.length ps = List.length ds.

Definition Inv (c : config) : Prop :=
  exists row m, Inv_at (shared_state c) (procs c) row m.

End Invariant.

End Settlement.

(* ================================================================== *)
(** * Part VII.  Scenarios                                             *)
(* ================================================================== *)

(** Concrete stores and requests on which the statements below are
    evaluated. *)
Module Scenarios.
Import JS Fee Codec Channel Store Gateway Settlement.

(** A store with two channels and a merchant, and two submissions of
    the same out-trade-no: the first without a pay type, the second with
    pay type wxpay on channel 2. *)
Definition lock_demo_store : db :=
  mkDb []
       [mkMerchant 7 "100000000001" "active" "key" None None None None 0]
       [mkChannel 1 "Alipay A" "alipay_plugin" "alipay" 1 0 0 0 None CfgNull;
        mkChannel 2 "Wechat B" "wxpay_plugin" "wxpay" 1 0 0 0 None CfgNull]
       [] [] 1.

Definition lock_demo_first : order_data :=
  mkOrderData 7 None "T1" "A-100" "" "book" 10 "" "pc" "https://m/notify" ""
    (Some 0%Q) "merchant" (Some "normal") None None.

Definition lock_demo_again : order_data :=
  mkOrderData 7 (Some 2) "T2" "A-100" "wxpay" "book" 10 "" "pc" "https://m/notify" ""
    (Some 0%Q) "merchant" (Some "normal") None None.

(** A merchant with an api_key and no RSA key, and one alipay channel. *)
Definition demo_store : db :=
  mkDb []
       [mkMerchant 7 "100000000001" "active" "key" None None None None 0]
       [mkChannel 1 "Alipay A" "alipay_plugin" "alipay" 1 0 1 10000 None CfgNull]
       [] [] 1.

(** A new-protocol request (it carries a timestamp and no sign_type). *)
Definition demo_request (timestamp : string) (sign : option string) : request :=
  mkRequest (Some "100000000001") (Some "alipay") (Some "A-100")
    (Some "https://shop.example/notify") None (Some "book") (Some "10.00")
    sign None (Some timestamp) None None None None None None None None None
    None None None "203.0.113.9".

(** The MD5 signature of the request under the merchant's api_key. *)
Definition demo_md5_sign (timestamp : string) : string :=
  createSign (create_signParams (demo_request timestamp None)) "key".

(** MD5 request verification instantiated by the codec of utils/helpers;
    an RSA check that accepts nothing. *)
Definition md5_verifier (p : list (string * string)) (sign key : string) : bool :=
  verifySign p key sign.

Definition no_rsa (p : list (string * string)) (sign key : string) : bool := false.

Definition demo_create (date_now : Z) (req : request) : handler response :=
  create no_rsa md5_verifier (fun _ _ _ => None) (fun _ _ _ => Some (3 # 100)%Q)
         (fun _ _ => None) date_now "2026110300000001" req.

Definition demo_handleSubmit (date_now : Z) (req : request) : handler response :=
  handleSubmit no_rsa md5_verifier (fun _ _ _ => Some (3 # 100)%Q) (fun _ _ => None)
               date_now "2026110300000001" req.

(** A pending order of 100 with a fee of 1.50 on channel 3, its merchant
    with a balance of 50, and a plugin answer that accepts the payment. *)
Definition once_demo_order : order :=
  mkOrder 1 7 (Some 3) "T1" "A-100" "alipay" (Some "alipay") "book" 100 100 (3 # 2)
          "merchant" "" "https://shop.example/notify" "https://shop.example/done" 0
          "normal" None None None 0 None None None false 0 0 None.

Definition once_demo_merchant : merchant :=
  mkMerchant 7 "100000000001" "active" "key" None None None None 50.

Definition once_demo_channel : channel :=
  mkChannel 3 "Alipay A" "alipay" "alipay" 1 0 0 0 None CfgNull.

Definition once_demo_store : db :=
  mkDb [once_demo_order] [once_demo_merchant] [once_demo_channel] [] [] 2.

Definition once_demo_verdict : verdict := mkVerdict true (Some "2026110322001") None None.

(** The provider's server-to-server notification, the same notification
    sent again, and the buyer's browser coming back. *)
Definition once_demo_deliveries : list delivery :=
  [mkDelivery ViaNotify "T1" (fun _ _ => Answer once_demo_verdict) true 9;
   mkDelivery ViaNotify "T1" (fun _ _ => Answer once_demo_verdict) true 11;
   mkDelivery ViaReturn "T1" (fun _ _ => Answer once_demo_verdict) true 10].

End Scenarios.

(* ================================================================== *)
(** * Part VIII.  Channel administration (routes/provider/channels)     *)
(* ================================================================== *)

Module ChannelAdmin.

(** The alternatives of the regular expression, in its order. *)
Definition apptype_names : list string :=
  ["alipay"; "wxpay"; "qqpay"; "bank"; "jdpay"; "paypal"; "ecny"].

(** The characters that [.] does not match (ASCII: LF and CR). *)
Definition is_line_terminator (c : ascii) : bool :=
  let n := nat_of_ascii c in ((n =? 10) || (n =? 13))%nat.

(** [(.+)$]: one character or more, none of them a line terminator, up
    to the end of the string. *)
Definition any_to_end (s : string) : bool :=
  negb (String.eqb s "")
  && forallb (fun c => negb (is_line_terminator c)) (list_ascii_of_string s).

(** What follows the prefix [p] in [s], if [s] starts with [p]. *)
Fixpoint strip_prefix (p s : string) : option string :=
  match p, s with
  | EmptyString, _ => Some s
  | String a p', String b s' => if Ascii.eqb a b then strip_prefix p' s' else None
  | String _ _, EmptyString => None
  end.

(** [item.match(/^(alipay|wxpay|qqpay|bank|jdpay|paypal|ecny)_(.+)$/)]:
    the first group of the match, if there is a match. *)
Definition apptype_of (item : string) : option string :=
  find (fun t => match strip_prefix (t ++ "_") item with
                 | Some rest => any_to_end rest
                 | None => false
                 end) apptype_names.

(** The object [typeCount]. *)
Fixpoint get_count (type : string) (typeCount : list (string * Z)) : option Z :=
  match typeCount with
  | [] => None
  | (k, n) :: rest => if String.eqb k type then Some n else get_count type rest
  end.

Fixpoint set_count (type : string) (n : Z) (typeCount : list (string * Z))
  : list (string * Z) :=
  match typeCount with
  | [] => [(type, n)]
  | (k, m) :: rest =>
      if String.eqb k type then (k, n) :: rest else (k, m) :: set_count type n rest
  end.

(** The loop over the items; [Some type] is the early return, with the
    type its message names. *)
Fixpoint count_types (items : list string) (typeCount : list (string * Z))
  : option string :=
  match items with
  | [] => None
  | item :: rest =>
      match apptype_of item with
      | Some type =>
          let n := match get_count type typeCount with
                   | Some n => (if n =? 0 then 0 else n) + 1
                   | None => 0 + 1
                   end in
          if 1 <? n then Some type else count_types rest (set_count type n typeCount)
      | None => count_types rest typeCount
      end
  end.

(** [validateApptypeExclusive(apptypeArray)] on an array of strings;
    [None] is [{valid: true}]. *)
Definition validateApptypeExclusive (apptypeArray : list string) : option string :=
  match apptypeArray with
  | [] => None
  | _ => count_types apptypeArray []
  end.

(** The pay types the items of an array name, in their order. *)
Definition named_types (items : list string) : list string :=
  flat_map (fun item => match apptype_of item with Some t => [t] | None => [] end) items.

End ChannelAdmin.

(* ================================================================== *)
(** * Part IX.  Random strings and key formats (utils/helpers)          *)
(* ================================================================== *)

Module Helpers.

(** What [randomFromCharset] ends with.  The bytes come from
    [crypto.randomBytes], one buffer per call; the function below is given
    the buffers of the calls to come and hands back the ones it has not
    asked for.  [OutOfBytes]: the loop is still asking when they are used
    up. *)
Inductive sample : Type :=
| Sampled (out : string)
| CharsetTooShort            (* throws: charset must contain at least 2 characters *)
| OutOfBytes.

(** [Math.floor(256 / charset.length) * charset.length - 1]. *)
Definition maxValidByte (n : Z) : Z := 256 / n * n - 1.

(** The index into the charset that byte [b] selects; [None] when the
    byte is skipped ([if (b > maxValidByte) continue]). *)
Definition accepted_index (n b : Z) : option Z :=
  if maxValidByte n <? b then None else Some (b mod n).

(** [charset(b % charset.length)] for a byte that is not skipped. *)
Definition accept_byte (charset : string) (b : Z) : option ascii :=
  match accepted_index (Z.of_nat (String.length charset)) b with
  | Some i => String.get (Z.to_nat i) charset
  | None => None
  end.

(** The [for] loop over one buffer. *)
Fixpoint fill (charset : string) (length : Z) (out : string) (buf : list Z) : string :=
  match buf with
  | [] => out
  | b :: rest =>
      if Z.of_nat (String.length out) <? length then
        match accept_byte charset b with
        | Some c => fill charset length (out ++ String c "") rest
        | None => fill charset length out rest
        end
      else out
  end.

(** The [while] loop. *)
Fixpoint fill_all (charset : string) (length : Z) (out : string) (bufs : list (list Z))
  : sample * list (list Z) :=
  match bufs with
  | [] => if Z.of_nat (String.length out) <? length then (OutOfBytes, [])
          else (Sampled out, [])
  | buf :: rest =>
      if Z.of_nat (String.length out) <? length
      then fill_all charset length (fill charset length out buf) rest
      else (Sampled out, bufs)
  end.

(** [randomFromCharset(length, charset)] for a whole number [length]. *)
Definition randomFromCharset (length : Z) (charset : string) (bufs : list (list Z))
  : sample * list (list Z) :=
  if length <=? 0 then (Sampled "", bufs)
  else if (String.length charset <? 2)%nat then (CharsetTooShort, bufs)
  else fill_all charset length "" bufs.

(** [generateRandomDigits(length)] and [generateRandomUsername(length)]. *)
Definition generateRandomDigits (length : Z) := randomFromCharset length "0123456789".

Definition generateRandomUsername (length : Z) :=
  randomFromCharset length "abcdefghijklmnopqrstuvwxyz0123456789".

(** The characters the bytes of a stream select, skipped bytes left out. *)
Definition accepted_chars (charset : string) (bytes : list Z) : list ascii :=
  flat_map (fun b => match accept_byte charset b with Some c => [c] | None => [] end) bytes.

(** The byte values. *)
Definition all_bytes : list Z := map Z.of_nat (seq 0 256).

End Helpers.

(** ** PEM and bare Base64 (utils/helpers) *)

Module Pem.
Import JS.

(** [[A-Z ]]. *)
Definition is_label_char (c : ascii) : bool :=
  let n := nat_of_ascii c in ((65 <=? n) && (n <=? 90) || (n =? 32))%nat.

(** What follows the prefix [p] in [s], if [s] starts with [p]. *)
Fixpoint after_prefix (p s : list ascii) : option (list ascii) :=
  match p, s with
  | [], _ => Some s
  | a :: p', b :: s' => if Ascii.eqb a b then after_prefix p' s' else None
  | _ :: _, [] => None
  end.

(** The longest prefix of characters that satisfy [f], and the rest. *)
Fixpoint span (f : ascii -> bool) (s : list ascii) : list ascii * list ascii :=
  match s with
  | c :: rest =>
      if f c then let '(a, b) := span f rest in (c :: a, b) else ([], s)
  | [] => ([], [])
  end.

(** The length of the match of [/-----WORD [A-Z ]+-----/] at the start of
    [s], if there is one.  The greedy run of label characters is followed
    by a hyphen or the match fails: giving characters back cannot help. *)
Definition marker_at (word : string) (s : list ascii) : option nat :=
  match after_prefix (list_ascii_of_string ("-----" ++ word ++ " ")) s with
  | Some rest =>
      let '(label, rest') := span is_label_char rest in
      match label, after_prefix (list_ascii_of_string "-----") rest' with
      | _ :: _, Some _ => Some (5 + String.length word + 1 + List.length label + 5)%nat
      | _, _ => None
      end
  | None => None
  end.

(** [s.replace(/-----WORD [A-Z ]+-----/g, '')]: [skip] is the number of
    characters of a match still to be dropped. *)
Fixpoint strip_markers (word : string) (skip : nat) (s : list ascii) : list ascii :=
  match s with
  | [] => []
  | c :: rest =>
      match skip with
      | S k => strip_markers word k rest
      | O =>
          match marker_at word s with
          | Some (S k) => strip_markers word k rest
          | _ => c :: strip_markers word 0 rest
          end
      end
  end.

(** [pemToBase64(pem)]. *)
Definition pemToBase64 (pem : string) : string :=
  string_of_list_ascii
    (filter (fun c => negb (is_ws c))
       (strip_markers "END" 0 (strip_markers "BEGIN" 0 (list_ascii_of_string pem)))).

(** [s.includes(needle)]. *)
Fixpoint includes (needle s : list ascii) : bool :=
  match after_prefix needle s with
  | Some _ => true
  | None => match s with
            | [] => false
            | _ :: rest => includes needle rest
            end
  end.

(** [s.match(/.{1,64}/g)]: the pieces of up to 64 characters between
    line terminators; [cur] is the piece being read. *)
Fixpoint chunk64 (cur : list ascii) (s : list ascii) : list (list ascii) :=
  match s with
  | [] => match cur with [] => [] | _ => [cur] end
  | c :: rest =>
      if ChannelAdmin.is_line_terminator c
      then match cur with [] => chunk64 [] rest | _ => cur :: chunk64 [] rest end
      else if (List.length cur =? 64)%nat then cur :: chunk64 [c] rest
      else chunk64 (cur ++ [c]) rest
  end.

(** [pieces.join('\n')]. *)
Fixpoint join_lines (pieces : list (list ascii)) : list ascii :=
  match pieces with
  | [] => []
  | [p] => p
  | p :: rest => p ++ "010"%char :: join_lines rest
  end.

(** [base64ToPem(base64, type)] on a string; [None] is the TypeError of
    joining [null], when nothing matches. *)
Definition base64ToPem (base64 type : string) : option string :=
  let b := list_ascii_of_string base64 in
  if String.eqb base64 "" || includes (list_ascii_of_string "-----BEGIN") b
  then Some base64
  else
    match chunk64 [] b with
    | [] => None
    | pieces =>
        Some ("-----BEGIN " ++ type ++ "-----" ++ String "010" ""
              ++ string_of_list_ascii (join_lines pieces)
              ++ String "010" "" ++ "-----END " ++ type ++ "-----")
    end.

(** The texts that carry over: no white space and no hyphen. *)
Definition bare (s : string) : Prop :=
  forall c, In c (list_ascii_of_string s) -> is_ws c = false /\ c <> "-"%char.

(** A label of [[A-Z ]] characters, one at least. *)
Definition label (s : string) : Prop :=
  s <> "" /\ forallb is_label_char (list_ascii_of_string s) = true.

End Pem.

(* ================================================================== *)
(** * Part X.  The parameters the unified handlers sign                *)
(* ================================================================== *)

Module UnifiedParams.
Import JS Store Gateway.

(** The parameters [handleSubmit] verifies the signature over. *)
Definition handleSubmit_signParams (req : request) : list (string * string) :=
  ([("pid", text (q_pid req)); ("out_trade_no", text (q_out_trade_no req));
    ("notify_url", text (q_notify_url req)); ("name", text (q_name req));
    ("money", text (q_money req))]
   ++ opt_param "type" (q_type req)
   ++ opt_param "return_url" (q_return_url req)
   ++ opt_param "timestamp" (q_timestamp req)
   ++ opt_param "sitename" (q_sitename req)
   ++ opt_param "param" (q_param req)
   ++ opt_param "channel_id" (q_channel_id req))%list.

(** The parameters [handleMapi] verifies the signature over. *)
Definition handleMapi_signParams (req : request) : list (string * string) :=
  ([("pid", text (q_pid req)); ("out_trade_no", text (q_out_trade_no req));
    ("notify_url", text (q_notify_url req)); ("name", text (q_name req));
    ("money", text (q_money req))]
   ++ opt_param "type" (q_type req)
   ++ opt_param "return_url" (q_return_url req)
   ++ opt_param "timestamp" (q_timestamp req)
   ++ opt_param "device" (q_device req)
   ++ opt_param "clientip" (q_clientip req)
   ++ opt_param "method" (q_method req)
   ++ opt_param "sitename" (q_sitename req)
   ++ opt_param "param" (q_param req)
   ++ opt_param "channel_id" (q_channel_id req)
   ++ opt_param "sub_openid" (q_sub_openid req)
   ++ opt_param "sub_appid" (q_sub_appid req)
   ++ opt_param "auth_code" (q_auth_code req))%list.

End UnifiedParams.
(* ================================================================== *)
(** * Part XI.  The V1 routes [/submit] and [/mapi]                    *)
(* ================================================================== *)

Module GatewayV1.
Import JS Fee Channel Store Gateway.
Local Open Scope handler_scope.

Section Handlers.

Variable verifySignMD5 : list (string * string) -> string -> string -> bool.
Variable validateCallbackDomain : Z -> string -> db -> option string.
Variable getMerchantFeeRate : merchant -> string -> db -> option Q.

(** The parameters the V1 routes insist on. *)
Definition v1_params_present (req : request) : bool :=
  present (q_pid req) && present (q_type req)
  && present (q_out_trade_no req) && present (q_notify_url req)
  && present (q_name req) && present (q_money req)
  && present (q_sign req).

(** The parameters a V1 request is signed over. *)
Definition v1_signParams (req : request) : list (string * string) :=
  ([("pid", text (q_pid req)); ("type", text (q_type req));
    ("out_trade_no", text (q_out_trade_no req)); ("notify_url", text (q_notify_url req));
    ("name", text (q_name req)); ("money", text (q_money req))]
   ++ opt_param "return_url" (q_return_url req)
   ++ opt_param "sitename" (q_sitename req)
   ++ opt_param "param" (q_param req))%list.

(** The body that [router.all('/submit')] and [router.all('/mapi')]
    share, up to and including [createOrder]; what follows it in either
    route only formats the reply. *)
Definition v1_order (date_now : Z) (fresh_trade_no : string) (req : request)
  : handler create_result :=
  reject_if (negb (v1_params_present req)) MissingParams ;;;
  let certInfo := buildCertInfo (q_cert_no req) (q_cert_name req) (q_min_age req) in
  match certInfo with CertError why => reply (Rejected (CertInfoInvalid why)) | _ => ret tt end ;;;
  emit (EvMerchantLookup (text (q_pid req))) ;;;
  found <- read (getMerchantByPid (text (q_pid req))) ;;
  match found with
  | None => reply (Rejected MerchantNotFound)
  | Some merchant =>
      emit (EvDomainCheck (text (q_notify_url req))) ;;;
      domainCheck <- read (validateCallbackDomain (m_user_id merchant)
                                                  (text (q_notify_url req))) ;;
      match domainCheck with
      | Some msg => reply (Rejected (DomainRejected msg))
      | None => ret tt
      end ;;;
      emit (EvVerifyMD5 (m_api_key merchant)) ;;;
      reject_if (negb (verifySignMD5 (v1_signParams req) (text (q_sign req))
                         (m_api_key merchant))) SignatureInvalid ;;;
      emit EvChannelLookup ;;;
      channel <- read (getChannel (text (q_type req))) ;;
      match channel with
      | None => reply (Rejected ChannelUnavailable)
      | Some channel =>
          let moneyFloat := parseFloat_string (text (q_money req)) in
          check_limits (Some (ch_min_money channel)) (Some (ch_max_money channel))
            moneyFloat ;;;
          emit EvFeeRate ;;;
          feeRate <- read (getMerchantFeeRate merchant (text (q_type req))) ;;
          moneyFloat <- storable moneyFloat ;;
          let data :=
            mkOrderData (m_user_id merchant) (Some (ch_id channel)) fresh_trade_no
              (text (q_out_trade_no req)) (text (q_type req)) (text (q_name req))
              moneyFloat (q_remote_ip req) "pc"
              (text (q_notify_url req)) (text (q_return_url req))
              feeRate (fee_payer_of merchant) None None (cert_of certInfo) in
          emit (EvCreateOrder data) ;;;
          write (createOrder (date_now / 1000) data)
      end
  end.

(** [router.all('/submit')]: the redirect to the cashier. *)
Definition submit (date_now : Z) (fresh_trade_no : string) (req : request)
  : handler response :=
  orderResult <- v1_order date_now fresh_trade_no req ;;
  ret (RedirectToCashier (res_tradeNo orderResult)).

(** [router.all('/mapi')]: the [trade_no] of its JSON reply, whose
    [payurl] is the cashier's address for that number. *)
Definition mapi (date_now : Z) (fresh_trade_no : string) (req : request)
  : handler string :=
  orderResult <- v1_order date_now fresh_trade_no req ;;
  ret (res_tradeNo orderResult).

End Handlers.

(** The same request sent with another [sign_type] and [timestamp]. *)
Definition with_sign_type_and_timestamp (sign_type timestamp : option string)
    (req : request) : request :=
  mkRequest (q_pid req) (q_type req) (q_out_trade_no req) (q_notify_url req)
    (q_return_url req) (q_name req) (q_money req) (q_sign req)
    sign_type timestamp
    (q_method req) (q_device req) (q_clientip req) (q_auth_code req)
    (q_sub_openid req) (q_sub_appid req) (q_channel_id req) (q_param req)
    (q_sitename req) (q_cert_no req) (q_cert_name req) (q_min_age req)
    (q_remote_ip req).

End GatewayV1.

(* ================================================================== *)
(** * Part XII.  Invariants of the orders table                        *)
(* ================================================================== *)

Module OrderTable.
Import JS Fee Channel Store Gateway.

(** A channel that [getChannel(type)] may answer with: it lists the pay
    type, is enabled and is not deleted. *)
Definition serves (type : string) (c : channel) : bool :=
  find_in_set type (ch_pay_type c) && (ch_status c =? 1)
  && match ch_is_deleted c with Some d => d =? 0 | None => true end.

(** Every id in [orders] is below the next AUTO_INCREMENT value. *)
Definition ids_below_next (s : db) : Prop :=
  forall o, In o (orders s) -> o_id o < next_order_id s.

(** No merchant has two pending orders with the same out-trade-no. *)
Definition pending_unique (s : db) : Prop :=
  forall i j a b,
    nth_error (orders s) i = Some a ->
    nth_error (orders s) j = Some b ->
    o_status a = 0 -> o_status b = 0 ->
    o_merchant_id a = o_merchant_id b ->
    o_out_trade_no a = o_out_trade_no b ->
    i = j.

Definition table_ok (s : db) : Prop :=
  ids_unique s /\ ids_below_next s /\ pending_unique s.

(** The columns of an order row that say what was sold, to whom, for how
    much, and how far its settlement has come. *)
Definition record_of (o : order)
  : Z * Z * string * string * string * Q * Z * string * Z
    * option Z * option string * option string * bool * Z * Z :=
  (o_id o, o_merchant_id o, o_trade_no o, o_out_trade_no o, o_name o, o_money o,
   o_status o, o_order_type o, o_created_at o,
   o_paid_at o, o_api_trade_no o, o_buyer o, o_balance_added o,
   o_notify_status o, o_notify_count o).

End OrderTable.

(* ================================================================== *)
(** * Part XIII.  Callbacks that carry no payment                      *)
(* ================================================================== *)

Module Callbacks.
Import JS Fee Channel Store Settlement.

(** The delivery brings no payment to record: whenever the plugin
    accepts it for the order of its trade number, that order is no
    longer pending. *)
Definition carries_no_payment (d : delivery) (h : shared) : Prop :=
  forall order rest c v,
    orders_by_trade_no (d_trade_no d) (store h) = order :: rest ->
    d_plugin d c order = Answer v ->
    v_success v = true ->
    o_status order <> 0.

(** The statements before the paid UPDATE, with the order row the request
    works on, and the two statements that only answer. *)
Definition before_payment (d : delivery) (h : shared) (p : pc) : Prop :=
  match p with
  | AtStart | AtRespond _ | Finished _ => True
  | AtChannel o | AtPlugin o _ =>
      exists rest, orders_by_trade_no (d_trade_no d) (store h) = o :: rest
  | _ => False
  end.

(** The statements such a request has at most left. *)
Definition statements_left (p : pc) : nat :=
  match p with
  | AtStart => 4
  | AtChannel _ => 3
  | AtPlugin _ _ => 2
  | AtRespond _ => 1
  | _ => 0
  end.

End Callbacks.

(* ================================================================== *)
(** * Part XIV.  The order queries                                     *)
(* ================================================================== *)

Module Query.
Import JS Fee Channel Store Gateway.

(** The merged [req.query] and [req.body] of a query. *)
Record query_request : Type := mkQuery {
  k_pid : option string;
  k_trade_no : option string;
  k_out_trade_no : option string;
  k_sign : option string;
  k_sign_type : option string;
  k_timestamp : option string
}.

Inductive query_error : Type :=
| QMissingParams
| QNoOrderNumber
| QTimestampExpired
| QMerchantNotFound
| QRsaKeyMissing
| QSignatureInvalid
| QOrderNotFound.

(** The success reply: the row its [trade_no], [out_trade_no], [type],
    [name], [money] and times are read from, and its [status] field.  The
    [sign] that utils/payment adds to a V2 reply is not represented. *)
Inductive query_outcome : Type :=
| QueryError (e : query_error)
| QueryOk (order : order) (status : Z).

(** [getMerchant(pid)]: the query of [getMerchantByPid]. *)
Definition getMerchant (pid : string) (s : db) : option merchant :=
  getMerchantByPid pid s.

(** [{ 'pending': 0, 'paid': 1, 'closed': 2, 'refunded': 3 }]. *)
Definition statusMap_names : list (string * Z) :=
  [("pending", 0); ("paid", 1); ("closed", 2); ("refunded", 3)].

(** [{ 0: 0, 1: 1, 2: 2, 3: 3 }]: the keys of an object are strings. *)
Definition statusMap_numbers : list (string * Z) :=
  [("0", 0); ("1", 1); ("2", 2); ("3", 3)].

(** [obj[key]] on an object of numbers. *)
Fixpoint property (key : string) (obj : list (string * Z)) : option Z :=
  match obj with
  | [] => None
  | (k, v) :: rest => if String.eqb k key then Some v else property key rest
  end.

(** [statusMap[order.status] || 0]: the numeric column is turned into a
    property key by ToString. *)
Definition status_field (statusMap : list (string * Z)) (status : Z) : Z :=
  match property (string_of_Z status) statusMap with
  | Some v => if v =? 0 then 0 else v
  | None => 0
  end.

(** [SELECT * FROM orders WHERE merchant_id = ? AND trade_no = ?], or
    [AND out_trade_no = ?] when no [trade_no] is given. *)
Definition orders_of_merchant (merchant_id : Z) (req : query_request) (s : db)
  : list order :=
  filter (fun o =>
            (o_merchant_id o =? merchant_id)
            && (if present (k_trade_no req)
                then String.eqb (o_trade_no o) (text (k_trade_no req))
                else String.eqb (o_out_trade_no o) (text (k_out_trade_no req))))
         (orders s).

Definition query_v1_signParams (req : query_request) : list (string * string) :=
  ([("pid", text (k_pid req))]
   ++ opt_param "trade_no" (k_trade_no req)
   ++ opt_param "out_trade_no" (k_out_trade_no req))%list.

Definition query_v2_signParams (req : query_request) : list (string * string) :=
  ([("pid", text (k_pid req)); ("timestamp", text (k_timestamp req))]
   ++ opt_param "trade_no" (k_trade_no req)
   ++ opt_param "out_trade_no" (k_out_trade_no req))%list.

Definition handleQuery_signParams (req : query_request) : list (string * string) :=
  ([("pid", text (k_pid req))]
   ++ opt_param "trade_no" (k_trade_no req)
   ++ opt_param "out_trade_no" (k_out_trade_no req)
   ++ opt_param "timestamp" (k_timestamp req))%list.

Section Handlers.

Variable verifySignRSA : list (string * string) -> string -> string -> bool.
Variable verifySignMD5 : list (string * string) -> string -> string -> bool.

(** [router.all('/query')], the V1 query. *)
Definition query_v1 (req : query_request) (s : db) : query_outcome :=
  if negb (present (k_pid req)) || negb (present (k_sign req))
  then QueryError QMissingParams
  else if negb (present (k_trade_no req)) && negb (present (k_out_trade_no req))
  then QueryError QNoOrderNumber
  else
    match getMerchant (text (k_pid req)) s with
    | None => QueryError QMerchantNotFound
    | Some merchant =>
        if negb (verifySignMD5 (query_v1_signParams req) (text (k_sign req))
                   (m_api_key merchant))
        then QueryError QSignatureInvalid
        else
          match orders_of_merchant (m_user_id merchant) req s with
          | [] => QueryError QOrderNotFound
          | order :: _ => QueryOk order (status_field statusMap_names (o_status order))
          end
    end.

(** [router.all('/v2/query')]. *)
Definition query_v2 (date_now : Z) (req : query_request) (s : db) : query_outcome :=
  if negb (present (k_pid req)) || negb (present (k_sign req))
     || negb (present (k_timestamp req))
  then QueryError QMissingParams
  else if negb (present (k_trade_no req)) && negb (present (k_out_trade_no req))
  then QueryError QNoOrderNumber
  else if negb (validateTimestamp date_now (as_value (k_timestamp req)))
  then QueryError QTimestampExpired
  else
    match getMerchant (text (k_pid req)) s with
    | None => QueryError QMerchantNotFound
    | Some merchant =>
        let signValid :=
          if present (m_rsa_public_key merchant)
          then verifySignRSA (query_v2_signParams req) (text (k_sign req))
                 (text (m_rsa_public_key merchant))
          else verifySignMD5 (query_v2_signParams req) (text (k_sign req))
                 (m_api_key merchant) in
        if negb signValid then QueryError QSignatureInvalid
        else
          match orders_of_merchant (m_user_id merchant) req s with
          | [] => QueryError QOrderNotFound
          | order :: _ => QueryOk order (status_field statusMap_names (o_status order))
          end
    end.

(** [handleQuery], behind [/api.php?act=order]. *)
Definition handleQuery (date_now : Z) (req : query_request) (s : db) : query_outcome :=
  let isV2 := present (k_timestamp req) in
  if negb (present (k_pid req)) || negb (present (k_sign req))
  then QueryError QMissingParams
  else if negb (present (k_trade_no req)) && negb (present (k_out_trade_no req))
  then QueryError QNoOrderNumber
  else if isV2 && negb (validateTimestamp date_now (as_value (k_timestamp req)))
  then QueryError QTimestampExpired
  else
    match getMerchantByPid (text (k_pid req)) s with
    | None => QueryError QMerchantNotFound
    | Some merchant =>
        let effectiveSignType :=
          if present (k_sign_type req) then text (k_sign_type req)
          else if isV2 then "RSA" else "MD5" in
        if String.eqb effectiveSignType "RSA"
           && negb (present (m_rsa_public_key merchant))
        then QueryError QRsaKeyMissing
        else
          let signValid :=
            if String.eqb effectiveSignType "RSA"
            then verifySignRSA (handleQuery_signParams req) (text (k_sign req))
                   (text (m_rsa_public_key merchant))
            else verifySignMD5 (handleQuery_signParams req) (text (k_sign req))
                   (m_api_key merchant) in
          if negb signValid then QueryError QSignatureInvalid
          else
            match orders_of_merchant (m_user_id merchant) req s with
            | [] => QueryError QOrderNotFound
            | order :: _ => QueryOk order (status_field statusMap_numbers (o_status order))
            end
    end.

End Handlers.

(** [router.get('/check_status')]: [None] is an error reply, otherwise
    the [status] and [paid] fields. *)
Definition check_status (trade_no : option string) (s : db) : option (Z * bool) :=
  if negb (present trade_no) then None
  else
    match orders_by_trade_no (text trade_no) s with
    | [] => None
    | order :: _ => Some (o_status order, o_status order =? 1)
    end.

End Query.

(* ================================================================== *)
(** * Part XV.  Closing a channel on a payment error                   *)
(* ================================================================== *)

Module ChannelClose.
Import JS Fee Channel Store Gateway.

(** [s.trim()], white space restricted to ASCII. *)
Fixpoint drop_ws (l : list ascii) : list ascii :=
  match l with
  | c :: r => if is_ws c then drop_ws r else l
  | [] => []
  end.

Definition trim (s : string) : string :=
  string_of_list_ascii (rev (drop_ws (rev (drop_ws (list_ascii_of_string s))))).

(** [s.split(sep)] for a one-character separator; [cur] is the piece
    being read. *)
Fixpoint split_on (sep : ascii) (s : string) (cur : string) : list string :=
  match s with
  | EmptyString => [cur]
  | String c r =>
      if Ascii.eqb c sep then cur :: split_on sep r ""
      else split_on sep r (cur ++ String c "")
  end.

(** [s.includes(needle)]. *)
Definition includes (needle s : string) : bool :=
  Pem.includes (list_ascii_of_string needle) (list_ascii_of_string s).

(** [UPDATE provider_channels SET status = 0 WHERE id = ?]. *)
Definition set_status (status : Z) (c : channel) : channel :=
  mkChannel (ch_id c) (ch_channel_name c) (ch_plugin_name c) (ch_pay_type c)
    status (ch_priority c) (ch_min_money c) (ch_max_money c) (ch_is_deleted c)
    (ch_config c).

Definition close_channel (id : Z) (s : db) : db :=
  mkDb (orders s) (merchants s)
       (map (fun c => if ch_id c =? id then set_status 0 c else c) (channels s))
       (pay_groups s) (channel_groups s) (next_order_id s).

(** What the function has done: nothing, or closed the channel for the
    keyword it matched, with or without a notice to the administrators. *)
Inductive close_outcome : Type :=
| NotClosed
| Closed (matchedKeyword : string) (notice : bool).

(** The keywords of the setting: the pieces between bars that are not
    blank. *)
Definition keywords_of (checkPaymsg : string) : list string :=
  filter (fun k => negb (String.eqb (trim k) "")) (split_on "|" checkPaymsg "").

(** [checkAndAutoCloseChannel(errorMsg, channel)], with the values that
    [systemConfig.getConfig] answers for [check_paymsg] and
    [check_paymsg_notice]. *)
Definition checkAndAutoCloseChannel (errorMsg : option string) (channel : option channel)
    (checkPaymsg noticeEnabled : option string) (s : db) : close_outcome * db :=
  match channel with
  | None => (NotClosed, s)
  | Some channel =>
      if negb (present errorMsg) then (NotClosed, s)
      else if negb (present checkPaymsg) then (NotClosed, s)
      else
        let keywords := keywords_of (text checkPaymsg) in
        match find (fun keyword => includes (trim keyword) (text errorMsg)) keywords with
        | None => (NotClosed, s)
        | Some matchedKeyword =>
            (Closed matchedKeyword
               (match noticeEnabled with Some v => String.eqb v "1" | None => false end),
             close_channel (ch_id channel) s)
        end
  end.

End ChannelClose.

(* ================================================================== *)
(** * Part XVI.  The whitelist of callback domains                     *)
(* ================================================================== *)

Module CallbackDomain.
Import JS Store.

Definition lower_char (c : ascii) : ascii :=
  let n := nat_of_ascii c in
  if ((65 <=? n) && (n <=? 90))%nat then ascii_of_nat (n + 32) else c.

(** [s.toLowerCase()] on ASCII text. *)
Fixpoint toLowerCase (s : string) : string :=
  match s with
  | EmptyString => EmptyString
  | String c r => String (lower_char c) (toLowerCase r)
  end.

(** [s.startsWith(p)]. *)
Definition startsWith (s p : string) : bool := String.prefix p s.

(** [s.endsWith(x)]. *)
Fixpoint endsWith (s x : string) : bool :=
  String.eqb s x
  || match s with
     | String _ r => endsWith r x
     | EmptyString => false
     end.

(** [s.slice(2)]. *)
Definition slice2 (s : string) : string :=
  match s with
  | String _ (String _ r) => r
  | _ => EmptyString
  end.

(** A row of [merchant_domains]. *)
Record merchant_domain : Type := mkMerchantDomain {
  md_merchant_id : Z;
  md_domain : string;
  md_status : string
}.

(** A read of the configuration or of the database: it may throw. *)
Inductive attempt (A : Type) : Type :=
| Throws
| Got (a : A).
Arguments Throws {A}.
Arguments Got {A} a.

Inductive domain_error : Type :=
| BadUrl                          (* the notify url does not parse *)
| NoApprovedDomain                (* the merchant has no approved domain *)
| NotWhitelisted (domain : string).

(** The callback of [approvedDomains.some]. *)
Definition domain_matches (domain approved : string) : bool :=
  let approvedDomain := toLowerCase approved in
  String.eqb domain approvedDomain
  || (startsWith approvedDomain "*."
      && endsWith domain ("." ++ slice2 approvedDomain)).

(** [domainWhitelistEnabled !== '1' && domainWhitelistEnabled !== 'true']
    does not hold. *)
Definition whitelist_on (v : option string) : bool :=
  match v with
  | Some x => String.eqb x "1" || String.eqb x "true"
  | None => false
  end.

(** [SELECT domain FROM merchant_domains WHERE merchant_id = ? AND
    status = 'approved']. *)
Definition approved_domains (merchantId : Z) (rows : list merchant_domain)
  : list merchant_domain :=
  filter (fun d => (md_merchant_id d =? merchantId) && String.eqb (md_status d) "approved")
         rows.

Section WithUrl.

(** [new URL(notifyUrl).hostname]; [None] when the constructor throws. *)
Variable hostname : string -> option string.

(** [validateCallbackDomain(merchantId, notifyUrl)], with what the
    configuration and the table answer; [None] is [{valid: true}]. *)
Definition validateCallbackDomain (merchantId : Z) (notifyUrl : string)
    (domainWhitelistEnabled : attempt (option string))
    (merchant_domains : attempt (list merchant_domain)) : option domain_error :=
  match hostname notifyUrl with
  | None => Some BadUrl
  | Some h =>
      let domain := toLowerCase h in
      match domainWhitelistEnabled with
      | Throws => None
      | Got v =>
          if negb (whitelist_on v) then None
          else
            match merchant_domains with
            | Throws => None
            | Got rows =>
                let approvedDomains := approved_domains merchantId rows in
                match approvedDomains with
                | [] => Some NoApprovedDomain
                | _ =>
                    if existsb (fun d => domain_matches domain (md_domain d)) approvedDomains
                    then None
                    else Some (NotWhitelisted domain)
                end
            end
      end
  end.

End WithUrl.

End CallbackDomain.

(* ================================================================== *)
(** * Part XVII.  Pausing and restoring a merchant                     *)
(* ================================================================== *)

Module MerchantAdmin.
Import JS Fee Channel Store Gateway.

Definition set_merchant_status (status : string) (m : merchant) : merchant :=
  mkMerchant (m_user_id m) (m_pid m) status (m_api_key m)
    (m_rsa_public_key m) (m_rsa_private_key m) (m_fee_payer m)
    (m_pay_group_id m) (m_balance m).

(** [UPDATE merchants SET status = ? WHERE user_id = ?]. *)
Definition update_merchant_status (user_id : Z) (status : string) (s : db) : db :=
  set_merchants
    (map (fun m => if m_user_id m =? user_id then set_merchant_status status m else m)
         (merchants s)) s.

Inductive admin_reply : Type :=
| MissingMerchantId
| NoSuchMerchant
| NotActivated
| Done.

(** [!merchantId] on the id of the request body. *)
Definition no_id (merchantId : option Z) : bool :=
  match merchantId with
  | Some id => id =? 0
  | None => true
  end.

Definition id_of (merchantId : option Z) : Z :=
  match merchantId with Some id => id | None => 0 end.

(** [router.post('/merchants/pause')]. *)
Definition pause (merchantId : option Z) (s : db) : admin_reply * db :=
  if no_id merchantId then (MissingMerchantId, s)
  else (Done, update_merchant_status (id_of merchantId) "paused" s).

(** [router.post('/merchants/restore')]. *)
Definition restore (merchantId : option Z) (s : db) : admin_reply * db :=
  if no_id merchantId then (MissingMerchantId, s)
  else
    match merchants_by_user_id (id_of merchantId) s with
    | [] => (NoSuchMerchant, s)
    | row :: _ =>
        if String.eqb (m_pid row) "" || String.eqb (m_api_key row) ""
        then (NotActivated, s)
        else (Done, update_merchant_status (id_of merchantId) "active" s)
    end.

End MerchantAdmin.

(* ================================================================== *)
(** * Part XVIII.  The store of verification codes                     *)
(* ================================================================== *)

Module VerificationStore.
Import JS CallbackDomain.

(** A JavaScript [Map] with string keys: its entries in insertion
    order. *)
Definition jsmap (V : Type) : Type := list (string * V).

Fixpoint map_get {V} (k : string) (m : jsmap V) : option V :=
  match m with
  | [] => None
  | (k', v) :: rest => if String.eqb k' k then Some v else map_get k rest
  end.

Fixpoint map_set {V} (k : string) (v : V) (m : jsmap V) : jsmap V :=
  match m with
  | [] => [(k, v)]
  | (k', v') :: rest =>
      if String.eqb k' k then (k, v) :: rest else (k', v') :: map_set k v rest
  end.

Definition map_delete {V} (k : string) (m : jsmap V) : jsmap V :=
  filter (fun e => negb (String.eqb (fst e) k)) m.

(** [{ code, expiresAt, used, ip, createdAt }]. *)
Record entry : Type := mkEntry {
  e_code : string;
  e_expiresAt : Z;
  e_used : bool;
  e_ip : option string;
  e_createdAt : Z
}.

(** [this.store] and [this.rateLimitStore]. *)
Record state : Type := mkState {
  store : jsmap entry;
  rateLimitStore : jsmap Z
}.

Definition EXPIRE_TIME : Z := 10 * 60 * 1000.
Definition RATE_LIMIT_INTERVAL : Z := 60 * 1000.

(** [_getKey(email, type)]. *)
Definition _getKey (email type : string) : string :=
  toLowerCase email ++ ":" ++ type.

(** [checkRateLimit(email)], with [Date.now()] as [now]. *)
Definition checkRateLimit (email : string) (now : Z) (st : state) : bool :=
  match map_get (toLowerCase email) (rateLimitStore st) with
  | Some lastSendTime =>
      if negb (lastSendTime =? 0) && (now - lastSendTime <? RATE_LIMIT_INTERVAL)
      then false else true
  | None => true
  end.

(** [Math.ceil(a / 1000)] on integers. *)
Definition ceil_div_1000 (a : Z) : Z := - ((- a) / 1000).

(** [getRateLimitRemaining(email)]. *)
Definition getRateLimitRemaining (email : string) (now : Z) (st : state) : Z :=
  match map_get (toLowerCase email) (rateLimitStore st) with
  | Some lastSendTime =>
      if lastSendTime =? 0 then 0
      else
        let remaining := ceil_div_1000 (RATE_LIMIT_INTERVAL - (now - lastSendTime)) in
        if 0 <? remaining then remaining else 0
  | None => 0
  end.

(** [save(email, type, code, ip)]. *)
Definition save (email type code : string) (ip : option string) (now : Z) (st : state)
  : state :=
  mkState
    (map_set (_getKey email type) (mkEntry code (now + EXPIRE_TIME) false ip now) (store st))
    (map_set (toLowerCase email) now (rateLimitStore st)).

(** [verify(email, code, type)]. *)
Definition verify (email code type : string) (now : Z) (st : state) : bool * state :=
  let key := _getKey email type in
  match map_get key (store st) with
  | None => (false, st)
  | Some record =>
      if e_used record then (false, st)
      else if e_expiresAt record <? now
      then (false, mkState (map_delete key (store st)) (rateLimitStore st))
      else if negb (String.eqb (e_code record) code) then (false, st)
      else
        (true,
         mkState
           (map_set key (mkEntry (e_code record) (e_expiresAt record) true (e_ip record)
                           (e_createdAt record)) (store st))
           (rateLimitStore st))
  end.

(** [delete(email, type)]. *)
Definition delete (email type : string) (st : state) : state :=
  mkState (map_delete (_getKey email type) (store st)) (rateLimitStore st).

(** [cleanup()]. *)
Definition cleanup (now : Z) (st : state) : state :=
  let oneHourAgo := now - 60 * 60 * 1000 in
  mkState
    (filter (fun e => negb (e_expiresAt (snd e) <? now)) (store st))
    (filter (fun e => negb (snd e <? oneHourAgo)) (rateLimitStore st)).

(** A [Map] holds one entry for a key. *)
Definition keys_unique (st : state) : Prop :=
  NoDup (map fst (store st)) /\ NoDup (map fst (rateLimitStore st)).

End VerificationStore.

(* ================================================================== *)
(** * Part XIX.  The client address                                    *)
(* ================================================================== *)

Module IpUtils.
Import JS Gateway CallbackDomain ChannelClose.

Definition upper_char (c : ascii) : ascii :=
  let n := nat_of_ascii c in
  if ((97 <=? n) && (n <=? 122))%nat then ascii_of_nat (n - 32) else c.

(** [s.toUpperCase()] on ASCII text. *)
Fixpoint toUpperCase (s : string) : string :=
  match s with
  | EmptyString => EmptyString
  | String c r => String (upper_char c) (toUpperCase r)
  end.

(** [normalizeIp(ip)]. *)
Definition normalizeIp (ip : string) : string :=
  if String.eqb ip "" then ""
  else if startsWith ip "::ffff:" then substring 7 (String.length ip - 7) ip
  else ip.

Definition IP_HEADERS : list string :=
  ["cf-connecting-ip"; "true-client-ip"; "tencent-client-ip"; "ali-cdn-real-ip";
   "eo-connecting-ip"; "x-real-ip"].

(** [obj[name]] on the headers object. *)
Fixpoint header (name : string) (headers : list (string * string)) : option string :=
  match headers with
  | [] => None
  | (k, v) :: rest => if String.eqb k name then Some v else header name rest
  end.

(** [a || b] on values that are strings or undefined. *)
Definition or_else (a b : option string) : option string :=
  if present a then a else b.

(** [getHeader(headers, name)]. *)
Definition getHeader (headers : list (string * string)) (name : string) : option string :=
  or_else (header name headers)
    (or_else (header (toLowerCase name) headers) (header (toUpperCase name) headers)).

Section WithNet.

(** [net.isIP(ip)]: 0, 4 or 6. *)
Variable isIP : string -> Z.

Definition isValidIp (ip : string) : bool := negb (isIP ip =? 0).

(** The loop over [IP_HEADERS]: the first header with a value whose
    normal form is an address. *)
Fixpoint first_header_ip (names : list string) (headers : list (string * string))
  : option string :=
  match names with
  | [] => None
  | name :: rest =>
      let value := getHeader headers name in
      if present value && isValidIp (normalizeIp (trim (text value)))
      then Some (normalizeIp (trim (text value)))
      else first_header_ip rest headers
  end.

(** [getClientIp(req)]; [remoteAddress] is
    [req.connection?.remoteAddress || req.socket?.remoteAddress]. *)
Definition getClientIp (headers : list (string * string)) (remoteAddress : option string)
  : option string :=
  match first_header_ip IP_HEADERS headers with
  | Some ip => Some ip
  | None =>
      let xff := getHeader headers "x-forwarded-for" in
      let firstIp := hd "" (split_commas (text xff) "") in
      if present xff && negb (String.eqb firstIp "")
         && isValidIp (normalizeIp (trim firstIp))
      then Some (normalizeIp (trim firstIp))
      else if present remoteAddress && isValidIp (normalizeIp (text remoteAddress))
      then Some (normalizeIp (text remoteAddress))
      else None
  end.

(** [getClientIP(req)] of the pay router: [getClientIp(req) || req.ip]. *)
Definition getClientIP (headers : list (string * string)) (remoteAddress : option string)
    (req_ip : option string) : option string :=
  or_else (getClientIp headers remoteAddress) req_ip.

End WithNet.

End IpUtils.

(* ================================================================== *)
(** * Part XX.  The routes of the merchant API                         *)
(* ================================================================== *)

Module Routes.
Import JS Fee Channel Store Gateway Query.

(** The handlers that [router.all] registers for the merchant API. *)
Inductive endpoint : Type :=
| V1Submit       (* router.all('/submit', async ...) *)
| V1Mapi         (* router.all('/mapi', async ...) *)
| V1Query        (* router.all('/query', async ...) *)
| Create         (* router.all('/create', async ...) *)
| V2Query        (* router.all('/v2/query', async ...) *)
| HandleSubmit   (* handleSubmit *)
| HandleMapi     (* handleMapi *)
| HandleQuery    (* handleQuery *)
| ApiPhp.        (* router.all('/api.php', async ...) *)

(** The registrations, in the order in which the router file makes
    them.  The routes registered between them have other paths. *)
Definition registrations : list (string * endpoint) :=
  [("/submit", V1Submit); ("/mapi", V1Mapi); ("/query", V1Query);
   ("/create", Create); ("/v2/query", V2Query);
   ("/submit", HandleSubmit); ("/submit.php", HandleSubmit);
   ("/mapi", HandleMapi); ("/mapi.php", HandleMapi);
   ("/query", HandleQuery); ("/api.php", ApiPhp)].

(** A request goes to the first handler registered for its path; none
    of these handlers passes it on with [next()]. *)
Definition route (path : string) : option endpoint :=
  option_map snd (find (fun r => String.eqb (fst r) path) registrations).

(** [sign_type || (isV2 ? 'RSA' : 'MD5')] in [handleQuery]. *)
Definition query_effectiveSignType (req : query_request) : string :=
  if present (k_sign_type req) then text (k_sign_type req)
  else if present (k_timestamp req) then "RSA" else "MD5".

(** The same query sent with another [sign_type] and [timestamp]. *)
Definition query_with_sign_type_and_timestamp (sign_type timestamp : option string)
    (req : query_request) : query_request :=
  mkQuery (k_pid req) (k_trade_no req) (k_out_trade_no req) (k_sign req)
          sign_type timestamp.

(** The parameters [handleQuery] and the V1 query insist on. *)
Definition query_params_present (req : query_request) : bool :=
  present (k_pid req) && present (k_sign req)
  && (present (k_trade_no req) || present (k_out_trade_no req)).

(** A query that has passed the checks [handleQuery] makes before the
    signature. *)
Definition query_reaches_signature_check (date_now : Z) (req : query_request) (s : db)
    (m : merchant) : Prop :=
  query_params_present req = true /\
  (present (k_timestamp req) = true ->
   validateTimestamp date_now (as_value (k_timestamp req)) = true) /\
  getMerchantByPid (text (k_pid req)) s = Some m.

Section Handlers.

Variable verifySignRSA : list (string * string) -> string -> string -> bool.
Variable verifySignMD5 : list (string * string) -> string -> string -> bool.

(** [router.all('/api.php')]: [None] is the reply to an unknown [act]. *)
Definition api_php (act : option string) (date_now : Z) (req : query_request) (s : db)
  : option query_outcome :=
  match act with
  | Some "order" => Some (handleQuery verifySignRSA verifySignMD5 date_now req s)
  | _ => None
  end.

End Handlers.

End Routes.

(* ================================================================== *)
(** * Part XXI.  The statements of the cashier routes and of            *)
(**   [createOrder], one by one                                         *)
(* ================================================================== *)

Module Statements.
Import JS Fee Channel Store Gateway Settlement.

(** A call that writes to [orders] on the way to a payment: the body of
    [/dopay], the body of [/select_channel], and [createOrder]. *)
Inductive call : Type :=
| Dopay (r : Q) (trade_no pay_type : option string) (group_id : option Z)
| SelectChannel (trade_no pay_type : option string)
| CreateOrder (now : Z) (d : order_data).

(** Where a call stands: the awaited statement it executes next, with
    the local variables that are live there. *)
Inductive point : Type :=
| Start
| DopayChannel (order : order)
| DopaySelect (order : order) (finalPayType : string)
| DopayMerchant (order : order) (channelConfig : channel) (finalPayType : string)
| DopayFeeRate (order : order) (channelConfig : channel) (finalPayType : string)
    (merchant : option merchant)
| DopayLock (order : order) (channelConfig : channel) (finalPayType : string)
    (feeRate : option Q) (feePayer : string)
| DopayDone (outcome : dopay_outcome)
| SelectUpdate (order : order)
| SelectDone (reply : option cashier_error)
| CreateWrite (existingOrders : option order)
| CreateDone (result : create_result).

Section Steps.

Variable getMerchantFeeRate_dopay : option merchant -> string -> db -> option Q.

(** One awaited statement of a call, with the synchronous code up to the
    next one.  [None]: the call has returned. *)
Definition statement (q : call) (p : point) (s : db) : option (point * db) :=
  match q, p with
  | Dopay r trade_no pay_type group_id, Start =>
      if negb (present trade_no) then Some (DopayDone (DopayRejected NoTradeNo), s)
      else
        (* SELECT * FROM orders WHERE trade_no = ? *)
        match orders_by_trade_no (text trade_no) s with
        | [] => Some (DopayDone (DopayRejected OrderNotFound), s)
        | order :: _ =>
            if negb (o_status order =? 0)
            then Some (DopayDone (DopayRejected OrderStatusInvalid), s)
            else if channel_locked order then Some (DopayChannel order, s)
            else
              let finalPayType :=
                if present pay_type then text pay_type else o_pay_type order in
              if String.eqb finalPayType ""
              then Some (DopayDone (DopayRejected NoPayType), s)
              else Some (DopaySelect order finalPayType, s)
        end
  | Dopay _ _ _ _, DopayChannel order =>
      (* SELECT ... FROM provider_channels WHERE id = ? *)
      match channels_by_id (match o_channel_id order with Some c => c | None => 0 end) s with
      | [] => Some (DopayDone (DopayRejected ChannelGone), s)
      | channelConfig :: _ =>
          Some (DopayDone (Dispatch order channelConfig (o_pay_type order)), s)
      end
  | Dopay r _ _ group_id, DopaySelect order finalPayType =>
      (* selectChannelFromGroup(finalPayType, group_id, {minAge}) *)
      match selectChannelFromGroup r finalPayType group_id (merchantMinAge order) s with
      | SelectThrows => Some (DopayDone (DopayRejected CashierThrows), s)
      | NoChannel => Some (DopayDone (DopayRejected NoEligibleChannel), s)
      | Selected channelConfig => Some (DopayMerchant order channelConfig finalPayType, s)
      end
  | Dopay _ _ _ _, DopayMerchant order channelConfig finalPayType =>
      (* SELECT fee_rate ..., fee_payer, pay_group_id FROM merchants WHERE user_id = ? *)
      Some (DopayFeeRate order channelConfig finalPayType
              (hd_error (merchants_by_user_id (o_merchant_id order) s)), s)
  | Dopay _ _ _ _, DopayFeeRate order channelConfig finalPayType merchant =>
      (* getMerchantFeeRate(merchant, finalPayType) *)
      let feeRate := getMerchantFeeRate_dopay merchant finalPayType s in
      let feePayer :=
        match merchant with
        | Some m => fee_payer_of m
        | None => "merchant"
        end in
      Some (DopayLock order channelConfig finalPayType feeRate feePayer, s)
  | Dopay _ _ _ _, DopayLock order channelConfig finalPayType feeRate feePayer =>
      (* UPDATE orders SET channel_id = ?, pay_type = ?, plugin_name = ?,
         fee_money = ?, real_money = ?, fee_payer = ? WHERE id = ? *)
      let moneyFloat := o_money order in
      let fee := feeMoney moneyFloat feeRate in
      let real := realMoney moneyFloat fee feePayer in
      Some (DopayDone (Dispatch (local_after_lock (ch_id channelConfig) real order)
                         channelConfig finalPayType),
            update_order_where_id (o_id order)
              (lock_update (ch_id channelConfig) finalPayType
                 (ch_plugin_name channelConfig) fee real feePayer) s)
  | SelectChannel trade_no pay_type, Start =>
      if negb (present trade_no) then Some (SelectDone (Some NoTradeNo), s)
      else if negb (present pay_type) then Some (SelectDone (Some NoPayTypeGiven), s)
      else
        (* SELECT * FROM orders WHERE trade_no = ? *)
        match orders_by_trade_no (text trade_no) s with
        | [] => Some (SelectDone (Some OrderNotFound), s)
        | order :: _ =>
            if negb (o_status order =? 0) then Some (SelectDone (Some OrderStatusInvalid), s)
            else Some (SelectUpdate order, s)
        end
  | SelectChannel _ pay_type, SelectUpdate order =>
      (* UPDATE orders SET pay_type = ? WHERE id = ? *)
      Some (SelectDone None,
            update_order_where_id (o_id order) (set_pay_type (text pay_type)) s)
  | CreateOrder _ d, Start =>
      (* SELECT * FROM orders WHERE merchant_id = ? AND out_trade_no = ?
         AND status = 0 ORDER BY id DESC LIMIT 1 *)
      Some (CreateWrite (existing_pending_order (merchantId d) (outTradeNo d) s), s)
  | CreateOrder now d, CreateWrite existingOrders =>
      let moneyFloat := money d in
      let fee := feeMoney moneyFloat (feeRate d) in
      let real := realMoney moneyFloat fee (feePayer d) in
      match existingOrders with
      | Some existingOrder =>
          (* UPDATE orders SET channel_id = ?, pay_type = ?, ... WHERE id = ? *)
          Some (CreateDone (mkCreateResult (o_id existingOrder) (o_trade_no existingOrder) true),
                update_order_where_id (o_id existingOrder) (reuse_update d fee real) s)
      | None =>
          (* INSERT INTO orders (...) VALUES (...) *)
          let id := next_order_id s in
          Some (CreateDone (mkCreateResult id (tradeNo d) false),
                mkDb (orders s ++ [inserted_row id now d fee real])
                     (merchants s) (channels s) (pay_groups s) (channel_groups s) (id + 1))
      end
  | _, _ => None
  end.

(** One call served alone, statement after statement. *)
Fixpoint serve (fuel : nat) (q : call) (p : point) (s : db) : point * db :=
  match fuel with
  | O => (p, s)
  | S n =>
      match statement q p s with
      | Some (p', s') => serve n q p' s'
      | None => (p, s)
      end
  end.

(** No call has more than five statements. *)
Definition alone (q : call) (s : db) : point * db := serve 5 q Start s.

(** The calls in flight: the store they share and where each stands. *)
Record system : Type := mkSystem {
  sys_store : db;
  points : list point
}.

(** The next thing to happen: a call executes its next statement, or a
    payment callback executes one of its own. *)
Inductive interleave (qs : list call) : system -> system -> Prop :=
| CallStep (i : nat) (q : call) (p p' : point) (c : system) (s' : db) :
    nth_error qs i = Some q ->
    nth_error (points c) i = Some p ->
    statement q p (sys_store c) = Some (p', s') ->
    interleave qs c (mkSystem s' (set_nth i p' (points c)))
| CallbackStep (me : nat) (d : delivery) (p p' : pc) (h h' : shared) (c : system) :
    store h = sys_store c ->
    step me d p h = Some (p', h') ->
    interleave qs c (mkSystem (store h') (points c)).

Inductive interleaving (qs : list call) : system -> system -> Prop :=
| InterleavingRefl (c : system) : interleaving qs c c
| InterleavingCons (c1 c2 c3 : system) :
    interleave qs c1 c2 -> interleaving qs c2 c3 -> interleaving qs c1 c3.

(** The calls take their statements in the order [schedule] gives:
    each entry names the call that goes next.  [None]: the schedule names
    a call that has returned, or none at all. *)
Fixpoint run_schedule (qs : list call) (schedule : list nat) (c : system) : option system :=
  match schedule with
  | [] => Some c
  | i :: rest =>
      match nth_error qs i, nth_error (points c) i with
      | Some q, Some p =>
          match statement q p (sys_store c) with
          | Some (p', s') => run_schedule qs rest (mkSystem s' (set_nth i p' (points c)))
          | None => None
          end
      | _, _ => None
      end
  end.

End Steps.

(** The order row a call has read and is going to write. *)
Definition row_in_hand (p : point) : option order :=
  match p with
  | DopaySelect o _ | DopayMerchant o _ _ | DopayFeeRate o _ _ _ | DopayLock o _ _ _ _
  | SelectUpdate o | CreateWrite (Some o) => Some o
  | _ => None
  end.

(** The call is not about to write the channel of order [k]: it holds no
    copy of that row read before the row carried a channel, and it is no
    [createOrder] that has found the row pending. *)
Definition leaves_channel_of (k : Z) (p : point) : Prop :=
  match p with
  | DopaySelect o _ | DopayMerchant o _ _ | DopayFeeRate o _ _ _ | DopayLock o _ _ _ _
  | CreateWrite (Some o) => o_id o <> k
  | _ => True
  end.

(** The call is a submission for the merchant and out-trade-no of [o]. *)
Definition resubmits (o : order) (q : call) : Prop :=
  match q with
  | CreateOrder _ d => merchantId d = o_merchant_id o /\ outTradeNo d = o_out_trade_no o
  | _ => False
  end.

(** The statements that write [channel_id]. *)
Definition writes_channel (p : point) : bool :=
  match p with
  | DopayLock _ _ _ _ _ | CreateWrite (Some _) => true
  | _ => false
  end.

(** The columns of an order row that identify it and name its channel. *)
Definition lock_columns (o : order) : Z * option Z * Z * string :=
  (o_id o, o_channel_id o, o_merchant_id o, o_out_trade_no o).

(** Row [i] of the store is the order [o] as far as its id, channel,
    merchant and out-trade-no go. *)
Definition holds_channel (i : nat) (o : order) (s : db) : Prop :=
  exists o', nth_error (orders s) i = Some o' /\ lock_columns o' = lock_columns o.

(** The order [o] sits in row [i] with its channel, the ids of the table
    are in order, and no call in flight is about to write that channel. *)
Definition channel_safe (i : nat) (o : order) (c : system) : Prop :=
  ids_unique (sys_store c) /\
  OrderTable.ids_below_next (sys_store c) /\
  holds_channel i o (sys_store c) /\
  forall j p, nth_error (points c) j = Some p -> leaves_channel_of (o_id o) p.

(** The calls as they arrive. *)
Definition arriving (s : db) (qs : list call) : system :=
  mkSystem s (map (fun _ => Start) qs).

End Statements.

(* ================================================================== *)
(** * Theorems                                                          *)
(* ================================================================== *)

Section DoubleFacts.
Import JS.
Local Open Scope Q_scope.

Lemma pow2_pos (e : Z) : 0 < pow2 e.
Proof. apply Qpower_0_lt. reflexivity. Qed.

Lemma pow2_plus (a b : Z) : pow2 (a + b) == pow2 a * pow2 b.
Proof. apply Qpower_plus. discriminate. Qed.

Lemma pow2_le (a b : Z) : (a <= b)%Z -> pow2 a <= pow2 b.
Proof. intros H. apply Qpower_le_compat_l; [exact H | discriminate]. Qed.

Lemma pow2_lt (a b : Z) : (a < b)%Z -> pow2 a < pow2 b.
Proof. intros H. apply Qpower_lt_compat_l; [exact H | reflexivity]. Qed.

Lemma pow2_Z (e : Z) : (0 <= e)%Z -> pow2 e == inject_Z (2 ^ e).
Proof. intros H. unfold pow2. rewrite Zpower_Qpower by exact H. reflexivity. Qed.

Lemma pow2_succ (e : Z) : pow2 (e + 1) == 2 * pow2 e.
Proof. rewrite pow2_plus. change (pow2 1) with 2. ring. Qed.

Lemma Q_times_den (a : Q) : a * inject_Z (Zpos (Qden a)) == inject_Z (Qnum a).
Proof. destruct a as [n d]. unfold Qeq. simpl. rewrite Pos.mul_1_r. lia. Qed.

(** ** The binary logarithm *)

Lemma ilog2_spec (a : Q) : 0 < a -> pow2 (ilog2 a) <= a /\ a < pow2 (ilog2 a + 1).
Proof.
  intros Ha.
  assert (Hn : (0 < Qnum a)%Z).
  { destruct a as [n d]. unfold Qlt in Ha. simpl in *. lia. }
  set (n := Qnum a) in *. set (d := Zpos (Qden a)).
  assert (Hd : (0 < d)%Z) by reflexivity.
  destruct (Z.log2_spec n Hn) as [Hn1 Hn2].
  destruct (Z.log2_spec d Hd) as [Hd1 Hd2].
  set (ln := Z.log2 n) in *. set (ld := Z.log2 d) in *.
  assert (Hln : (0 <= ln)%Z) by apply Z.log2_nonneg.
  assert (Hld : (0 <= ld)%Z) by apply Z.log2_nonneg.
  assert (Hdq : 0 < inject_Z d) by (rewrite <- (Zlt_Qlt 0); exact Hd).
  assert (Ea : a * inject_Z d == inject_Z n).
  { apply Q_times_den. }
  (* a < pow2 (ln - ld + 1) *)
  assert (Hup : a < pow2 (ln - ld + 1)).
  { apply (Qmult_lt_r _ _ (inject_Z d) Hdq). rewrite Ea.
    apply Qlt_le_trans with (pow2 (ln + 1)).
    - rewrite pow2_Z by lia. rewrite <- Zlt_Qlt. replace (ln + 1)%Z with (Z.succ ln) by lia.
      exact Hn2.
    - replace (ln + 1)%Z with ((ln - ld + 1) + ld)%Z by lia.
      rewrite pow2_plus.
      apply Qmult_le_l; [apply pow2_pos |].
      rewrite pow2_Z by lia. rewrite <- Zle_Qle. exact Hd1. }
  (* pow2 (ln - ld - 1) <= a *)
  assert (Hlo : pow2 (ln - ld - 1) <= a).
  { apply (Qmult_le_r _ _ (inject_Z d) Hdq). rewrite Ea.
    apply Qle_trans with (pow2 ln).
    - replace ln with ((ln - ld - 1) + (ld + 1))%Z at 2 by lia.
      rewrite pow2_plus.
      apply Qmult_le_l; [apply pow2_pos |].
      rewrite pow2_Z by lia. rewrite <- Zle_Qle. replace (ld + 1)%Z with (Z.succ ld) by lia.
      lia.
    - rewrite pow2_Z by lia. rewrite <- Zle_Qle. exact Hn1. }
  unfold ilog2. fold n d ln ld.
  destruct (Qle_bool (pow2 (ln - ld)) a) eqn:E.
  - apply Qle_bool_iff in E. split; [exact E | exact Hup].
  - split; [exact Hlo |].
    replace (ln - ld - 1 + 1)%Z with (ln - ld)%Z by lia.
    apply Qnot_le_lt. intros H. apply Qle_bool_iff in H. congruence.
Qed.

Lemma ilog2_unique (a : Q) (k : Z) :
  pow2 k <= a -> a < pow2 (k + 1) -> ilog2 a = k.
Proof.
  intros H1 H2.
  assert (Ha : 0 < a) by (eapply Qlt_le_trans; [apply pow2_pos | exact H1]).
  destruct (ilog2_spec a Ha) as [H3 H4].
  assert (A : (ilog2 a < k + 1)%Z).
  { apply (Qpower_lt_compat_l_inv 2); [| reflexivity]. fold (pow2 (ilog2 a)) (pow2 (k + 1)).
    eapply Qle_lt_trans; eauto. }
  assert (B : (k < ilog2 a + 1)%Z).
  { apply (Qpower_lt_compat_l_inv 2); [| reflexivity]. fold (pow2 k) (pow2 (ilog2 a + 1)).
    eapply Qle_lt_trans; eauto. }
  lia.
Qed.

Lemma ilog2_comp (a b : Q) : 0 < a -> a == b -> ilog2 a = ilog2 b.
Proof.
  intros Ha E. symmetry. destruct (ilog2_spec a Ha) as [H1 H2].
  apply ilog2_unique; rewrite <- E; assumption.
Qed.

(** ** The nearest integer *)

Lemma even_nearest_bounds (x : Q) :
  (Qfloor x <= even_nearest x <= Qfloor x + 1)%Z.
Proof.
  unfold even_nearest.
  destruct (Qcompare _ _); [destruct (Z.even _) | |]; lia.
Qed.

Lemma even_nearest_Z (x : Q) (k : Z) : x == inject_Z k -> even_nearest x = k.
Proof.
  intros E. unfold even_nearest.
  assert (Hf : Qfloor x = k) by (rewrite (Qfloor_comp _ _ E); apply Qfloor_Z).
  rewrite Hf.
  destruct (Qcompare (x - inject_Z k) (1 # 2)) eqn:C;
    [apply Qeq_alt in C; lra | reflexivity | apply Qgt_alt in C; lra].
Qed.

Lemma even_nearest_le (x : Q) (k : Z) : x <= inject_Z k -> (even_nearest x <= k)%Z.
Proof.
  intros H. destruct (Qeq_dec x (inject_Z k)) as [E | N].
  - rewrite (even_nearest_Z _ _ E). lia.
  - assert (Hlt : x < inject_Z k) by (apply Qle_lt_or_eq in H; tauto).
    pose proof (Qfloor_le x) as Hf.
    assert (A : inject_Z (Qfloor x) < inject_Z k) by lra.
    rewrite <- Zlt_Qlt in A.
    pose proof (even_nearest_bounds x). lia.
Qed.

Lemma even_nearest_ge (x : Q) (k : Z) : inject_Z k <= x -> (k <= even_nearest x)%Z.
Proof.
  intros H. apply Qfloor_resp_le in H. rewrite Qfloor_Z in H.
  pose proof (even_nearest_bounds x). lia.
Qed.

(** No integer is nearer. *)
Lemma even_nearest_nearest (x : Q) (k : Z) :
  Qabs (inject_Z (even_nearest x) - x) <= Qabs (inject_Z k - x).
Proof.
  pose proof (Qfloor_le x) as Hf. pose proof (Qlt_floor x) as Hc.
  rewrite inject_Z_plus in Hc. change (inject_Z 1) with 1 in Hc.
  set (f := Qfloor x) in *.
  assert (Hm : (even_nearest x = f /\ x - inject_Z f <= 1 # 2) \/
               (even_nearest x = (f + 1)%Z /\ 1 # 2 <= x - inject_Z f)).
  { unfold even_nearest. fold f.
    destruct (Qcompare (x - inject_Z f) (1 # 2)) eqn:E.
    - apply Qeq_alt in E. destruct (Z.even f); [left | right]; split; try reflexivity; lra.
    - apply Qlt_alt in E. left. split; [reflexivity | lra].
    - apply Qgt_alt in E. right. split; [reflexivity | lra]. }
  destruct (Z.le_gt_cases k f) as [Hk | Hk].
  - assert (A : inject_Z k <= inject_Z f) by (rewrite <- Zle_Qle; exact Hk).
    rewrite (Qabs_neg (inject_Z k - x)) by lra.
    destruct Hm as [[-> H] | [-> H]].
    + rewrite (Qabs_neg (inject_Z f - x)) by lra. lra.
    + rewrite inject_Z_plus. change (inject_Z 1) with 1.
      rewrite (Qabs_pos (inject_Z f + 1 - x)) by lra. lra.
  - assert (A : inject_Z f + 1 <= inject_Z k).
    { change 1 with (inject_Z 1). rewrite <- inject_Z_plus, <- Zle_Qle. lia. }
    rewrite (Qabs_pos (inject_Z k - x)) by lra.
    destruct Hm as [[-> H] | [-> H]].
    + rewrite (Qabs_neg (inject_Z f - x)) by lra. lra.
    + rewrite inject_Z_plus. change (inject_Z 1) with 1.
      rewrite (Qabs_pos (inject_Z f + 1 - x)) by lra. lra.
Qed.

(** ** Doubles on the grid of a binade *)

Lemma Qabs_inject_Z (m : Z) : Qabs (inject_Z m) == inject_Z (Z.abs m).
Proof. unfold inject_Z. symmetry. apply Zabs_Qabs. Qed.

Lemma representable_multiple (b : Q) (e : Z) :
  representable b -> (-1074 <= e)%Z ->
  (e = (-1074)%Z \/ pow2 (e + 52) <= Qabs b) ->
  exists k : Z, b == inject_Z k * pow2 e.
Proof.
  intros (m & eb & Heb & Hm & Hb) He Hbig.
  destruct (Z.le_gt_cases e eb) as [Hle | Hgt].
  - exists (m * 2 ^ (eb - e))%Z.
    rewrite Hb, inject_Z_mult, <- pow2_Z by lia.
    replace eb with ((eb - e) + e)%Z at 1 by lia.
    rewrite pow2_plus. ring.
  - exfalso. destruct Hbig as [-> | Hbig]; [lia |].
    assert (A : Qabs b < pow2 (eb + 53)).
    { rewrite Hb, Qabs_Qmult, Qabs_inject_Z, (Qabs_pos (pow2 eb))
        by (apply Qlt_le_weak, pow2_pos).
      rewrite (Z.add_comm eb 53), pow2_plus.
      apply Qmult_lt_r; [apply pow2_pos |].
      rewrite pow2_Z by lia. rewrite <- Zlt_Qlt. exact Hm. }
    assert (B : pow2 (eb + 53) <= pow2 (e + 52)) by (apply pow2_le; lia).
    lra.
Qed.

Lemma representable_opp (b : Q) : representable b -> representable (- b).
Proof.
  intros (m & e & He & Hm & Hb). exists (- m)%Z, e.
  split; [exact He |]. split; [lia |].
  rewrite Hb, inject_Z_opp. ring.
Qed.

Lemma representable_comp (a b : Q) : a == b -> representable a -> representable b.
Proof.
  intros E (m & e & He & Hm & Ha). exists m, e. rewrite <- E. auto.
Qed.

Lemma representable_Z (k : Z) : (Z.abs k < 2 ^ 53)%Z -> representable (inject_Z k).
Proof.
  intros H. exists k, 0%Z. split; [lia |]. split; [exact H |].
  change (pow2 0) with 1. ring.
Qed.

Lemma representable_pow2 (e : Z) : (-1074 <= e)%Z -> representable (pow2 e).
Proof.
  intros H. exists 1%Z, e. split; [exact H |]. split; [reflexivity |]. ring.
Qed.

(** ** Rounding a positive rational *)

Section Positive.
Variable a : Q.
Hypothesis a_pos : 0 < a.

Let e := ulp_exponent a.
Let x := a / pow2 e.

Lemma ulp_exponent_min : (-1074 <= e)%Z.
Proof. unfold e, ulp_exponent. lia. Qed.

Lemma scaled_back : x * pow2 e == a.
Proof. unfold x. field. pose proof (pow2_pos e). lra. Qed.

Lemma scaled_pos : 0 < x.
Proof.
  unfold x. apply Qlt_shift_div_l; [apply pow2_pos |]. lra.
Qed.

(** Below [2^53] on the grid, and from [2^52] on unless subnormal. *)
Lemma scaled_lt : x < pow2 53.
Proof.
  unfold x. apply Qlt_shift_div_r; [apply pow2_pos |].
  rewrite <- pow2_plus.
  destruct (ilog2_spec a a_pos) as [_ H].
  eapply Qlt_le_trans; [exact H |]. apply pow2_le.
  unfold e, ulp_exponent. lia.
Qed.

Lemma scaled_ge : e <> (-1074)%Z -> pow2 52 <= x.
Proof.
  intros He. unfold x. apply Qle_shift_div_l; [apply pow2_pos |].
  rewrite <- pow2_plus.
  destruct (ilog2_spec a a_pos) as [H _].
  eapply Qle_trans; [| exact H]. apply pow2_le.
  unfold e, ulp_exponent in *. lia.
Qed.

Lemma grid_ge : e <> (-1074)%Z -> pow2 (e + 52) <= a.
Proof.
  intros He. rewrite <- scaled_back, (Z.add_comm e 52), pow2_plus.
  apply Qmult_le_r; [apply pow2_pos | apply scaled_ge; exact He].
Qed.

Lemma nearest64_pos_eq : nearest64_pos a = inject_Z (even_nearest x) * pow2 e.
Proof. reflexivity. Qed.

(** A double that is not below [a] is not below the rounded value. *)
Lemma nearest64_pos_le (b : Q) : representable b -> a <= b -> nearest64_pos a <= b.
Proof.
  intros Hb Hab. rewrite nearest64_pos_eq.
  destruct (representable_multiple b e Hb ulp_exponent_min) as [k Hk].
  { destruct (Z.eq_dec e (-1074)) as [He | He]; [left; exact He | right].
    rewrite (Qabs_pos b) by lra. pose proof (grid_ge He). lra. }
  rewrite Hk. apply Qmult_le_r; [apply pow2_pos |].
  rewrite <- Zle_Qle. apply even_nearest_le.
  apply (Qmult_le_r _ _ (pow2 e) (pow2_pos e)).
  rewrite scaled_back, <- Hk. exact Hab.
Qed.

(** The rounded value is at least [2^52] on the grid unless subnormal. *)
Lemma nearest64_pos_big : e <> (-1074)%Z -> pow2 (e + 52) <= nearest64_pos a.
Proof.
  intros He. rewrite nearest64_pos_eq, (Z.add_comm e 52), pow2_plus.
  apply Qmult_le_r; [apply pow2_pos |].
  rewrite pow2_Z by lia. rewrite <- Zle_Qle. apply even_nearest_ge.
  rewrite <- pow2_Z by lia. apply scaled_ge. exact He.
Qed.

Lemma nearest64_pos_nonneg : 0 <= nearest64_pos a.
Proof.
  rewrite nearest64_pos_eq.
  apply Qmult_le_0_compat; [| apply Qlt_le_weak, pow2_pos].
  change 0 with (inject_Z 0). rewrite <- Zle_Qle. apply even_nearest_ge.
  apply Qlt_le_weak, scaled_pos.
Qed.

(** A double that is not above [a] is not above the rounded value. *)
Lemma nearest64_pos_ge (b : Q) : representable b -> b <= a -> b <= nearest64_pos a.
Proof.
  intros Hb Hba.
  destruct (Qlt_le_dec b 0) as [Hneg | Hpos].
  { pose proof nearest64_pos_nonneg. lra. }
  destruct (Z.eq_dec e (-1074)) as [He | He].
  - destruct (representable_multiple b e Hb ulp_exponent_min (or_introl He)) as [k Hk].
    rewrite nearest64_pos_eq, Hk. apply Qmult_le_r; [apply pow2_pos |].
    rewrite <- Zle_Qle. apply even_nearest_ge.
    apply (Qmult_le_r _ _ (pow2 e) (pow2_pos e)).
    rewrite scaled_back, <- Hk. exact Hba.
  - destruct (Qlt_le_dec b (pow2 (e + 52))) as [Hsmall | Hbig].
    + pose proof (nearest64_pos_big He). lra.
    + destruct (representable_multiple b e Hb ulp_exponent_min) as [k Hk].
      { right. rewrite (Qabs_pos b) by exact Hpos. exact Hbig. }
      rewrite nearest64_pos_eq, Hk. apply Qmult_le_r; [apply pow2_pos |].
      rewrite <- Zle_Qle. apply even_nearest_ge.
      apply (Qmult_le_r _ _ (pow2 e) (pow2_pos e)).
      rewrite scaled_back, <- Hk. exact Hba.
Qed.

Lemma nearest64_pos_representable : representable (nearest64_pos a).
Proof.
  rewrite nearest64_pos_eq.
  assert (H0 : (0 <= even_nearest x)%Z).
  { apply even_nearest_ge. apply Qlt_le_weak, scaled_pos. }
  assert (H1 : (even_nearest x <= 2 ^ 53)%Z).
  { apply even_nearest_le. rewrite <- pow2_Z by lia. apply Qlt_le_weak, scaled_lt. }
  destruct (Z.eq_dec (even_nearest x) (2 ^ 53)) as [E | N].
  - exists (2 ^ 52)%Z, (e + 1)%Z.
    split; [pose proof ulp_exponent_min; lia |]. split; [reflexivity |].
    rewrite E, pow2_succ. rewrite <- !pow2_Z by lia.
    change (pow2 53) with (2 * pow2 52). ring.
  - exists (even_nearest x), e.
    split; [apply ulp_exponent_min |]. split; [lia | reflexivity].
Qed.

(** No double is nearer to [a]. *)
Lemma nearest64_pos_nearest (z : Q) :
  representable z -> Qabs (nearest64_pos a - a) <= Qabs (z - a).
Proof.
  intros Hz.
  assert (Hgrid : forall k : Z,
            Qabs (nearest64_pos a - a) <= Qabs (inject_Z k * pow2 e - a)).
  { intros k. rewrite nearest64_pos_eq.
    assert (E1 : inject_Z (even_nearest x) * pow2 e - a
                 == (inject_Z (even_nearest x) - x) * pow2 e)
      by (rewrite <- scaled_back at 1; ring).
    assert (E2 : inject_Z k * pow2 e - a == (inject_Z k - x) * pow2 e)
      by (rewrite <- scaled_back at 1; ring).
    rewrite E1, E2, !Qabs_Qmult.
    apply Qmult_le_compat_r; [apply even_nearest_nearest | apply Qabs_nonneg]. }
  destruct (Z.eq_dec e (-1074)) as [He | He].
  - destruct (representable_multiple z e Hz ulp_exponent_min (or_introl He)) as [k Hk].
    rewrite Hk. apply Hgrid.
  - destruct (Qlt_le_dec (Qabs z) (pow2 (e + 52))) as [Hsmall | Hbig].
    + (* [z] lies below the binade of [a] *)
      eapply Qle_trans; [apply (Hgrid (2 ^ 52)%Z) |].
      rewrite <- pow2_Z by lia.
      assert (E : pow2 52 * pow2 e == pow2 (e + 52))
        by (rewrite (Z.add_comm e 52), pow2_plus; reflexivity).
      rewrite E.
      pose proof (grid_ge He) as Hge.
      pose proof (Qle_Qabs z) as Hz1.
      rewrite (Qabs_neg (pow2 (e + 52) - a)) by lra.
      rewrite (Qabs_neg (z - a)) by lra. lra.
    + destruct (representable_multiple z e Hz ulp_exponent_min (or_intror Hbig)) as [k Hk].
      rewrite Hk. apply Hgrid.
Qed.

End Positive.

(** ** Rounding a rational *)

Lemma even_nearest_comp (x y : Q) : x == y -> even_nearest x = even_nearest y.
Proof.
  intros E. unfold even_nearest. rewrite (Qfloor_comp _ _ E).
  assert (C : Qcompare (x - inject_Z (Qfloor y)) (1 # 2)
              = Qcompare (y - inject_Z (Qfloor y)) (1 # 2)).
  { apply Qcompare_comp; [rewrite E; reflexivity | reflexivity]. }
  rewrite C. reflexivity.
Qed.

Lemma nearest64_pos_comp (a b : Q) : 0 < a -> a == b -> nearest64_pos a == nearest64_pos b.
Proof.
  intros Ha E. unfold nearest64_pos, ulp_exponent.
  rewrite (ilog2_comp a b Ha E).
  set (e := Z.max (ilog2 b - 52) (-1074)).
  assert (X : a / pow2 e == b / pow2 e) by (rewrite E; reflexivity).
  rewrite (even_nearest_comp _ _ X). reflexivity.
Qed.

Lemma nearest64_of_pos (q : Q) : 0 < q -> nearest64 q == nearest64_pos q.
Proof.
  intros H. unfold nearest64.
  destruct (Qcompare q 0) eqn:C;
    [apply Qeq_alt in C; lra | apply Qlt_alt in C; lra | apply Qred_correct].
Qed.

Lemma nearest64_of_neg (q : Q) : q < 0 -> nearest64 q == - nearest64_pos (- q).
Proof.
  intros H. unfold nearest64.
  destruct (Qcompare q 0) eqn:C;
    [apply Qeq_alt in C; lra | apply Qred_correct | apply Qgt_alt in C; lra].
Qed.

Lemma nearest64_of_zero (q : Q) : q == 0 -> nearest64 q = 0.
Proof.
  intros H. unfold nearest64.
  destruct (Qcompare q 0) eqn:C;
    [reflexivity | apply Qlt_alt in C; lra | apply Qgt_alt in C; lra].
Qed.

Lemma Qcompare_0_comp (a b : Q) : a == b -> Qcompare a 0 = Qcompare b 0.
Proof. intros E. apply Qcompare_comp; [exact E | reflexivity]. Qed.

(** Equal rationals round to the same double, digit for digit. *)
Lemma nearest64_comp (a b : Q) : a == b -> nearest64 a = nearest64 b.
Proof.
  intros E. unfold nearest64. rewrite (Qcompare_0_comp a b E).
  destruct (Qcompare b 0) eqn:C; [reflexivity | |].
  - apply Qred_complete. apply Qopp_comp. apply nearest64_pos_comp.
    + apply Qlt_alt in C. rewrite E. lra.
    + rewrite E. reflexivity.
  - apply Qred_complete. apply nearest64_pos_comp; [| exact E].
    apply Qgt_alt in C. rewrite E. exact C.
Qed.

Lemma nearest64_opp (q : Q) : nearest64 (- q) == - nearest64 q.
Proof.
  destruct (Q_dec q 0) as [[Hneg | Hpos] | Hz].
  - rewrite (nearest64_of_pos (- q)) by lra.
    rewrite (nearest64_of_neg q Hneg). ring.
  - rewrite (nearest64_of_neg (- q)) by lra.
    rewrite (nearest64_of_pos q Hpos).
    rewrite (nearest64_pos_comp (- - q) q) by (try lra; ring). reflexivity.
  - rewrite (nearest64_of_zero q Hz), (nearest64_of_zero (- q)) by (rewrite Hz; reflexivity).
    reflexivity.
Qed.

Lemma nearest64_representable (q : Q) : representable (nearest64 q).
Proof.
  destruct (Q_dec q 0) as [[Hneg | Hpos] | Hz].
  - apply (representable_comp (- nearest64_pos (- q)));
      [symmetry; apply nearest64_of_neg; exact Hneg |].
    apply representable_opp, nearest64_pos_representable. lra.
  - apply (representable_comp (nearest64_pos q));
      [symmetry; apply nearest64_of_pos; exact Hpos |].
    apply nearest64_pos_representable. exact Hpos.
  - rewrite (nearest64_of_zero q Hz). apply (representable_Z 0). reflexivity.
Qed.

(** Rounding does not cross a double. *)
Lemma nearest64_le (q b : Q) : representable b -> q <= b -> nearest64 q <= b.
Proof.
  intros Hb H.
  destruct (Q_dec q 0) as [[Hneg | Hpos] | Hz].
  - rewrite (nearest64_of_neg q Hneg).
    destruct (Qlt_le_dec b 0) as [Hbn | Hbp].
    + assert (A : - b <= nearest64_pos (- q)).
      { apply nearest64_pos_ge; [lra | apply representable_opp; exact Hb | lra]. }
      lra.
    + assert (A : 0 <= nearest64_pos (- q)) by (apply nearest64_pos_nonneg; lra).
      lra.
  - rewrite (nearest64_of_pos q Hpos). apply nearest64_pos_le; assumption.
  - rewrite (nearest64_of_zero q Hz). lra.
Qed.

Lemma nearest64_ge (q b : Q) : representable b -> b <= q -> b <= nearest64 q.
Proof.
  intros Hb H.
  assert (A : nearest64 (- q) <= - b).
  { apply nearest64_le; [apply representable_opp; exact Hb | lra]. }
  rewrite nearest64_opp in A. lra.
Qed.

(** A double is its own rounding. *)
Lemma nearest64_fixes (b : Q) : representable b -> nearest64 b == b.
Proof.
  intros Hb. apply Qle_antisym.
  - apply nearest64_le; [exact Hb | apply Qle_refl].
  - apply nearest64_ge; [exact Hb | apply Qle_refl].
Qed.

Lemma nearest64_nonneg (q : Q) : 0 <= q -> 0 <= nearest64 q.
Proof.
  intros H. apply nearest64_ge; [apply (representable_Z 0); reflexivity | exact H].
Qed.

(** The rounded value is a double nearest to the rational. *)
Lemma nearest64_nearest (q : Q) : nearest_double q (nearest64 q).
Proof.
  split; [apply nearest64_representable |].
  intros z Hz.
  destruct (Q_dec q 0) as [[Hneg | Hpos] | Hzero].
  - rewrite (nearest64_of_neg q Hneg).
    pose proof (nearest64_pos_nearest (- q) ltac:(lra) (- z) (representable_opp _ Hz)) as H.
    assert (E1 : - nearest64_pos (- q) - q == - (nearest64_pos (- q) - - q)) by ring.
    assert (E2 : z - q == - (- z - - q)) by ring.
    rewrite E1, E2, !Qabs_opp. exact H.
  - rewrite (nearest64_of_pos q Hpos). apply nearest64_pos_nearest; assumption.
  - rewrite (nearest64_of_zero q Hzero).
    destruct (Qlt_le_dec 0 z) as [Hp | Hn].
    + (* nothing is nearer to 0 than 0 *)
      assert (E : 0 - q == 0) by (rewrite Hzero; reflexivity).
      rewrite E. apply Qabs_nonneg.
    + assert (E : 0 - q == 0) by (rewrite Hzero; reflexivity).
      rewrite E. apply Qabs_nonneg.
Qed.

Lemma nearest64_monotone (p q : Q) : p <= q -> nearest64 p <= nearest64 q.
Proof.
  intros H.
  destruct (Qlt_le_dec (nearest64 q) (nearest64 p)) as [Hlt | Hge]; [| exact Hge].
  exfalso.
  assert (A : nearest64 q < p).
  { apply Qnot_le_lt. intros C.
    pose proof (nearest64_le p (nearest64 q) (nearest64_representable q) C). lra. }
  assert (B : q < nearest64 p).
  { apply Qnot_le_lt. intros C.
    pose proof (nearest64_ge q (nearest64 p) (nearest64_representable p) C). lra. }
  destruct (nearest64_nearest p) as [_ Np]. destruct (nearest64_nearest q) as [_ Nq].
  specialize (Np (nearest64 q) (nearest64_representable q)).
  specialize (Nq (nearest64 p) (nearest64_representable p)).
  rewrite (Qabs_pos (nearest64 p - p)) in Np by lra.
  rewrite (Qabs_neg (nearest64 q - p)) in Np by lra.
  rewrite (Qabs_neg (nearest64 q - q)) in Nq by lra.
  rewrite (Qabs_pos (nearest64 p - q)) in Nq by lra.
  assert (E : p == q) by lra.
  rewrite (nearest64_comp p q E) in Hlt. lra.
Qed.

(** ** The Number value *)

Lemma round64_finite (q y : Q) :
  round64 q = Fin y -> y = nearest64 q /\ is_double y.
Proof.
  unfold round64. destruct (Qle_bool (pow2 1024) (Qabs (nearest64 q))) eqn:E; [discriminate |].
  intros H. injection H as <-. split; [reflexivity |].
  split; [apply nearest64_representable |].
  apply Qnot_le_lt. intros H. apply Qle_bool_iff in H. congruence.
Qed.

Lemma round64_in_range (q : Q) :
  Qabs (nearest64 q) < pow2 1024 -> round64 q = Fin (nearest64 q).
Proof.
  intros H. unfold round64.
  destruct (Qle_bool (pow2 1024) (Qabs (nearest64 q))) eqn:E; [| reflexivity].
  apply Qle_bool_iff in E. lra.
Qed.

Lemma round64_comp (a b : Q) : a == b -> round64 a = round64 b.
Proof. intros E. unfold round64. rewrite (nearest64_comp a b E). reflexivity. Qed.

(** A double is the Number value of itself. *)
Lemma round64_double (x : Q) : is_double x -> exists y, round64 x = Fin y /\ y == x.
Proof.
  intros [Hr Hb]. exists (nearest64 x).
  pose proof (nearest64_fixes x Hr) as E.
  split; [| exact E]. apply round64_in_range. rewrite E. exact Hb.
Qed.

End DoubleFacts.

Section FeeFacts.
Import JS Fee.

Lemma normalize_of_number (n : number) :
  normalizeRateToDecimal (VNum n) =
  if isNaN n then Fin 0 else if num_geb n 1 then num_div n 100 else n.
Proof. reflexivity. Qed.

Lemma Qle_bool_false_lt (a b : Q) : Qle_bool a b = false -> (b < a)%Q.
Proof.
  intros H. apply Qnot_le_lt. intros Hle.
  apply Qle_bool_iff in Hle. congruence.
Qed.

Lemma Qle_bool_true_le (a b : Q) : Qle_bool a b = true -> (a <= b)%Q.
Proof. apply Qle_bool_iff. Qed.

Lemma Qle_bool_of_le (a b : Q) : (a <= b)%Q -> Qle_bool a b = true.
Proof. apply Qle_bool_iff. Qed.

Lemma Qle_bool_of_lt (a b : Q) : (b < a)%Q -> Qle_bool a b = false.
Proof.
  intros H. destruct (Qle_bool a b) eqn:E; [|reflexivity].
  apply Qle_bool_iff in E. exfalso. apply (Qlt_not_le _ _ H E).
Qed.

(** ** Parsed numbers are doubles *)

Lemma parseFloat_string_double (s : string) (x : Q) :
  parseFloat_string s = Fin x -> is_double x.
Proof.
  unfold parseFloat_string.
  destruct (take_sign (skip_ws s)) as [neg s1].
  destruct (prefix "Infinity" s1); [discriminate |].
  destruct (take_digits digit_of s1) as [ip s2].
  destruct (match s2 with String "." r => take_digits digit_of r | _ => ([], s2) end)
    as [fp s3].
  destruct (ip ++ fp)%list; [discriminate |].
  intros H. apply round64_finite in H. apply H.
Qed.

Lemma parseFloat_double (r : value) (x : Q) :
  is_js_value r -> parseFloat r = Fin x -> is_double x.
Proof.
  intros Hr H. destruct r as [| | b | n | s]; simpl in H;
    try (apply parseFloat_string_double in H; exact H).
  subst n. exact Hr.
Qed.

(** ** Division by 100 in binary64 *)

Lemma pow2_1024_big : (1 <= pow2 1024)%Q.
Proof. change 1%Q with (pow2 0). apply pow2_le. lia. Qed.

(** The doubles below 100 end one step of [2^-46] below it. *)
Lemma double_below_100 (x : Q) :
  representable x -> (x < 100)%Q -> (x <= 100 - (1 # 70368744177664))%Q.
Proof.
  intros Hx Hlt.
  destruct (Qlt_le_dec x 64) as [Hs | Hb]; [lra |].
  destruct (representable_multiple x (-46) Hx ltac:(lia)) as [k Hk].
  { right. rewrite (Qabs_pos x) by lra. exact Hb. }
  assert (E : (pow2 (-46) == 1 # 70368744177664)%Q) by reflexivity.
  rewrite E in Hk.
  assert (A : (inject_Z k < inject_Z 7036874417766400)%Q).
  { change (inject_Z 7036874417766400) with (7036874417766400 # 1)%Q. lra. }
  rewrite <- Zlt_Qlt in A.
  assert (B : (inject_Z k <= inject_Z 7036874417766399)%Q) by (rewrite <- Zle_Qle; lia).
  change (inject_Z 7036874417766399) with (7036874417766399 # 1)%Q in B.
  lra.
Qed.

(** A double from 1 to below 100 divides to a double below 1. *)
Lemma div_100_below_1 (x : Q) :
  is_double x -> (1 <= x)%Q -> (x < 100)%Q ->
  exists y, round64 (x / 100) = Fin y /\ (0 <= y)%Q /\ (y < 1)%Q.
Proof.
  intros [Hx _] H1 H100.
  pose proof (double_below_100 x Hx H100) as Hmax.
  set (b := (9007199254740991 # 9007199254740992)%Q).
  assert (Hb : representable b).
  { exists 9007199254740991, (-53). split; [lia |]. split; [reflexivity | reflexivity]. }
  assert (Hle : (nearest64 (x / 100) <= b)%Q).
  { apply nearest64_le; [exact Hb |]. unfold b.
    apply Qle_shift_div_r; [reflexivity |]. lra. }
  assert (H0 : (0 <= nearest64 (x / 100))%Q).
  { apply nearest64_nonneg. apply Qle_shift_div_l; [reflexivity |]. lra. }
  exists (nearest64 (x / 100)).
  split; [| split; [exact H0 | unfold b in Hle; lra]].
  apply round64_in_range. rewrite Qabs_pos by exact H0.
  pose proof pow2_1024_big. unfold b in Hle. lra.
Qed.

(** A double from 100 on divides to a double from 1 on. *)
Lemma div_100_from_1 (x : Q) :
  is_double x -> (100 <= x)%Q ->
  exists y, round64 (x / 100) = Fin y /\ (1 <= y)%Q /\ is_double y.
Proof.
  intros [Hx Hfin] H100.
  assert (H1 : (1 <= nearest64 (x / 100))%Q).
  { apply nearest64_ge; [apply (representable_Z 1); reflexivity |].
    apply Qle_shift_div_l; [reflexivity |]. lra. }
  assert (Hle : (nearest64 (x / 100) <= x)%Q).
  { apply nearest64_le; [exact Hx |].
    apply Qle_shift_div_r; [reflexivity |]. lra. }
  rewrite (Qabs_pos x) in Hfin by lra.
  assert (Hr : (Qabs (nearest64 (x / 100)) < pow2 1024)%Q).
  { rewrite Qabs_pos by lra. lra. }
  exists (nearest64 (x / 100)).
  split; [apply round64_in_range; exact Hr |].
  split; [exact H1 |]. split; [apply nearest64_representable | exact Hr].
Qed.

(** Dividing a double from 1 on by 100 gives a smaller double. *)
Lemma div_100_shrinks (y : Q) :
  is_double y -> (1 <= y)%Q ->
  exists z, round64 (y / 100) = Fin z /\ (z < y)%Q.
Proof.
  intros [Hy Hfin] H1.
  assert (Hpos : (0 < y)%Q) by lra.
  destruct (ilog2_spec y Hpos) as [Hlo Hhi].
  assert (Hk : 0 <= ilog2 y).
  { destruct (Z.le_gt_cases 0 (ilog2 y)) as [H | H]; [exact H | exfalso].
    pose proof (pow2_le (ilog2 y + 1) 0 ltac:(lia)) as Hp.
    change (pow2 0) with 1%Q in Hp. lra. }
  set (b := pow2 (ilog2 y - 1)).
  assert (Hb : representable b) by (apply representable_pow2; lia).
  assert (Hb0 : (0 < b)%Q) by apply pow2_pos.
  assert (E1 : (pow2 (ilog2 y) == 2 * b)%Q).
  { unfold b. rewrite <- pow2_succ. replace (ilog2 y - 1 + 1) with (ilog2 y) by lia.
    reflexivity. }
  assert (E2 : (pow2 (ilog2 y + 1) == 4 * b)%Q).
  { rewrite pow2_succ, E1. ring. }
  assert (Hle : (nearest64 (y / 100) <= b)%Q).
  { apply nearest64_le; [exact Hb |].
    apply Qle_shift_div_r; [reflexivity |]. lra. }
  assert (H0 : (0 <= nearest64 (y / 100))%Q).
  { apply nearest64_nonneg. apply Qle_shift_div_l; [reflexivity |]. lra. }
  exists (nearest64 (y / 100)). split; [| lra].
  apply round64_in_range. rewrite Qabs_pos by exact H0.
  rewrite (Qabs_pos y) in Hfin by lra. lra.
Qed.

(** ** What the function returns, by the shape of the parsed value *)

Lemma normalize_NaN (r : value) :
  parseFloat r = NaN -> normalizeRateToDecimal r = Fin 0.
Proof. unfold normalizeRateToDecimal. intros ->. reflexivity. Qed.

Lemma normalize_ge_1 (r : value) (x : Q) :
  parseFloat r = Fin x -> (1 <= x)%Q -> normalizeRateToDecimal r = round64 (x / 100).
Proof.
  unfold normalizeRateToDecimal. intros -> H. simpl.
  rewrite (Qle_bool_of_le _ _ H). reflexivity.
Qed.

Lemma normalize_lt_1 (r : value) (x : Q) :
  parseFloat r = Fin x -> (x < 1)%Q -> normalizeRateToDecimal r = Fin x.
Proof.
  unfold normalizeRateToDecimal. intros -> H. simpl.
  rewrite (Qle_bool_of_lt _ _ H). reflexivity.
Qed.

Lemma normalize_infinite (r : value) (neg : bool) :
  parseFloat r = Inf neg -> normalizeRateToDecimal r = Inf neg.
Proof.
  unfold normalizeRateToDecimal. intros ->. destruct neg; reflexivity.
Qed.

(** A second pass changes the result exactly when the first one left a
    value of 1 or more, that is when the raw value was 100 or more. *)
Lemma normalize_idempotent_iff (r : value) :
  is_js_value r ->
  (idempotent_at r <-> ~ (exists x, parseFloat r = Fin x /\ (100 <= x)%Q)).
Proof.
  intros Hr. unfold idempotent_at.
  destruct (parseFloat r) as [| neg | x] eqn:E.
  - rewrite (normalize_NaN _ E).
    rewrite (normalize_lt_1 (VNum (Fin 0)) 0 eq_refl) by reflexivity.
    split; [intros _ [x [Hx _]]; discriminate | intros _; simpl; reflexivity].
  - rewrite (normalize_infinite _ _ E).
    rewrite (normalize_infinite (VNum (Inf neg)) neg eq_refl).
    split; [intros _ [x [Hx _]]; discriminate | intros _; reflexivity].
  - pose proof (parseFloat_double r x Hr E) as Hx.
    destruct (Qlt_le_dec x 1) as [Hlt | Hge].
    + rewrite (normalize_lt_1 _ _ E Hlt).
      rewrite (normalize_lt_1 (VNum (Fin x)) x eq_refl Hlt).
      split; [| intros _; simpl; reflexivity].
      intros _ [y [Hy Hle]]. injection Hy as <-. lra.
    + rewrite (normalize_ge_1 _ _ E Hge).
      destruct (Qlt_le_dec x 100) as [Hlt | Hbig].
      * destruct (div_100_below_1 x Hx Hge Hlt) as (y & Ey & Hy0 & Hy1).
        rewrite Ey.
        rewrite (normalize_lt_1 (VNum (Fin y)) y eq_refl Hy1).
        split; [| intros _; simpl; reflexivity].
        intros _ [z [Hz Hle]]. injection Hz as <-. lra.
      * destruct (div_100_from_1 x Hx Hbig) as (y & Ey & Hy1 & Hyd).
        rewrite Ey.
        rewrite (normalize_ge_1 (VNum (Fin y)) y eq_refl Hy1).
        destruct (div_100_shrinks y Hyd Hy1) as (z & Ez & Hz).
        rewrite Ez.
        split.
        -- simpl. intros Heq. lra.
        -- intros Hn. exfalso. apply Hn. exists x. split; [reflexivity | exact Hbig].
Qed.

(** C5 (as stated) fails at the raw rate 100, and at every numeral that
    reads as 100: one pass gives 1, a second pass gives 0.01. *)
Lemma normalize_not_idempotent_at_100 :
  normalizeRateToDecimal (VNum (Fin 100)) = Fin 1 /\
  num_eq (normalizeRateToDecimal (VNum (normalizeRateToDecimal (VNum (Fin 100)))))
         (parseFloat_string "0.01") /\
  ~ idempotent_at (VNum (Fin 100)) /\
  parseFloat_string "99.999999999999999999" = Fin 100 /\
  normalizeRateToDecimal (VStr "99.999999999999999999") = Fin 1 /\
  ~ idempotent_at (VStr "99.999999999999999999").
Proof.
  split; [vm_compute; reflexivity |].
  split; [vm_compute; reflexivity |].
  split; [unfold idempotent_at; vm_compute; discriminate |].
  split; [vm_compute; reflexivity |].
  split; [vm_compute; reflexivity |].
  unfold idempotent_at. vm_compute. discriminate.
Qed.

(** C5 (amended): the normalisation is idempotent on every raw rate
    whose numeric value, as the double that [parseFloat] reads, is below
    100 (and on a non-numeric or infinite one); it divides a value of 1 or
    more by 100 in binary64, leaves a value below 1 unchanged, sends a
    non-numeric input to 0, and normalize(6) = 0.06 = normalize(0.06). *)
Theorem normalize_idempotent_below_100 (r : value) :
  is_js_value r ->
  rate_below_100 r ->
  idempotent_at r /\
  (parseFloat r = NaN -> normalizeRateToDecimal r = Fin 0) /\
  (forall x, parseFloat r = Fin x -> (1 <= x)%Q ->
             normalizeRateToDecimal r = round64 (x / 100) /\
             exists y, normalizeRateToDecimal r = Fin y /\ (y < 1)%Q) /\
  (forall x, parseFloat r = Fin x -> (x < 1)%Q ->
             normalizeRateToDecimal r = Fin x) /\
  (forall neg, parseFloat r = Inf neg -> normalizeRateToDecimal r = Inf neg) /\
  normalizeRateToDecimal (VNum (Fin 6)) = parseFloat_string "0.06" /\
  normalizeRateToDecimal (VNum (parseFloat_string "0.06")) = parseFloat_string "0.06" /\
  normalizeRateToDecimal (VStr "6") = normalizeRateToDecimal (VStr "0.06") /\
  normalizeRateToDecimal (VStr "99.99") = parseFloat_string "0.9998999999999999".
Proof.
  intros Hr Hlt. split.
  - apply (normalize_idempotent_iff r Hr). intros [x [Hx Hle]].
    specialize (Hlt x Hx). lra.
  - split; [apply normalize_NaN |].
    split.
    { intros x Hx H1. split; [apply normalize_ge_1; assumption |].
      destruct (div_100_below_1 x (parseFloat_double r x Hr Hx) H1 (Hlt x Hx))
        as (y & Ey & _ & Hy).
      exists y. rewrite (normalize_ge_1 _ _ Hx H1). auto. }
    split; [intros x; apply normalize_lt_1 |].
    split; [intros neg; apply normalize_infinite |].
    repeat split; vm_compute; reflexivity.
Qed.

Lemma normalize_idempotent_below_100_witness :
  rate_below_100 (VStr "6") /\ idempotent_at (VStr "6").
Proof.
  assert (H : rate_below_100 (VStr "6")).
  { intros x Hx. vm_compute in Hx. injection Hx as <-. reflexivity. }
  split; [exact H |].
  exact (proj1 (normalize_idempotent_below_100 (VStr "6") I H)).
Defined.

(** ** Rounding to two decimals *)

Lemma Qfloor_unique (y : Q) (k : Z) :
  (inject_Z k <= y)%Q -> (y < inject_Z (k + 1))%Q -> Qfloor y = k.
Proof.
  intros Hlo Hhi.
  pose proof (Qfloor_le y) as H1. pose proof (Qlt_floor y) as H2.
  assert (A : (inject_Z k < inject_Z (Qfloor y + 1))%Q) by lra.
  assert (B : (inject_Z (Qfloor y) < inject_Z (k + 1))%Q) by lra.
  rewrite <- Zlt_Qlt in A, B. lia.
Qed.

Lemma inject_Z_plus_1 (k : Z) : (inject_Z (k + 1) == inject_Z k + 1)%Q.
Proof. rewrite inject_Z_plus. reflexivity. Qed.

Lemma hundredths_bounds (x : Q) :
  (inject_Z (hundredths x) <= Qabs x * 100 + (1 # 2))%Q /\
  (Qabs x * 100 - (1 # 2) < inject_Z (hundredths x))%Q.
Proof.
  unfold hundredths. split; [apply Qfloor_le |].
  pose proof (Qlt_floor (Qabs x * 100 + (1 # 2))) as H.
  rewrite inject_Z_plus_1 in H. lra.
Qed.

Lemma toFixed2_small (x : Q) :
  (Qabs x < inject_Z (10 ^ 21))%Q ->
  toFixed2 x = if Qle_bool 0 x then (inject_Z (hundredths x) / 100)%Q
               else (- (inject_Z (hundredths x) / 100))%Q.
Proof.
  intros H. unfold toFixed2.
  destruct (Qle_bool (inject_Z (10 ^ 21)) (Qabs x)) eqn:E; [| reflexivity].
  apply Qle_bool_iff in E. exfalso. apply (Qlt_not_le _ _ H E).
Qed.

Lemma toFixed2_large (x : Q) :
  (inject_Z (10 ^ 21) <= Qabs x)%Q -> toFixed2 x = x.
Proof.
  intros H. unfold toFixed2. apply Qle_bool_iff in H. rewrite H. reflexivity.
Qed.

Lemma toFixed2_two_decimals (x : Q) :
  (Qabs x < inject_Z (10 ^ 21))%Q -> two_decimals (toFixed2 x).
Proof.
  intros H. rewrite (toFixed2_small _ H).
  destruct (Qle_bool 0 x).
  - exists (hundredths x). reflexivity.
  - exists (- hundredths x)%Z. rewrite inject_Z_opp. field.
Qed.

Lemma toFixed2_close (x : Q) : (Qabs (toFixed2 x - x) <= 1 # 200)%Q.
Proof.
  destruct (Qlt_le_dec (Qabs x) (inject_Z (10 ^ 21))) as [Hs | Hl].
  - rewrite (toFixed2_small _ Hs).
    destruct (hundredths_bounds x) as [Hu Hl].
    apply Qabs_Qle_condition.
    assert (Hd : (inject_Z (hundredths x) / 100
                  == inject_Z (hundredths x) * (1 # 100))%Q) by field.
    destruct (Qle_bool 0 x) eqn:E.
    + apply Qle_bool_iff in E. rewrite (Qabs_pos _ E) in Hu, Hl.
      rewrite Hd. lra.
    + apply Qle_bool_false_lt in E.
      assert (E' : (x <= 0)%Q) by lra.
      rewrite (Qabs_neg _ E') in Hu, Hl.
      rewrite Hd. lra.
  - rewrite (toFixed2_large _ Hl).
    assert (Hz : (x - x == 0)%Q) by ring. rewrite Hz. simpl. discriminate.
Qed.

Lemma toFixed2_fixes_two_decimals (x : Q) : two_decimals x -> (toFixed2 x == x)%Q.
Proof.
  intros [n Hn].
  destruct (Qlt_le_dec (Qabs x) (inject_Z (10 ^ 21))) as [Hs | Hl];
    [| rewrite (toFixed2_large _ Hl); reflexivity].
  rewrite (toFixed2_small _ Hs).
  assert (Hx : (x * 100 == inject_Z n)%Q) by (rewrite Hn; field).
  destruct (Qle_bool 0 x) eqn:E.
  - apply Qle_bool_iff in E.
    assert (Hh : hundredths x = n).
    { unfold hundredths. apply Qfloor_unique.
      - rewrite (Qabs_pos _ E). lra.
      - rewrite inject_Z_plus_1, (Qabs_pos _ E). lra. }
    rewrite Hh, Hn. reflexivity.
  - apply Qle_bool_false_lt in E.
    assert (E' : (x <= 0)%Q) by lra.
    assert (Hh : hundredths x = (- n)%Z).
    { unfold hundredths. apply Qfloor_unique.
      - rewrite inject_Z_opp, (Qabs_neg _ E'). lra.
      - rewrite inject_Z_plus_1, inject_Z_opp, (Qabs_neg _ E'). lra. }
    rewrite Hh, Hn, inject_Z_opp. field.
Qed.

(** On a tie [toFixed] takes the numeral of the larger magnitude. *)
Lemma toFixed2_half_up (x : Q) :
  (Qabs (toFixed2 x - x) == 1 # 200)%Q -> (Qabs x <= Qabs (toFixed2 x))%Q.
Proof.
  destruct (Qlt_le_dec (Qabs x) (inject_Z (10 ^ 21))) as [Hs | Hl].
  - rewrite (toFixed2_small _ Hs).
    destruct (hundredths_bounds x) as [Hu Hlo].
    assert (Hd : (inject_Z (hundredths x) / 100
                  == inject_Z (hundredths x) * (1 # 100))%Q) by field.
    destruct (Qle_bool 0 x) eqn:E.
    + apply Qle_bool_iff in E. rewrite (Qabs_pos _ E) in Hu, Hlo |- *.
      rewrite Hd. intros Ht.
      destruct (Qlt_le_dec (inject_Z (hundredths x) * (1 # 100)) x) as [Hc | Hc].
      * rewrite Qabs_neg in Ht by lra. lra.
      * rewrite Qabs_pos by lra. exact Hc.
    + apply Qle_bool_false_lt in E.
      assert (E' : (x <= 0)%Q) by lra.
      rewrite (Qabs_neg _ E') in Hu, Hlo |- *.
      rewrite Hd. intros Ht.
      destruct (Qlt_le_dec x (- (inject_Z (hundredths x) * (1 # 100)))) as [Hc | Hc].
      * rewrite (Qabs_pos (- (inject_Z (hundredths x) * (1 # 100)) - x)) in Ht by lra. lra.
      * rewrite Qabs_opp.
        eapply Qle_trans; [| apply Qle_Qabs]. lra.
  - rewrite (toFixed2_large _ Hl). intros _. apply Qle_refl.
Qed.

Lemma toFixed2_rounds (x : Q) : printable x -> rounds_to_cents x (toFixed2 x).
Proof.
  intros Hp. split; [apply toFixed2_two_decimals; exact Hp |].
  split; [apply toFixed2_close | apply toFixed2_half_up].
Qed.

(** [parseFloat(x.toFixed(2))] is a double nearest to the two-decimal
    rounding of [x]. *)
Lemma fixed2_rule (x : Q) : two_decimal_double x (fixed2 x).
Proof.
  exists (toFixed2 x). split; [apply toFixed2_rounds |].
  split; [| apply nearest64_nearest].
  intros Hn. apply toFixed2_large. apply Qnot_lt_le. exact Hn.
Qed.

Lemma toFixed2_nonneg (x : Q) : (0 <= x)%Q -> (0 <= toFixed2 x)%Q.
Proof.
  intros H0.
  destruct (Qlt_le_dec (Qabs x) (inject_Z (10 ^ 21))) as [Hs | Hl];
    [| rewrite (toFixed2_large x Hl); exact H0].
  rewrite (toFixed2_small x Hs), (Qle_bool_of_le _ _ H0).
  destruct (hundredths_bounds x) as [_ Hlo].
  rewrite (Qabs_pos x H0) in Hlo.
  assert (Hh0 : 0 <= hundredths x).
  { assert (H : (inject_Z (-1) < inject_Z (hundredths x))%Q).
    { eapply Qle_lt_trans; [| exact Hlo]. change (inject_Z (-1)) with (-1 # 1)%Q. lra. }
    rewrite <- Zlt_Qlt in H. lia. }
  apply Qle_shift_div_l; [reflexivity |]. rewrite Qmult_0_l.
  change 0%Q with (inject_Z 0). rewrite <- Zle_Qle. exact Hh0.
Qed.

(** [toFixed(2)] keeps the order of amounts. *)
Lemma toFixed2_monotone (x y : Q) :
  (0 <= x)%Q -> (x <= y)%Q -> (toFixed2 x <= toFixed2 y)%Q.
Proof.
  intros H0 Hxy.
  assert (Hy0 : (0 <= y)%Q) by lra.
  destruct (Qlt_le_dec (Qabs x) (inject_Z (10 ^ 21))) as [Hxs | Hxl].
  - rewrite (toFixed2_small x Hxs), (Qle_bool_of_le _ _ H0).
    rewrite (Qabs_pos x H0) in Hxs.
    destruct (Qlt_le_dec (Qabs y) (inject_Z (10 ^ 21))) as [Hys | Hyl].
    + rewrite (toFixed2_small y Hys), (Qle_bool_of_le _ _ Hy0).
      apply Qmult_le_compat_r; [| discriminate].
      rewrite <- Zle_Qle. unfold hundredths. apply Qfloor_resp_le.
      rewrite (Qabs_pos x H0), (Qabs_pos y Hy0). lra.
    + rewrite (toFixed2_large y Hyl). rewrite (Qabs_pos y Hy0) in Hyl.
      eapply Qle_trans; [| exact Hyl].
      apply Qle_shift_div_r; [reflexivity |].
      assert (Hh : hundredths x <= 10 ^ 21 * 100).
      { unfold hundredths. rewrite (Qabs_pos x H0).
        assert (A : (x * 100 + (1 # 2) <= inject_Z (10 ^ 21 * 100) + (1 # 2))%Q).
        { rewrite inject_Z_mult. change (inject_Z 100) with 100%Q. lra. }
        apply Qfloor_resp_le in A.
        assert (B : Qfloor (inject_Z (10 ^ 21 * 100) + (1 # 2)) = 10 ^ 21 * 100).
        { apply Qfloor_unique; [lra | rewrite inject_Z_plus_1; lra]. }
        lia. }
      rewrite Zle_Qle, inject_Z_mult in Hh. exact Hh.
  - rewrite (toFixed2_large x Hxl).
    assert (Hyl : (inject_Z (10 ^ 21) <= Qabs y)%Q).
    { rewrite (Qabs_pos x H0) in Hxl. rewrite (Qabs_pos y Hy0). lra. }
    rewrite (toFixed2_large y Hyl). exact Hxy.
Qed.

Lemma two_decimals_plus (x y : Q) :
  two_decimals x -> two_decimals y -> two_decimals (x + y).
Proof.
  intros [n Hn] [m Hm]. exists (n + m)%Z.
  rewrite Hn, Hm, inject_Z_plus. field.
Qed.

End FeeFacts.

Section EligibilityFacts.
Import JS Channel Store Gateway.

(** The two filter callbacks are one function. *)
Lemma filter_callbacks_agree (m : Z) (c : channel) :
  group_filter_callback m c = direct_filter_callback m c.
Proof. reflexivity. Qed.

Lemma direct_filter_callback_spec (m : Z) (c : channel) :
  direct_filter_callback m c = true <-> meets_age_rule m c.
Proof.
  unfold direct_filter_callback, meets_age_rule, age_rule_of.
  destruct (read_config (ch_config c)) as [config |]; [| tauto].
  destruct (force_min_age_of config) as [[v |] |]; [| tauto | tauto].
  destruct v as [| b | n | str | items | fields];
    try (destruct (parseInt_json _) as [a |];
         [rewrite Z.leb_le; tauto | split; [discriminate | tauto]]).
  - tauto.
  - destruct str as [| ch rest]; [tauto |].
    destruct (parseInt_json _) as [a |];
      [rewrite Z.leb_le; tauto | split; [discriminate | tauto]].
Qed.

Lemma filteredChannels_spec (minAge : value) (m : Z) (cs : list channel) (c : channel) :
  requested_min_age minAge = Some m ->
  In c (filteredChannels minAge cs) <-> In c cs /\ meets_age_rule m c.
Proof.
  intros Hm. unfold filteredChannels. rewrite Hm.
  rewrite filter_In, direct_filter_callback_spec. tauto.
Qed.

Lemma eligibleChannels_spec (minAge : value) (m : Z) (cs : list channel) (c : channel) :
  requested_min_age minAge = Some m ->
  In c (eligibleChannels minAge cs) <-> In c cs /\ meets_age_rule m c.
Proof.
  intros Hm. unfold eligibleChannels. rewrite Hm.
  rewrite filter_In, filter_callbacks_agree, direct_filter_callback_spec. tauto.
Qed.

Lemma eligibleChannels_eq_filteredChannels (minAge : value) (cs : list channel) :
  eligibleChannels minAge cs = filteredChannels minAge cs.
Proof. reflexivity. Qed.

Lemma find_channel_In (id : Z) (cs : list channel) (c : channel) :
  find_channel id cs = Some c -> In c cs.
Proof. unfold find_channel. intros H. apply find_some in H. tauto. Qed.

(** A channel that comes out of the polling-group branch is one of the
    enabled channels that passed the age filter. *)
Lemma select_in_polling_group_eligible
    (r : Q) (minAge : value) (m gid : Z) (s : db) (c : channel) :
  requested_min_age minAge = Some m ->
  select_in_polling_group r minAge gid s = Some (Selected c) ->
  In c (channels s) /\ meets_age_rule m c.
Proof.
  intros Hm. unfold select_in_polling_group.
  destruct (hd_error _) as [group |]; [| discriminate].
  destruct (cg_channels group) as [| g0 gs] eqn:Eg; [discriminate |].
  set (all := filter _ (channels s)).
  destruct (eligibleChannels minAge all) as [| first rest] eqn:Ee; [discriminate |].
  assert (Hel : forall x, In x (first :: rest) -> In x (channels s) /\ meets_age_rule m x).
  { intros x Hx. rewrite <- Ee in Hx.
    apply (eligibleChannels_spec _ _ _ _ Hm) in Hx. destruct Hx as [Hin Hr].
    split; [| exact Hr]. unfold all in Hin. apply filter_In in Hin. tauto. }
  set (fg := filter _ (g0 :: gs)).
  destruct (cg_mode group =? 2).
  - destruct (match fg with m0 :: _ => _ | [] => None end) as [c' |] eqn:Ef.
    + intros H. injection H as <-. apply Hel.
      destruct fg as [| m0 fgs]; [discriminate |]. eapply find_channel_In; eauto.
    + intros H. injection H as <-. apply Hel. left. reflexivity.
  - destruct (cg_mode group =? 1).
    + destruct (match weighted_pick _ fg with Some id => _ | None => None end) as [id |].
      * destruct (find_channel id (first :: rest)) as [c' |] eqn:Ef; [| discriminate].
        intros H. injection H as <-. apply Hel. eapply find_channel_In; eauto.
      * destruct fg as [| [id w] fgs]; [discriminate |].
        destruct (find_channel id (first :: rest)) as [c' |] eqn:Ef; [| discriminate].
        intros H. injection H as <-. apply Hel. eapply find_channel_In; eauto.
    + destruct (nth_error fg _) as [randomCh |]; [| discriminate].
      destruct (find_channel (gm_id randomCh) (first :: rest)) as [c' |] eqn:Ef;
        [| discriminate].
      intros H. injection H as <-. apply Hel. eapply find_channel_In; eauto.
Qed.

(** Whatever [selectChannelFromGroup] returns when a minimum age is
    requested is an enabled channel that meets the age rule. *)
Lemma selected_channel_meets_age_rule
    (r : Q) (payType : string) (payGroupId : option Z) (minAge : value) (m : Z)
    (s : db) (c : channel) :
  requested_min_age minAge = Some m ->
  selectChannelFromGroup r payType payGroupId minAge s = Selected c ->
  In c (channels s) /\ meets_age_rule m c.
Proof.
  intros Hm. unfold selectChannelFromGroup.
  destruct (match match getPayTypeByName payType with Some id => _ | None => None end
            with Some tc => match channel_mode tc with Some 0 => true | _ => false end
               | None => false end); [discriminate |].
  cbv zeta.
  match goal with
  | |- match ?via with Some _ => _ | None => _ end = _ -> _ =>
      destruct via as [result |] eqn:Evia
  end.
  - intros ->.
    repeat match type of Evia with
           | match ?x with _ => _ end = _ => destruct x; try discriminate Evia
           end.
    eapply select_in_polling_group_eligible; eauto.
  - clear Evia.
    set (chs := filter _ (channels s)).
    assert (Hf : forall x, In x (filteredChannels minAge chs) ->
                           In x (channels s) /\ meets_age_rule m x).
    { intros x Hx. apply (filteredChannels_spec _ _ _ _ Hm) in Hx.
      destruct Hx as [Hin Hr]. split; [| exact Hr].
      unfold chs in Hin. apply filter_In in Hin. tauto. }
    destruct (filteredChannels minAge chs) as [| first [| second rest]].
    + discriminate.
    + intros H. injection H as <-. apply Hf. left. reflexivity.
    + match goal with
      | |- (if ?b then _ else _) = _ -> _ => destruct b
      end.
      * destruct (find_channel _ _) as [sp |] eqn:Ef; intros H; injection H as <-;
          apply Hf; [eapply find_channel_In; eauto | left; reflexivity].
      * match goal with
        | |- (if ?b then _ else _) = _ -> _ => destruct b
        end.
        -- intros H. injection H as <-. apply Hf. left. reflexivity.
        -- destruct (nth_error _ _) as [c' |] eqn:En; [| discriminate].
           intros H. injection H as <-. apply Hf. eapply nth_error_In; eauto.
Qed.

(** C8 (as stated) fails for a channel whose [force_min_age] is present
    but does not read as a number: the code drops it, the claim keeps it. *)
Lemma unparsable_force_min_age_is_excluded :
  let c := channel_with_force_min_age 7 (JStr "adult") in
  requested_min_age (VNum (Fin 18)) = Some 18 /\
  force_min_age_of (JObj [("params", JObj [("force_min_age", JStr "adult")])])
    = Some (Some (JStr "adult")) /\
  parseInt_json (JStr "adult") = None /\
  filteredChannels (VNum (Fin 18)) [c] = [] /\
  eligibleChannels (VNum (Fin 18)) [c] = [].
Proof. vm_compute. repeat split; reflexivity. Qed.

(** C8 (amended): when a minimum age [m] is requested, the selection
    keeps a channel exactly when its config cannot be read, or it has no
    [force_min_age] (absent, null or empty), or its [force_min_age] reads
    as an integer that is at most [m]; a [force_min_age] that does not read
    as a number excludes the channel; whatever channel
    [selectChannelFromGroup] then returns has passed that test.  A channel
    forcing 18 is dropped for 16 and kept for 18, and the polling-group
    branch and the direct branch apply the same filter. *)
Theorem age_filter_keeps_exactly_the_eligible
    (minAge : value) (m : Z) (cs : list channel) (c : channel) :
  requested_min_age minAge = Some m ->
  (In c (filteredChannels minAge cs) <->
     In c cs /\
     (age_rule_of c = ConfigUnreadable \/ age_rule_of c = NoForcedAge \/
      exists a, age_rule_of c = ForcedAge a /\ a <= m)) /\
  (age_rule_of c = ForcedAgeNotANumber -> ~ In c (filteredChannels minAge cs)) /\
  (forall r payType payGroupId s c',
     selectChannelFromGroup r payType payGroupId minAge s = Selected c' ->
     In c' (channels s) /\ meets_age_rule m c') /\
  eligibleChannels minAge cs = filteredChannels minAge cs /\
  filteredChannels (VNum (Fin 16)) [channel_with_force_min_age 1 (JNum 18)] = [] /\
  filteredChannels (VNum (Fin 18)) [channel_with_force_min_age 1 (JNum 18)]
    = [channel_with_force_min_age 1 (JNum 18)] /\
  filteredChannels (VNum (Fin 16)) [channel_without_force_min_age 2]
    = [channel_without_force_min_age 2].
Proof.
  intros Hm.
  split; [| split; [| split; [| split; [reflexivity | vm_compute; auto]]]].
  - rewrite (filteredChannels_spec _ _ _ _ Hm). unfold meets_age_rule.
    destruct (age_rule_of c) as [| | a |].
    + intuition.
    + intuition.
    + split.
      * intros [Hin Hle]. split; [exact Hin |]. right. right. exists a. auto.
      * intros [Hin [H | [H | [b [H Hle]]]]]; try discriminate.
        injection H as <-. auto.
    + split; [tauto |].
      intros [_ [H | [H | [b [H _]]]]]; discriminate.
  - intros Hrule Hin. apply (filteredChannels_spec _ _ _ _ Hm) in Hin.
    unfold meets_age_rule in Hin. rewrite Hrule in Hin. tauto.
  - intros r payType payGroupId s c' Hsel.
    eapply selected_channel_meets_age_rule; eauto.
Qed.

Lemma age_filter_keeps_exactly_the_eligible_witness :
  requested_min_age (VNum (Fin 18)) = Some 18 /\
  In (channel_with_force_min_age 1 (JNum 18))
     (filteredChannels (VNum (Fin 18)) [channel_with_force_min_age 1 (JNum 18)]).
Proof.
  split; [reflexivity |].
  apply (proj1 (age_filter_keeps_exactly_the_eligible
                  (VNum (Fin 18)) 18 [channel_with_force_min_age 1 (JNum 18)]
                  (channel_with_force_min_age 1 (JNum 18)) eq_refl)).
  split; [left; reflexivity |].
  right. right. exists 18. split; [reflexivity | lia].
Defined.

End EligibilityFacts.

Section OrderTableFacts.
Import JS Fee Channel Store.

Lemma greatest_id_in (rows : list order) (best r : option order) :
  greatest_id rows best = r ->
  match r with
  | Some x => In x rows \/ best = Some x
  | None => rows = [] /\ best = None
  end.
Proof.
  revert best r. induction rows as [| a rows IH]; intros best r H; simpl in H.
  - subst r. destruct best; auto.
  - apply IH in H. destruct r as [x |].
    + destruct H as [H | H]; [left; right; exact H |].
      destruct best as [b |].
      * destruct (o_id b <? o_id a); injection H as <-; auto.
        left. left. reflexivity.
      * injection H as <-. left. left. reflexivity.
    + destruct H as [_ H]. destruct best as [b |]; [| discriminate].
      destruct (o_id b <? o_id a); discriminate.
Qed.

Lemma greatest_id_map (f : order -> order) (rows : list order) (best : option order) :
  (forall o, o_id (f o) = o_id o) ->
  greatest_id (map f rows) (option_map f best) = option_map f (greatest_id rows best).
Proof.
  intros Hid. revert best. induction rows as [| a rows IH]; intros best; simpl.
  - reflexivity.
  - rewrite <- IH. f_equal. destruct best as [b |]; simpl; [| reflexivity].
    rewrite !Hid. destruct (o_id b <? o_id a); reflexivity.
Qed.

Lemma filter_map_commute {A} (p : A -> bool) (f : A -> A) (l : list A) :
  (forall x, p (f x) = p x) -> filter p (map f l) = map f (filter p l).
Proof.
  intros H. induction l as [| a l IH]; simpl; [reflexivity |].
  rewrite H. destruct (p a); simpl; rewrite IH; reflexivity.
Qed.

Lemma existing_pending_order_found (mid : Z) (otn : string) (s : db) (e : order) :
  existing_pending_order mid otn s = Some e ->
  In e (orders s) /\ o_merchant_id e = mid /\ o_out_trade_no e = otn /\ o_status e = 0.
Proof.
  unfold existing_pending_order. intros H.
  apply greatest_id_in in H. destruct H as [H | H]; [| discriminate].
  apply filter_In in H. destruct H as [Hin Hp].
  unfold is_pending_for in Hp.
  apply andb_prop in Hp. destruct Hp as [Hp Hs].
  apply andb_prop in Hp. destruct Hp as [Hm Ho].
  apply Z.eqb_eq in Hm, Hs. apply String.eqb_eq in Ho. auto.
Qed.

Lemma existing_pending_order_none (mid : Z) (otn : string) (s : db) :
  existing_pending_order mid otn s = None ->
  filter (is_pending_for mid otn) (orders s) = [].
Proof.
  unfold existing_pending_order. intros H.
  apply greatest_id_in in H. tauto.
Qed.

(** The pending row found before an update in place is found again
    after it. *)
Lemma existing_pending_order_after_update
    (mid : Z) (otn : string) (s : db) (k : Z) (f : order -> order) :
  (forall o, o_id (f o) = o_id o) ->
  (forall o, is_pending_for mid otn (f o) = is_pending_for mid otn o) ->
  existing_pending_order mid otn (update_order_where_id k f s)
  = option_map (fun o => if o_id o =? k then f o else o)
               (existing_pending_order mid otn s).
Proof.
  intros Hid Hp. unfold existing_pending_order, update_order_where_id. simpl.
  rewrite filter_map_commute.
  - apply (greatest_id_map _ _ None).
    intros o. destruct (o_id o =? k); [apply Hid | reflexivity].
  - intros o. destruct (o_id o =? k); [apply Hp | reflexivity].
Qed.

Lemma reuse_update_pending (d : order_data) (fee real : Q) (mid : Z) (otn : string) (o : order) :
  is_pending_for mid otn (reuse_update d fee real o) = is_pending_for mid otn o.
Proof. reflexivity. Qed.

(** The shape of [createOrder]'s two outcomes. *)
Lemma createOrder_reuse (now : Z) (d : order_data) (s : db) (e : order) :
  existing_pending_order (merchantId d) (outTradeNo d) s = Some e ->
  createOrder now d s =
  (mkCreateResult (o_id e) (o_trade_no e) true,
   update_order_where_id (o_id e)
     (reuse_update d (feeMoney (money d) (feeRate d))
        (realMoney (money d) (feeMoney (money d) (feeRate d)) (feePayer d))) s).
Proof. intros H. unfold createOrder. rewrite H. reflexivity. Qed.

Lemma createOrder_insert (now : Z) (d : order_data) (s : db) :
  existing_pending_order (merchantId d) (outTradeNo d) s = None ->
  createOrder now d s =
  (mkCreateResult (next_order_id s) (tradeNo d) false,
   mkDb (orders s ++
           [inserted_row (next_order_id s) now d (feeMoney (money d) (feeRate d))
              (realMoney (money d) (feeMoney (money d) (feeRate d)) (feePayer d))])
        (merchants s) (channels s) (pay_groups s) (channel_groups s)
        (next_order_id s + 1)).
Proof. intros H. unfold createOrder. rewrite H. reflexivity. Qed.

(** After any [createOrder], the order it answers with is the pending
    order of that merchant and out-trade-no. *)
Lemma createOrder_leaves_pending (now : Z) (d : order_data) (s : db) :
  exists e,
    existing_pending_order (merchantId d) (outTradeNo d) (snd (createOrder now d s)) = Some e /\
    o_id e = orderId (fst (createOrder now d s)) /\
    o_trade_no e = res_tradeNo (fst (createOrder now d s)).
Proof.
  destruct (existing_pending_order (merchantId d) (outTradeNo d) s) as [e |] eqn:E.
  - rewrite (createOrder_reuse _ _ _ _ E). simpl.
    rewrite existing_pending_order_after_update by reflexivity.
    rewrite E. simpl. rewrite Z.eqb_refl.
    eexists. split; [reflexivity |]. split; reflexivity.
  - rewrite (createOrder_insert _ _ _ E). simpl.
    unfold existing_pending_order. simpl.
    rewrite filter_app, (existing_pending_order_none _ _ _ E). simpl.
    unfold is_pending_for. simpl.
    rewrite Z.eqb_refl, String.eqb_refl. simpl.
    eexists. split; [reflexivity |]. split; reflexivity.
Qed.

Lemma update_order_where_id_length (k : Z) (f : order -> order) (s : db) :
  List.length (orders (update_order_where_id k f s)) = List.length (orders s).
Proof. unfold update_order_where_id. simpl. apply length_map. Qed.

Lemma in_update_order_where_id (k : Z) (f : order -> order) (s : db) (e : order) :
  In e (orders s) -> o_id e = k -> In (f e) (orders (update_order_where_id k f s)).
Proof.
  intros Hin Hk. unfold update_order_where_id. simpl.
  apply in_map_iff. exists e. rewrite Hk, Z.eqb_refl. auto.
Qed.

End OrderTableFacts.

Section OrderFeeFacts.
Import JS Fee Channel Store.

Lemma feeMoney_rule (money : Q) (rate : option Q) :
  fee_rule money rate (feeMoney money rate).
Proof.
  unfold fee_rule, feeMoney. destruct rate as [r |]; [| reflexivity].
  destruct (Qeq_bool r 0); [reflexivity |].
  exists (nearest64 (money * r)). split; [apply nearest64_nearest | apply fixed2_rule].
Qed.

Lemma realMoney_rule (money fee : Q) (payer : string) :
  real_money_rule money fee payer (realMoney money fee payer).
Proof.
  unfold real_money_rule, realMoney. destruct (String.eqb payer "buyer"); [| reflexivity].
  exists (nearest64 (money + fee)). split; [apply nearest64_nearest | apply fixed2_rule].
Qed.

(** The row that [createOrder] answers with carries the fee fields
    computed from the request. *)
Lemma createOrder_row (now : Z) (d : order_data) (s : db) :
  exists row,
    In row (orders (snd (createOrder now d s))) /\
    o_id row = orderId (fst (createOrder now d s)) /\
    o_trade_no row = res_tradeNo (fst (createOrder now d s)) /\
    o_status row = 0 /\
    o_channel_id row = channelId d /\
    o_pay_type row = type d /\
    o_notify_url row = notifyUrl d /\
    o_return_url row = returnUrl d /\
    o_fee_money row = feeMoney (money d) (feeRate d) /\
    o_real_money row = realMoney (money d) (feeMoney (money d) (feeRate d)) (feePayer d) /\
    o_fee_payer row = or_default (feePayer d) "merchant" /\
    o_cert_info row = certInfo d.
Proof.
  destruct (existing_pending_order (merchantId d) (outTradeNo d) s) as [e |] eqn:E.
  - rewrite (createOrder_reuse _ _ _ _ E). simpl.
    destruct (existing_pending_order_found _ _ _ _ E) as [Hin [_ [_ Hst]]].
    eexists. split; [apply in_update_order_where_id; [exact Hin | reflexivity] |].
    simpl. rewrite Hst. repeat split; reflexivity.
  - rewrite (createOrder_insert _ _ _ E). simpl.
    eexists. split; [apply in_or_app; right; left; reflexivity |].
    simpl. repeat split; reflexivity.
Qed.

End OrderFeeFacts.

Section OrderLifecycle.
Import JS Fee Channel Store Gateway.

(** C3: a second submission for the same merchant and out-trade-no,
    made while the order of the first one is still pending, inserts no
    row: the pending row is updated in place (channel, pay type, urls, fee
    fields, cert_info) and the answer carries the trade_no of the first
    submission with [isExisting] set. *)
Theorem resubmission_reuses_pending_order
    (now1 now2 : Z) (d1 d2 : order_data) (s : db) :
  merchantId d2 = merchantId d1 ->
  outTradeNo d2 = outTradeNo d1 ->
  let first := createOrder now1 d1 s in
  let second := createOrder now2 d2 (snd first) in
  List.length (orders (snd second)) = List.length (orders (snd first)) /\
  next_order_id (snd second) = next_order_id (snd first) /\
  isExisting (fst second) = true /\
  res_tradeNo (fst second) = res_tradeNo (fst first) /\
  orderId (fst second) = orderId (fst first) /\
  exists row,
    In row (orders (snd second)) /\
    o_id row = orderId (fst first) /\
    o_trade_no row = res_tradeNo (fst first) /\
    o_status row = 0 /\
    o_channel_id row = channelId d2 /\
    o_pay_type row = type d2 /\
    o_notify_url row = notifyUrl d2 /\
    o_return_url row = returnUrl d2 /\
    o_fee_money row = feeMoney (money d2) (feeRate d2) /\
    o_real_money row = realMoney (money d2) (feeMoney (money d2) (feeRate d2)) (feePayer d2) /\
    o_fee_payer row = or_default (feePayer d2) "merchant" /\
    o_cert_info row = certInfo d2.
Proof.
  intros Hm Ho first second.
  destruct (createOrder_leaves_pending now1 d1 s) as [e [He [Hid Htn]]].
  fold first in He, Hid, Htn.
  rewrite <- Hm, <- Ho in He.
  pose proof (createOrder_reuse now2 d2 (snd first) e He) as Hsecond.
  fold second in Hsecond.
  destruct (createOrder_row now2 d2 (snd first)) as [row Hrow].
  fold second in Hrow.
  rewrite Hsecond in *. simpl in *.
  split; [apply length_map |].
  split; [reflexivity |].
  split; [reflexivity |].
  split; [exact Htn |].
  split; [exact Hid |].
  exists row. rewrite <- Hid, <- Htn. exact Hrow.
Qed.

Lemma resubmission_reuses_pending_order_witness :
  let s := mkDb [] [] [] [] [] 1 in
  let d1 := mkOrderData 7 (Some 1) "T1" "A-100" "alipay" "book" 10 "" "pc"
              "https://m/notify" "" (Some (3 # 100)) "merchant" None None None in
  let d2 := mkOrderData 7 (Some 2) "T2" "A-100" "wxpay" "book" 10 "" "pc"
              "https://m/notify2" "" (Some (3 # 100)) "merchant" None None None in
  res_tradeNo (fst (createOrder 2 d2 (snd (createOrder 1 d1 s)))) = "T1" /\
  List.length (orders (snd (createOrder 2 d2 (snd (createOrder 1 d1 s))))) = 1%nat.
Proof.
  intros s d1 d2.
  pose proof (resubmission_reuses_pending_order 1 2 d1 d2 s eq_refl eq_refl) as H.
  split.
  - exact (proj1 (proj2 (proj2 (proj2 H)))).
  - exact (proj1 H).
Defined.

End OrderLifecycle.

Section ChannelLock.
Import JS Fee Channel Store Gateway Settlement.

Lemma ids_unique_same_row (s : db) (a b : order) :
  ids_unique s -> In a (orders s) -> In b (orders s) -> o_id a = o_id b -> a = b.
Proof.
  unfold ids_unique. generalize (orders s) as rows.
  induction rows as [| r rows IH]; intros Hnd Ha Hb Hab; [contradiction |].
  simpl in Hnd. inversion Hnd as [| x l Hnotin Hnd']; subst.
  destruct Ha as [Ha | Ha], Hb as [Hb | Hb].
  - congruence.
  - subst r. exfalso. apply Hnotin. rewrite Hab. apply in_map. exact Hb.
  - subst r. exfalso. apply Hnotin. rewrite <- Hab. apply in_map. exact Ha.
  - apply IH; assumption.
Qed.

Lemma orders_by_trade_no_head (t : string) (s : db) (o : order) (rest : list order) :
  orders_by_trade_no t s = o :: rest -> In o (orders s) /\ o_trade_no o = t.
Proof.
  intros H. assert (Hin : In o (orders_by_trade_no t s)) by (rewrite H; left; reflexivity).
  apply filter_In in Hin. destruct Hin as [Hin Ht].
  apply String.eqb_eq in Ht. auto.
Qed.

Section WithFeeRate.
Variable fr : option merchant -> string -> db -> option Q.

(** What [/dopay] served alone does to the store: nothing, or the lock
    of the order it was called for, which carried no channel. *)
Lemma dopay_effect (r : Q) (t p : option string) (g : option Z) (s : db) :
  snd (dopay fr r t p g s) = s \/
  exists order rest c finalPayType rate payer,
    orders_by_trade_no (text t) s = order :: rest /\
    o_status order = 0 /\
    channel_locked order = false /\
    selectChannelFromGroup r finalPayType g (merchantMinAge order) s = Selected c /\
    rate = fr (hd_error (merchants_by_user_id (o_merchant_id order) s)) finalPayType s /\
    dopay fr r t p g s =
      (Dispatch (local_after_lock (ch_id c)
                   (realMoney (o_money order) (feeMoney (o_money order) rate) payer) order)
                c finalPayType,
       update_order_where_id (o_id order)
         (lock_update (ch_id c) finalPayType (ch_plugin_name c)
            (feeMoney (o_money order) rate)
            (realMoney (o_money order) (feeMoney (o_money order) rate) payer) payer) s).
Proof.
  unfold dopay.
  destruct (negb (present t)); [left; reflexivity |].
  destruct (orders_by_trade_no (text t) s) as [| order rest] eqn:Eo; [left; reflexivity |].
  destruct (o_status order =? 0) eqn:Est; simpl; [| left; reflexivity].
  destruct (channel_locked order) eqn:Elock.
  - destruct (channels_by_id _ s); left; reflexivity.
  - destruct (String.eqb _ "") eqn:Ept; [left; reflexivity |].
    destruct (selectChannelFromGroup _ _ _ _ _) as [c | |] eqn:Esel;
      [| left; reflexivity | left; reflexivity].
    right. apply Z.eqb_eq in Est.
    do 6 eexists. repeat split; try reflexivity; try eassumption.
Qed.

End WithFeeRate.

End ChannelLock.

Section FeeAndLockClaims.
Import JS Fee Channel Store Gateway Settlement Scenarios.

(** C4 (as stated) fails: an order submitted without a pay type, then
    dispatched (which locks channel 1), then submitted again by the
    merchant with pay type wxpay, ends with channel 2. *)
Lemma resubmission_replaces_locked_channel :
  let s1 := snd (createOrder 1 lock_demo_first lock_demo_store) in
  let s2 := snd (dopay (fun _ _ _ => None) 0 (Some "T1") (Some "alipay") None s1) in
  let s3 := snd (createOrder 3 lock_demo_again s2) in
  map o_channel_id (orders s1) = [None] /\
  map o_channel_id (orders s2) = [Some 1] /\
  map o_status (orders s2) = [0] /\
  map o_channel_id (orders s3) = [Some 2] /\
  map o_trade_no (orders s3) = ["T1"].
Proof. vm_compute. repeat split; reflexivity. Qed.

End FeeAndLockClaims.

Section RequestChecks.
Import JS Fee Channel Store Gateway.

Variable verifySignRSA verifySignMD5 : list (string * string) -> string -> string -> bool.
Variable validateCallbackDomain : Z -> string -> db -> option string.
Variable getMerchantFeeRate : merchant -> string -> db -> option Q.
Variable create_channel_by_id unified_channel_by_id : string -> db -> option channel.

Local Abbreviation create' :=
  (create verifySignRSA verifySignMD5 validateCallbackDomain getMerchantFeeRate
          create_channel_by_id).
Local Abbreviation handleSubmit' :=
  (handleSubmit verifySignRSA verifySignMD5 getMerchantFeeRate unified_channel_by_id).
Local Abbreviation handleMapi' :=
  (handleMapi verifySignRSA verifySignMD5 getMerchantFeeRate unified_channel_by_id).
Local Abbreviation unified' :=
  (unified verifySignRSA verifySignMD5 getMerchantFeeRate unified_channel_by_id).

Lemma validateTimestamp_spec (date_now t : Z) (ts : value) :
  parseInt ts = Some t ->
  validateTimestamp date_now ts = (Z.abs (date_now / 1000 - t) <=? 300).
Proof. unfold validateTimestamp. intros ->. reflexivity. Qed.

Lemma validateTimestamp_stale (date_now t : Z) (ts : value) :
  parseInt ts = Some t -> 300 < Z.abs (date_now / 1000 - t) ->
  validateTimestamp date_now ts = false.
Proof.
  intros Hp Hlt. rewrite (validateTimestamp_spec _ _ _ Hp). apply Z.leb_gt. exact Hlt.
Qed.

Lemma validateTimestamp_fresh (date_now t : Z) (ts : value) :
  parseInt ts = Some t -> Z.abs (date_now / 1000 - t) <= 300 ->
  validateTimestamp date_now ts = true.
Proof.
  intros Hp Hle. rewrite (validateTimestamp_spec _ _ _ Hp). apply Z.leb_le. exact Hle.
Qed.

Lemma create_stale (date_now : Z) (fresh : string) (req : request) (s : db) :
  create_params_present req = true ->
  validateTimestamp date_now (as_value (q_timestamp req)) = false ->
  run (create' date_now fresh req) s = (Reply (Rejected TimestampExpired), mkWorld s []).
Proof.
  intros Hp Hv. unfold run, create, bind, reject_if at 1 2.
  rewrite Hp, Hv. reflexivity.
Qed.

Lemma unified_stale (date_now : Z) (fresh : string) (req : request)
    (sp : list (string * string)) (ip dev : string) (s : db) :
  unified_params_present req = true ->
  present (q_timestamp req) = true ->
  validateTimestamp date_now (as_value (q_timestamp req)) = false ->
  run (unified' date_now fresh req sp ip dev) s
  = (Reply (Rejected TimestampExpired), mkWorld s []).
Proof.
  intros Hp Ht Hv. unfold run, unified, bind, reject_if at 1 2.
  rewrite Hp, Ht, Hv. reflexivity.
Qed.

Lemma create_missing (date_now : Z) (fresh : string) (req : request) (s : db) :
  create_params_present req = false ->
  run (create' date_now fresh req) s = (Reply (Rejected MissingParams), mkWorld s []).
Proof.
  intros Hp. unfold run, create, bind, reject_if at 1. rewrite Hp. reflexivity.
Qed.

Lemma unified_missing (date_now : Z) (fresh : string) (req : request)
    (sp : list (string * string)) (ip dev : string) (s : db) :
  unified_params_present req = false ->
  run (unified' date_now fresh req sp ip dev) s
  = (Reply (Rejected MissingParams), mkWorld s []).
Proof.
  intros Hp. unfold run, unified, bind, reject_if at 1. rewrite Hp. reflexivity.
Qed.

(** A reply of the common part is the reply of the two handlers. *)
Lemma handleSubmit_reply (date_now : Z) (fresh : string) (req : request) (s : db)
    (r : response) (w : world) :
  (forall sp ip dev, run (unified' date_now fresh req sp ip dev) s = (Reply r, w)) ->
  run (handleSubmit' date_now fresh req) s = (Reply r, w).
Proof.
  intros H. unfold run, handleSubmit, bind. unfold run in H. rewrite H. reflexivity.
Qed.

Lemma handleMapi_reply (date_now : Z) (fresh : string) (req : request) (s : db)
    (r : response) (w : world) :
  (forall sp ip dev, run (unified' date_now fresh req sp ip dev) s = (Reply r, w)) ->
  run (handleMapi' date_now fresh req) s = (Reply r, w).
Proof.
  intros H. unfold run, handleMapi, bind. unfold run in H. rewrite H. reflexivity.
Qed.

(** ** The signature stage *)

Local Abbreviation unified_verify' := (unified_verify verifySignRSA verifySignMD5).
Local Abbreviation create_verify' := (create_verify verifySignRSA verifySignMD5).

Lemma unified_verify_rsa_without_key (req : request) (sp : list (string * string))
    (m : merchant) (w : world) :
  effectiveSignType req = "RSA" ->
  present (m_rsa_public_key m) = false ->
  unified_verify' req sp m w = (Reply (Rejected RsaKeyMissing), w).
Proof.
  intros He Hk. unfold unified_verify, bind, reject_if. rewrite He, Hk. reflexivity.
Qed.

Lemma create_verify_without_key (req : request) (m : merchant) (w : world) :
  present (m_rsa_public_key m) = false ->
  create_verify' req m w
  = (Next (verifySignMD5 (create_signParams req) (text (q_sign req)) (m_api_key m)),
     mkWorld (w_db w) (w_log w ++ [EvVerifyMD5 (m_api_key m)])).
Proof.
  intros Hk. unfold create_verify. rewrite Hk. reflexivity.
Qed.

Lemma create_verify_with_key (req : request) (m : merchant) (w : world) :
  present (m_rsa_public_key m) = true ->
  create_verify' req m w
  = (Next (verifySignRSA (create_signParams req) (text (q_sign req))
             (text (m_rsa_public_key m))),
     mkWorld (w_db w) (w_log w ++ [EvVerifyRSA (text (m_rsa_public_key m))])).
Proof.
  intros Hk. unfold create_verify. rewrite Hk. reflexivity.
Qed.

Lemma unified_rsa_key_missing (date_now : Z) (fresh : string) (req : request)
    (sp : list (string * string)) (ip dev : string) (s : db) (m : merchant) :
  reaches_signature_check date_now req s m ->
  effectiveSignType req = "RSA" ->
  present (m_rsa_public_key m) = false ->
  run (unified' date_now fresh req sp ip dev) s
  = (Reply (Rejected RsaKeyMissing), mkWorld s [EvMerchantLookup (text (q_pid req))]).
Proof.
  intros [Hp [Ht [Hc Hm]]] He Hk.
  unfold run, unified. unfold bind at 1. unfold reject_if at 1. rewrite Hp. simpl.
  unfold bind at 1. unfold reject_if at 1.
  assert (Hts : present (q_timestamp req)
                && negb (validateTimestamp date_now (as_value (q_timestamp req))) = false).
  { destruct (present (q_timestamp req)); [rewrite Ht; reflexivity | reflexivity]. }
  rewrite Hts. simpl.
  unfold bind at 1.
  destruct (buildCertInfo (q_cert_no req) (q_cert_name req) (q_min_age req)) as [why | |] eqn:Ec;
    [exfalso; apply (Hc why); reflexivity | |];
    simpl; unfold bind at 1; simpl; unfold bind at 1; unfold read; simpl;
    rewrite Hm; unfold bind at 1;
    rewrite (unified_verify_rsa_without_key _ _ _ _ He Hk); reflexivity.
Qed.

End RequestChecks.

Section CodecFacts.
Import Codec.

(** ** The order on keys *)

Lemma ascii_compare_refl (c : ascii) : Ascii.compare c c = Eq.
Proof. unfold Ascii.compare. apply N.compare_refl. Qed.

Lemma string_compare_trans (a : string) :
  forall b c o,
    String.compare a b = o -> String.compare b c = o -> o <> Eq ->
    String.compare a c = o.
Proof.
  induction a as [| x a IH]; intros [| y b] [| z c] o Hab Hbc Ho;
    simpl in *; try congruence.
  destruct (Ascii.compare x y) eqn:Exy.
  - apply Ascii.compare_eq_iff in Exy. subst y.
    destruct (Ascii.compare x z) eqn:Exz; try congruence.
    eapply IH; eauto.
  - subst o. destruct (Ascii.compare y z) eqn:Eyz; try congruence.
    + apply Ascii.compare_eq_iff in Eyz. subst z. rewrite Exy. reflexivity.
    + unfold Ascii.compare in *. rewrite N.compare_lt_iff in *.
      assert (H : (N_of_ascii x < N_of_ascii z)%N) by lia.
      apply N.compare_lt_iff in H. rewrite H. reflexivity.
  - subst o. destruct (Ascii.compare y z) eqn:Eyz; try congruence.
    + apply Ascii.compare_eq_iff in Eyz. subst z. rewrite Exy. reflexivity.
    + unfold Ascii.compare in *. rewrite N.compare_gt_iff in *.
      assert (H : (N_of_ascii z < N_of_ascii x)%N) by lia.
      apply N.compare_gt_iff in H. rewrite H. reflexivity.
Qed.

Lemma string_leb_trans (a b c : string) :
  String.leb a b = true -> String.leb b c = true -> String.leb a c = true.
Proof.
  unfold String.leb. intros Hab Hbc.
  destruct (String.compare a b) eqn:Eab; try discriminate.
  - apply String.compare_eq_iff in Eab. subst b. exact Hbc.
  - destruct (String.compare b c) eqn:Ebc; try discriminate.
    + apply String.compare_eq_iff in Ebc. subst c. rewrite Eab. reflexivity.
    + rewrite (string_compare_trans a b c Lt Eab Ebc) by discriminate. reflexivity.
Qed.

(** ** Insertion sort *)

Lemma insert_sorted_perm (k : string) (l : list string) :
  Permutation (k :: l) (insert_sorted k l).
Proof.
  induction l as [| h t IH]; simpl; [apply Permutation_refl |].
  destruct (String.leb k h); [apply Permutation_refl |].
  eapply perm_trans; [apply perm_swap |]. apply perm_skip. exact IH.
Qed.

Lemma sort_perm (l : list string) : Permutation l (sort l).
Proof.
  induction l as [| h t IH]; simpl; [apply perm_nil |].
  eapply perm_trans; [apply perm_skip; exact IH | apply insert_sorted_perm].
Qed.

Lemma insert_sorted_sorted (k : string) (l : list string) :
  StronglySorted key_le l -> StronglySorted key_le (insert_sorted k l).
Proof.
  induction l as [| h t IH]; intros Hs; simpl.
  - constructor; constructor.
  - apply StronglySorted_inv in Hs. destruct Hs as [Ht Hh].
    destruct (String.leb k h) eqn:E.
    + constructor; [constructor; assumption |].
      constructor; [exact E |].
      eapply Forall_impl; [| exact Hh].
      intros x Hx. eapply string_leb_trans; eauto.
    + constructor; [apply IH; exact Ht |].
      assert (Hhk : key_le h k).
      { destruct (String.leb_total k h) as [H | H]; [congruence | exact H]. }
      apply Forall_forall. intros x Hx.
      apply (Permutation_in _ (Permutation_sym (insert_sorted_perm k t))) in Hx.
      destruct Hx as [<- | Hx]; [exact Hhk |].
      rewrite Forall_forall in Hh. apply Hh. exact Hx.
Qed.

Lemma sort_sorted (l : list string) : StronglySorted key_le (sort l).
Proof.
  induction l as [| h t IH]; simpl; [constructor | apply insert_sorted_sorted; exact IH].
Qed.

(** Two ascending lists with the same elements are the same list. *)
Lemma sorted_perm_unique (l1 : list string) :
  forall l2,
    StronglySorted key_le l1 -> StronglySorted key_le l2 ->
    Permutation l1 l2 -> l1 = l2.
Proof.
  induction l1 as [| a l1 IH]; intros l2 H1 H2 Hp.
  - apply Permutation_nil in Hp. congruence.
  - destruct l2 as [| b l2]; [apply Permutation_sym, Permutation_nil in Hp; discriminate |].
    apply StronglySorted_inv in H1. destruct H1 as [H1 Ha].
    apply StronglySorted_inv in H2. destruct H2 as [H2 Hb].
    rewrite Forall_forall in Ha, Hb.
    assert (Hab : a = b).
    { assert (Ia : In a (b :: l2)) by (apply (Permutation_in _ Hp); left; reflexivity).
      assert (Ib : In b (a :: l1))
        by (apply (Permutation_in _ (Permutation_sym Hp)); left; reflexivity).
      destruct Ia as [-> | Ia]; [reflexivity |].
      destruct Ib as [-> | Ib]; [reflexivity |].
      apply String.leb_antisym; [apply Ha | apply Hb]; assumption. }
    subst b. f_equal. apply IH; try assumption.
    apply (Permutation_cons_inv Hp).
Qed.

Lemma sort_of_permutation (l1 l2 : list string) :
  Permutation l1 l2 -> sort l1 = sort l2.
Proof.
  intros Hp. apply sorted_perm_unique; try apply sort_sorted.
  eapply perm_trans; [apply Permutation_sym, sort_perm |].
  eapply perm_trans; [exact Hp | apply sort_perm].
Qed.

Lemma filter_permutation {A} (f : A -> bool) (l1 l2 : list A) :
  Permutation l1 l2 -> Permutation (filter f l1) (filter f l2).
Proof.
  induction 1 as [| x l l' _ IH | x y l | l l' l'' _ IH1 _ IH2]; simpl.
  - apply perm_nil.
  - destruct (f x); [apply perm_skip |]; exact IH.
  - destruct (f x), (f y); try apply Permutation_refl. apply perm_swap.
  - eapply perm_trans; eauto.
Qed.

(** ** Reading a property does not depend on the enumeration order *)

Lemma get_in (p : params) (k v : string) :
  well_formed p -> In (k, v) p -> get p k = Some v.
Proof.
  unfold well_formed. induction p as [| [k' v'] p IH]; intros Hnd Hin; [contradiction |].
  simpl in *. inversion Hnd as [| x l Hnotin Hnd']; subst.
  destruct Hin as [Heq | Hin].
  - injection Heq as -> ->. rewrite String.eqb_refl. reflexivity.
  - destruct (String.eqb k' k) eqn:E.
    + apply String.eqb_eq in E. subst k'. exfalso. apply Hnotin.
      apply (in_map fst) in Hin. exact Hin.
    + apply IH; assumption.
Qed.

Lemma get_none (p : params) (k : string) :
  ~ In k (map fst p) -> get p k = None.
Proof.
  induction p as [| [k' v'] p IH]; intros Hn; simpl; [reflexivity |].
  destruct (String.eqb k' k) eqn:E.
  - apply String.eqb_eq in E. subst k'. exfalso. apply Hn. left. reflexivity.
  - apply IH. intros H. apply Hn. right. exact H.
Qed.

Lemma get_some_in (p : params) (k v : string) :
  get p k = Some v -> In (k, v) p.
Proof.
  induction p as [| [k' v'] p IH]; simpl; [discriminate |].
  destruct (String.eqb k' k) eqn:E.
  - apply String.eqb_eq in E. subst k'. intros H. injection H as ->. left. reflexivity.
  - intros H. right. apply IH. exact H.
Qed.

Lemma get_permutation (p1 p2 : params) (k : string) :
  well_formed p1 -> Permutation p1 p2 -> get p2 k = get p1 k.
Proof.
  intros Hwf Hp.
  assert (Hwf2 : well_formed p2).
  { unfold well_formed in *. eapply Permutation_NoDup; [| exact Hwf].
    apply Permutation_map. exact Hp. }
  destruct (get p1 k) as [v |] eqn:E.
  - apply get_in; [exact Hwf2 |].
    apply (Permutation_in _ Hp). apply get_some_in. exact E.
  - destruct (get p2 k) as [v |] eqn:E2; [| reflexivity].
    apply get_some_in in E2.
    apply (Permutation_in _ (Permutation_sym Hp)) in E2.
    rewrite (get_in _ _ _ Hwf E2) in E. discriminate.
Qed.

(** The canonical string does not depend on the order in which the
    parameters were put into the object. *)
Lemma sortedParams_permutation (p1 p2 : params) :
  well_formed p1 -> Permutation p1 p2 -> sortedParams p2 = sortedParams p1.
Proof.
  intros Hwf Hp. unfold sortedParams, signed_keys.
  assert (Hk : forall k, signed_key p2 k = signed_key p1 k).
  { intros k. unfold signed_key. rewrite (get_permutation _ _ k Hwf Hp). reflexivity. }
  assert (Ht : forall k, pair_text p2 k = pair_text p1 k).
  { intros k. unfold pair_text. rewrite (get_permutation _ _ k Hwf Hp). reflexivity. }
  rewrite (filter_ext _ _ Hk).
  rewrite (sort_of_permutation (filter (signed_key p1) (map fst p2))
             (filter (signed_key p1) (map fst p1))).
  - f_equal. apply map_ext. exact Ht.
  - apply filter_permutation, Permutation_map, Permutation_sym. exact Hp.
Qed.

(** The keys that enter the canonical string. *)
Lemma signed_keys_spec (p : params) (k : string) :
  In k (signed_keys p) <->
  In k (map fst p) /\ k <> "sign" /\ k <> "sign_type" /\ get p k <> Some "".
Proof.
  unfold signed_keys.
  split.
  - intros H. apply (Permutation_in _ (Permutation_sym (sort_perm _))) in H.
    apply filter_In in H. destruct H as [Hin Hs]. unfold signed_key in Hs.
    apply andb_prop in Hs. destruct Hs as [Hs Hv].
    apply andb_prop in Hs. destruct Hs as [H1 H2].
    apply negb_true_iff, String.eqb_neq in H1, H2.
    repeat split; try assumption.
    intros Hg. rewrite Hg in Hv. discriminate.
  - intros [Hin [H1 [H2 Hv]]].
    apply (Permutation_in _ (sort_perm _)). apply filter_In. split; [exact Hin |].
    unfold signed_key.
    apply String.eqb_neq in H1, H2. rewrite H1, H2. simpl.
    destruct (get p k) as [v |]; [| reflexivity].
    destruct (String.eqb v "") eqn:E; [| reflexivity].
    apply String.eqb_eq in E. subst v. exfalso. apply Hv. reflexivity.
Qed.

Lemma length_append (a b : string) :
  String.length (a ++ b) = (String.length a + String.length b)%nat.
Proof. induction a as [| c a IH]; simpl; [reflexivity | rewrite IH; reflexivity]. Qed.

(** Appending the secret loses nothing of the canonical string. *)
Lemma append_secret_injective (a b K : string) : a ++ K = b ++ K -> a = b.
Proof.
  revert b. induction a as [| c a IH]; intros [| c' b] H; simpl in H.
  - reflexivity.
  - apply (f_equal String.length) in H. simpl in H. rewrite length_append in H. lia.
  - apply (f_equal String.length) in H. simpl in H. rewrite length_append in H. lia.
  - injection H as -> H. f_equal. apply IH. exact H.
Qed.

Lemma verifySign_true_iff (p : params) (key sign : string) :
  verifySign p key sign = true <-> sign = createSign p key.
Proof.
  unfold verifySign, createSign. rewrite String.eqb_eq. split; congruence.
Qed.

Lemma differences_refl (a : string) : differences a a = 0%nat.
Proof.
  induction a as [| c a IH]; simpl; [reflexivity |].
  rewrite Ascii.eqb_refl. exact IH.
Qed.

Lemma one_character_changed_neq (a b : string) : one_character_changed a b -> a <> b.
Proof.
  intros [_ H] ->. rewrite differences_refl in H. discriminate.
Qed.

Lemma le_bytes_length (n : nat) (x : Z) : List.length (le_bytes n x) = n.
Proof. unfold le_bytes. rewrite length_map, length_seq. reflexivity. Qed.

Lemma md5_bytes_length (msg : list Z) : List.length (md5_bytes msg) = 16%nat.
Proof.
  unfold md5_bytes.
  destruct (fold_left md5_block _ _) as [[[a b] c] d].
  rewrite !length_app, !le_bytes_length. reflexivity.
Qed.

Lemma hex_of_bytes_length (bytes : list Z) :
  String.length (hex_of_bytes bytes) = (2 * List.length bytes)%nat.
Proof.
  induction bytes as [| b rest IH]; simpl; [reflexivity |].
  rewrite IH. lia.
Qed.

Lemma md5Sign_length (str : string) : String.length (md5Sign str) = 32%nat.
Proof.
  unfold md5Sign. rewrite hex_of_bytes_length, md5_bytes_length. reflexivity.
Qed.

Lemma in_byte_values (x : Z) : 0 <= x < 256 -> In x byte_values.
Proof.
  intros H. unfold byte_values. apply in_map_iff.
  exists (Z.to_nat x). split; [lia |]. apply in_seq. lia.
Qed.

Lemma le_bytes_in_range (n : nat) (x : Z) : Forall (fun b => In b byte_values) (le_bytes n x).
Proof.
  unfold le_bytes. apply Forall_forall. intros b Hb.
  apply in_map_iff in Hb. destruct Hb as [i [<- _]].
  apply in_byte_values. apply Z.mod_pos_bound. lia.
Qed.

Lemma md5_bytes_in_range (msg : list Z) :
  Forall (fun b => In b byte_values) (md5_bytes msg).
Proof.
  unfold md5_bytes.
  destruct (fold_left md5_block _ _) as [[[a b] c] d].
  repeat (apply Forall_app; split); apply le_bytes_in_range.
Qed.

Lemma in_lists_over (alphabet : list Z) (l : list Z) :
  Forall (fun b => In b alphabet) l -> In l (lists_over alphabet (List.length l)).
Proof.
  induction l as [| x l IH]; intros H; simpl; [left; reflexivity |].
  inversion H as [| y l' Hx Hl]; subst.
  apply in_flat_map. exists x. split; [exact Hx |].
  apply in_map. apply IH. exact Hl.
Qed.

(** Every digest is one of the hexadecimal forms of 16 bytes. *)
Lemma md5Sign_in_digests (str : string) : In (md5Sign str) digests.
Proof.
  unfold md5Sign, digests. apply in_map.
  rewrite <- (md5_bytes_length (bytes_of_string str)).
  apply in_lists_over. apply md5_bytes_in_range.
Qed.

(** More messages than values: two of them have the same value. *)
Lemma two_with_one_value {A : Type} (f : A -> string) (l : list A) :
  forall D : list string,
    NoDup l -> (forall x, In x l -> In (f x) D) ->
    (List.length D < List.length l)%nat ->
    exists x y, In x l /\ In y l /\ x <> y /\ f x = f y.
Proof.
  induction l as [| x l IH]; intros D Hnd Hin Hlen; [simpl in Hlen; lia |].
  inversion Hnd as [| x' l' Hx Hnd']; subst.
  destruct (in_dec string_dec (f x) (map f l)) as [Hdup | Hnew].
  - apply in_map_iff in Hdup. destruct Hdup as [y [Hy Hyl]].
    exists x, y. split; [left; reflexivity |]. split; [right; exact Hyl |].
    split; [| symmetry; exact Hy].
    intros ->. contradiction.
  - destruct (IH (remove string_dec (f x) D) Hnd') as [a [b [Ha [Hb [Hab Hf]]]]].
    + intros y Hy. apply in_in_remove.
      * intros E. apply Hnew. rewrite <- E. apply in_map. exact Hy.
      * apply Hin. right. exact Hy.
    + assert (Hfx : In (f x) D) by (apply Hin; left; reflexivity).
      pose proof (remove_length_lt string_dec D (f x) Hfx) as Hlt.
      simpl in Hlen. lia.
    + exists a, b. repeat split; try (right; assumption); assumption.
Qed.

Lemma ones_length (n : nat) : String.length (ones n) = S n.
Proof. induction n as [| n IH]; simpl; [reflexivity | rewrite IH; reflexivity]. Qed.

Lemma ones_injective (n m : nat) : ones n = ones m -> n = m.
Proof.
  intros H. apply (f_equal String.length) in H. rewrite !ones_length in H. lia.
Qed.

Lemma ones_not_empty (n : nat) : String.eqb (ones n) "" = false.
Proof. destruct n; reflexivity. Qed.

Lemma sortedParams_one (v : string) :
  String.eqb v "" = false -> sortedParams [("a", v)] = "a=" ++ v.
Proof.
  intros Hv. unfold sortedParams, signed_keys, signed_key, pair_text. simpl.
  rewrite Hv. simpl. reflexivity.
Qed.

(** Whatever the secret, two different values of one parameter have the
    same signature. *)
Lemma two_values_with_one_signature (K : string) :
  exists v1 v2,
    v1 <> v2 /\ v1 <> "" /\ v2 <> "" /\
    createSign [("a", v1)] K = createSign [("a", v2)] K.
Proof.
  destruct (two_with_one_value (fun n => createSign [("a", ones n)] K)
              (seq 0 (S (List.length digests))) digests)
    as [n [m [_ [_ [Hnm Heq]]]]].
  - apply seq_NoDup.
  - intros n _. apply md5Sign_in_digests.
  - rewrite length_seq. lia.
  - exists (ones n), (ones m).
    split; [intros E; apply Hnm, ones_injective; exact E |].
    split; [intros E; pose proof (ones_not_empty n) as H; rewrite E in H; discriminate |].
    split; [intros E; pose proof (ones_not_empty m) as H; rewrite E in H; discriminate |].
    exact Heq.
Qed.


(** C6: the signature made by [createSign] over a parameter set is
    accepted by [verifySign] for the same set and secret, also when the
    verifier holds the parameters in another order.  It is the only
    signature accepted: one with a single character changed is refused.
    The canonical string lists, in ascending key order, the [k=v] pairs of
    the keys other than [sign] and [sign_type] whose value is not empty,
    joined by [&], and the secret is appended before hashing; the digest
    is the MD5 of RFC 1321 in 32 hexadecimal characters.  A changed
    canonical string is refused exactly when its digest differs, as it
    does for the changed amount of the example. *)
Theorem md5_signature_round_trip (P : params) (K : string) :
  verifySign P K (createSign P K) = true /\
  (forall P2, well_formed P -> Permutation P P2 ->
              verifySign P2 K (createSign P K) = true) /\
  (forall sig, verifySign P K sig = true <-> sig = createSign P K) /\
  (forall sig, one_character_changed (createSign P K) sig -> verifySign P K sig = false) /\
  (forall P' K',
     verifySign P' K' (createSign P K) = false <->
     md5Sign (sortedParams P' ++ K') <> md5Sign (sortedParams P ++ K)) /\
  createSign P K
    = md5Sign (String.concat "&" (map (pair_text P) (signed_keys P)) ++ K) /\
  StronglySorted key_le (signed_keys P) /\
  (forall k, In k (signed_keys P) <->
             In k (map fst P) /\ k <> "sign" /\ k <> "sign_type" /\ get P k <> Some "") /\
  String.length (createSign P K) = 32%nat /\
  md5Sign "" = "d41d8cd98f00b204e9800998ecf8427e" /\
  md5Sign "abc" = "900150983cd24fb0d6963f7d28e17f72" /\
  md5Sign "12345678901234567890123456789012345678901234567890123456789012345678901234567890"
    = "57edf4a22be3c955ac49da2e2107b67a" /\
  (let P1 := [("pid", "1001"); ("money", "1.00"); ("sign_type", "MD5"); ("param", "")] in
   let P2 := [("pid", "1001"); ("money", "9.00"); ("sign_type", "MD5"); ("param", "")] in
   sortedParams P1 = "money=1.00&pid=1001" /\
   createSign P1 "secret" = "db2367d18af244cca18fd9ca6ad7b6e1" /\
   one_character_changed (sortedParams P1 ++ "secret") (sortedParams P2 ++ "secret") /\
   verifySign P2 "secret" (createSign P1 "secret") = false).
Proof.
  split; [apply verifySign_true_iff; reflexivity |].
  split.
  { intros P2 Hwf Hp. apply verifySign_true_iff.
    unfold createSign. rewrite (sortedParams_permutation _ _ Hwf Hp). reflexivity. }
  split; [intros sig; apply verifySign_true_iff |].
  split.
  { intros sig Hc. destruct (verifySign P K sig) eqn:E; [| reflexivity].
    apply verifySign_true_iff in E. symmetry in E.
    exfalso. exact (one_character_changed_neq _ _ Hc E). }
  split.
  { intros P' K'. unfold verifySign, createSign. rewrite String.eqb_neq. reflexivity. }
  split; [reflexivity |].
  split; [apply sort_sorted |].
  split; [apply signed_keys_spec |].
  split; [apply md5Sign_length |].
  split; [vm_compute; reflexivity |].
  split; [vm_compute; reflexivity |].
  split; [vm_compute; reflexivity |].
  vm_compute. repeat split; reflexivity.
Qed.

(** C6 (as stated) fails for a change of the canonical string: MD5 is
    not injective.  With no parameter that enters the canonical string,
    the canonical string is the secret; the two secrets below differ in
    one character (the 22nd, [A] against [E]) and have the same digest, so
    the signature made under one is accepted under the other.  And
    whatever the secret, two different values of one parameter have the
    same signature, so a request with the one is accepted with the
    signature of the other. *)
Lemma md5_collision_passes_verification :
  (let K  := "TEXTCOLLBYfGiJUETHQ4hAcKSMd5zYpgqf1YRDhkmxHkhPWptrkoyz28wnI9V0aHeAuaKnak" in
   let K' := "TEXTCOLLBYfGiJUETHQ4hEcKSMd5zYpgqf1YRDhkmxHkhPWptrkoyz28wnI9V0aHeAuaKnak" in
   let P := [("sign_type", "MD5"); ("param", "")] in
   sortedParams P = "" /\
   one_character_changed (sortedParams P ++ K) (sortedParams P ++ K') /\
   createSign P K = "faad49866e9498fc1719f5289e7a0269" /\
   createSign P K' = "faad49866e9498fc1719f5289e7a0269" /\
   verifySign P K' (createSign P K) = true) /\
  (forall K, exists v1 v2,
     sortedParams [("a", v1)] ++ K <> sortedParams [("a", v2)] ++ K /\
     verifySign [("a", v2)] K (createSign [("a", v1)] K) = true).
Proof.
  split; [vm_compute; repeat split; reflexivity |].
  intros K.
  destruct (two_values_with_one_signature K) as [v1 [v2 [Hne [H1 [H2 Heq]]]]].
  exists v1, v2. split.
  - apply String.eqb_neq in H1, H2.
    rewrite !sortedParams_one by assumption.
    intros E. apply append_secret_injective in E.
    apply Hne. simpl in E. injection E as E. exact E.
  - apply verifySign_true_iff. exact Heq.
Qed.

End CodecFacts.

Section RequestScenarios.
Import JS Fee Channel Store Gateway Codec Scenarios.


End RequestScenarios.

Section SettlementGuard.
Import JS Fee Channel Store Settlement.

Lemma notify_update_keeps_flags (k now : Z) (ok : bool) (s : db) :
  map o_balance_added (orders (update_order_where_id k (notify_update now ok) s))
  = map o_balance_added (orders s).
Proof.
  unfold update_order_where_id. simpl. rewrite map_map. apply map_ext.
  intros o. destruct (o_id o =? k); reflexivity.
Qed.

Lemma run_settlement_unfold (fuel me : nat) (d : delivery) (p : pc) (h : shared) :
  run_settlement (S fuel) me d p h =
  match p with
  | AtRespond _ | Finished _ => (p, h)
  | _ => match step me d p h with
         | Some (p', h') => run_settlement fuel me d p' h'
         | None => (p, h)
         end
  end.
Proof. destruct p; reflexivity. Qed.

Lemma run_settlement_done (fuel me : nat) (d : delivery) (o : order) (h : shared) :
  run_settlement fuel me d (AtRespond o) h = (AtRespond o, h).
Proof. destruct fuel; reflexivity. Qed.

(** What [sendDownstreamNotify] comes to when nothing is to be credited. *)
Lemma sendDownstreamNotify_nonpositive (me : nat) (d : delivery) (caller o : order) (h : shared) :
  Qle_bool (settleAmount_of o) 0 = true ->
  sendDownstreamNotify me d caller o h =
  match merchants_by_user_id (o_merchant_id o) (store h) with
  | [] => (AtRespond caller, h)
  | m :: _ =>
      let out := (outbox h ++ [TelegramPayment (o_id o)])%list in
      if String.eqb (o_notify_url o) "" then
        (AtRespond caller, mkShared (store h) (row_locks h) (ledger h) (transitions h) out)
      else
        let h1 := mkShared (store h) (row_locks h) (ledger h) (transitions h)
                    (out ++ [MerchantNotify (o_id o) (o_notify_url o)])%list in
        if lock_free (o_id o) me (row_locks h) then
          (AtRespond caller,
           with_store (update_order_where_id (o_id o)
                         (notify_update (d_now d) (d_merchant_ack d)) (store h)) h1)
        else (AtNotifyStatus caller o (d_merchant_ack d), h1)
  end.
Proof.
  intros Hq. unfold sendDownstreamNotify.
  rewrite run_settlement_unfold. cbn [step].
  destruct (merchants_by_user_id (o_merchant_id o) (store h)) as [| m ms].
  - apply run_settlement_done.
  - rewrite Hq. rewrite run_settlement_unfold. cbn [step].
    destruct (String.eqb (o_notify_url o) "").
    + apply run_settlement_done.
    + rewrite run_settlement_unfold. cbn [step row_locks store].
      destruct (lock_free (o_id o) me (row_locks h)).
      * apply run_settlement_done.
      * reflexivity.
Qed.

(** C10: when the fee is equal to or above the amount
    ([money - fee_money <= 0]) [sendDownstreamNotify] opens no balance
    transaction: the merchants table, the record of credits, the row locks
    and every [balance_added] flag are as they were; and when the merchant
    exists and the order has a notify url, the notification to the merchant
    is sent all the same. *)
Theorem no_credit_without_positive_settlement
    (me : nat) (d : delivery) (caller o : order) (h : shared) :
  (o_money o - o_fee_money o <= 0)%Q ->
  let result := sendDownstreamNotify me d caller o h in
  merchants (store (snd result)) = merchants (store h) /\
  ledger (snd result) = ledger h /\
  row_locks (snd result) = row_locks h /\
  map o_balance_added (orders (store (snd result)))
    = map o_balance_added (orders (store h)) /\
  in_txn (fst result) = false /\
  (forall p' h', step me d (AtMerchant caller (Some o)) h = Some (p', h') ->
                 h' = h /\ (p' = AtRespond caller \/ exists m, p' = AtOutbound caller o m)) /\
  (forall m ms,
     merchants_by_user_id (o_merchant_id o) (store h) = m :: ms ->
     o_notify_url o <> "" ->
     outbox (snd result)
     = (outbox h ++ [TelegramPayment (o_id o)]
                 ++ [MerchantNotify (o_id o) (o_notify_url o)])%list).
Proof.
  intros Hle result.
  assert (Hq : Qle_bool (settleAmount_of o) 0 = true)
    by (apply Qle_bool_iff; exact Hle).
  subst result. rewrite (sendDownstreamNotify_nonpositive _ _ _ _ _ Hq).
  split; [| split; [| split; [| split; [| split; [| split]]]]];
    try (destruct (merchants_by_user_id (o_merchant_id o) (store h)) as [| m ms];
         [reflexivity |];
         cbv zeta; destruct (String.eqb (o_notify_url o) ""); [reflexivity |];
         destruct (lock_free (o_id o) me (row_locks h)); cbn;
         try reflexivity; apply notify_update_keeps_flags).
  - intros p' h' Hs. cbn [step] in Hs.
    destruct (merchants_by_user_id (o_merchant_id o) (store h)) as [| m ms].
    + injection Hs as <- <-. auto.
    + rewrite Hq in Hs. injection Hs as <- <-. split; [reflexivity |]. right. eauto.
  - intros m ms Hm Hurl. rewrite Hm. cbv zeta.
    apply String.eqb_neq in Hurl. rewrite Hurl.
    destruct (lock_free (o_id o) me (row_locks h)); cbn;
      rewrite <- app_assoc; reflexivity.
Qed.

Lemma no_credit_without_positive_settlement_witness :
  let o := mkOrder 1 7 (Some 1) "T1" "A-100" "alipay" None "book" 1 1 1 "merchant" ""
             "https://shop.example/notify" "" 1 "normal" None None None 0 (Some 5)
             None None false 0 0 None in
  let h := mkShared (mkDb [o] [mkMerchant 7 "100000000001" "active" "key" None None None None 50]
                          [] [] [] 2) [] [] [] [] in
  let d := mkDelivery ViaNotify "T1" (fun _ _ => NoPlugin) true 9 in
  (o_money o - o_fee_money o <= 0)%Q /\
  map m_balance (merchants (store (snd (sendDownstreamNotify 0 d o o h)))) = [50%Q] /\
  outbox (snd (sendDownstreamNotify 0 d o o h))
  = [TelegramPayment 1; MerchantNotify 1 "https://shop.example/notify"].
Proof.
  intros o h d.
  assert (Hle : (o_money o - o_fee_money o <= 0)%Q) by (vm_compute; discriminate).
  pose proof (no_credit_without_positive_settlement 0 d o o h Hle) as H.
  split; [exact Hle |]. split.
  - rewrite (proj1 H). reflexivity.
  - apply (proj2 (proj2 (proj2 (proj2 (proj2 (proj2 H)))))
             (mkMerchant 7 "100000000001" "active" "key" None None None None 50) []).
    + reflexivity.
    + discriminate.
Defined.

End SettlementGuard.

Section ExactlyOnce.
Import JS Fee Channel Store Settlement.

(** ** The pool of requests *)

Lemma nth_error_set_nth_same {A} (l : list A) (i : nat) (x y : A) :
  nth_error l i = Some y -> nth_error (set_nth i x l) i = Some x.
Proof.
  revert i. induction l as [| a l IH]; intros [| i] H; simpl in *; try discriminate.
  - reflexivity.
  - apply IH. exact H.
Qed.

Lemma nth_error_set_nth_other {A} (l : list A) (i j : nat) (x : A) :
  j <> i -> nth_error (set_nth i x l) j = nth_error l j.
Proof.
  revert i j. induction l as [| a l IH]; intros [| i] [| j] H; simpl; try reflexivity.
  - contradiction.
  - apply IH. congruence.
Qed.

Lemma length_set_nth {A} (l : list A) (i : nat) (x : A) :
  List.length (set_nth i x l) = List.length l.
Proof.
  revert i. induction l as [| a l IH]; intros [| i]; simpl; try reflexivity.
  rewrite IH. reflexivity.
Qed.

(** ** Queries after an update in place *)

Lemma orders_by_id_update (k : Z) (f : order -> order) (s : db) (row : order) :
  (forall o, o_id (f o) = o_id o) ->
  orders_by_id k s = [row] ->
  orders_by_id k (update_order_where_id k f s) = [f row].
Proof.
  intros Hid H. unfold orders_by_id, update_order_where_id in *. simpl.
  rewrite filter_map_commute.
  - rewrite H. simpl.
    assert (Hin : In row (filter (fun o => o_id o =? k) (orders s)))
      by (rewrite H; left; reflexivity).
    apply filter_In in Hin. destruct Hin as [_ Hk]. rewrite Hk. reflexivity.
  - intros o. destruct (o_id o =? k) eqn:E; [rewrite Hid; exact E | exact E].
Qed.

Lemma orders_by_trade_no_update (t : string) (k : Z) (f : order -> order) (s : db)
    (row : order) :
  (forall o, o_trade_no (f o) = o_trade_no o) ->
  o_id row = k ->
  orders_by_trade_no t s = [row] ->
  orders_by_trade_no t (update_order_where_id k f s) = [f row].
Proof.
  intros Ht Hk H. unfold orders_by_trade_no, update_order_where_id in *. simpl.
  rewrite filter_map_commute.
  - rewrite H. simpl. rewrite Hk, Z.eqb_refl. reflexivity.
  - intros o. destruct (o_id o =? k); [rewrite Ht; reflexivity | reflexivity].
Qed.

Lemma merchants_by_user_id_credit (u : Z) (a : Q) (s : db) (m : merchant) :
  merchants_by_user_id u s = [m] ->
  exists m',
    merchants_by_user_id u (credit_merchant u a s) = [m'] /\
    m_balance m' = (m_balance m + a)%Q.
Proof.
  intros H. unfold merchants_by_user_id, credit_merchant in *. simpl.
  rewrite filter_map_commute.
  - rewrite H. simpl.
    assert (Hin : In m (filter (fun x => m_user_id x =? u) (merchants s)))
      by (rewrite H; left; reflexivity).
    apply filter_In in Hin. destruct Hin as [_ Hu]. rewrite Hu.
    eexists. split; reflexivity.
  - intros x. destruct (m_user_id x =? u) eqn:E; [simpl; exact E | exact E].
Qed.

(** ** The columns no statement writes *)

Lemma core_fields (a b : order) :
  core a = core b ->
  o_id a = o_id b /\ o_merchant_id a = o_merchant_id b /\
  o_channel_id a = o_channel_id b /\ o_trade_no a = o_trade_no b /\
  o_money a = o_money b /\ o_fee_money a = o_fee_money b.
Proof. unfold core. intros H. injection H as H1 H2 H3 H4 H5 H6 H7 H8. auto 10. Qed.

Lemma core_settle (a b : order) : core a = core b -> settleAmount_of a = settleAmount_of b.
Proof.
  intros H. apply core_fields in H. destruct H as [_ [_ [_ [_ [Hm Hf]]]]].
  unfold settleAmount_of. rewrite Hm, Hf. reflexivity.
Qed.

(** ** The setting: a pending order with a locked channel, its
    merchant, and any number of deliveries for its trade_no *)

Variable ds : list delivery.
Variable s0 : db.
Variable o0 : order.
Variable m0 : merchant.
Variable c0 : channel.
Variable cid : Z.

Hypothesis deliveries_for_order :
  forall i d, nth_error ds i = Some d -> d_trade_no d = o_trade_no o0.
Hypothesis row_by_trade_no : orders_by_trade_no (o_trade_no o0) s0 = [o0].
Hypothesis row_by_id : orders_by_id (o_id o0) s0 = [o0].
Hypothesis row_pending : o_status o0 = 0.
Hypothesis row_not_credited : o_balance_added o0 = false.
Hypothesis row_channel : o_channel_id o0 = Some cid.
Hypothesis channel_set : cid <> 0.
Hypothesis channel_exists : hd_error (channels_by_id cid s0) = Some c0.
Hypothesis merchant_row : merchants_by_user_id (o_merchant_id o0) s0 = [m0].
Hypothesis settle_positive : (0 < settleAmount_of o0)%Q.

Local Abbreviation k := (o_id o0).
Local Abbreviation u := (o_merchant_id o0).
Local Abbreviation settle := (settleAmount_of o0).
Local Abbreviation data_ok := (Settlement.data_ok s0 o0 m0).
Local Abbreviation local_ok := (Settlement.local_ok o0).
Local Abbreviation locks_ok := (Settlement.locks_ok o0).
Local Abbreviation Inv_at := (Settlement.Inv_at ds s0 o0 m0).
Local Abbreviation Inv := (Settlement.Inv ds s0 o0 m0).
Local Abbreviation by_trade := (Settlement.by_trade s0 o0 m0).
Local Abbreviation by_id := (Settlement.by_id s0 o0 m0).
Local Abbreviation row_core := (Settlement.row_core s0 o0 m0).
Local Abbreviation row_status := (Settlement.row_status s0 o0 m0).
Local Abbreviation by_user := (Settlement.by_user s0 o0 m0).
Local Abbreviation chans := (Settlement.chans s0 o0 m0).
Local Abbreviation bal := (Settlement.bal s0 o0 m0).
Local Abbreviation led := (Settlement.led s0 o0 m0).
Local Abbreviation trans := (Settlement.trans s0 o0 m0).

Lemma local_ok_stable (row row' : order) (p : pc) :
  local_ok row p ->
  (o_status row = 1 -> o_status row' = 1) ->
  (in_txn p = true -> o_balance_added row' = o_balance_added row) ->
  local_ok row' p.
Proof.
  intros H Hs Hf. destruct p; simpl in *; try tauto.
  - destruct H as [H1 [H2 [H3 H4]]]. rewrite (Hf eq_refl). auto.
  - destruct H as [H1 [H2 [H3 H4]]]. rewrite (Hf eq_refl). auto.
  - destruct H as [H1 [H2 H3]]. rewrite (Hf eq_refl). auto.
Qed.

Lemma Inv_initial : Inv (initial s0 ds).
Proof.
  exists o0, m0. unfold Inv_at, initial. simpl.
  split; [| split; [| split; [| split; [| split]]]].
  - constructor; simpl; auto.
    + rewrite row_not_credited. lra.
    + rewrite row_not_credited. reflexivity.
    + rewrite row_pending. reflexivity.
  - intros i p H. apply nth_error_In, in_map_iff in H. destruct H as [x [<- _]]. exact I.
  - split; [| left; reflexivity].
    intros i p H. apply nth_error_In, in_map_iff in H. destruct H as [x [<- _]]. discriminate.
  - rewrite row_pending. discriminate.
  - intros i d p _ _ H. apply nth_error_In, in_map_iff in H. destruct H as [x [<- _]].
    discriminate.
  - apply length_map.
Qed.

(** ** The lock discipline *)

Lemma locks_keep (h h' : shared) (ps : list pc) (i : nat) (p p' : pc) :
  locks_ok h ps -> nth_error ps i = Some p ->
  row_locks h' = row_locks h -> in_txn p' = in_txn p ->
  locks_ok h' (set_nth i p' ps).
Proof.
  intros [H1 H2] Hi Hl Ht. rewrite <- Hl in *. split.
  - intros j q Hj Hq. destruct (Nat.eq_dec j i) as [-> | Hne].
    + rewrite (nth_error_set_nth_same _ _ _ _ Hi) in Hj. injection Hj as <-.
      apply (H1 i p Hi). congruence.
    + rewrite nth_error_set_nth_other in Hj by exact Hne. eauto.
  - destruct H2 as [H2 | [j [q [Hj [Hq Hin]]]]]; [left; exact H2 | right].
    destruct (Nat.eq_dec j i) as [-> | Hne].
    + exists i, p'. rewrite (nth_error_set_nth_same _ _ _ _ Hi).
      assert (q = p) by congruence. subst q. repeat split; congruence.
    + exists j, q. rewrite nth_error_set_nth_other by exact Hne. auto.
Qed.

Lemma nobody_in_txn (h : shared) (ps : list pc) (i : nat) (p : pc) :
  locks_ok h ps -> nth_error ps i = Some p -> in_txn p = false ->
  lock_free k i (row_locks h) = true ->
  row_locks h = [] /\ forall j q, nth_error ps j = Some q -> in_txn q = false.
Proof.
  intros [H1 H2] Hi Hp Hfree.
  assert (Hnil : row_locks h = []).
  { destruct H2 as [H2 | [j [q [Hj [Hq Hin]]]]]; [exact H2 |].
    rewrite Hj in Hfree. simpl in Hfree.
    rewrite Z.eqb_refl in Hfree. simpl in Hfree.
    rewrite andb_true_r in Hfree. apply Nat.eqb_eq in Hfree. subst j.
    congruence. }
  split; [exact Hnil |].
  intros j q Hj. destruct (in_txn q) eqn:E; [| reflexivity].
  rewrite (H1 j q Hj E) in Hnil. discriminate.
Qed.

Lemma locks_acquire (h h' : shared) (ps : list pc) (i : nat) (p p' : pc) :
  locks_ok h ps -> nth_error ps i = Some p -> in_txn p = false ->
  lock_free k i (row_locks h) = true ->
  row_locks h' = (k, i) :: row_locks h -> in_txn p' = true ->
  locks_ok h' (set_nth i p' ps).
Proof.
  intros Hl Hi Hp Hfree Hl' Hp'.
  destruct (nobody_in_txn _ _ _ _ Hl Hi Hp Hfree) as [Hnil Hnone].
  rewrite Hnil in Hl'. split.
  - intros j q Hj Hq. destruct (Nat.eq_dec j i) as [-> | Hne]; [exact Hl' |].
    rewrite nth_error_set_nth_other in Hj by exact Hne.
    rewrite (Hnone j q Hj) in Hq. discriminate.
  - right. exists i, p'. rewrite (nth_error_set_nth_same _ _ _ _ Hi). auto.
Qed.

Lemma holder_is_alone (h : shared) (ps : list pc) (i : nat) (p : pc) :
  locks_ok h ps -> nth_error ps i = Some p -> in_txn p = true ->
  row_locks h = [(k, i)] /\
  forall j q, j <> i -> nth_error ps j = Some q -> in_txn q = false.
Proof.
  intros [H1 _] Hi Hp. split; [eauto |].
  intros j q Hne Hj. destruct (in_txn q) eqn:E; [| reflexivity].
  pose proof (H1 i p Hi Hp) as A. pose proof (H1 j q Hj E) as B.
  rewrite A in B. injection B as B. congruence.
Qed.

Lemma locks_release (h h' : shared) (ps : list pc) (i : nat) (p p' : pc) :
  locks_ok h ps -> nth_error ps i = Some p -> in_txn p = true ->
  row_locks h' = release i (row_locks h) -> in_txn p' = false ->
  locks_ok h' (set_nth i p' ps).
Proof.
  intros Hl Hi Hp Hl' Hp'.
  destruct (holder_is_alone _ _ _ _ Hl Hi Hp) as [Hmine Hothers].
  rewrite Hmine in Hl'. unfold release in Hl'. simpl in Hl'.
  rewrite Nat.eqb_refl in Hl'. simpl in Hl'. split.
  - intros j q Hj Hq. destruct (Nat.eq_dec j i) as [-> | Hne].
    + rewrite (nth_error_set_nth_same _ _ _ _ Hi) in Hj. congruence.
    + rewrite nth_error_set_nth_other in Hj by exact Hne.
      rewrite (Hothers j q Hne Hj) in Hq. discriminate.
  - left. exact Hl'.
Qed.

(** ** One step keeps the invariant, given what it does to the row *)

Lemma inv_update (h h' : shared) (ps : list pc) (i : nat) (d : delivery) (p p' : pc)
    (row row' : order) (m m' : merchant) :
  Inv_at h ps row m ->
  nth_error ps i = Some p -> nth_error ds i = Some d ->
  data_ok h' row' m' ->
  (o_status row = 1 -> o_status row' = 1) ->
  (o_balance_added row = true -> o_balance_added row' = true) ->
  (o_balance_added row' = o_balance_added row \/ in_txn p = true) ->
  local_ok row' p' ->
  locks_ok h' (set_nth i p' ps) ->
  (owes p = true -> owes p' = true \/ o_balance_added row' = true) ->
  (o_status row' = 1 -> o_status row = 1 \/ owes p' = true) ->
  (verifies d -> passed p = false -> passed p' = true -> o_status row' = 1) ->
  Inv_at h' (set_nth i p' ps) row' m'.
Proof.
  intros [Hd [Hloc [Hlk [Hob [Hver Hlen]]]]] Hi Hdi Hd' Hst Hfl Hflag Hp' Hlk' Howes Hnew Hpass.
  split; [exact Hd' |]. split; [| split; [exact Hlk' | split; [| split]]].
  - intros j q Hj. destruct (Nat.eq_dec j i) as [-> | Hne].
    + rewrite (nth_error_set_nth_same _ _ _ _ Hi) in Hj. injection Hj as <-. exact Hp'.
    + rewrite nth_error_set_nth_other in Hj by exact Hne.
      apply (local_ok_stable row); [eauto | exact Hst |].
      intros Hq. destruct Hflag as [Hsame | Hin]; [exact Hsame |].
      destruct (holder_is_alone _ _ _ _ Hlk Hi Hin) as [_ Hothers].
      rewrite (Hothers j q Hne Hj) in Hq. discriminate.
  - intros Hs'.
    destruct (owes p') eqn:Ep'.
    { right. exists i, p'. rewrite (nth_error_set_nth_same _ _ _ _ Hi). auto. }
    destruct (Hnew Hs') as [Hs | Hx]; [| discriminate].
    destruct (Hob Hs) as [Hf | [j [q [Hj Hq]]]]; [left; auto |].
    destruct (Nat.eq_dec j i) as [-> | Hne].
    + assert (q = p) by congruence. subst q.
      destruct (Howes Hq) as [Hx | Hx]; [discriminate | left; exact Hx].
    + right. exists j, q. rewrite nth_error_set_nth_other by exact Hne. auto.
  - intros j dj q Hdj Hv Hj Hq. destruct (Nat.eq_dec j i) as [-> | Hne].
    + rewrite (nth_error_set_nth_same _ _ _ _ Hi) in Hj. injection Hj as <-.
      assert (dj = d) by congruence. subst dj.
      destruct (passed p) eqn:Ep.
      * apply Hst. eapply Hver; eauto.
      * apply Hpass; auto.
    + rewrite nth_error_set_nth_other in Hj by exact Hne.
      apply Hst. eapply Hver; eauto.
  - rewrite length_set_nth. exact Hlen.
Qed.

(** ** What each kind of write does to the books *)

Lemma data_ok_same_store (h h' : shared) (row : order) (m : merchant) :
  data_ok h row m ->
  store h' = store h -> ledger h' = ledger h -> transitions h' = transitions h ->
  data_ok h' row m.
Proof.
  intros [A B C D E F G H I] Hs Hl Ht.
  constructor; rewrite ?Hs, ?Hl, ?Ht; assumption.
Qed.

Lemma row_id (h : shared) (row : order) (m : merchant) :
  data_ok h row m -> o_id row = k.
Proof. intros H. apply row_core, core_fields in H. tauto. Qed.

Lemma data_ok_paid (h : shared) (row : order) (m : merchant) (now : Z)
    (a b : option string) (L : list (Z * nat)) (O : list out_event) :
  data_ok h row m ->
  data_ok
    (mkShared (update_order_where_id k (paid_update now a b) (store h)) L (ledger h)
       (transitions h ++ map o_id (filter (fun o => o_status o =? 0)
                                          (orders_by_id k (store h)))) O)
    (paid_update now a b row) m.
Proof.
  intros Hd. pose proof (row_id _ _ _ Hd) as Hk. destruct Hd as [A B C D E F G H I].
  constructor; simpl.
  - apply orders_by_trade_no_update; auto.
  - apply orders_by_id_update; auto.
  - exact C.
  - right. reflexivity.
  - exact E.
  - exact F.
  - exact G.
  - exact H.
  - rewrite I, B. simpl. destruct D as [D | D]; rewrite D; simpl; [rewrite Hk |]; reflexivity.
Qed.

Lemma data_ok_notified (h : shared) (row : order) (m : merchant) (now : Z) (ok : bool) :
  data_ok h row m ->
  data_ok (with_store (update_order_where_id k (notify_update now ok) (store h)) h)
          (notify_update now ok row) m.
Proof.
  intros Hd. pose proof (row_id _ _ _ Hd) as Hk. destruct Hd as [A B C D E F G H I].
  constructor; simpl; auto.
  - apply orders_by_trade_no_update; auto.
  - apply orders_by_id_update; auto.
Qed.

Lemma data_ok_credited (h : shared) (row : order) (m : merchant)
    (L : list (Z * nat)) :
  data_ok h row m ->
  o_balance_added row = false ->
  exists m',
    data_ok
      (mkShared (update_order_where_id k balance_added_update
                   (credit_merchant u settle (store h)))
                L (ledger h ++ [(u, settle)]) (transitions h) (outbox h))
      (balance_added_update row) m'.
Proof.
  intros Hd Hf. pose proof (row_id _ _ _ Hd) as Hk. destruct Hd as [A B C D E F G H I].
  destruct (merchants_by_user_id_credit u settle (store h) m E) as [m' [Hm' Hb]].
  exists m'. constructor; simpl; auto.
  - apply orders_by_trade_no_update; auto.
  - apply orders_by_id_update; auto.
  - rewrite Hb, G, Hf. lra.
  - rewrite H, Hf. reflexivity.
Qed.

(** ** Every statement keeps the invariant *)

Lemma row_is_locked (row : order) : core row = core o0 -> channel_locked row = true.
Proof.
  intros H. apply core_fields in H. destruct H as [_ [_ [Hc _]]].
  unfold channel_locked. rewrite Hc, row_channel.
  apply negb_true_iff, Z.eqb_neq. exact channel_set.
Qed.

Lemma channel_found (h : shared) (row : order) (m : merchant) (o : order) :
  data_ok h row m -> core o = core o0 ->
  exists rest,
    channels_by_id (match o_channel_id o with Some c => c | None => 0 end) (store h)
    = c0 :: rest.
Proof.
  intros Hd Ho. apply core_fields in Ho. destruct Ho as [_ [_ [Hc _]]].
  rewrite Hc, row_channel. unfold channels_by_id. rewrite (chans _ _ _ Hd).
  pose proof channel_exists as H. unfold channels_by_id in H.
  destruct (filter (fun c => ch_id c =? cid) (channels s0)) as [| x rest];
    [discriminate |].
  injection H as ->. eauto.
Qed.

Lemma settle_not_le_0 : Qle_bool settle 0 = false.
Proof. apply Qle_bool_of_lt. exact settle_positive. Qed.

Ltac routine :=
  solve [simpl; intros; first [discriminate | tauto | congruence | auto]].

(** Apply the update lemma and discharge what is routine; [data] proves
    the books. *)
Ltac by_update HI Hi Hd data :=
  eapply (inv_update _ _ _ _ _ _ _ _ _ _ _ HI Hi Hd);
  first
    [ solve [data]
    | routine
    | solve [eapply locks_keep; eauto]
    | solve [eapply locks_acquire; eauto]
    | solve [eapply locks_release; eauto]
    | idtac ].

Ltac unchanged HI Hi Hd :=
  by_update HI Hi Hd
    ltac:(first [eassumption | eapply data_ok_same_store; [eassumption | reflexivity ..]]).

Lemma step_keeps_Inv_at (h h' : shared) (ps : list pc) (i : nat) (d : delivery)
    (p p' : pc) (row : order) (m : merchant) :
  Inv_at h ps row m ->
  nth_error ps i = Some p -> nth_error ds i = Some d ->
  step i d p h = Some (p', h') ->
  exists row' m', Inv_at h' (set_nth i p' ps) row' m'.
Proof.
  intros HI Hi Hd Hs.
  pose proof HI as [Hdata [Hloc [Hlk [Hob [Hver Hlen]]]]].
  pose proof (Hloc i p Hi) as Hp.
  pose proof (row_id _ _ _ Hdata) as Hk.
  pose proof (row_core _ _ _ Hdata) as Hrc.
  pose proof (row_status _ _ _ Hdata) as Hrs.
  destruct p as [| o | o c | o v | o | o upd | o x mm s | o x mm s | o x mm s
                 | o x mm pending | o x mm | o x ok | o | r];
    cbn [step] in Hs; cbn [local_ok] in Hp.
  - (* AtStart *)
    rewrite (deliveries_for_order _ _ Hd), (by_trade _ _ _ Hdata) in Hs.
    rewrite (row_is_locked _ Hrc) in Hs.
    assert (Hs' : p' = AtChannel row /\ h' = h)
      by (destruct (d_transport d); injection Hs as <- <-; auto).
    destruct Hs' as [-> ->]. exists row, m.
    unchanged HI Hi Hd.
  - (* AtChannel *)
    destruct Hp as [Hco Hsnap].
    destruct (channel_found _ _ _ _ Hdata Hco) as [rest Hc]. rewrite Hc in Hs.
    injection Hs as <- <-. exists row, m.
    unchanged HI Hi Hd.
  - (* AtPlugin *)
    destruct Hp as [Hco Hsnap]. exists row, m.
    destruct (d_plugin d c o) as [| | v] eqn:Ev.
    + assert (Hs' : h' = h /\ (p' = Finished (Ack false) \/ p' = AtRespond o))
        by (destruct (d_transport d); injection Hs as <- <-; auto).
      destruct Hs' as [-> [-> | ->]]; unchanged HI Hi Hd;
        intros Hv; destruct (Hv c o) as [v [Hv1 _]]; congruence.
    + assert (Hs' : h' = h /\ (p' = Finished (Ack false) \/ p' = Finished ErrorPage))
        by (destruct (d_transport d); injection Hs as <- <-; auto).
      destruct Hs' as [-> [-> | ->]]; unchanged HI Hi Hd;
        intros Hv; destruct (Hv c o) as [v [Hv1 _]]; congruence.
    + destruct (v_success v) eqn:Esucc.
      * destruct (o_status o =? 0) eqn:Est.
        -- assert (Hs' : p' = AtMarkPaid o v /\ h' = h)
             by (destruct (d_transport d); injection Hs as <- <-; auto).
           destruct Hs' as [-> ->]. unchanged HI Hi Hd.
        -- assert (Hs' : p' = AtRespond o /\ h' = h)
             by (destruct (d_transport d); injection Hs as <- <-; auto).
           destruct Hs' as [-> ->]. unchanged HI Hi Hd.
           intros _ _ _. apply Z.eqb_neq in Est. tauto.
      * assert (Hs' : h' = h /\ (p' = Finished (Ack false) \/ p' = Finished ErrorPage
                                 \/ p' = AtRespond o)).
        { destruct (d_transport d); [injection Hs as <- <-; auto |].
          destruct (present (v_msg v)); injection Hs as <- <-; auto. }
        destruct Hs' as [-> [-> | [-> | ->]]]; unchanged HI Hi Hd;
          intros Hv; destruct (Hv c o) as [v' [Hv1 Hv2]]; congruence.
  - (* AtMarkPaid *)
    pose proof Hp as Hco.
    apply core_fields in Hp. destruct Hp as [Hid _]. rewrite Hid in Hs.
    destruct (lock_free k i (row_locks h)); [| discriminate].
    injection Hs as <- <-.
    exists (paid_update (d_now d) (nonempty (v_api_trade_no v)) (nonempty (v_buyer v)) row), m.
    by_update HI Hi Hd ltac:(apply data_ok_paid; exact Hdata).
  - (* AtReread *)
    destruct Hp as [Hco Hst].
    pose proof Hco as Hid. apply core_fields in Hid. destruct Hid as [Hid _].
    rewrite Hid, (by_id _ _ _ Hdata) in Hs. simpl in Hs.
    injection Hs as <- <-. exists row, m.
    unchanged HI Hi Hd.
    split; [exact Hst | eauto].
  - (* AtMerchant *)
    destruct Hp as [Hst [y [-> Hcy]]].
    pose proof Hcy as Hf. apply core_fields in Hf. destruct Hf as [_ [Hmid _]].
    rewrite Hmid, (by_user _ _ _ Hdata) in Hs.
    rewrite (core_settle _ _ Hcy) in Hs.
    rewrite settle_not_le_0 in Hs.
    injection Hs as <- <-. exists row, m.
    unchanged HI Hi Hd.
  - (* AtLock *)
    destruct Hp as [Hcx [Hst ->]].
    pose proof Hcx as Hid. apply core_fields in Hid. destruct Hid as [Hid _].
    rewrite Hid, (by_id _ _ _ Hdata) in Hs.
    destruct (lock_free k i (row_locks h)) eqn:Efree; [| discriminate].
    exists row, m.
    destruct (o_balance_added row) eqn:Efl; injection Hs as <- <-.
    + unchanged HI Hi Hd.
    + unchanged HI Hi Hd.
  - (* AtCredit *)
    injection Hs as <- <-. exists row, m. unchanged HI Hi Hd.
  - (* AtFlag *)
    injection Hs as <- <-. exists row, m. unchanged HI Hi Hd.
  - (* AtCommit *)
    destruct Hp as [Hcx [Hst Hpend]].
    pose proof Hcx as Hf. apply core_fields in Hf. destruct Hf as [Hid [Hmid _]].
    injection Hs as <- <-.
    destruct pending as [a |].
    + destruct Hpend as [-> Hfl]. rewrite Hid, Hmid.
      destruct (data_ok_credited h row m (release i (row_locks h)) Hdata Hfl)
        as [m' Hd'].
      exists (balance_added_update row), m'.
      by_update HI Hi Hd ltac:(exact Hd').
    + exists row, m. unchanged HI Hi Hd.
  - (* AtOutbound *)
    exists row, m.
    destruct (String.eqb (o_notify_url x) ""); injection Hs as <- <-;
      unchanged HI Hi Hd.
  - (* AtNotifyStatus *)
    destruct Hp as [Hcx Hst].
    pose proof Hcx as Hid. apply core_fields in Hid. destruct Hid as [Hid _].
    rewrite Hid in Hs.
    destruct (lock_free k i (row_locks h)); [| discriminate].
    injection Hs as <- <-.
    exists (notify_update (d_now d) ok row), m.
    by_update HI Hi Hd ltac:(apply data_ok_notified; exact Hdata).
  - (* AtRespond *)
    exists row, m.
    assert (Hs' : h' = h /\ exists r, p' = Finished r).
    { destruct (d_transport d); [injection Hs as <- <-; eauto |].
      destruct (String.eqb (o_return_url o) ""); injection Hs as <- <-; eauto. }
    destruct Hs' as [-> [r ->]]. unchanged HI Hi Hd.
  - discriminate.
Qed.

Lemma sys_step_keeps_Inv (c c' : config) : Inv c -> sys_step ds c c' -> Inv c'.
Proof.
  intros [row [m HI]] Hstep. destruct Hstep as [i d p p' c h' Hd Hi Hs].
  destruct (step_keeps_Inv_at _ _ _ _ _ _ _ _ _ HI Hi Hd Hs) as [row' [m' HI']].
  exists row', m'. exact HI'.
Qed.

Lemma sys_steps_keep_Inv (c c' : config) : Inv c -> sys_steps ds c c' -> Inv c'.
Proof.
  intros HI Hsteps. induction Hsteps as [c | c1 c2 c3 H12 _ IH]; [exact HI |].
  apply IH. eapply sys_step_keeps_Inv; eauto.
Qed.

(** ** Every run ends *)

Lemma step_lowers_rank (me : nat) (d : delivery) (p p' : pc) (h h' : shared) :
  step me d p h = Some (p', h') -> (rank p' < rank p)%nat.
Proof.
  intros H. destruct p; cbn [step] in H;
    repeat match type of H with
           | context [match ?x with _ => _ end] => destruct x eqn:?
           end;
    try discriminate H; inversion H; subst; unfold answer_failure;
    repeat match goal with
           | |- context [match ?x with _ => _ end] => destruct x
           end; simpl; lia.
Qed.

Lemma total_rank_set_nth (ps : list pc) (i : nat) (p p' : pc) (h h' : shared) :
  nth_error ps i = Some p -> (rank p' < rank p)%nat ->
  (total_rank (mkConfig h' (set_nth i p' ps)) < total_rank (mkConfig h ps))%nat.
Proof.
  unfold total_rank. simpl. revert i.
  induction ps as [| a ps IH]; intros [| i] Hi Hr; simpl in *; try discriminate.
  - injection Hi as ->. lia.
  - specialize (IH i Hi Hr). lia.
Qed.

Lemma sys_step_lowers_rank (c c' : config) :
  sys_step ds c c' -> (total_rank c' < total_rank c)%nat.
Proof.
  intros H. destruct H as [i d p p' c h' Hd Hi Hs]. destruct c as [h ps]. simpl in *.
  eapply total_rank_set_nth; eauto. eapply step_lowers_rank; eauto.
Qed.

Lemma total_rank_initial (s : db) (l : list delivery) :
  total_rank (initial s l) = (13 * List.length l)%nat.
Proof.
  unfold total_rank, initial. simpl.
  induction l as [| d l IH]; [reflexivity |].
  cbn [map fold_right List.length rank]. rewrite IH. lia.
Qed.

(** ** Some request can always go on *)

Lemma step_enabled_without_locks (me : nat) (d : delivery) (p : pc) (h : shared) :
  row_locks h = [] -> is_finished p = false -> exists r, step me d p h = Some r.
Proof.
  intros Hl Hp. destruct p; try discriminate; cbn [step]; rewrite ?Hl;
    cbn [lock_free forallb];
    repeat match goal with
           | |- context [match ?x with _ => _ end] => destruct x
           end; eauto.
Qed.

Lemma step_enabled_in_txn (me : nat) (d : delivery) (p : pc) (h : shared) :
  in_txn p = true -> exists r, step me d p h = Some r.
Proof. intros Hp. destruct p; try discriminate; cbn [step]; eauto. Qed.

Lemma unfinished_request (ps : list pc) :
  forallb is_finished ps = false ->
  exists i p, nth_error ps i = Some p /\ is_finished p = false.
Proof.
  induction ps as [| a ps IH]; simpl; [discriminate |].
  destruct (is_finished a) eqn:E; simpl.
  - intros H. destruct (IH H) as [i [p [Hi Hp]]]. exists (S i), p. auto.
  - intros _. exists O, a. auto.
Qed.

Lemma Inv_progress (c : config) :
  Inv c -> all_finished c = false -> exists c', sys_step ds c c'.
Proof.
  intros [row [m [Hdata [Hloc [[Hl1 Hl2] [Hob [Hver Hlen]]]]]]] Hfin.
  destruct c as [h ps]. simpl in *.
  assert (Hd : forall i p, nth_error ps i = Some p -> exists d, nth_error ds i = Some d).
  { intros i p Hi.
    assert (Hlt : (i < List.length ds)%nat)
      by (rewrite <- Hlen; apply nth_error_Some; congruence).
    destruct (nth_error ds i) as [d |] eqn:E; [eauto |].
    apply nth_error_None in E. lia. }
  destruct Hl2 as [Hnil | [i [p [Hlock [Hi Hp]]]]].
  - destruct (unfinished_request _ Hfin) as [i [p [Hi Hp]]].
    destruct (Hd i p Hi) as [d Hdi].
    destruct (step_enabled_without_locks i d p h Hnil Hp) as [[p' h'] Hs].
    eexists. eapply (SysStep ds i d p p' (mkConfig h ps) h'); eauto.
  - destruct (Hd i p Hi) as [d Hdi].
    destruct (step_enabled_in_txn i d p h Hp) as [[p' h'] Hs].
    eexists. eapply (SysStep ds i d p p' (mkConfig h ps) h'); eauto.
Qed.

Lemma Inv_completes (n : nat) :
  forall c, (total_rank c <= n)%nat -> Inv c ->
            exists c', sys_steps ds c c' /\ all_finished c' = true.
Proof.
  induction n as [| n IH]; intros c Hn HI.
  - destruct (all_finished c) eqn:E.
    + exists c. split; [constructor | exact E].
    + destruct (Inv_progress c HI E) as [c' Hs].
      apply sys_step_lowers_rank in Hs. lia.
  - destruct (all_finished c) eqn:E.
    + exists c. split; [constructor | exact E].
    + destruct (Inv_progress c HI E) as [c' Hs].
      pose proof (sys_step_lowers_rank _ _ Hs) as Hr.
      destruct (IH c') as [c'' [Hsteps Hfin]]; [lia | eapply sys_step_keeps_Inv; eauto |].
      exists c''. split; [econstructor; eauto | exact Hfin].
Qed.

(** ** What the books say when every request has finished *)

Lemma finished_owes_nothing (p : pc) : is_finished p = true -> owes p = false.
Proof. destruct p; simpl; congruence. Qed.

Lemma finished_has_passed (p : pc) : is_finished p = true -> passed p = true.
Proof. destruct p; simpl; congruence. Qed.

Lemma Inv_at_finished (h : shared) (ps : list pc) (row : order) (m : merchant) :
  Inv_at h ps row m ->
  (exists i d, nth_error ds i = Some d /\ verifies d) ->
  forallb is_finished ps = true ->
  o_status row = 1 /\ o_balance_added row = true.
Proof.
  intros [Hdata [Hloc [Hlk [Hob [Hver Hlen]]]]] [i [d [Hd Hv]]] Hfin.
  rewrite forallb_forall in Hfin.
  assert (Hi : exists p, nth_error ps i = Some p).
  { destruct (nth_error ps i) as [p |] eqn:E; [eauto |].
    apply nth_error_None in E.
    assert ((i < List.length ds)%nat) by (apply nth_error_Some; congruence). lia. }
  destruct Hi as [p Hi].
  assert (Hst : o_status row = 1).
  { apply (Hver i d p Hd Hv Hi). apply finished_has_passed, Hfin.
    eapply nth_error_In; eauto. }
  split; [exact Hst |].
  destruct (Hob Hst) as [Hf | [j [q [Hj Hq]]]]; [exact Hf |].
  rewrite finished_owes_nothing in Hq; [discriminate |].
  apply Hfin. eapply nth_error_In; eauto.
Qed.

(** ** The books only grow *)

Lemma step_appends (me : nat) (d : delivery) (p p' : pc) (h h' : shared) :
  step me d p h = Some (p', h') ->
  (exists l, transitions h' = (transitions h ++ l)%list) /\
  (exists l, ledger h' = (ledger h ++ l)%list).
Proof.
  intros H. destruct p; cbn [step] in H;
    repeat match type of H with
           | context [match ?x with _ => _ end] => destruct x eqn:?
           end;
    try discriminate H; inversion H; subst; cbn;
    split; eexists; try reflexivity; symmetry; apply app_nil_r.
Qed.

Lemma sys_steps_append (c c' : config) :
  sys_steps ds c c' ->
  (exists l, transitions (shared_state c') = (transitions (shared_state c) ++ l)%list) /\
  (exists l, ledger (shared_state c') = (ledger (shared_state c) ++ l)%list).
Proof.
  intros H. induction H as [c | c1 c2 c3 H12 _ [[l1 IH1] [l2 IH2]]].
  - split; exists []; symmetry; apply app_nil_r.
  - destruct H12 as [i d p p' c h' Hd Hi Hs]. simpl in *.
    destruct (step_appends _ _ _ _ _ _ Hs) as [[a Ha] [b Hb]].
    split; eexists; [rewrite IH1, Ha | rewrite IH2, Hb]; rewrite <- app_assoc; reflexivity.
Qed.

(** ** The statement *)

(** C1.  Any number of notify and return deliveries for the trade number
    of one pending, uncredited order with a positive settlement amount
    are served concurrently, statement by statement in any order.
    (1) In every state that can be reached there is still one row for the
    order and one for the merchant; the row has moved from pending to paid
    at most once and the merchant has been credited at most once, with
    [money - fee_money], and the balance is the initial one plus that
    credit exactly when [balance_added] is set; a request that stands
    before the balance UPDATE is the only holder of the row lock and the
    committed flag is still unset; as long as a request is unfinished some
    request can execute a statement; and when all have finished and one of
    the deliveries was verified by the plugin, the row is paid and
    credited: one transition, one credit.
    (2) Once the row is paid it stays paid, and once it is credited no
    later statement changes the flag or the balance.
    (3) The paid UPDATE is reached only with a row read as pending, and
    the transaction is left for the credit only with a flag read unset
    under the lock.
    (4) Every statement brings the requests nearer to their end, and a
    run in which all of them finish exists. *)
Theorem exactly_once_settlement :
  (forall c, sys_steps ds (initial s0 ds) c ->
     exists row m,
       orders_by_trade_no (o_trade_no o0) (store (shared_state c)) = [row] /\
       merchants_by_user_id (o_merchant_id o0) (store (shared_state c)) = [m] /\
       (o_status row = 0 \/ o_status row = 1) /\
       transitions (shared_state c) = (if o_status row =? 1 then [o_id o0] else []) /\
       ledger (shared_state c)
       = (if o_balance_added row then [(o_merchant_id o0, settleAmount_of o0)] else []) /\
       (m_balance m
        == m_balance m0 + (if o_balance_added row then o_money o0 - o_fee_money o0 else 0))%Q /\
       (forall i o x m' a, nth_error (procs c) i = Some (AtCredit o x m' a) ->
                           row_locks (shared_state c) = [(o_id o0, i)] /\
                           o_balance_added row = false /\
                           a = settleAmount_of o0 /\ o_id x = o_id o0) /\
       (all_finished c = false -> exists c', sys_step ds c c') /\
       (all_finished c = true ->
        (exists i d, nth_error ds i = Some d /\ verifies d) ->
        o_status row = 1 /\ o_balance_added row = true /\
        transitions (shared_state c) = [o_id o0] /\
        ledger (shared_state c) = [(o_merchant_id o0, settleAmount_of o0)] /\
        (m_balance m == m_balance m0 + (o_money o0 - o_fee_money o0))%Q)) /\
  (forall c c' row m row' m',
     sys_steps ds (initial s0 ds) c -> sys_steps ds c c' ->
     orders_by_trade_no (o_trade_no o0) (store (shared_state c)) = [row] ->
     merchants_by_user_id (o_merchant_id o0) (store (shared_state c)) = [m] ->
     orders_by_trade_no (o_trade_no o0) (store (shared_state c')) = [row'] ->
     merchants_by_user_id (o_merchant_id o0) (store (shared_state c')) = [m'] ->
     (o_status row = 1 -> o_status row' = 1) /\
     (o_balance_added row = true ->
      o_balance_added row' = true /\ (m_balance m' == m_balance m)%Q)) /\
  (forall me d o ch h o' v h',
     step me d (AtPlugin o ch) h = Some (AtMarkPaid o' v, h') ->
     o_status o = 0 /\ o' = o /\ h' = h) /\
  (forall me d o x m a h o' x' m' a' h',
     step me d (AtLock o x m a) h = Some (AtCredit o' x' m' a', h') ->
     lock_free (o_id x) me (row_locks h) = true /\
     row_locks h' = (o_id x, me) :: row_locks h /\
     exists orderCheck, hd_error (orders_by_id (o_id x) (store h)) = Some orderCheck /\
                        o_balance_added orderCheck = false) /\
  (forall c c', sys_step ds c c' -> (total_rank c' < total_rank c)%nat) /\
  (exists c, sys_steps ds (initial s0 ds) c /\ all_finished c = true).
Proof.
  split; [| split; [| split; [| split; [| split]]]].
  - intros c Hc.
    pose proof (sys_steps_keep_Inv _ _ Inv_initial Hc) as HI.
    pose proof HI as [row [m HI']].
    pose proof HI' as [Hdata [Hloc [[Hl1 Hl2] [Hob [Hver Hlen]]]]].
    exists row, m.
    split; [apply (by_trade _ _ _ Hdata) |].
    split; [apply (by_user _ _ _ Hdata) |].
    split; [apply (row_status _ _ _ Hdata) |].
    split; [apply (trans _ _ _ Hdata) |].
    split; [apply (led _ _ _ Hdata) |].
    split; [apply (bal _ _ _ Hdata) |].
    split; [| split].
    + intros i o x m' a Hi.
      split; [apply (Hl1 _ _ Hi); reflexivity |].
      pose proof (Hloc _ _ Hi) as Hlo. simpl in Hlo.
      destruct Hlo as [Hx [_ [Ha Hf]]].
      split; [exact Hf |]. split; [exact Ha |].
      apply core_fields in Hx. tauto.
    + intros Hfin. apply Inv_progress; assumption.
    + intros Hfin Hv.
      destruct (Inv_at_finished _ _ _ _ HI' Hv Hfin) as [Hst Hf].
      split; [exact Hst |]. split; [exact Hf |].
      pose proof (trans _ _ _ Hdata) as Ht. pose proof (led _ _ _ Hdata) as Hle.
      pose proof (bal _ _ _ Hdata) as Hb.
      rewrite Hst in Ht. rewrite Hf in Hle, Hb.
      split; [exact Ht |]. split; [exact Hle | exact Hb].
  - intros c c' row m row' m' Hc Hcc' Hrow Hm Hrow' Hm'.
    assert (Hc' : sys_steps ds (initial s0 ds) c').
    { clear - Hc Hcc'. induction Hc; [exact Hcc' |]. econstructor; eauto. }
    destruct (sys_steps_keep_Inv _ _ Inv_initial Hc) as [r1 [m1 [D1 _]]].
    destruct (sys_steps_keep_Inv _ _ Inv_initial Hc') as [r2 [m2 [D2 _]]].
    pose proof (by_trade _ _ _ D1) as E1. rewrite Hrow in E1. injection E1 as <-.
    pose proof (by_trade _ _ _ D2) as E2. rewrite Hrow' in E2. injection E2 as <-.
    pose proof (by_user _ _ _ D1) as E3. rewrite Hm in E3. injection E3 as <-.
    pose proof (by_user _ _ _ D2) as E4. rewrite Hm' in E4. injection E4 as <-.
    destruct (sys_steps_append _ _ Hcc') as [[l1 Ht] [l2 Hl]].
    split.
    + intros Hst. rewrite (trans _ _ _ D1), (trans _ _ _ D2), Hst in Ht. simpl in Ht.
      destruct (o_status row' =? 1) eqn:E; [apply Z.eqb_eq; exact E | discriminate].
    + intros Hf. rewrite (led _ _ _ D1), (led _ _ _ D2), Hf in Hl. simpl in Hl.
      destruct (o_balance_added row') eqn:E; [| discriminate].
      split; [reflexivity |].
      pose proof (bal _ _ _ D1) as B1. pose proof (bal _ _ _ D2) as B2.
      rewrite Hf in B1. rewrite E in B2. rewrite B1, B2. reflexivity.
  - intros me d o ch h o' v h' H. cbn [step] in H.
    destruct (d_plugin d ch o) as [| | w]; destruct (d_transport d);
      try discriminate H;
      destruct (v_success w); try discriminate H;
      try (destruct (present (v_msg w)); discriminate H);
      (destruct (o_status o =? 0) eqn:E; [| discriminate H]);
      apply Z.eqb_eq in E; inversion H; subst; auto.
  - intros me d o x m a h o' x' m' a' h' H. cbn [step] in H.
    destruct (lock_free (o_id x) me (row_locks h)); [| discriminate H].
    destruct (orders_by_id (o_id x) (store h)) as [| oc rest]; [discriminate H |].
    destruct (o_balance_added oc) eqn:E; [discriminate H |].
    inversion H; subst. split; [reflexivity |]. split; [reflexivity |].
    exists oc. split; [reflexivity | exact E].
  - apply sys_step_lowers_rank.
  - apply (Inv_completes (total_rank (initial s0 ds))); [lia | apply Inv_initial].
Qed.

End ExactlyOnce.

Section ExactlyOnceScenario.
Import JS Fee Channel Store Settlement Scenarios.

Lemma exactly_once_settlement_witness :
  (exists c, sys_steps once_demo_deliveries (initial once_demo_store once_demo_deliveries) c
             /\ all_finished c = true) /\
  (forall c, sys_steps once_demo_deliveries (initial once_demo_store once_demo_deliveries) c ->
             all_finished c = true ->
             exists row m,
               orders_by_trade_no "T1" (store (shared_state c)) = [row] /\
               merchants_by_user_id 7 (store (shared_state c)) = [m] /\
               o_status row = 1 /\ o_balance_added row = true /\
               transitions (shared_state c) = [1] /\
               ledger (shared_state c) = [(7, settleAmount_of once_demo_order)] /\
               (m_balance m == 50 + (100 - (3 # 2)))%Q).
Proof.
  assert (H := exactly_once_settlement once_demo_deliveries once_demo_store
                 once_demo_order once_demo_merchant once_demo_channel 3).
  assert (Hds : forall i d, nth_error once_demo_deliveries i = Some d ->
                            d_trade_no d = o_trade_no once_demo_order).
  { intros [| [| [| i]]] d Hd; simpl in Hd; try (injection Hd as <-; reflexivity).
    destruct i; discriminate. }
  specialize (H Hds eq_refl eq_refl eq_refl eq_refl eq_refl).
  assert (H3 : 3 <> 0) by discriminate.
  specialize (H H3 eq_refl eq_refl).
  assert (Hpos : (0 < settleAmount_of once_demo_order)%Q) by reflexivity.
  specialize (H Hpos).
  destruct H as [Hreach [_ [_ [_ [_ Hrun]]]]].
  split; [exact Hrun |].
  intros c Hc Hfin.
  destruct (Hreach c Hc) as [row [m [Hrow [Hm [_ [_ [_ [_ [_ [_ Hend]]]]]]]]]].
  exists row, m. split; [exact Hrow |]. split; [exact Hm |].
  apply (Hend Hfin).
  exists O, (mkDelivery ViaNotify "T1" (fun _ _ => Answer once_demo_verdict) true 9).
  split; [reflexivity |].
  intros ch o. exists once_demo_verdict. split; reflexivity.
Defined.

(** One statement of request [i], computed. *)
Lemma sys_step_computed (ds : list delivery) (i : nat) (d : delivery) (p p' : pc)
    (c c' : config) (h' : shared) :
  nth_error ds i = Some d ->
  nth_error (procs c) i = Some p ->
  step i d p (shared_state c) = Some (p', h') ->
  c' = mkConfig h' (set_nth i p' (procs c)) ->
  sys_step ds c c'.
Proof. intros Hd Hp Hs ->. econstructor; eauto. Qed.

(** The status test alone does not keep two requests apart: the two
    notifications can both stand before the paid UPDATE, each with a row
    it has read as pending. *)
Lemma both_notifications_reach_the_paid_update :
  exists c v,
    sys_steps once_demo_deliveries (initial once_demo_store once_demo_deliveries) c /\
    firstn 2 (procs c) = [AtMarkPaid once_demo_order v; AtMarkPaid once_demo_order v].
Proof.
  eexists. exists once_demo_verdict. split.
  - do 3 (eapply StepsCons;
          [eapply (sys_step_computed _ 0%nat); [reflexivity | reflexivity | reflexivity
                                                | reflexivity] |]).
    do 3 (eapply StepsCons;
          [eapply (sys_step_computed _ 1%nat); [reflexivity | reflexivity | reflexivity
                                                | reflexivity] |]).
    apply StepsRefl.
  - reflexivity.
Qed.

(** Played to the end: both notifications read the row as pending, then
    the first runs on to its reply, then the second.  Both mark the order
    paid and both notify the merchant; the balance is credited once. *)
Lemma racing_notifications_credit_once :
  let d0 := mkDelivery ViaNotify "T1" (fun _ _ => Answer once_demo_verdict) true 9 in
  let d1 := mkDelivery ViaNotify "T1" (fun _ _ => Answer once_demo_verdict) true 11 in
  let h0 := mkShared once_demo_store [] [] [] [] in
  let a := run_alone 3 0 d0 AtStart h0 in
  let b := run_alone 3 1 d1 AtStart (snd a) in
  let a' := run_alone 11 0 d0 (fst a) (snd b) in
  let b' := run_alone 11 1 d1 (fst b) (snd a') in
  fst a = AtMarkPaid once_demo_order once_demo_verdict /\
  fst b = AtMarkPaid once_demo_order once_demo_verdict /\
  fst a' = Finished (Ack true) /\
  fst b' = Finished (Ack true) /\
  transitions (snd b') = [1] /\
  ledger (snd b') = [(7, (100 - (3 # 2))%Q)] /\
  map m_balance (merchants (store (snd b'))) = [(50 + (100 - (3 # 2)))%Q] /\
  map o_status (orders (store (snd b'))) = [1] /\
  map o_balance_added (orders (store (snd b'))) = [true] /\
  map o_notify_count (orders (store (snd b'))) = [2] /\
  row_locks (snd b') = [] /\
  outbox (snd b')
  = [TelegramPayment 1; MerchantNotify 1 "https://shop.example/notify";
     TelegramPayment 1; MerchantNotify 1 "https://shop.example/notify"].
Proof. vm_compute. repeat split; reflexivity. Qed.

End ExactlyOnceScenario.

Section IdCardFacts.
Import JS Store Gateway.

(** ** Digits *)

Lemma digit_of_range (c : ascii) (d : Z) : digit_of c = Some d -> 0 <= d <= 9.
Proof.
  unfold digit_of. destruct ((48 <=? _)%nat && _) eqn:E; [| discriminate].
  intros H. injection H as <-.
  apply andb_prop in E. destruct E as [E1 E2].
  apply Nat.leb_le in E1. apply Nat.leb_le in E2. lia.
Qed.

Lemma digit_of_injective (c c' : ascii) (d : Z) :
  digit_of c = Some d -> digit_of c' = Some d -> c = c'.
Proof.
  unfold digit_of.
  destruct ((48 <=? nat_of_ascii c)%nat && _); [| discriminate].
  destruct ((48 <=? nat_of_ascii c')%nat && _); [| discriminate].
  intros H H'. injection H as H. injection H' as H'.
  assert (E : nat_of_ascii c = nat_of_ascii c') by lia.
  rewrite <- (ascii_nat_embedding c), <- (ascii_nat_embedding c'), E. reflexivity.
Qed.

Lemma is_digit_digit_of (c : ascii) : is_digit c = true -> exists d, digit_of c = Some d.
Proof. unfold is_digit. destruct (digit_of c) as [d |]; [eauto | discriminate]. Qed.

Lemma digit_in_digit_of (lo hi : Z) (c : ascii) :
  digit_in lo hi c = true -> exists d, digit_of c = Some d.
Proof. unfold digit_in. destruct (digit_of c) as [d |]; [eauto | discriminate]. Qed.

Lemma eqb_digit_of (c k : ascii) :
  Ascii.eqb c k = true -> is_digit k = true -> exists d, digit_of c = Some d.
Proof. intros H Hk. apply Ascii.eqb_eq in H. subst c. apply is_digit_digit_of, Hk. Qed.

(** ** What the regular expression guarantees *)

Lemma id_card_shape_length (cs : list ascii) :
  id_card_shape cs = true -> List.length cs = 18%nat.
Proof.
  unfold id_card_shape.
  do 18 (destruct cs as [| ? cs]; [discriminate |]).
  destruct cs; [reflexivity | discriminate].
Qed.

Lemma id_card_shape_digits (cs : list ascii) (j : nat) (c : ascii) :
  id_card_shape cs = true -> (j < 17)%nat -> nth_error cs j = Some c ->
  exists d, digit_of c = Some d.
Proof.
  intros H Hj Hc. pose proof H as Hlen. apply id_card_shape_length in Hlen.
  do 18 (destruct cs as [| ? cs]; [discriminate |]).
  destruct cs; [| discriminate]. clear Hlen.
  unfold id_card_shape in H. cbn [forallb] in H.
  repeat match type of H with
         | (_ && _) = true => apply andb_prop in H; destruct H as [H ?]
         end.
  repeat match goal with
         | K : (_ && _) = true |- _ => apply andb_prop in K; destruct K
         end.
  do 17 (destruct j as [| j];
         [cbn in Hc; injection Hc as <-;
          repeat match goal with
                 | K : (_ || _) = true |- _ => apply orb_prop in K; destruct K
                 | K : (_ && _) = true |- _ => apply andb_prop in K; destruct K
                 end;
          solve [ eapply is_digit_digit_of; eassumption
                | eapply digit_in_digit_of; eassumption
                | eapply eqb_digit_of; [eassumption | reflexivity] ] |]).
  lia.
Qed.

(** ** The weighted sum *)

Lemma weighted_sum_replace (l1 l2 : list ascii) (c c' : ascii) (d d' : Z) :
  forall ws, (List.length l1 < List.length ws)%nat ->
  digit_of c = Some d -> digit_of c' = Some d' ->
  weighted_sum (l1 ++ c' :: l2) ws
  = weighted_sum (l1 ++ c :: l2) ws + (d' - d) * nth (List.length l1) ws 0.
Proof.
  induction l1 as [| a l1 IH]; intros [| w ws] Hlen Hd Hd'; simpl in *; try lia.
  - rewrite Hd, Hd'. lia.
  - specialize (IH ws ltac:(lia) Hd Hd').
    destruct (digit_of a); rewrite IH; lia.
Qed.

Lemma weighted_sum_swap (l1 l2 : list ascii) (a b : ascii) (x y : Z) :
  forall ws, (S (List.length l1) < List.length ws)%nat ->
  digit_of a = Some x -> digit_of b = Some y ->
  weighted_sum (l1 ++ b :: a :: l2) ws
  = weighted_sum (l1 ++ a :: b :: l2) ws
    + (y - x) * (nth (List.length l1) ws 0 - nth (S (List.length l1)) ws 0).
Proof.
  induction l1 as [| c l1 IH]; intros [| w ws] Hlen Hx Hy; simpl in *; try lia.
  - destruct ws as [| w' ws]; simpl in *; [lia |]. rewrite Hx, Hy. lia.
  - specialize (IH ws ltac:(lia) Hx Hy).
    destruct (digit_of c); rewrite IH; lia.
Qed.

(** No weight, and no difference of two neighbouring weights, is a
    multiple of 11. *)
Lemma id_weights_detect (i : nat) (delta : Z) :
  (i < 17)%nat -> -9 <= delta <= 9 -> delta <> 0 ->
  (delta * nth i id_weights 0) mod 11 <> 0.
Proof.
  intros Hi Hd Hnz.
  do 17 (destruct i as [| i]; [cbn [nth id_weights]; intros H;
                               apply Z.mod_divide in H; [| lia];
                               destruct H as [q Hq]; lia |]).
  lia.
Qed.

Lemma id_weights_neighbours_detect (i : nat) (delta : Z) :
  (i < 16)%nat -> -9 <= delta <= 9 -> delta <> 0 ->
  (delta * (nth i id_weights 0 - nth (S i) id_weights 0)) mod 11 <> 0.
Proof.
  intros Hi Hd Hnz.
  do 16 (destruct i as [| i]; [cbn [nth id_weights]; intros H;
                               apply Z.mod_divide in H; [| lia];
                               destruct H as [q Hq]; lia |]).
  lia.
Qed.

(** The table of check codes has no repeated entry. *)
Lemma checkCodes_injective (a b : Z) :
  0 <= a < 11 -> 0 <= b < 11 ->
  nth_error checkCodes (Z.to_nat a) = nth_error checkCodes (Z.to_nat b) -> a = b.
Proof.
  intros Ha Hb.
  assert (Ea : a = 0 \/ a = 1 \/ a = 2 \/ a = 3 \/ a = 4 \/ a = 5 \/ a = 6 \/ a = 7
               \/ a = 8 \/ a = 9 \/ a = 10) by lia.
  assert (Eb : b = 0 \/ b = 1 \/ b = 2 \/ b = 3 \/ b = 4 \/ b = 5 \/ b = 6 \/ b = 7
               \/ b = 8 \/ b = 9 \/ b = 10) by lia.
  repeat (destruct Ea as [-> | Ea]); try subst a;
    repeat (destruct Eb as [-> | Eb]); try subst b;
    cbn; intros H; try reflexivity; discriminate H.
Qed.

(** Two accepted numbers with the same last character have the same
    weighted sum modulo 11. *)
Lemma valid_same_residue (cs cs' : list ascii) :
  isValidIdCard (string_of_list_ascii cs) = true ->
  isValidIdCard (string_of_list_ascii cs') = true ->
  nth_error cs' 17 = nth_error cs 17 ->
  weighted_sum cs' id_weights mod 11 = weighted_sum cs id_weights mod 11.
Proof.
  unfold isValidIdCard. rewrite !list_ascii_of_string_of_list_ascii.
  intros H H' Hlast.
  apply andb_prop in H. destruct H as [_ H].
  apply andb_prop in H'. destruct H' as [_ H'].
  rewrite Hlast in H'.
  destruct (nth_error checkCodes (Z.to_nat (weighted_sum cs id_weights mod 11)))
    as [code |] eqn:E; [| discriminate].
  destruct (nth_error checkCodes (Z.to_nat (weighted_sum cs' id_weights mod 11)))
    as [code' |] eqn:E'; [| discriminate].
  destruct (nth_error cs 17) as [last |]; [| discriminate].
  apply Ascii.eqb_eq in H. apply Ascii.eqb_eq in H'.
  apply checkCodes_injective.
  - apply Z.mod_pos_bound. lia.
  - apply Z.mod_pos_bound. lia.
  - rewrite E, E'. congruence.
Qed.

Lemma valid_shape (cs : list ascii) :
  isValidIdCard (string_of_list_ascii cs) = true -> id_card_shape cs = true.
Proof.
  unfold isValidIdCard. rewrite list_ascii_of_string_of_list_ascii.
  intros H. apply andb_prop in H. tauto.
Qed.

(** X1: a valid identity card number in which one of the first seventeen
    characters is replaced by any other character is no longer valid. *)
Theorem id_card_substitution_is_detected (s : string) (i : nat) (c c' : ascii) :
  isValidIdCard s = true ->
  (i < 17)%nat ->
  nth_error (list_ascii_of_string s) i = Some c ->
  c' <> c ->
  isValidIdCard
    (string_of_list_ascii
       (firstn i (list_ascii_of_string s) ++ c' :: skipn (S i) (list_ascii_of_string s)))
  = false.
Proof.
  intros Hv Hi Hc Hne.
  rewrite <- (string_of_list_ascii_of_string s) in Hv.
  set (cs := list_ascii_of_string s) in *.
  destruct (nth_error_split cs i Hc) as [l1 [l2 [Hcs Hl1]]].
  assert (Hf : firstn i cs = l1).
  { rewrite Hcs, <- Hl1. rewrite firstn_app, firstn_all, Nat.sub_diag. simpl.
    apply app_nil_r. }
  assert (Hs : skipn (S i) cs = l2).
  { rewrite Hcs, <- Hl1.
    replace (l1 ++ c :: l2)%list with ((l1 ++ [c]) ++ l2)%list
      by (rewrite <- app_assoc; reflexivity).
    rewrite skipn_app.
    replace (S (List.length l1)) with (List.length (l1 ++ [c])%list)
      by (rewrite length_app; simpl; lia).
    rewrite skipn_all, Nat.sub_diag. reflexivity. }
  rewrite Hf, Hs.
  destruct (isValidIdCard (string_of_list_ascii (l1 ++ c' :: l2))) eqn:Hv'; [| reflexivity].
  exfalso.
  pose proof (valid_shape _ Hv) as Hsh. pose proof (valid_shape _ Hv') as Hsh'.
  destruct (id_card_shape_digits cs i c Hsh Hi Hc) as [d Hd].
  assert (Hc' : nth_error (l1 ++ c' :: l2) i = Some c').
  { rewrite nth_error_app2 by lia. rewrite Hl1, Nat.sub_diag. reflexivity. }
  destruct (id_card_shape_digits _ i c' Hsh' Hi Hc') as [d' Hd'].
  assert (Hlast : nth_error (l1 ++ c' :: l2) 17 = nth_error cs 17).
  { rewrite Hcs, !nth_error_app2 by lia.
    destruct (17 - List.length l1)%nat as [| n] eqn:E; [lia | reflexivity]. }
  pose proof (valid_same_residue cs (l1 ++ c' :: l2) Hv Hv' Hlast) as Hres.
  rewrite Hcs in Hres.
  rewrite (weighted_sum_replace l1 l2 c c' d d') in Hres;
    [| simpl; lia | exact Hd | exact Hd'].
  assert (Hdd : d' <> d).
  { intros ->. apply Hne. eapply digit_of_injective; eauto. }
  apply digit_of_range in Hd. apply digit_of_range in Hd'.
  apply (id_weights_detect i (d' - d) Hi); [lia | lia |].
  rewrite Hl1 in Hres.
  set (S0 := weighted_sum (l1 ++ c :: l2) id_weights) in *.
  set (t := (d' - d) * nth i id_weights 0) in *.
  revert Hres. clearbody S0 t. clear. intros H.
  pose proof (Z.mod_pos_bound S0 11 ltac:(lia)).
  pose proof (Z.mod_pos_bound (S0 + t) 11 ltac:(lia)).
  pose proof (Z.div_mod S0 11 ltac:(lia)).
  pose proof (Z.div_mod (S0 + t) 11 ltac:(lia)).
  apply Z.mod_divide; [lia |].
  exists ((S0 + t) / 11 - S0 / 11). lia.
Qed.

Lemma id_card_substitution_is_detected_witness :
  isValidIdCard "11010519491231002X" = true /\
  isValidIdCard "11010519491231102X" = false.
Proof.
  split; [reflexivity |].
  apply (id_card_substitution_is_detected "11010519491231002X" 14 "0" "1");
    [reflexivity | lia | reflexivity | discriminate].
Defined.

(** X2: a valid identity card number in which two neighbouring characters
    among the first seventeen have changed places is no longer valid,
    unless the two characters are the same. *)
Theorem id_card_transposition_is_detected (s : string) (i : nat) (a b : ascii)
    (l1 l2 : list ascii) :
  isValidIdCard s = true ->
  (i < 16)%nat ->
  list_ascii_of_string s = (l1 ++ a :: b :: l2)%list ->
  List.length l1 = i ->
  a <> b ->
  isValidIdCard (string_of_list_ascii (l1 ++ b :: a :: l2)) = false.
Proof.
  intros Hv Hi Hcs Hl1 Hne.
  rewrite <- (string_of_list_ascii_of_string s), Hcs in Hv.
  destruct (isValidIdCard (string_of_list_ascii (l1 ++ b :: a :: l2))) eqn:Hv';
    [| reflexivity].
  exfalso.
  pose proof (valid_shape _ Hv) as Hsh. pose proof (valid_shape _ Hv') as Hsh'.
  assert (Ha : nth_error (l1 ++ a :: b :: l2) i = Some a).
  { rewrite nth_error_app2 by lia. rewrite Hl1, Nat.sub_diag. reflexivity. }
  assert (Hb : nth_error (l1 ++ a :: b :: l2) (S i) = Some b).
  { rewrite nth_error_app2 by lia. rewrite Hl1.
    replace (S i - i)%nat with 1%nat by lia. reflexivity. }
  destruct (id_card_shape_digits _ i a Hsh ltac:(lia) Ha) as [x Hx].
  destruct (id_card_shape_digits _ (S i) b Hsh ltac:(lia) Hb) as [y Hy].
  assert (Hlast : nth_error (l1 ++ b :: a :: l2) 17 = nth_error (l1 ++ a :: b :: l2) 17).
  { rewrite !nth_error_app2 by lia.
    destruct (17 - List.length l1)%nat as [| [| n]] eqn:E; [lia | lia | reflexivity]. }
  pose proof (valid_same_residue _ _ Hv Hv' Hlast) as Hres.
  rewrite (weighted_sum_swap l1 l2 a b x y) in Hres; [| simpl; lia | exact Hx | exact Hy].
  assert (Hxy : y <> x).
  { intros ->. apply Hne. eapply digit_of_injective; eauto. }
  apply digit_of_range in Hx. apply digit_of_range in Hy.
  apply (id_weights_neighbours_detect i (y - x) Hi); [lia | lia |].
  rewrite Hl1 in Hres.
  set (S0 := weighted_sum (l1 ++ a :: b :: l2) id_weights) in *.
  set (t := (y - x) * (nth i id_weights 0 - nth (S i) id_weights 0)) in *.
  revert Hres. clearbody S0 t. clear. intros H.
  pose proof (Z.mod_pos_bound S0 11 ltac:(lia)).
  pose proof (Z.mod_pos_bound (S0 + t) 11 ltac:(lia)).
  pose proof (Z.div_mod S0 11 ltac:(lia)).
  pose proof (Z.div_mod (S0 + t) 11 ltac:(lia)).
  apply Z.mod_divide; [lia |].
  exists ((S0 + t) / 11 - S0 / 11). lia.
Qed.

Lemma id_card_transposition_is_detected_witness :
  isValidIdCard "11010519491231002X" = true /\
  isValidIdCard "11010519491213002X" = false.
Proof.
  split; [reflexivity |].
  apply (id_card_transposition_is_detected "11010519491231002X" 12 "3" "1"
           (list_ascii_of_string "110105194912") (list_ascii_of_string "002X"));
    [reflexivity | lia | reflexivity | reflexivity | discriminate].
Defined.

(** X3: [buildCertInfo] answers with an error for a malformed identity
    card number whatever else is given, with nothing exactly when none of
    the three parameters is given, and otherwise with a record whose card
    number is a valid one, whose minimum age is a whole number that is not
    negative, and which is never empty. *)
Theorem buildCertInfo_outcomes (no nm age : option string) :
  (present no = true -> isValidIdCard (text no) = false ->
   buildCertInfo no nm age = CertError BadIdCard) /\
  (buildCertInfo no nm age = CertNone <->
   present no = false /\ present nm = false /\ present age = false) /\
  (forall c, buildCertInfo no nm age = CertInfo c ->
     (forall n, cert_no c = Some n -> no = Some n /\ isValidIdCard n = true) /\
     (forall n, cert_name c = Some n -> nm = Some n) /\
     (forall a, min_age c = Some a -> 0 <= a /\ parseInt_string (text age) = Some a) /\
     (present age = true -> min_age c <> None) /\
     (cert_no c <> None \/ cert_name c <> None \/ min_age c <> None)).
Proof.
  unfold buildCertInfo.
  split; [| split].
  - intros Hno Hv. rewrite Hno, Hv. reflexivity.
  - destruct (present no && negb (isValidIdCard (text no))) eqn:E1.
    + split; [discriminate |]. intros [H _]. rewrite H in E1. discriminate.
    + match goal with
      | |- (if ?b then _ else _) = _ <-> _ => destruct b eqn:E2
      end.
      * split; [discriminate |]. intros [_ [_ H]]. rewrite H in E2. discriminate.
      * destruct (present no), (present nm), (present age); simpl;
          split; try discriminate; try tauto; intros [? [? ?]]; discriminate.
  - intros c H.
    destruct (present no && negb (isValidIdCard (text no))) eqn:E1; [discriminate |].
    match type of H with
    | (if ?b then _ else _) = _ => destruct b eqn:E2; [discriminate |]
    end.
    destruct (negb (present no) && negb (present nm) && negb (present age)) eqn:E3;
      [discriminate |].
    injection H as <-. cbn [cert_no cert_name min_age]. unfold nonempty.
    split; [| split; [| split; [| split]]].
    + intros n Hn. destruct (present no) eqn:Eno; [| discriminate].
      subst no. split; [reflexivity |]. simpl in E1.
      destruct (isValidIdCard n); [reflexivity | discriminate].
    + intros n Hn. destruct (present nm); [exact Hn | discriminate].
    + intros a Ha. destruct (present age); [| discriminate].
      rewrite Ha in E2. apply Z.ltb_ge in E2. split; [exact E2 | exact Ha].
    + intros Hage. rewrite Hage in *.
      destruct (parseInt_string (text age)); [discriminate | discriminate].
    + destruct (present no) eqn:Eno.
      * left. destruct no; [discriminate | discriminate].
      * destruct (present nm) eqn:Enm.
        -- right. left. destruct nm; [discriminate | discriminate].
        -- destruct (present age) eqn:Eage; [| discriminate].
           right. right.
           destruct (parseInt_string (text age)); [discriminate | discriminate].
Qed.

End IdCardFacts.

Section ChannelAdminFacts.
Import ChannelAdmin.

Lemma get_set_count_same (t : string) (n : Z) (tc : list (string * Z)) :
  get_count t (set_count t n tc) = Some n.
Proof.
  induction tc as [| [k m] tc IH]; simpl.
  - rewrite String.eqb_refl. reflexivity.
  - destruct (String.eqb k t) eqn:E; simpl; rewrite E; [reflexivity | exact IH].
Qed.

Lemma get_set_count_other (t t' : string) (n : Z) (tc : list (string * Z)) :
  t' <> t -> get_count t' (set_count t n tc) = get_count t' tc.
Proof.
  intros Hne. induction tc as [| [k m] tc IH]; simpl.
  - destruct (String.eqb t t') eqn:E; [apply String.eqb_eq in E; congruence | reflexivity].
  - destruct (String.eqb k t) eqn:E; simpl.
    + apply String.eqb_eq in E. subst k.
      destruct (String.eqb t t') eqn:E'; [apply String.eqb_eq in E'; congruence | reflexivity].
    + destruct (String.eqb k t'); [reflexivity | exact IH].
Qed.

Lemma named_types_cons (item : string) (l : list string) :
  named_types (item :: l)
  = (match apptype_of item with Some t => [t] | None => [] end ++ named_types l)%list.
Proof. reflexivity. Qed.

(** The loop, started with the types in [seen] counted once each. *)
Lemma count_types_spec (items : list string) :
  forall (tc : list (string * Z)) (seen : list string),
    (forall t, In t seen -> get_count t tc = Some 1) ->
    (forall t, ~ In t seen -> get_count t tc = None) ->
    (count_types items tc = None <->
     NoDup (named_types items) /\ forall t, In t (named_types items) -> ~ In t seen) /\
    (forall t, count_types items tc = Some t ->
       exists before item after,
         items = (before ++ item :: after)%list /\
         apptype_of item = Some t /\
         (In t seen \/ In t (named_types before)) /\
         NoDup (named_types before) /\
         forall x, In x (named_types before) -> ~ In x seen).
Proof.
  induction items as [| item rest IH]; intros tc seen Hin Hout.
  - simpl. split.
    + split; [intros _; split; [constructor | intros t []] | reflexivity].
    + discriminate.
  - cbn [count_types]. rewrite named_types_cons.
    destruct (apptype_of item) as [t |] eqn:Et.
    + destruct (in_dec string_dec t seen) as [Hs | Hs].
      * rewrite (Hin t Hs). cbn. split.
        -- split; [discriminate |]. intros [_ H]. exfalso. apply (H t); [left; reflexivity | exact Hs].
        -- intros t' H. injection H as <-.
           exists [], item, rest. simpl.
           split; [reflexivity |]. split; [exact Et |]. split; [left; exact Hs |].
           split; [constructor | intros x []].
      * rewrite (Hout t Hs). cbn.
        destruct (IH (set_count t 1 tc) (t :: seen)) as [IH1 IH2].
        { intros x [<- | Hx]; [apply get_set_count_same |].
          destruct (string_dec x t) as [-> | Hne]; [apply get_set_count_same |].
          rewrite get_set_count_other by exact Hne. apply Hin, Hx. }
        { intros x Hx. rewrite get_set_count_other.
          - apply Hout. intros H. apply Hx. right. exact H.
          - intros ->. apply Hx. left. reflexivity. }
        split.
        -- rewrite IH1. split.
           ++ intros [Hnd Hdis]. split.
              ** constructor; [| exact Hnd]. intros H. apply (Hdis t H). left. reflexivity.
              ** intros x [<- | Hx]; [exact Hs |]. intros H. apply (Hdis x Hx). right. exact H.
           ++ intros [Hnd Hdis]. inversion Hnd as [| ? ? Hnotin Hnd']; subst. split; [exact Hnd' |].
              intros x Hx [<- | H]; [exact (Hnotin Hx) |].
              apply (Hdis x); [right; exact Hx | exact H].
        -- intros t' H. destruct (IH2 t' H) as [before [it [after [E [Ht [Hrep [Hnd Hdis]]]]]]].
           exists (item :: before), it, after.
           split; [rewrite E; reflexivity |]. split; [exact Ht |].
           rewrite named_types_cons, Et. cbn [app].
           split.
           ++ destruct Hrep as [[<- | Hrep] | Hrep].
              ** right. left. reflexivity.
              ** left. exact Hrep.
              ** right. right. exact Hrep.
           ++ split.
              ** constructor; [| exact Hnd]. intros Hx. apply (Hdis t Hx). left. reflexivity.
              ** intros x [<- | Hx]; [exact Hs |]. intros Hxs. apply (Hdis x Hx). right. exact Hxs.
    + simpl. destruct (IH tc seen Hin Hout) as [IH1 IH2]. split; [exact IH1 |].
      intros t H. destruct (IH2 t H) as [before [it [after [E [Ht [Hrep [Hnd Hdis]]]]]]].
      exists (item :: before), it, after.
      split; [rewrite E; reflexivity |]. split; [exact Ht |].
      rewrite named_types_cons, Et. cbn [app]. simpl.
      auto.
Qed.

(** X4: [validateApptypeExclusive] accepts an array exactly when no pay
    type is named by two of its items; when it refuses, the type it
    reports is the one named by the first item whose type an earlier item
    has named already.  Items that are not of the form [type_xxx] are never
    counted. *)
Theorem apptype_valid_iff_no_type_twice (items : list string) :
  (validateApptypeExclusive items = None <-> NoDup (named_types items)) /\
  (forall t, validateApptypeExclusive items = Some t ->
     exists before item after,
       items = (before ++ item :: after)%list /\
       apptype_of item = Some t /\
       In t (named_types before) /\
       NoDup (named_types before)) /\
  ((forall item, In item items -> apptype_of item = None) ->
   validateApptypeExclusive items = None).
Proof.
  assert (Hspec := count_types_spec items [] []
                     (fun t (H : In t []) => match H with end)
                     (fun t _ => eq_refl)).
  assert (Hv : validateApptypeExclusive items = count_types items []).
  { destruct items; reflexivity. }
  rewrite Hv. destruct Hspec as [H1 H2].
  split; [| split].
  - rewrite H1. split; [tauto |]. intros H. split; [exact H | intros t _ []].
  - intros t H. destruct (H2 t H) as [before [it [after [E [Ht [[[] | Hrep] [Hnd _]]]]]]].
    exists before, it, after. auto.
  - intros Hnone. apply H1.
    assert (E : named_types items = []).
    { clear - Hnone. induction items as [| a l IH]; [reflexivity |].
      rewrite named_types_cons, (Hnone a (or_introl eq_refl)). simpl. apply IH.
      intros x Hx. apply Hnone. right. exact Hx. }
    rewrite E. split; [constructor | intros t []].
Qed.

Example apptype_examples :
  apptype_of "alipay_1" = Some "alipay" /\
  apptype_of "alipay_" = None /\
  apptype_of "2" = None /\
  validateApptypeExclusive ["alipay_1"; "wxpay_2"; "3"] = None /\
  validateApptypeExclusive ["alipay_1"; "wxpay_2"; "alipay_3"] = Some "alipay".
Proof. repeat split; reflexivity. Qed.

End ChannelAdminFacts.

Section RandomStringFacts.
Import Helpers.

Lemma length_append_char (s : string) (c : ascii) :
  String.length (s ++ String c "") = S (String.length s).
Proof. induction s as [| a s IH]; simpl; [reflexivity | rewrite IH; reflexivity]. Qed.

Lemma list_ascii_append (a b : string) :
  list_ascii_of_string (a ++ b) = (list_ascii_of_string a ++ list_ascii_of_string b)%list.
Proof. induction a as [| c a IH]; simpl; [reflexivity | rewrite IH; reflexivity]. Qed.

Lemma length_list_ascii (s : string) :
  List.length (list_ascii_of_string s) = String.length s.
Proof. induction s as [| c s IH]; simpl; [reflexivity | rewrite IH; reflexivity]. Qed.

(** One buffer: the output grows by the accepted characters, up to the
    length asked for. *)
Lemma fill_spec (charset : string) (length : Z) (buf : list Z) :
  forall out,
    Z.of_nat (String.length out) <= length ->
    list_ascii_of_string (fill charset length out buf)
    = firstn (Z.to_nat length)
        (list_ascii_of_string out ++ accepted_chars charset buf).
Proof.
  induction buf as [| b rest IH]; intros out Hlen; simpl.
  - rewrite app_nil_r, firstn_all2; [reflexivity | rewrite length_list_ascii; lia].
  - destruct (Z.of_nat (String.length out) <? length) eqn:E.
    + apply Z.ltb_lt in E. destruct (accept_byte charset b) as [c |]; simpl.
      * rewrite IH by (rewrite length_append_char; lia).
        rewrite list_ascii_append, <- app_assoc. reflexivity.
      * apply IH. exact Hlen.
    + apply Z.ltb_ge in E.
      rewrite firstn_app.
      replace (Z.to_nat length) with (String.length out) by lia.
      rewrite <- length_list_ascii at 1. rewrite firstn_all.
      rewrite length_list_ascii, Nat.sub_diag. simpl. rewrite app_nil_r. reflexivity.
Qed.

Lemma fill_length (charset : string) (length : Z) (buf : list Z) (out : string) :
  Z.of_nat (String.length out) <= length ->
  Z.of_nat (String.length (fill charset length out buf)) <= length.
Proof.
  intros H. rewrite <- length_list_ascii, (fill_spec _ _ _ _ H), length_firstn. lia.
Qed.

Lemma accepted_chars_app (charset : string) (a b : list Z) :
  accepted_chars charset (a ++ b)
  = (accepted_chars charset a ++ accepted_chars charset b)%list.
Proof. unfold accepted_chars. apply flat_map_app. Qed.

(** The whole loop: the first [length] accepted characters of the stream,
    whatever the buffer boundaries are; it ends exactly when the stream
    holds that many. *)
Lemma fill_all_spec (charset : string) (length : Z) (bufs : list (list Z)) :
  forall out,
    Z.of_nat (String.length out) <= length ->
    let all := (list_ascii_of_string out ++ accepted_chars charset (List.concat bufs))%list in
    match fst (fill_all charset length out bufs) with
    | Sampled res =>
        list_ascii_of_string res = firstn (Z.to_nat length) all /\
        Z.of_nat (String.length res) = length
    | OutOfBytes => Z.of_nat (List.length all) < length
    | CharsetTooShort => False
    end.
Proof.
  induction bufs as [| buf rest IH]; intros out Hlen all; subst all; simpl.
  - rewrite app_nil_r.
    destruct (Z.of_nat (String.length out) <? length) eqn:E; simpl.
    + apply Z.ltb_lt in E. rewrite length_list_ascii. exact E.
    + apply Z.ltb_ge in E. split; [| lia].
      rewrite firstn_all2; [reflexivity | rewrite length_list_ascii; lia].
  - destruct (Z.of_nat (String.length out) <? length) eqn:E; simpl.
    + specialize (IH (fill charset length out buf) (fill_length _ _ _ _ Hlen)).
      simpl in IH. rewrite (fill_spec _ _ _ _ Hlen) in IH.
      rewrite accepted_chars_app, app_assoc.
      set (pre := (list_ascii_of_string out ++ accepted_chars charset buf)%list) in *.
      set (post := accepted_chars charset (List.concat rest)) in *.
      destruct (fst (fill_all charset length (fill charset length out buf) rest))
        as [res | |]; [| exact IH |].
      * destruct IH as [IH1 IH2]. split; [| exact IH2].
        rewrite IH1. clear.
        destruct (Nat.le_gt_cases (Z.to_nat length) (List.length pre)) as [H | H].
        -- rewrite !firstn_app, firstn_firstn, Nat.min_id, length_firstn.
           replace (Z.to_nat length - Nat.min (Z.to_nat length) (List.length pre))%nat
             with 0%nat by lia.
           replace (Z.to_nat length - List.length pre)%nat with 0%nat by lia.
           reflexivity.
        -- rewrite (firstn_all2 pre) by lia. reflexivity.
      * rewrite length_app in *. rewrite length_firstn in IH.
        destruct (Nat.le_gt_cases (Z.to_nat length) (List.length pre)) as [H | H]; lia.
    + apply Z.ltb_ge in E. split; [| lia].
      rewrite firstn_app.
      replace (Z.to_nat length) with (List.length (list_ascii_of_string out))
        by (rewrite length_list_ascii; lia).
      rewrite firstn_all, Nat.sub_diag. simpl. rewrite app_nil_r. reflexivity.
Qed.

Lemma In_firstn {A} (n : nat) (l : list A) (x : A) : In x (firstn n l) -> In x l.
Proof. intros H. rewrite <- (firstn_skipn n l). apply in_or_app. left. exact H. Qed.

Lemma accept_byte_in_charset (charset : string) (b : Z) (c : ascii) :
  accept_byte charset b = Some c -> In c (list_ascii_of_string charset).
Proof.
  unfold accept_byte. destruct (accepted_index _ b) as [i |]; [| discriminate].
  generalize (Z.to_nat i). clear. intros n. revert n.
  induction charset as [| a s IH]; intros [| n] H; simpl in *; try discriminate.
  - injection H as <-. left. reflexivity.
  - right. eapply IH; eauto.
Qed.

Lemma accepted_chars_in_charset (charset : string) (bytes : list Z) (c : ascii) :
  In c (accepted_chars charset bytes) -> In c (list_ascii_of_string charset).
Proof.
  unfold accepted_chars. rewrite in_flat_map. intros [b [_ H]].
  destruct (accept_byte charset b) as [c' |] eqn:E; [| destruct H].
  destruct H as [<- | []]. eapply accept_byte_in_charset; eauto.
Qed.

(** X5: what [randomFromCharset] returns.  For a length that is not
    positive it is the empty string, whatever the charset; for a charset
    of fewer than two characters it throws; otherwise the result is made of
    the first [length] characters that the bytes of the stream select, in
    their order and whatever the buffer boundaries: it has exactly [length]
    characters, all of them from the charset, and the loop goes on asking
    for bytes exactly as long as the stream has selected fewer. *)
Theorem randomFromCharset_result (length : Z) (charset : string) (bufs : list (list Z)) :
  (length <= 0 -> randomFromCharset length charset bufs = (Sampled "", bufs)) /\
  (0 < length -> (String.length charset < 2)%nat ->
   randomFromCharset length charset bufs = (CharsetTooShort, bufs)) /\
  (0 < length -> (2 <= String.length charset)%nat ->
   match fst (randomFromCharset length charset bufs) with
   | Sampled out =>
       list_ascii_of_string out
       = firstn (Z.to_nat length) (accepted_chars charset (List.concat bufs)) /\
       Z.of_nat (String.length out) = length /\
       (forall c, In c (list_ascii_of_string out) -> In c (list_ascii_of_string charset))
   | OutOfBytes =>
       Z.of_nat (List.length (accepted_chars charset (List.concat bufs))) < length
   | CharsetTooShort => False
   end).
Proof.
  unfold randomFromCharset. split; [| split].
  - intros H. apply Z.leb_le in H. rewrite H. reflexivity.
  - intros H Hc. apply Z.leb_gt in H. apply Nat.ltb_lt in Hc. rewrite H, Hc. reflexivity.
  - intros H Hc. apply Z.leb_gt in H. apply Nat.ltb_ge in Hc. rewrite H, Hc.
    pose proof (fill_all_spec charset length bufs "" ltac:(simpl; lia)) as Hs.
    simpl in Hs.
    destruct (fst (fill_all charset length "" bufs)) as [out | |]; [| exact Hs | exact Hs].
    destruct Hs as [H1 H2]. split; [exact H1 |]. split; [exact H2 |].
    intros c Hin. rewrite H1 in Hin. apply In_firstn in Hin.
    eapply accepted_chars_in_charset; eauto.
Qed.

(** ** No modulo bias *)

Lemma count_none_in_seq (j m : nat) :
  forall a, (j < a \/ a + m <= j)%nat ->
            List.length (filter (fun r => (r =? j)%nat) (seq a m)) = 0%nat.
Proof.
  induction m as [| m IH]; intros a H; cbn [seq filter]; [reflexivity |].
  destruct (a =? j)%nat eqn:E.
  - apply Nat.eqb_eq in E. lia.
  - apply IH. lia.
Qed.

Lemma count_one_in_seq (j m : nat) :
  forall a, (a <= j < a + m)%nat ->
            List.length (filter (fun r => (r =? j)%nat) (seq a m)) = 1%nat.
Proof.
  induction m as [| m IH]; intros a H; cbn [seq filter]; [lia |].
  destruct (a =? j)%nat eqn:E.
  - apply Nat.eqb_eq in E. cbn [List.length].
    rewrite count_none_in_seq by lia. reflexivity.
  - apply Nat.eqb_neq in E. apply IH. lia.
Qed.

(** Among [q] whole runs of [n] consecutive numbers, [q] are congruent
    to [j]. *)
Lemma count_residue (n j q : nat) :
  (j < n)%nat ->
  List.length (filter (fun x => (x mod n =? j)%nat) (seq 0 (q * n))) = q.
Proof.
  intros Hj. induction q as [| q IH]; [reflexivity |].
  replace (S q * n)%nat with (q * n + n)%nat by lia.
  rewrite seq_app, filter_app, length_app, IH. simpl.
  assert (E : filter (fun x => (x mod n =? j)%nat) (seq (q * n) n)
              = filter (fun x => (x =? q * n + j)%nat) (seq (q * n) n)).
  { apply filter_ext_in. intros x Hx. apply in_seq in Hx.
    assert (Hmod : (x mod n = x - q * n)%nat).
    { replace x with ((x - q * n) + q * n)%nat at 1 by lia.
      rewrite Nat.Div0.mod_add. apply Nat.mod_small. lia. }
    rewrite Hmod.
    destruct (x - q * n =? j)%nat eqn:E1; destruct (x =? q * n + j)%nat eqn:E2;
      try reflexivity;
      try (apply Nat.eqb_eq in E1); try (apply Nat.eqb_neq in E1);
      try (apply Nat.eqb_eq in E2); try (apply Nat.eqb_neq in E2); lia. }
  rewrite E, count_one_in_seq by lia. lia.
Qed.

(** X6: rejection sampling leaves no modulo bias.  For a charset of [n]
    characters, 2 to 256, every position of the charset is selected by the
    same number of byte values, 256 div n of them: the bytes [j], [j + n],
    [j + 2n], ... below the cut. *)
Theorem rejection_sampling_is_unbiased (n j : Z) :
  2 <= n <= 256 -> 0 <= j < n ->
  Z.of_nat (List.length
              (filter (fun b => match accepted_index n b with
                                | Some i => i =? j
                                | None => false
                                end) all_bytes))
  = 256 / n /\
  (forall b, 0 <= b < 256 ->
     (accepted_index n b = Some j <-> exists k, 0 <= k < 256 / n /\ b = k * n + j)).
Proof.
  intros Hn Hj.
  set (q := 256 / n).
  assert (Hq : 0 < q) by (apply Z.div_str_pos; lia).
  assert (Hqn : q * n <= 256).
  { unfold q. pose proof (Z.mul_div_le 256 n ltac:(lia)). lia. }
  assert (Hchar : forall b, 0 <= b < 256 ->
            (accepted_index n b = Some j <-> exists k, 0 <= k < q /\ b = k * n + j)).
  { intros b Hb. unfold accepted_index, maxValidByte. fold q.
    destruct (q * n - 1 <? b) eqn:E.
    - apply Z.ltb_lt in E. split; [discriminate |].
      intros [k [Hk ->]]. nia.
    - apply Z.ltb_ge in E. split.
      + intros H. injection H as H. exists (b / n).
        pose proof (Z.div_mod b n ltac:(lia)) as Hdm.
        split; [| lia].
        split; [apply Z.div_pos; lia |].
        apply Z.div_lt_upper_bound; lia.
      + intros [k [Hk ->]]. f_equal.
        rewrite Z.add_comm, Z.mod_add by lia. apply Z.mod_small. lia. }
  split; [| exact Hchar].
  unfold all_bytes.
  replace 256%nat with (Z.to_nat q * Z.to_nat n + (256 - Z.to_nat q * Z.to_nat n))%nat by nia.
  rewrite seq_app, map_app, filter_app, length_app, Nat.add_0_l.
  assert (E1 : List.length
                 (filter (fun b => match accepted_index n b with
                                   | Some i => i =? j | None => false end)
                    (map Z.of_nat (seq 0 (Z.to_nat q * Z.to_nat n))))
               = Z.to_nat q).
  { etransitivity;
      [| apply (count_residue (Z.to_nat n) (Z.to_nat j) (Z.to_nat q)); lia].
    rewrite filter_map_swap, length_map. f_equal.
    apply filter_ext_in. intros x Hx. apply in_seq in Hx.
    unfold accepted_index, maxValidByte. fold q.
    replace (q * n - 1 <? Z.of_nat x) with false by (symmetry; apply Z.ltb_ge; nia).
    rewrite <- (Z2Nat.id n) at 1 by lia. rewrite <- Nat2Z.inj_mod.
    destruct (Z.of_nat (x mod Z.to_nat n) =? j) eqn:Ea;
      destruct (x mod Z.to_nat n =? Z.to_nat j)%nat eqn:Eb; try reflexivity;
      try (apply Z.eqb_eq in Ea); try (apply Z.eqb_neq in Ea);
      try (apply Nat.eqb_eq in Eb); try (apply Nat.eqb_neq in Eb); lia. }
  assert (E2 : filter (fun b => match accepted_index n b with
                                | Some i => i =? j | None => false end)
                 (map Z.of_nat (seq (Z.to_nat q * Z.to_nat n)
                                    (256 - Z.to_nat q * Z.to_nat n)))
               = []).
  { rewrite filter_map_swap.
    rewrite (filter_ext_in _ (fun _ => false)); [rewrite filter_false; reflexivity |].
    intros x Hx. apply in_seq in Hx.
    unfold accepted_index, maxValidByte. fold q.
    replace (q * n - 1 <? Z.of_nat x) with true; [reflexivity |].
    symmetry. apply Z.ltb_lt. nia. }
  rewrite E1, E2. cbn [List.length]. lia.
Qed.

Lemma rejection_sampling_is_unbiased_witness :
  2 <= 62 <= 256 /\
  Z.of_nat (List.length
              (filter (fun b => match accepted_index 62 b with
                                | Some i => i =? 5
                                | None => false
                                end) all_bytes))
  = 256 / 62.
Proof.
  split; [lia |].
  apply (proj1 (rejection_sampling_is_unbiased 62 5 ltac:(lia) ltac:(lia))).
Defined.

(** Ten digits: the bytes from 250 up are skipped, the others select the
    digit of their remainder; the buffers are read one after the other. *)
Example generateRandomDigits_example :
  generateRandomDigits 4 [[7; 255; 250; 19]; [249; 123; 5]]
  = (Sampled "7993", []) /\
  generateRandomDigits 2 [[7; 255; 250; 19]; [249; 123; 5]]
  = (Sampled "79", [[249; 123; 5]]) /\
  generateRandomDigits 5 [[7; 255; 250; 19]; [249]] = (OutOfBytes, []) /\
  generateRandomDigits 0 [] = (Sampled "", []) /\
  randomFromCharset 3 "x" [[1; 2; 3]] = (CharsetTooShort, [[1; 2; 3]]).
Proof. repeat split; reflexivity. Qed.

End RandomStringFacts.

Section PemFacts.
Import JS Pem.

Example pem_examples :
  base64ToPem "QUJD" "PUBLIC KEY"
  = Some ("-----BEGIN PUBLIC KEY-----" ++ String "010" "" ++ "QUJD" ++ String "010" ""
          ++ "-----END PUBLIC KEY-----") /\
  pemToBase64 ("-----BEGIN PUBLIC KEY-----" ++ String "010" "" ++ "QUJD" ++ String "010" ""
               ++ "-----END PUBLIC KEY-----") = "QUJD" /\
  pemToBase64 "-----BEGIN rsa-----QUJD" = "-----BEGINrsa-----QUJD" /\
  base64ToPem (String "010" "") "PUBLIC KEY" = None.
Proof. repeat split; reflexivity. Qed.

Lemma after_prefix_app (p s : list ascii) : after_prefix p (p ++ s) = Some s.
Proof.
  induction p as [| a p IH]; simpl; [reflexivity |].
  rewrite Ascii.eqb_refl. exact IH.
Qed.

Lemma marker_at_not_hyphen (word : string) (c : ascii) (rest : list ascii) :
  c <> "-"%char -> marker_at word (c :: rest) = None.
Proof.
  intros Hc. unfold marker_at.
  change (list_ascii_of_string ("-----" ++ word ++ " "))
    with ("-"%char :: list_ascii_of_string ("----" ++ word ++ " ")).
  cbn [after_prefix].
  destruct (Ascii.eqb "-" c) eqn:E; [| reflexivity].
  apply Ascii.eqb_eq in E. congruence.
Qed.

(** Text without a hyphen holds no marker. *)
Lemma strip_markers_plain (word : string) (s t : list ascii) :
  (forall c, In c s -> c <> "-"%char) ->
  strip_markers word 0 (s ++ t) = (s ++ strip_markers word 0 t)%list.
Proof.
  induction s as [| c s IH]; intros H; [reflexivity |].
  cbn [app strip_markers].
  rewrite marker_at_not_hyphen by (apply H; left; reflexivity).
  rewrite IH; [reflexivity |]. intros x Hx. apply H. right. exact Hx.
Qed.

Lemma strip_markers_skip (word : string) (s t : list ascii) :
  strip_markers word (List.length s) (s ++ t) = strip_markers word 0 t.
Proof.
  induction s as [| c s IH]; [destruct t; reflexivity |].
  cbn [List.length app strip_markers]. exact IH.
Qed.

Lemma span_label (l t : list ascii) :
  forallb is_label_char l = true ->
  span is_label_char (l ++ "-"%char :: t) = (l, "-"%char :: t).
Proof.
  induction l as [| c l IH]; intros H.
  - reflexivity.
  - cbn [forallb] in H. apply andb_prop in H. destruct H as [Hc Hl].
    cbn [app span]. rewrite Hc, (IH Hl). reflexivity.
Qed.

Lemma label_char_not_hyphen (c : ascii) : is_label_char c = true -> c <> "-"%char.
Proof. intros H ->. discriminate H. Qed.

(** A marker at the start of the text is matched in full. *)
Lemma marker_at_marker (word T : string) (t : list ascii) :
  label T ->
  marker_at word
    (list_ascii_of_string ("-----" ++ word ++ " ")
     ++ list_ascii_of_string T ++ list_ascii_of_string "-----" ++ t)
  = Some (5 + String.length word + 1 + String.length T + 5)%nat.
Proof.
  intros [Hne Hl]. unfold marker_at.
  rewrite after_prefix_app.
  change (list_ascii_of_string "-----" ++ t)%list
    with ("-"%char :: (list_ascii_of_string "----" ++ t))%list.
  rewrite (span_label _ _ Hl).
  change ("-"%char :: (list_ascii_of_string "----" ++ t))%list
    with (list_ascii_of_string "-----" ++ t)%list.
  rewrite after_prefix_app, length_list_ascii.
  destruct T as [| c T]; [congruence | reflexivity].
Qed.

Lemma strip_markers_marker (word T : string) (t : list ascii) :
  label T ->
  strip_markers word 0
    (list_ascii_of_string ("-----" ++ word ++ " ")
     ++ list_ascii_of_string T ++ list_ascii_of_string "-----" ++ t)
  = strip_markers word 0 t.
Proof.
  intros HT.
  pose proof (marker_at_marker word T t HT) as Hm.
  set (M := (list_ascii_of_string ("-----" ++ word ++ " ")
             ++ list_ascii_of_string T ++ list_ascii_of_string "-----")%list).
  assert (HM : List.length M = (5 + String.length word + 1 + String.length T + 5)%nat).
  { unfold M. rewrite !length_app, !length_list_ascii, !length_append. simpl. lia. }
  replace (list_ascii_of_string ("-----" ++ word ++ " ")
           ++ list_ascii_of_string T ++ list_ascii_of_string "-----" ++ t)%list
    with (M ++ t)%list in * by (unfold M; rewrite <- !app_assoc; reflexivity).
  destruct M as [| c M]; [simpl in HM; lia |].
  cbn [app strip_markers]. cbn [app] in Hm. rewrite Hm.
  replace (5 + String.length word + 1 + String.length T + 5)%nat
    with (S (List.length M)) by (simpl in HM; lia).
  apply strip_markers_skip.
Qed.

Lemma strip_markers_keep (word : string) (c : ascii) (rest : list ascii) :
  marker_at word (c :: rest) = None ->
  strip_markers word 0 (c :: rest) = c :: strip_markers word 0 rest.
Proof. intros H. cbn [strip_markers]. rewrite H. reflexivity. Qed.

(** The other marker is left alone. *)
Lemma strip_begin_keeps_end (T : string) :
  label T ->
  strip_markers "BEGIN" 0
    (list_ascii_of_string "-----END " ++ list_ascii_of_string T
     ++ list_ascii_of_string "-----")
  = (list_ascii_of_string "-----END " ++ list_ascii_of_string T
     ++ list_ascii_of_string "-----")%list.
Proof.
  intros [_ Hl].
  set (tail := (list_ascii_of_string T ++ list_ascii_of_string "-----")%list).
  change (list_ascii_of_string "-----END " ++ tail)%list
    with ("-"%char :: "-"%char :: "-"%char :: "-"%char :: "-"%char
          :: (list_ascii_of_string "END " ++ tail))%list.
  do 5 (rewrite strip_markers_keep by reflexivity).
  do 5 f_equal.
  unfold tail. rewrite app_assoc, strip_markers_plain.
  - rewrite <- app_assoc. reflexivity.
  - intros c Hc. apply in_app_or in Hc. destruct Hc as [Hc | Hc].
    + simpl in Hc. intuition (subst; discriminate).
    + apply label_char_not_hyphen. rewrite forallb_forall in Hl. apply Hl, Hc.
Qed.

(** ** Pieces *)

Lemma chunk64_concat (s : list ascii) :
  forall cur,
    (forall c, In c s -> ChannelAdmin.is_line_terminator c = false) ->
    List.concat (chunk64 cur s) = (cur ++ s)%list.
Proof.
  induction s as [| c s IH]; intros cur H; cbn [chunk64].
  - destruct cur; simpl; rewrite ?app_nil_r; reflexivity.
  - rewrite (H c (or_introl eq_refl)).
    assert (H' : forall x, In x s -> ChannelAdmin.is_line_terminator x = false)
      by (intros x Hx; apply H; right; exact Hx).
    destruct (List.length cur =? 64)%nat.
    + cbn [List.concat]. rewrite (IH [c] H'). reflexivity.
    + rewrite (IH _ H'), <- app_assoc. reflexivity.
Qed.

Lemma chunk64_nonempty (s : list ascii) :
  forall cur, (cur ++ s)%list <> [] ->
    (forall c, In c s -> ChannelAdmin.is_line_terminator c = false) ->
    chunk64 cur s <> [].
Proof.
  intros cur Hne H E.
  pose proof (chunk64_concat s cur H) as Hc. rewrite E in Hc. simpl in Hc. congruence.
Qed.

Lemma chunk64_no_empty_piece (s : list ascii) :
  forall cur p, In p (chunk64 cur s) -> p <> [].
Proof.
  induction s as [| c s IH]; intros cur p Hp; cbn [chunk64] in Hp.
  - destruct cur; [destruct Hp |]. destruct Hp as [<- | []]. discriminate.
  - destruct (ChannelAdmin.is_line_terminator c).
    + destruct cur; [eapply IH; eauto |].
      destruct Hp as [<- | Hp]; [discriminate | eapply IH; eauto].
    + destruct (List.length cur =? 64)%nat eqn:E.
      * destruct Hp as [<- | Hp]; [| eapply IH; eauto].
        apply Nat.eqb_eq in E. intros ->. discriminate.
      * eapply IH; eauto.
Qed.

Lemma In_join_lines (pieces : list (list ascii)) (c : ascii) :
  In c (join_lines pieces) -> c = "010"%char \/ In c (List.concat pieces).
Proof.
  induction pieces as [| p [| q rest] IH]; cbn [join_lines List.concat]; intros H.
  - destruct H.
  - right. rewrite app_nil_r. exact H.
  - apply in_app_or in H. destruct H as [H | [<- | H]].
    + right. apply in_or_app. left. exact H.
    + left. reflexivity.
    + destruct (IH H) as [-> | H']; [left; reflexivity |].
      right. apply in_or_app. right. exact H'.
Qed.

Lemma filter_join_lines (f : ascii -> bool) (pieces : list (list ascii)) :
  f "010"%char = false ->
  (forall c, In c (List.concat pieces) -> f c = true) ->
  filter f (join_lines pieces) = List.concat pieces.
Proof.
  intros Hnl. induction pieces as [| p [| q rest] IH]; intros H;
    cbn [join_lines List.concat].
  - reflexivity.
  - rewrite app_nil_r. apply forallb_filter_id. apply forallb_forall.
    intros c Hc. apply H. cbn [List.concat]. rewrite app_nil_r. exact Hc.
  - rewrite filter_app. cbn [filter]. rewrite Hnl. f_equal.
    + apply forallb_filter_id. apply forallb_forall.
      intros c Hc. apply H. cbn [List.concat]. apply in_or_app. left. exact Hc.
    + apply IH. intros c Hc. apply H. cbn [List.concat]. apply in_or_app. right. exact Hc.
Qed.

Lemma includes_needs_head (needle s : list ascii) (a : ascii) :
  (forall c, In c s -> c <> a) -> includes (a :: needle) s = false.
Proof.
  induction s as [| c s IH]; intros H; cbn [includes after_prefix]; [reflexivity |].
  destruct (Ascii.eqb a c) eqn:E.
  - apply Ascii.eqb_eq in E. exfalso. apply (H c); [left; reflexivity | congruence].
  - apply IH. intros x Hx. apply H. right. exact Hx.
Qed.

Lemma includes_at_start (needle s : list ascii) : includes needle (needle ++ s) = true.
Proof. destruct needle; simpl; [destruct s; reflexivity |]. rewrite Ascii.eqb_refl, after_prefix_app. reflexivity. Qed.

(** X7: the bare form of a key survives the round trip through PEM.  For
    a text without white space and without a hyphen (Base64 has neither),
    not empty, and a label of capitals and spaces, [base64ToPem] builds a
    PEM from which [pemToBase64] gives the text back; and [base64ToPem]
    leaves its own result as it is. *)
Theorem pem_round_trip (base64 type : string) :
  base64 <> "" -> bare base64 -> label type ->
  exists pem,
    base64ToPem base64 type = Some pem /\
    pemToBase64 pem = base64 /\
    base64ToPem pem type = Some pem.
Proof.
  intros Hne Hbare Hlabel.
  set (b := list_ascii_of_string base64).
  assert (Hb : b <> []).
  { unfold b. destruct base64; [congruence | discriminate]. }
  assert (Hws : forall c, In c b -> is_ws c = false) by (intros c Hc; apply Hbare, Hc).
  assert (Hhy : forall c, In c b -> c <> "-"%char) by (intros c Hc; apply Hbare, Hc).
  assert (Hlt : forall c, In c b -> ChannelAdmin.is_line_terminator c = false).
  { intros c Hc. specialize (Hws c Hc). unfold is_ws in Hws.
    unfold ChannelAdmin.is_line_terminator.
    destruct (nat_of_ascii c =? 10)%nat eqn:E1; [apply Nat.eqb_eq in E1; rewrite E1 in Hws;
                                                   discriminate |].
    destruct (nat_of_ascii c =? 13)%nat eqn:E2; [apply Nat.eqb_eq in E2; rewrite E2 in Hws;
                                                   discriminate |].
    reflexivity. }
  unfold base64ToPem. fold b.
  replace (String.eqb base64 "") with false by (symmetry; apply String.eqb_neq; exact Hne).
  change (list_ascii_of_string "-----BEGIN")
    with ("-"%char :: list_ascii_of_string "----BEGIN").
  rewrite (includes_needs_head _ b "-" Hhy). cbn [orb].
  pose proof (chunk64_concat b [] Hlt) as Hcat. cbn [app] in Hcat.
  pose proof (chunk64_nonempty b [] Hb Hlt) as Hpieces.
  destruct (chunk64 [] b) as [| p ps] eqn:Ech; [congruence |].
  set (pieces := p :: ps) in *.
  eexists. split; [reflexivity |].
  assert (Hjoin_hy : forall c, In c (join_lines pieces) -> c <> "-"%char).
  { intros c Hc. apply In_join_lines in Hc. destruct Hc as [-> | Hc]; [discriminate |].
    rewrite Hcat in Hc. apply Hhy, Hc. }
  split.
  - unfold pemToBase64.
    rewrite !list_ascii_append, list_ascii_of_string_of_list_ascii.
    change (list_ascii_of_string "-----BEGIN ")
      with (list_ascii_of_string ("-----" ++ "BEGIN" ++ " ")).
    rewrite strip_markers_marker by exact Hlabel.
    change (list_ascii_of_string (String "010" ""))
      with ["010"%char].
    replace (["010"%char] ++ join_lines pieces ++ ["010"%char]
             ++ list_ascii_of_string "-----END " ++ list_ascii_of_string type
             ++ list_ascii_of_string "-----")%list
      with ((["010"%char] ++ join_lines pieces ++ ["010"%char])
            ++ list_ascii_of_string "-----END " ++ list_ascii_of_string type
            ++ list_ascii_of_string "-----")%list
      by (rewrite <- !app_assoc; reflexivity).
    assert (Hmid : forall c, In c (["010"%char] ++ join_lines pieces ++ ["010"%char])%list ->
                             c <> "-"%char).
    { intros c Hc. apply in_app_or in Hc. destruct Hc as [[<- | []] | Hc]; [discriminate |].
      apply in_app_or in Hc. destruct Hc as [Hc | [<- | []]]; [| discriminate].
      apply Hjoin_hy, Hc. }
    rewrite (strip_markers_plain _ _ _ Hmid), (strip_begin_keeps_end _ Hlabel).
    rewrite (strip_markers_plain _ _ _ Hmid).
    change (list_ascii_of_string "-----END ")
      with (list_ascii_of_string ("-----" ++ "END" ++ " ")).
    replace (list_ascii_of_string ("-----" ++ "END" ++ " ") ++ list_ascii_of_string type
             ++ list_ascii_of_string "-----")%list
      with (list_ascii_of_string ("-----" ++ "END" ++ " ") ++ list_ascii_of_string type
            ++ list_ascii_of_string "-----" ++ [])%list
      by (rewrite app_nil_r; reflexivity).
    rewrite strip_markers_marker by exact Hlabel.
    cbn [strip_markers]. rewrite app_nil_r.
    rewrite !filter_app. cbn [filter]. cbn [app].
    change (negb (is_ws "010")) with false. cbn [app]. rewrite app_nil_r.
    rewrite filter_join_lines.
    + rewrite Hcat. unfold b. apply string_of_list_ascii_of_string.
    + reflexivity.
    + intros c Hc. rewrite Hcat in Hc. rewrite (Hws c Hc). reflexivity.
  - replace (String.eqb _ "") with false by reflexivity.
    rewrite !list_ascii_append.
    change (list_ascii_of_string "-----BEGIN ")
      with (list_ascii_of_string "-----BEGIN" ++ [" "%char])%list.
    rewrite <- app_assoc, includes_at_start. reflexivity.
Qed.

Lemma pem_round_trip_witness :
  exists pem,
    base64ToPem "MIIBIjANBgkqhkiG9w0BAQEFAAOCAQ8AMIIBCgKCAQEAu1SU1LfVLPHCozMxH2Mo4lgOEePzNm0tRgeLezV6ffAt0gunVTLw7onLRnrq0/IzW7yWR7QkrmBL7jTKEn5u+qKhbwKfBstIs+bMY2Zkp18gnTxKLxoS2tFczGkPLPgizskuemMghRniWaoLcyehkd3qqGElvW/VDL5AaWTg0nLVkjRo9z+40RQzuVaE8AkAFmxZzow3x+VJYKdjykkJ0iT9wCS0DRTXu269V264Vf/3jvredZiKRkgwlL9xNAwxXFg0x/XFw005UWVRIkdgcKWTjpBP2dPwVZ4WWC+9aGVd+Gyn1o0CLelf4rEjGoXbAAEgAqeGUxrcIlbjXfbcmwIDAQAB" "PUBLIC KEY" = Some pem /\
    pemToBase64 pem = "MIIBIjANBgkqhkiG9w0BAQEFAAOCAQ8AMIIBCgKCAQEAu1SU1LfVLPHCozMxH2Mo4lgOEePzNm0tRgeLezV6ffAt0gunVTLw7onLRnrq0/IzW7yWR7QkrmBL7jTKEn5u+qKhbwKfBstIs+bMY2Zkp18gnTxKLxoS2tFczGkPLPgizskuemMghRniWaoLcyehkd3qqGElvW/VDL5AaWTg0nLVkjRo9z+40RQzuVaE8AkAFmxZzow3x+VJYKdjykkJ0iT9wCS0DRTXu269V264Vf/3jvredZiKRkgwlL9xNAwxXFg0x/XFw005UWVRIkdgcKWTjpBP2dPwVZ4WWC+9aGVd+Gyn1o0CLelf4rEjGoXbAAEgAqeGUxrcIlbjXfbcmwIDAQAB".
Proof.
  edestruct (pem_round_trip
    "MIIBIjANBgkqhkiG9w0BAQEFAAOCAQ8AMIIBCgKCAQEAu1SU1LfVLPHCozMxH2Mo4lgOEePzNm0tRgeLezV6ffAt0gunVTLw7onLRnrq0/IzW7yWR7QkrmBL7jTKEn5u+qKhbwKfBstIs+bMY2Zkp18gnTxKLxoS2tFczGkPLPgizskuemMghRniWaoLcyehkd3qqGElvW/VDL5AaWTg0nLVkjRo9z+40RQzuVaE8AkAFmxZzow3x+VJYKdjykkJ0iT9wCS0DRTXu269V264Vf/3jvredZiKRkgwlL9xNAwxXFg0x/XFw005UWVRIkdgcKWTjpBP2dPwVZ4WWC+9aGVd+Gyn1o0CLelf4rEjGoXbAAEgAqeGUxrcIlbjXfbcmwIDAQAB"
    "PUBLIC KEY") as [pem [H1 [H2 _]]].
  - discriminate.
  - intros c Hc.
    assert (H : forallb (fun c => negb (is_ws c) && negb (Ascii.eqb c "-"))
                  (list_ascii_of_string "MIIBIjANBgkqhkiG9w0BAQEFAAOCAQ8AMIIBCgKCAQEAu1SU1LfVLPHCozMxH2Mo4lgOEePzNm0tRgeLezV6ffAt0gunVTLw7onLRnrq0/IzW7yWR7QkrmBL7jTKEn5u+qKhbwKfBstIs+bMY2Zkp18gnTxKLxoS2tFczGkPLPgizskuemMghRniWaoLcyehkd3qqGElvW/VDL5AaWTg0nLVkjRo9z+40RQzuVaE8AkAFmxZzow3x+VJYKdjykkJ0iT9wCS0DRTXu269V264Vf/3jvredZiKRkgwlL9xNAwxXFg0x/XFw005UWVRIkdgcKWTjpBP2dPwVZ4WWC+9aGVd+Gyn1o0CLelf4rEjGoXbAAEgAqeGUxrcIlbjXfbcmwIDAQAB") = true)
      by reflexivity.
    rewrite forallb_forall in H. specialize (H c Hc).
    apply andb_prop in H. destruct H as [H1 H2].
    split; [destruct (is_ws c); [discriminate | reflexivity] |].
    intros ->. discriminate.
  - split; [discriminate | reflexivity].
  - exists pem. split; assumption.
Defined.

End PemFacts.

Section HandlerSteps.
Import JS Fee Channel Store Gateway.
Local Open Scope handler_scope.

Lemma bind_inv {A B} (m : handler A) (k : A -> handler B) (w w' : world) (res : flow B) :
  bind m k w = (res, w') ->
  (exists a w1, m w = (Next a, w1) /\ k a w1 = (res, w')) \/
  (exists r, m w = (Reply r, w') /\ res = Reply r).
Proof.
  unfold bind. destruct (m w) as [[a | r] w1]; intros H.
  - left. eauto.
  - right. injection H as <- <-. eauto.
Qed.

Lemma check_limits_inv (lo hi : option Q) (m : number) (w w' : world) (res : flow unit) :
  check_limits lo hi m w = (res, w') ->
  w' = w /\ (res = Next tt \/ exists why, res = Reply (Rejected why)).
Proof.
  unfold check_limits, bind, reject_if, reply, ret.
  destruct (match lo with Some _ => _ | None => _ end);
    [intros H; injection H as <- <-; eauto |].
  destruct (match hi with Some _ => _ | None => _ end);
    intros H; injection H as <- <-; eauto.
Qed.

Lemma storable_inv (m : number) (w w' : world) (res : flow Q) :
  storable m w = (res, w') ->
  w' = w /\ ((exists q, m = Fin q /\ res = Next q) \/ exists why, res = Reply (Rejected why)).
Proof.
  unfold storable, reply, ret.
  destruct m; intros H; injection H as <- <-; eauto.
Qed.

End HandlerSteps.

Ltac prim H :=
  unfold Gateway.reject_if, Gateway.reply, Gateway.ret, Gateway.emit, Gateway.read,
    Gateway.write in H;
  repeat match type of H with
  | (match ?x with _ => _ end) _ = _ => destruct x eqn:?
  | (if ?x then _ else _) _ = _ => destruct x eqn:?
  | (let '(_, _) := ?x in _) = _ => destruct x eqn:?
  end;
  try discriminate H;
  injection H as ? ?; subst; cbn [Gateway.w_db Gateway.w_log] in *.

Ltac rejected :=
  left; split; [eexists; reflexivity | cbn [Gateway.w_db Gateway.w_log] in *; congruence].

Ltac step_with H tac :=
  let a := fresh "a" in let w1 := fresh "w" in let H1 := fresh "H" in
  let r := fresh "r" in
  apply bind_inv in H; destruct H as [(a & w1 & H1 & H) | (r & H1 & ->)];
  [ tac H1 | tac H1; try rejected ].

Ltac step H := step_with H prim.

Ltac flow_eqs :=
  repeat match goal with
  | E : Gateway.Reply _ = Gateway.Reply _ |- _ => injection E as E; try subst
  | E : Gateway.Next _ = Gateway.Next _ |- _ => injection E as E; try subst
  | E : Gateway.Reply _ = Gateway.Next _ |- _ => discriminate E
  | E : Gateway.Next _ = Gateway.Reply _ |- _ => discriminate E
  end.

Ltac limits H1 :=
  repeat match type of H1 with
  | (if ?x then _ else _) _ = _ => destruct x eqn:?
  end;
  apply check_limits_inv in H1; destruct H1 as [-> [? | [? ?]]]; flow_eqs.

Ltac store H1 :=
  apply storable_inv in H1; destruct H1 as [-> [[? [? ?]] | [? ?]]]; flow_eqs.

Section SignatureGate.
Import JS Fee Channel Store Gateway UnifiedParams.
Local Open Scope handler_scope.

Variable verifySignRSA verifySignMD5 : list (string * string) -> string -> string -> bool.
Variable validateCallbackDomain : Z -> string -> db -> option string.
Variable getMerchantFeeRate : merchant -> string -> db -> option Q.
Variable create_channel_by_id unified_channel_by_id : string -> db -> option channel.

Local Abbreviation create' :=
  (create verifySignRSA verifySignMD5 validateCallbackDomain getMerchantFeeRate
          create_channel_by_id).
Local Abbreviation handleSubmit' :=
  (handleSubmit verifySignRSA verifySignMD5 getMerchantFeeRate unified_channel_by_id).
Local Abbreviation handleMapi' :=
  (handleMapi verifySignRSA verifySignMD5 getMerchantFeeRate unified_channel_by_id).
Local Abbreviation unified' :=
  (unified verifySignRSA verifySignMD5 getMerchantFeeRate unified_channel_by_id).

Lemma create_verify_inv (req : request) (m : merchant) (w w' : world) (res : flow bool) :
  create_verify verifySignRSA verifySignMD5 req m w = (res, w') ->
  w_db w' = w_db w /\
  res = Next (if present (m_rsa_public_key m)
              then verifySignRSA (create_signParams req) (text (q_sign req))
                     (text (m_rsa_public_key m))
              else verifySignMD5 (create_signParams req) (text (q_sign req))
                     (m_api_key m)).
Proof.
  unfold create_verify, bind, emit, ret.
  destruct (present (m_rsa_public_key m)); intros H; injection H as <- <-; auto.
Qed.

Lemma unified_verify_inv (req : request) (sp : list (string * string)) (m : merchant)
    (w w' : world) (res : flow bool) :
  unified_verify verifySignRSA verifySignMD5 req sp m w = (res, w') ->
  w_db w' = w_db w /\
  ((exists why, res = Reply (Rejected why)) \/
   res = Next (if String.eqb (effectiveSignType req) "RSA"
               then present (m_rsa_public_key m)
                    && verifySignRSA sp (text (q_sign req)) (text (m_rsa_public_key m))
               else verifySignMD5 sp (text (q_sign req)) (m_api_key m))).
Proof.
  unfold unified_verify, bind, reject_if, reply, emit, ret.
  destruct (String.eqb (effectiveSignType req) "RSA").
  - destruct (present (m_rsa_public_key m)); intros H; injection H as <- <-; eauto.
  - intros H; injection H as <- <-; auto.
Qed.

Lemma create_gate (date_now : Z) (fresh : string) (req : request) (s : db)
    (res : flow response) (w : world) :
  run (create' date_now fresh req) s = (res, w) ->
  ((exists why, res = Reply (Rejected why)) /\ w_db w = s) \/
  (exists m t p,
     res = Next (Created t p) /\
     getMerchantByPid (text (q_pid req)) s = Some m /\
     validateTimestamp date_now (as_value (q_timestamp req)) = true /\
     (if present (m_rsa_public_key m)
      then verifySignRSA (create_signParams req) (text (q_sign req))
             (text (m_rsa_public_key m))
      else verifySignMD5 (create_signParams req) (text (q_sign req)) (m_api_key m)) = true).
Proof.
  unfold run, create. intros H.
  do 5 step H.
  all: destruct (getMerchantByPid (text (q_pid req)) s) as [m |] eqn:Em;
    [| prim H; rejected].
  all: do 3 step H.
  all: apply bind_inv in H; destruct H as [(valid & w1 & H1 & H) | (r & H1 & ->)];
    apply create_verify_inv in H1; destruct H1 as [Hw1 E1]; [| discriminate].
  all: injection E1 as E1.
  all: do 3 step H.
  all: match type of H with (match ?x with _ => _ end) _ = _ =>
         destruct x as [ch |] eqn:Ec end; [| prim H; rejected].
  all: step_with H limits.
  all: do 2 step H.
  all: step_with H store.
  all: do 3 step H.
  all: prim H.
  all: right; exists m; eexists _, _; split; [reflexivity |];
    split; [first [exact Em | reflexivity] |]; split; apply negb_false_iff; assumption.
Qed.


(** X8: On [/create] every early reply is a rejection that has left the store
    as it was, and the request goes through to the [Created] reply only
    for an active merchant, with a fresh timestamp and a signature that
    verifies under that merchant's key: RSA when the merchant has a
    public key, MD5 with the api_key otherwise. *)
Theorem create_acts_only_on_verified_requests
    (date_now : Z) (fresh : string) (req : request) (s : db) :
  match run (create' date_now fresh req) s with
  | (Reply r, w) => (exists why, r = Rejected why) /\ w_db w = s
  | (Next r, w) =>
      exists m t p,
        r = Created t p /\
        getMerchantByPid (text (q_pid req)) s = Some m /\
        validateTimestamp date_now (as_value (q_timestamp req)) = true /\
        (if present (m_rsa_public_key m)
         then verifySignRSA (create_signParams req) (text (q_sign req))
                (text (m_rsa_public_key m))
         else verifySignMD5 (create_signParams req) (text (q_sign req)) (m_api_key m))
        = true
  end.
Proof.
  destruct (run (create' date_now fresh req) s) as [res w] eqn:E.
  apply create_gate in E.
  destruct E as [[[why ->] Hw] | (m & t & p & -> & Hm & Ht & Hv)].
  - split; [eexists; reflexivity | first [exact Hw | reflexivity]].
  - exists m, t, p. auto.
Qed.

Lemma unified_channel_inv (req : request) (w w' : world) (res : flow (option channel)) :
  (if present (q_type req)
   then emit EvChannelLookup ;;;
        channel <- read (if present (q_channel_id req)
                         then unified_channel_by_id (text (q_channel_id req))
                         else getChannel (text (q_type req))) ;;
        match channel with
        | None => reply (Rejected ChannelUnavailable)
        | Some c =>
            check_limits (Some (ch_min_money c)) (Some (ch_max_money c))
              (parseFloat_string (text (q_money req))) ;;;
            ret (Some c)
        end
   else ret None)%handler w = (res, w') ->
  w_db w' = w_db w /\ ((exists c, res = Next c) \/ exists why, res = Reply (Rejected why)).
Proof.
  destruct (present (q_type req)).
  - intros H.
    apply bind_inv in H. destruct H as [(a & w1 & H1 & H) | (r & H1 & ->)]; [| discriminate].
    unfold emit in H1. injection H1 as _ <-.
    apply bind_inv in H. destruct H as [(a1 & w1 & H1 & H) | (r & H1 & ->)]; [| discriminate].
    unfold read in H1. injection H1 as <- <-.
    match type of H with (match ?x with _ => _ end) _ = _ => destruct x as [ch |] end.
    + apply bind_inv in H. destruct H as [(a2 & w2 & H1 & H) | (r & H1 & ->)];
        apply check_limits_inv in H1; destruct H1 as [-> [E | [why E]]]; try discriminate.
      * unfold ret in H. injection H as <- <-. eauto.
      * injection E as ->. eauto.
    + unfold reply in H. injection H as <- <-. eauto.
  - unfold ret. intros H. injection H as <- <-. eauto.
Qed.

Lemma unified_fee_inv (req : request) (m : merchant) (w w' : world)
    (res : flow (option Q)) :
  (if present (q_type req)
   then emit EvFeeRate ;;; read (getMerchantFeeRate m (text (q_type req)))
   else ret (Some 0%Q))%handler w = (res, w') ->
  w_db w' = w_db w /\ exists f, res = Next f.
Proof.
  destruct (present (q_type req)); unfold bind, emit, read, ret;
    intros H; injection H as <- <-; eauto.
Qed.

Lemma unified_gate (date_now : Z) (fresh : string) (req : request)
    (sp : list (string * string)) (ip dev : string) (s : db)
    (res : flow create_result) (w : world) :
  run (unified' date_now fresh req sp ip dev) s = (res, w) ->
  ((exists why, res = Reply (Rejected why)) /\ w_db w = s) \/
  (exists m o,
     res = Next o /\
     getMerchantByPid (text (q_pid req)) s = Some m /\
     (present (q_timestamp req) = true ->
      validateTimestamp date_now (as_value (q_timestamp req)) = true) /\
     (if String.eqb (effectiveSignType req) "RSA"
      then present (m_rsa_public_key m)
           && verifySignRSA sp (text (q_sign req)) (text (m_rsa_public_key m))
      else verifySignMD5 sp (text (q_sign req)) (m_api_key m)) = true).
Proof.
  unfold run, unified. intros H.
  do 5 step H.
  all: destruct (getMerchantByPid (text (q_pid req)) s) as [m |] eqn:Em;
    [| prim H; rejected].
  all: apply bind_inv in H; destruct H as [(valid & w1 & H1 & H) | (r & H1 & ->)];
    apply unified_verify_inv in H1; destruct H1 as [Hw1 [[why E1] | E1]];
    flow_eqs; try rejected.
  all: step H.
  all: apply bind_inv in H; destruct H as [(oc & w2 & H1 & H) | (r & H1 & ->)];
    apply unified_channel_inv in H1; destruct H1 as [Hw2 [[och E2] | [why E2]]];
    flow_eqs; try rejected.
  all: apply bind_inv in H; destruct H as [(fr & w3 & H2 & H) | (r & H2 & ->)];
    apply unified_fee_inv in H2; destruct H2 as [Hw3 [f E3]]; flow_eqs.
  all: step_with H store.
  all: step H.
  all: prim H.
  all: right; exists m; eexists; split; [reflexivity |];
    split; [first [exact Em | reflexivity] |]; split;
    [ intros Hp; rewrite Hp in *; cbn [andb] in *; apply negb_false_iff; assumption
    | apply negb_false_iff; assumption ].
Qed.

(** X9: [handleSubmit] and [handleMapi]: every early reply is a rejection
    that has left the store as it was, and the request goes through only
    for an active merchant, with a fresh timestamp when one is sent, and
    a signature over the handler's parameters that verifies by the
    effective sign type: RSA under the merchant's public key, which must
    be there, or MD5 with the api_key. *)
Theorem unified_handlers_act_only_on_verified_requests
    (date_now : Z) (fresh : string) (req : request) (s : db) :
  match run (handleSubmit' date_now fresh req) s with
  | (Reply r, w) => (exists why, r = Rejected why) /\ w_db w = s
  | (Next r, w) =>
      exists m t,
        r = RedirectToCashier t /\
        getMerchantByPid (text (q_pid req)) s = Some m /\
        (present (q_timestamp req) = true ->
         validateTimestamp date_now (as_value (q_timestamp req)) = true) /\
        (if String.eqb (effectiveSignType req) "RSA"
         then present (m_rsa_public_key m)
              && verifySignRSA (handleSubmit_signParams req) (text (q_sign req))
                   (text (m_rsa_public_key m))
         else verifySignMD5 (handleSubmit_signParams req) (text (q_sign req))
                (m_api_key m)) = true
  end /\
  match run (handleMapi' date_now fresh req) s with
  | (Reply r, w) => (exists why, r = Rejected why) /\ w_db w = s
  | (Next r, w) =>
      exists m t p,
        r = MapiReply t p /\
        getMerchantByPid (text (q_pid req)) s = Some m /\
        (present (q_timestamp req) = true ->
         validateTimestamp date_now (as_value (q_timestamp req)) = true) /\
        (if String.eqb (effectiveSignType req) "RSA"
         then present (m_rsa_public_key m)
              && verifySignRSA (handleMapi_signParams req) (text (q_sign req))
                   (text (m_rsa_public_key m))
         else verifySignMD5 (handleMapi_signParams req) (text (q_sign req))
                (m_api_key m)) = true
  end.
Proof.
  split.
  - destruct (run (handleSubmit' date_now fresh req) s) as [res w] eqn:E.
    unfold handleSubmit, run in E.
    apply bind_inv in E. destruct E as [(o & w1 & E1 & E) | (r & E1 & ->)];
      apply (unified_gate date_now fresh req (handleSubmit_signParams req)) in E1;
      destruct E1 as [[[why E1] Hw] | (m & o' & E1 & Hm & Ht & Hv)]; flow_eqs.
    + unfold ret in E. injection E as <- <-. exists m. eexists. auto.
    + split; [eexists; reflexivity | first [exact Hw | reflexivity]].
  - destruct (run (handleMapi' date_now fresh req) s) as [res w] eqn:E.
    unfold handleMapi, run in E.
    apply bind_inv in E. destruct E as [(o & w1 & E1 & E) | (r & E1 & ->)];
      apply (unified_gate date_now fresh req (handleMapi_signParams req)) in E1;
      destruct E1 as [[[why E1] Hw] | (m & o' & E1 & Hm & Ht & Hv)]; flow_eqs.
    + apply bind_inv in E. destruct E as [(u & w2 & E2 & E) | (r & E2 & ->)].
      * unfold ret in E. injection E as <- <-. exists m. eexists _, _. auto.
      * destruct (_ || _) in E2; [unfold write in E2 | unfold ret in E2]; discriminate.
    + split; [eexists; reflexivity | first [exact Hw | reflexivity]].
Qed.

Local Abbreviation v1_order' :=
  (GatewayV1.v1_order verifySignMD5 validateCallbackDomain getMerchantFeeRate).
Local Abbreviation submit_v1 :=
  (GatewayV1.submit verifySignMD5 validateCallbackDomain getMerchantFeeRate).
Local Abbreviation mapi_v1 :=
  (GatewayV1.mapi verifySignMD5 validateCallbackDomain getMerchantFeeRate).

Lemma v1_order_gate (date_now : Z) (fresh : string) (req : request) (s : db)
    (res : flow create_result) (w : world) :
  run (v1_order' date_now fresh req) s = (res, w) ->
  ((exists why, res = Reply (Rejected why)) /\ w_db w = s) \/
  (exists m o,
     res = Next o /\
     getMerchantByPid (text (q_pid req)) s = Some m /\
     verifySignMD5 (GatewayV1.v1_signParams req) (text (q_sign req)) (m_api_key m) = true).
Proof.
  unfold run, GatewayV1.v1_order. intros H.
  do 4 step H.
  all: destruct (getMerchantByPid (text (q_pid req)) s) as [m |] eqn:Em;
    [| prim H; rejected].
  all: do 7 step H.
  all: match type of H with (match ?x with _ => _ end) _ = _ =>
         destruct x as [ch |] eqn:Ec end; [| prim H; rejected].
  all: step_with H limits.
  all: do 2 step H.
  all: step_with H store.
  all: step H.
  all: prim H.
  all: right; exists m; eexists; split; [reflexivity |];
    split; [first [exact Em | reflexivity] |]; apply negb_false_iff; assumption.
Qed.

Lemma v1_order_ignores_sign_type_and_timestamp
    (date_now : Z) (fresh : string) (req : request) (st ts : option string) :
  v1_order' date_now fresh (GatewayV1.with_sign_type_and_timestamp st ts req)
  = v1_order' date_now fresh req.
Proof. reflexivity. Qed.

(** X10: The V1 routes [/submit] and [/mapi] check the MD5 signature with the
    merchant's api_key whatever the request says: every early reply is a
    rejection that has left the store as it was, the request goes through
    only for an active merchant whose api_key verifies the signature, and
    sending another [sign_type] or [timestamp] changes nothing. *)
Theorem v1_routes_always_verify_md5
    (date_now : Z) (fresh : string) (req : request) (s : db) :
  match run (submit_v1 date_now fresh req) s with
  | (Reply r, w) => (exists why, r = Rejected why) /\ w_db w = s
  | (Next r, w) =>
      exists m t,
        r = RedirectToCashier t /\
        getMerchantByPid (text (q_pid req)) s = Some m /\
        verifySignMD5 (GatewayV1.v1_signParams req) (text (q_sign req)) (m_api_key m) = true
  end /\
  match run (mapi_v1 date_now fresh req) s with
  | (Reply r, w) => (exists why, r = Rejected why) /\ w_db w = s
  | (Next t, w) =>
      exists m,
        getMerchantByPid (text (q_pid req)) s = Some m /\
        verifySignMD5 (GatewayV1.v1_signParams req) (text (q_sign req)) (m_api_key m) = true
  end /\
  forall sign_type timestamp,
    run (submit_v1 date_now fresh
           (GatewayV1.with_sign_type_and_timestamp sign_type timestamp req)) s
    = run (submit_v1 date_now fresh req) s /\
    run (mapi_v1 date_now fresh
           (GatewayV1.with_sign_type_and_timestamp sign_type timestamp req)) s
    = run (mapi_v1 date_now fresh req) s.
Proof.
  split; [| split].
  - destruct (run (submit_v1 date_now fresh req) s) as [res w] eqn:E.
    unfold GatewayV1.submit, run in E.
    apply bind_inv in E. destruct E as [(o & w1 & E1 & E) | (r & E1 & ->)];
      apply v1_order_gate in E1;
      destruct E1 as [[[why E1] Hw] | (m & o' & E1 & Hm & Hv)]; flow_eqs.
    + unfold ret in E. injection E as <- <-. exists m. eexists. auto.
    + split; [eexists; reflexivity | first [exact Hw | reflexivity]].
  - destruct (run (mapi_v1 date_now fresh req) s) as [res w] eqn:E.
    unfold GatewayV1.mapi, run in E.
    apply bind_inv in E. destruct E as [(o & w1 & E1 & E) | (r & E1 & ->)];
      apply v1_order_gate in E1;
      destruct E1 as [[[why E1] Hw] | (m & o' & E1 & Hm & Hv)]; flow_eqs.
    + unfold ret in E. injection E as <- <-. exists m. auto.
    + split; [eexists; reflexivity | first [exact Hw | reflexivity]].
  - intros st ts. unfold GatewayV1.submit, GatewayV1.mapi.
    rewrite v1_order_ignores_sign_type_and_timestamp. split; reflexivity.
Qed.

End SignatureGate.

Section RouteChecks.
Import JS Fee Channel Store Gateway Query Routes Scenarios.

Variable verifySignRSA verifySignMD5 : list (string * string) -> string -> string -> bool.
Variable validateCallbackDomain : Z -> string -> db -> option string.
Variable getMerchantFeeRate : merchant -> string -> db -> option Q.
Variable create_channel_by_id unified_channel_by_id : string -> db -> option channel.

Local Abbreviation create' :=
  (create verifySignRSA verifySignMD5 validateCallbackDomain getMerchantFeeRate
          create_channel_by_id).
Local Abbreviation handleSubmit' :=
  (handleSubmit verifySignRSA verifySignMD5 getMerchantFeeRate unified_channel_by_id).
Local Abbreviation handleMapi' :=
  (handleMapi verifySignRSA verifySignMD5 getMerchantFeeRate unified_channel_by_id).
Local Abbreviation unified_verify' := (unified_verify verifySignRSA verifySignMD5).
Local Abbreviation create_verify' := (create_verify verifySignRSA verifySignMD5).
Local Abbreviation v1_order' :=
  (GatewayV1.v1_order verifySignMD5 validateCallbackDomain getMerchantFeeRate).
Local Abbreviation submit_v1 :=
  (GatewayV1.submit verifySignMD5 validateCallbackDomain getMerchantFeeRate).
Local Abbreviation mapi_v1 :=
  (GatewayV1.mapi verifySignMD5 validateCallbackDomain getMerchantFeeRate).
Local Abbreviation query_v1' := (query_v1 verifySignMD5).
Local Abbreviation query_v2' := (query_v2 verifySignRSA verifySignMD5).
Local Abbreviation handleQuery' := (handleQuery verifySignRSA verifySignMD5).
Local Abbreviation api_php' := (api_php verifySignRSA verifySignMD5).

(** Which handler serves which path: the V1 handlers, registered first,
    take [/submit], [/mapi] and [/query]; the unified handlers are left
    with [/submit.php], [/mapi.php] and, through [/api.php], the query. *)
Lemma routes_served :
  route "/submit" = Some V1Submit /\ route "/mapi" = Some V1Mapi /\
  route "/query" = Some V1Query /\
  route "/create" = Some Create /\ route "/v2/query" = Some V2Query /\
  route "/submit.php" = Some HandleSubmit /\ route "/mapi.php" = Some HandleMapi /\
  route "/api.php" = Some ApiPhp /\
  (forall path, route path <> Some HandleQuery).
Proof.
  repeat (split; [reflexivity |]).
  intros path. unfold route, registrations. cbn [find fst snd].
  repeat match goal with
         | |- context [if String.eqb ?a path then _ else _] =>
             destruct (String.eqb a path); cbn [find fst snd option_map]
         end; discriminate.
Qed.

Lemma query_params_present_split (q : query_request) :
  query_params_present q = true ->
  negb (present (k_pid q)) || negb (present (k_sign q)) = false /\
  negb (present (k_trade_no q)) && negb (present (k_out_trade_no q)) = false.
Proof.
  unfold query_params_present.
  destruct (present (k_pid q)), (present (k_sign q)), (present (k_trade_no q)),
    (present (k_out_trade_no q)); simpl; intros H; try discriminate; split; reflexivity.
Qed.

Lemma handleQuery_rsa_key_missing (date_now : Z) (q : query_request) (s : db) (m : merchant) :
  query_reaches_signature_check date_now q s m ->
  query_effectiveSignType q = "RSA" ->
  present (m_rsa_public_key m) = false ->
  handleQuery' date_now q s = QueryError QRsaKeyMissing.
Proof.
  intros [Hp [Ht Hm]] He Hk.
  destruct (query_params_present_split _ Hp) as [H1 H2].
  unfold handleQuery. rewrite H1, H2.
  assert (Hts : present (k_timestamp q)
                && negb (validateTimestamp date_now (as_value (k_timestamp q))) = false).
  { destruct (present (k_timestamp q)); [rewrite Ht; reflexivity | reflexivity]. }
  rewrite Hts, Hm.
  unfold query_effectiveSignType in He. rewrite He, Hk. reflexivity.
Qed.

Lemma query_v2_without_key (date_now : Z) (q : query_request) (s : db) (m : merchant) :
  query_reaches_signature_check date_now q s m ->
  present (k_timestamp q) = true ->
  present (m_rsa_public_key m) = false ->
  query_v2' date_now q s
  = if verifySignMD5 (query_v2_signParams q) (text (k_sign q)) (m_api_key m)
    then match orders_of_merchant (m_user_id m) q s with
         | [] => QueryError QOrderNotFound
         | order :: _ => QueryOk order (status_field statusMap_names (o_status order))
         end
    else QueryError QSignatureInvalid.
Proof.
  intros [Hp [Ht Hm]] Hts Hk.
  destruct (query_params_present_split _ Hp) as [H1 H2].
  unfold query_v2, getMerchant. rewrite Hts, (Ht Hts), Hm, Hk.
  apply orb_false_iff in H1. destruct H1 as [H1a H1b]. rewrite H1a, H1b, H2. simpl.
  destruct (verifySignMD5 _ _ _); reflexivity.
Qed.

Lemma v1_order_verifies_md5 (date_now : Z) (fresh : string) (req : request) (s : db)
    (o : create_result) (w : world) :
  run (v1_order' date_now fresh req) s = (Next o, w) ->
  exists m,
    getMerchantByPid (text (q_pid req)) s = Some m /\
    verifySignMD5 (GatewayV1.v1_signParams req) (text (q_sign req)) (m_api_key m) = true.
Proof.
  intros H. apply v1_order_gate in H.
  destruct H as [[[why H] _] | (m & o' & _ & Hm & Hv)]; [discriminate H |].
  exists m. split; assumption.
Qed.


Lemma query_stale (date_now : Z) (q : query_request) (s : db) :
  query_params_present q = true ->
  present (k_timestamp q) = true ->
  validateTimestamp date_now (as_value (k_timestamp q)) = false ->
  query_v2' date_now q s = QueryError QTimestampExpired /\
  handleQuery' date_now q s = QueryError QTimestampExpired.
Proof.
  intros Hp Hts Hv.
  destruct (query_params_present_split _ Hp) as [H1 H2].
  unfold query_v2, handleQuery. rewrite H1, H2, Hts, Hv. split; reflexivity.
Qed.

Lemma query_stale_any (date_now : Z) (q : query_request) (s : db) :
  present (k_timestamp q) = true ->
  validateTimestamp date_now (as_value (k_timestamp q)) = false ->
  (exists e, query_v2' date_now q s = QueryError e /\
             (e = QMissingParams \/ e = QNoOrderNumber \/ e = QTimestampExpired)) /\
  (exists e, handleQuery' date_now q s = QueryError e /\
             (e = QMissingParams \/ e = QNoOrderNumber \/ e = QTimestampExpired)).
Proof.
  intros Hts Hv. unfold query_v2, handleQuery. rewrite Hts, Hv.
  destruct (present (k_pid q)), (present (k_sign q)), (present (k_trade_no q)),
    (present (k_out_trade_no q)); simpl; split; eexists; split; try reflexivity; auto.
Qed.


End RouteChecks.

Section RouteScenarios.
Import JS Fee Channel Store Gateway Codec Query Routes Scenarios.




End RouteScenarios.

Section ChannelChoice.
Import JS Fee Channel Store Gateway OrderTable.

Lemma greatest_priority_spec (rows : list channel) (best : option channel) :
  match greatest_priority rows best with
  | Some c =>
      (In c rows \/ best = Some c) /\
      (forall c', In c' rows \/ best = Some c' -> ch_priority c' <= ch_priority c)
  | None => rows = [] /\ best = None
  end.
Proof.
  revert best. induction rows as [| r rows IH]; intros best; simpl.
  - destruct best as [b |]; [| auto].
    split; [auto |]. intros c' [[] | E]. injection E as <-. lia.
  - specialize (IH (match best with
                    | Some b => if ch_priority b <? ch_priority r then Some r else best
                    | None => Some r
                    end)).
    destruct (greatest_priority rows _) as [c |].
    + destruct IH as [Hin Hmax]. split.
      * destruct Hin as [Hin | Hb]; [left; right; exact Hin |].
        destruct best as [b |].
        -- destruct (ch_priority b <? ch_priority r); injection Hb as <-; auto.
        -- injection Hb as <-. left. left. reflexivity.
      * intros c' [[E0 | Hin'] | Hb'].
        -- subst c'. destruct best as [b |].
           ++ destruct (ch_priority b <? ch_priority r) eqn:E.
              ** apply Hmax. right. reflexivity.
              ** apply Z.ltb_ge in E.
                 specialize (Hmax b (or_intror eq_refl)). lia.
           ++ apply Hmax. right. reflexivity.
        -- apply Hmax. left. exact Hin'.
        -- subst best. destruct (ch_priority c' <? ch_priority r) eqn:E.
           ++ apply Z.ltb_lt in E. specialize (Hmax r (or_intror eq_refl)). lia.
           ++ apply Hmax. right. reflexivity.
    + destruct IH as [_ Hb]. destruct best as [b |]; [| discriminate].
      destruct (ch_priority b <? ch_priority r); discriminate.
Qed.

(** X11: [getChannel(type)] answers with a channel of the table that lists the
    pay type, is enabled and is not deleted, and no such channel has a
    greater priority; it answers with nothing exactly when the table has
    no such channel. *)
Theorem getChannel_answers_best_serving_channel (type : string) (s : db) :
  match getChannel type s with
  | Some c =>
      In c (channels s) /\ serves type c = true /\
      forall c', In c' (channels s) -> serves type c' = true ->
                 ch_priority c' <= ch_priority c
  | None => forall c', In c' (channels s) -> serves type c' = false
  end.
Proof.
  unfold getChannel.
  pose proof (greatest_priority_spec
                (filter (fun c => serves type c) (channels s)) None) as H.
  change (filter (fun c => find_in_set type (ch_pay_type c) && (ch_status c =? 1)
                           && match ch_is_deleted c with Some d => d =? 0 | None => true end)
                 (channels s))
    with (filter (fun c => serves type c) (channels s)).
  destruct (greatest_priority _ None) as [c |].
  - destruct H as [[Hin | Hb] Hmax]; [| discriminate].
    apply filter_In in Hin. destruct Hin as [Hin Hs].
    split; [exact Hin |]. split; [exact Hs |].
    intros c' Hin' Hs'. apply Hmax. left. apply filter_In. auto.
  - destruct H as [Hnil _]. intros c' Hin'.
    destruct (serves type c') eqn:Hs; [| reflexivity].
    assert (Hf : In c' (filter (fun c => serves type c) (channels s)))
      by (apply filter_In; auto).
    rewrite Hnil in Hf. contradiction.
Qed.

End ChannelChoice.
Section OrderTableInvariants.
Import JS Fee Channel Store Gateway OrderTable.

Lemma nth_error_update (k : Z) (f : order -> order) (s : db) (i : nat) :
  nth_error (orders (update_order_where_id k f s)) i
  = option_map (fun o => if o_id o =? k then f o else o) (nth_error (orders s) i).
Proof. unfold update_order_where_id. simpl. apply nth_error_map. Qed.

Lemma record_of_fields (a b : order) :
  record_of a = record_of b ->
  o_id a = o_id b /\ o_merchant_id a = o_merchant_id b /\
  o_out_trade_no a = o_out_trade_no b /\ o_status a = o_status b.
Proof. unfold record_of. intros H. injection H as; auto. Qed.

Lemma update_keeps_ids (k : Z) (f : order -> order) (s : db) :
  (forall o, record_of (f o) = record_of o) ->
  map o_id (orders (update_order_where_id k f s)) = map o_id (orders s).
Proof.
  intros Hf. unfold update_order_where_id. simpl. rewrite map_map.
  apply map_ext. intros o. destruct (o_id o =? k); [| reflexivity].
  apply (record_of_fields _ _ (Hf o)).
Qed.

(** An update in place that leaves the record columns alone keeps the
    table well formed. *)
Lemma update_keeps_table_ok (k : Z) (f : order -> order) (s : db) :
  (forall o, record_of (f o) = record_of o) ->
  table_ok s -> table_ok (update_order_where_id k f s).
Proof.
  intros Hf (Hu & Hb & Hp).
  assert (Hg : forall o, record_of (if o_id o =? k then f o else o) = record_of o)
    by (intros o; destruct (o_id o =? k); [apply Hf | reflexivity]).
  split; [| split].
  - unfold ids_unique. rewrite update_keeps_ids by exact Hf. exact Hu.
  - intros o' Hin. unfold update_order_where_id in Hin. simpl in Hin.
    apply in_map_iff in Hin. destruct Hin as [o [<- Hin]].
    destruct (record_of_fields _ _ (Hg o)) as [-> _].
    exact (Hb o Hin).
  - intros i j a b Ha Hb' Hsa Hsb Hm Ho.
    rewrite nth_error_update in Ha, Hb'.
    destruct (nth_error (orders s) i) as [a0 |] eqn:Ea; [| discriminate].
    destruct (nth_error (orders s) j) as [b0 |] eqn:Eb; [| discriminate].
    simpl in Ha, Hb'. injection Ha as <-. injection Hb' as <-.
    destruct (record_of_fields _ _ (Hg a0)) as (_ & Ha1 & Ha2 & Ha3).
    destruct (record_of_fields _ _ (Hg b0)) as (_ & Hb1 & Hb2 & Hb3).
    apply (Hp i j a0 b0 Ea Eb); congruence.
Qed.

Lemma no_pending_order (mid : Z) (otn : string) (s : db) (o : order) :
  existing_pending_order mid otn s = None ->
  In o (orders s) -> is_pending_for mid otn o = false.
Proof.
  intros E Hin. apply existing_pending_order_none in E.
  destruct (is_pending_for mid otn o) eqn:Hp; [| reflexivity].
  assert (H : In o (filter (is_pending_for mid otn) (orders s)))
    by (apply filter_In; auto).
  rewrite E in H. contradiction.
Qed.

Lemma is_pending_for_iff (mid : Z) (otn : string) (o : order) :
  is_pending_for mid otn o = true <->
  o_merchant_id o = mid /\ o_out_trade_no o = otn /\ o_status o = 0.
Proof.
  unfold is_pending_for. rewrite !andb_true_iff, !Z.eqb_eq, String.eqb_eq. tauto.
Qed.

(** X12: The well-formedness of the orders table (unique ids, all below the
    next AUTO_INCREMENT value, at most one pending order for a merchant
    and an out-trade-no) is kept by a call of [createOrder] that runs
    alone. *)
Theorem createOrder_keeps_table_ok (now : Z) (d : order_data) (s : db) :
  table_ok s -> table_ok (snd (createOrder now d s)).
Proof.
  intros Hok.
  destruct (existing_pending_order (merchantId d) (outTradeNo d) s) as [e |] eqn:E.
  - rewrite (createOrder_reuse now d s e E). simpl.
    apply update_keeps_table_ok; [reflexivity | exact Hok].
  - rewrite (createOrder_insert now d s E). simpl.
    destruct Hok as (Hu & Hb & Hp).
    set (row := inserted_row _ _ _ _ _).
    split; [| split].
    + unfold ids_unique. simpl. rewrite map_app. simpl.
      apply NoDup_app; [exact Hu | repeat constructor; intros [] |].
      intros x Hx [<- | []]. apply in_map_iff in Hx.
      destruct Hx as [o [Ho Hin]]. specialize (Hb o Hin). simpl in Ho. lia.
    + intros o Hin. simpl in Hin |- *. apply in_app_iff in Hin.
      destruct Hin as [Hin | [<- | []]]; [specialize (Hb o Hin); lia | simpl; lia].
    + assert (Hnew : forall i a, nth_error (orders s ++ [row]) i = Some a ->
                nth_error (orders s) i = Some a \/
                (i = List.length (orders s) /\ a = row)).
      { intros i a Ha. destruct (Nat.lt_ge_cases i (List.length (orders s))) as [Hi | Hi].
        - left. rewrite nth_error_app1 in Ha by exact Hi. exact Ha.
        - right. rewrite nth_error_app2 in Ha by exact Hi.
          destruct (i - List.length (orders s))%nat as [| n] eqn:En; simpl in Ha.
          + injection Ha as <-. split; [lia | reflexivity].
          + destruct n; discriminate. }
      assert (Hfresh : forall i a, nth_error (orders s) i = Some a ->
                o_status a = 0 -> o_merchant_id a = merchantId d ->
                o_out_trade_no a = outTradeNo d -> False).
      { intros i a Ha H1 H2 H3.
        pose proof (no_pending_order _ _ s a E (nth_error_In _ _ Ha)) as Hn.
        assert (Ht : is_pending_for (merchantId d) (outTradeNo d) a = true)
          by (apply is_pending_for_iff; auto).
        congruence. }
      intros i j a b Ha Hb' Hsa Hsb Hm Ho. simpl in Ha, Hb'.
      destruct (Hnew i a Ha) as [Ha' | [-> ->]];
        destruct (Hnew j b Hb') as [Hb'' | [-> ->]].
      * exact (Hp i j a b Ha' Hb'' Hsa Hsb Hm Ho).
      * exfalso. apply (Hfresh i a Ha' Hsa); [rewrite Hm | rewrite Ho]; reflexivity.
      * exfalso. apply (Hfresh j b Hb'' Hsb); [rewrite <- Hm | rewrite <- Ho]; reflexivity.
      * reflexivity.
Qed.

Lemma createOrder_keeps_table_ok_witness :
  let s := mkDb [] [] [] [] [] 1 in
  let d := mkOrderData 7 (Some 1) "T1" "A-100" "alipay" "book" 10 "" "pc"
             "https://m/notify" "" (Some (3 # 100)) "merchant" None None None in
  table_ok s /\ table_ok (snd (createOrder 1 d s)).
Proof.
  intros s d.
  assert (H : table_ok s).
  { split; [constructor | split].
    - intros o [].
    - intros i j a b Ha. destruct i; discriminate. }
  split; [exact H | exact (createOrder_keeps_table_ok 1 d s H)].
Defined.

(** X14: A resubmission keeps the amount of the pending order it reuses and
    takes the fee from the amount of the new request: the reused row
    carries [money] of the first submission with [fee_money] and
    [real_money] computed from [money] of the second. *)
Theorem reused_order_keeps_its_amount
    (now : Z) (d : order_data) (s : db) (e : order) :
  existing_pending_order (merchantId d) (outTradeNo d) s = Some e ->
  exists row,
    In row (orders (snd (createOrder now d s))) /\
    o_id row = o_id e /\
    o_trade_no row = o_trade_no e /\
    o_name row = o_name e /\
    o_money row = o_money e /\
    o_fee_money row = feeMoney (money d) (feeRate d) /\
    o_real_money row
    = realMoney (money d) (feeMoney (money d) (feeRate d)) (feePayer d).
Proof.
  intros E. rewrite (createOrder_reuse now d s e E). simpl snd.
  destruct (existing_pending_order_found _ _ _ _ E) as (Hin & _).
  eexists. split; [apply in_update_order_where_id; [exact Hin | reflexivity] |].
  simpl. repeat split; reflexivity.
Qed.

Lemma reused_order_keeps_its_amount_witness :
  let d1 := mkOrderData 7 (Some 1) "T1" "A-100" "alipay" "book" 10 "" "pc"
              "https://m/notify" "" (Some (3 # 100)) "merchant" None None None in
  let d2 := mkOrderData 7 (Some 2) "T2" "A-100" "wxpay" "pen" 1000 "" "pc"
              "https://m/notify2" "" (Some (3 # 100)) "merchant" None None None in
  let s := snd (createOrder 1 d1 (mkDb [] [] [] [] [] 1)) in
  exists row,
    In row (orders (snd (createOrder 2 d2 s))) /\
    o_money row == 10 /\ o_fee_money row == 30.
Proof.
  intros d1 d2 s.
  destruct (reused_order_keeps_its_amount 2 d2 s
              (inserted_row 1 1 d1 (feeMoney 10 (Some (3 # 100)))
                 (realMoney 10 (feeMoney 10 (Some (3 # 100))) "merchant")) eq_refl)
    as (row & Hin & _ & _ & _ & Hm & Hf & _).
  exists row. split; [exact Hin |]. rewrite Hm, Hf. split; vm_compute; reflexivity.
Defined.

Lemma update_one_row (k : Z) (f : order -> order) (s : db) (target : order) :
  ids_unique s -> In target (orders s) -> o_id target = k ->
  (forall o, record_of (f o) = record_of o) ->
  forall i o,
    nth_error (orders s) i = Some o ->
    exists o',
      nth_error (orders (update_order_where_id k f s)) i = Some o' /\
      record_of o' = record_of o /\
      (o' = o \/ (o = target /\ o' = f target)).
Proof.
  intros Hu Hin Hk Hf i o Hi. rewrite nth_error_update, Hi. simpl.
  eexists. split; [reflexivity |].
  destruct (o_id o =? k) eqn:E.
  - apply Z.eqb_eq in E.
    assert (o = target)
      by (apply (ids_unique_same_row s); auto; [eapply nth_error_In; eassumption | congruence]).
    subst o. split; [apply Hf | right; auto].
  - split; [reflexivity | left; reflexivity].
Qed.

End OrderTableInvariants.

Section StatementFacts.
Import JS Fee Channel Store Gateway Settlement OrderTable Statements.

Variable fr : option merchant -> string -> db -> option Q.

Local Abbreviation statement' := (statement fr).
Local Abbreviation alone' := (alone fr).

(** The routes as functions of the store are the calls served alone. *)
Lemma dopay_alone (r : Q) (t p : option string) (g : option Z) (s : db) :
  alone' (Dopay r t p g) s
  = (DopayDone (fst (dopay fr r t p g s)), snd (dopay fr r t p g s)).
Proof.
  unfold alone, dopay. simpl.
  destruct (negb (present t)); [reflexivity |].
  destruct (orders_by_trade_no (text t) s) as [| order rest]; [reflexivity |].
  destruct (negb (o_status order =? 0)); [reflexivity |].
  destruct (channel_locked order).
  - simpl. destruct (channels_by_id _ s); reflexivity.
  - destruct (String.eqb _ ""); [reflexivity |].
    simpl. destruct (selectChannelFromGroup _ _ _ _ _); reflexivity.
Qed.

Lemma select_channel_alone (t p : option string) (s : db) :
  alone' (SelectChannel t p) s
  = (SelectDone (fst (select_channel t p s)), snd (select_channel t p s)).
Proof.
  unfold alone, select_channel. simpl.
  destruct (negb (present t)); [reflexivity |].
  destruct (negb (present p)); [reflexivity |].
  destruct (orders_by_trade_no (text t) s) as [| order rest]; [reflexivity |].
  destruct (negb (o_status order =? 0)); reflexivity.
Qed.

Lemma createOrder_alone (now : Z) (d : order_data) (s : db) :
  alone' (CreateOrder now d) s
  = (CreateDone (fst (createOrder now d s)), snd (createOrder now d s)).
Proof.
  unfold alone, createOrder. simpl.
  destruct (existing_pending_order _ _ s); reflexivity.
Qed.


(** ** What one statement does to the store *)

Lemma update_keeps_columns {A} (cols : order -> A) (k : Z) (f : order -> order) (s : db) :
  (forall o, cols (f o) = cols o) ->
  map cols (orders (update_order_where_id k f s)) = map cols (orders s).
Proof.
  intros Hf. unfold update_order_where_id. simpl. rewrite map_map.
  apply map_ext. intros o. destruct (o_id o =? k); [apply Hf | reflexivity].
Qed.

Ltac decide_statement H :=
  simpl in H;
  repeat match type of H with
         | context [match ?x with _ => _ end] => destruct x eqn:?
         end;
  try discriminate H;
  inversion H; subst; clear H; simpl.

(** A statement of a payment callback leaves the ids, channels,
    merchants and out-trade-nos of the orders as they are. *)
Lemma callback_keeps_lock_columns (me : nat) (d : delivery) (p p' : pc) (h h' : shared) :
  step me d p h = Some (p', h') ->
  map lock_columns (orders (store h')) = map lock_columns (orders (store h)) /\
  next_order_id (store h') = next_order_id (store h).
Proof.
  intros H. destruct p; decide_statement H; split; try reflexivity;
    try (apply update_keeps_columns; reflexivity).
Qed.

(** What a statement of a call does to the store: nothing, an UPDATE of
    the row it has in hand that keeps the record columns, or the INSERT of
    [createOrder]. *)
Lemma statement_effect (q : call) (p p' : point) (s s' : db) :
  statement' q p s = Some (p', s') ->
  s' = s \/
  (exists h f, row_in_hand p = Some h /\
               s' = update_order_where_id (o_id h) f s /\
               (forall o, record_of (f o) = record_of o) /\
               (writes_channel p = false -> forall o, o_channel_id (f o) = o_channel_id o)) \/
  (exists now d fee real,
     q = CreateOrder now d /\ p = CreateWrite None /\
     s' = mkDb (orders s ++ [inserted_row (next_order_id s) now d fee real])
               (merchants s) (channels s) (pay_groups s) (channel_groups s)
               (next_order_id s + 1)).
Proof.
  intros H. destruct q, p; decide_statement H; auto.
  - right. left. do 2 eexists. split; [reflexivity |]. split; [reflexivity |].
    split; [reflexivity | discriminate].
  - right. left. do 2 eexists. split; [reflexivity |]. split; [reflexivity |].
    split; reflexivity.
  - right. left. do 2 eexists. split; [reflexivity |]. split; [reflexivity |].
    split; [reflexivity | discriminate].
  - right. right. do 4 eexists. split; [reflexivity |]. split; reflexivity.
Qed.


Lemma lock_columns_fields (a b : order) :
  lock_columns a = lock_columns b ->
  o_id a = o_id b /\ o_channel_id a = o_channel_id b /\
  o_merchant_id a = o_merchant_id b /\ o_out_trade_no a = o_out_trade_no b.
Proof. unfold lock_columns. intros H. injection H as; auto. Qed.

Lemma record_keeps_lock_columns (f : order -> order) :
  (forall o, record_of (f o) = record_of o) ->
  (forall o, o_channel_id (f o) = o_channel_id o) ->
  forall o, lock_columns (f o) = lock_columns o.
Proof.
  intros Hr Hc o. unfold lock_columns.
  destruct (record_of_fields _ _ (Hr o)) as (-> & -> & -> & _).
  rewrite Hc. reflexivity.
Qed.

Lemma ids_of_lock_columns (rows : list order) :
  map o_id rows = map (fun x : Z * option Z * Z * string => fst (fst (fst x)))
                      (map lock_columns rows).
Proof. rewrite map_map. reflexivity. Qed.

(** The row of a given id is the row that holds the channel. *)
Lemma holds_channel_row (i : nat) (o x : order) (s : db) :
  ids_unique s -> holds_channel i o s -> In x (orders s) -> o_id x = o_id o ->
  lock_columns x = lock_columns o.
Proof.
  intros Hu (o' & Hi & Hc) Hx Hid.
  assert (x = o').
  { apply (ids_unique_same_row s); auto; [eapply nth_error_In; eassumption |].
    destruct (lock_columns_fields _ _ Hc) as (-> & _). exact Hid. }
  subst x. exact Hc.
Qed.

(** The store part of [channel_safe] is kept by any change that leaves
    the lock columns of the rows alone. *)
Lemma same_lock_columns_safe (i : nat) (o : order) (s s' : db) :
  map lock_columns (orders s') = map lock_columns (orders s) ->
  next_order_id s' = next_order_id s ->
  ids_unique s /\ ids_below_next s /\ holds_channel i o s ->
  ids_unique s' /\ ids_below_next s' /\ holds_channel i o s'.
Proof.
  intros Hm Hn (Hu & Hb & (o' & Hi & Hc)).
  split; [| split].
  - unfold ids_unique in *. rewrite ids_of_lock_columns, Hm, <- ids_of_lock_columns. exact Hu.
  - intros x Hx. rewrite Hn.
    assert (Hin : In (o_id x) (map o_id (orders s))).
    { rewrite ids_of_lock_columns, <- Hm, <- ids_of_lock_columns. apply in_map. exact Hx. }
    apply in_map_iff in Hin. destruct Hin as (y & <- & Hy). apply Hb. exact Hy.
  - assert (H : nth_error (map lock_columns (orders s')) i = Some (lock_columns o')).
    { rewrite Hm, nth_error_map, Hi. reflexivity. }
    rewrite nth_error_map in H.
    destruct (nth_error (orders s') i) as [o'' |] eqn:Ei; [| discriminate].
    cbn [option_map] in H. exists o''. split; [exact Ei | congruence].
Qed.

Lemma channel_locked_of_columns (a b : order) :
  lock_columns a = lock_columns b -> channel_locked a = channel_locked b.
Proof.
  intros H. destruct (lock_columns_fields _ _ H) as (_ & Hc & _).
  unfold channel_locked. rewrite Hc. reflexivity.
Qed.

Section ChannelSafe.
Variable qs : list call.
Variable i : nat.
Variable o : order.
Hypothesis o_locked : channel_locked o = true.
Hypothesis no_resubmission : forall j q, nth_error qs j = Some q -> ~ resubmits o q.

Lemma statement_keeps_store_safe (q : call) (p p' : point) (s s' : db) :
  statement' q p s = Some (p', s') ->
  leaves_channel_of (o_id o) p ->
  ids_unique s /\ ids_below_next s /\ holds_channel i o s ->
  ids_unique s' /\ ids_below_next s' /\ holds_channel i o s'.
Proof.
  intros H Hp Hs.
  destruct (statement_effect q p p' s s' H)
    as [-> | [(h & f & Hh & -> & Hr & Hc) | (now & d & fee & real & -> & -> & ->)]];
    [exact Hs | |].
  - destruct Hs as (Hu & Hb & (o' & Hi & Ho')).
    split; [| split].
    + unfold ids_unique. rewrite update_keeps_ids by exact Hr. exact Hu.
    + intros x Hx. unfold update_order_where_id in Hx. simpl in Hx.
      apply in_map_iff in Hx. destruct Hx as (y & <- & Hy). simpl.
      assert (E : o_id (if o_id y =? o_id h then f y else y) = o_id y).
      { destruct (o_id y =? o_id h); [| reflexivity].
        apply (record_of_fields _ _ (Hr y)). }
      rewrite E. apply Hb. exact Hy.
    + unfold holds_channel. rewrite nth_error_update, Hi. simpl. eexists. split; [reflexivity |].
      destruct (o_id o' =? o_id h) eqn:E; [| exact Ho'].
      apply Z.eqb_eq in E. rewrite <- Ho'.
      destruct (writes_channel p) eqn:Ew.
      * exfalso. destruct (lock_columns_fields _ _ Ho') as (Hid & _).
        destruct p; try discriminate Ew; simpl in Hh, Hp.
        -- injection Hh as <-. apply Hp. congruence.
        -- destruct existingOrders; [| discriminate]. injection Hh as <-.
           apply Hp. congruence.
      * apply record_keeps_lock_columns; auto.
  - destruct Hs as (Hu & Hb & (o' & Hi & Ho')).
    split; [| split].
    + unfold ids_unique. simpl. rewrite map_app. simpl.
      apply NoDup_app; [exact Hu | repeat constructor; intros [] |].
      intros x Hx [<- | []]. apply in_map_iff in Hx.
      destruct Hx as (y & Hy & Hin). specialize (Hb y Hin). simpl in Hy. lia.
    + intros x Hx. simpl in Hx |- *. apply in_app_iff in Hx.
      destruct Hx as [Hx | [<- | []]]; [specialize (Hb x Hx); lia | simpl; lia].
    + exists o'. split; [| exact Ho']. simpl.
      rewrite nth_error_app1; [exact Hi |].
      apply nth_error_Some. congruence.
Qed.

Lemma statement_keeps_point_safe (j : nat) (q : call) (p p' : point) (s s' : db) :
  nth_error qs j = Some q ->
  statement' q p s = Some (p', s') ->
  leaves_channel_of (o_id o) p ->
  ids_unique s -> holds_channel i o s ->
  leaves_channel_of (o_id o) p'.
Proof.
  intros Hq H Hp Hu Hh.
  destruct q, p; decide_statement H; auto.
  (* the order read by /dopay carries no channel *)
  1, 2: intros E;
    match goal with
    | Ho : orders_by_trade_no _ _ = ?x :: _ |- _ =>
        destruct (orders_by_trade_no_head _ _ _ _ Ho) as [Hin _];
        pose proof (holds_channel_row i o x _ Hu Hh Hin E) as Hc;
        apply channel_locked_of_columns in Hc
    end;
    congruence.
  (* the pending order found by createOrder *)
  match goal with
  | |- match ?e with Some _ => _ | None => _ end => destruct e as [e0 |] eqn:Ee
  end; [| exact I].
  intros E.
  destruct (existing_pending_order_found _ _ _ _ Ee) as (Hin & Hm & Ho & _).
  pose proof (holds_channel_row i o e0 _ Hu Hh Hin E) as Hc.
  destruct (lock_columns_fields _ _ Hc) as (_ & _ & Hm' & Ho').
  apply (no_resubmission j _ Hq). simpl. split; congruence.
Qed.

Lemma interleave_keeps_channel_safe (c c' : system) :
  channel_safe i o c -> interleave fr qs c c' -> channel_safe i o c'.
Proof.
  intros (Hu & Hb & Hh & Hp) Hstep.
  destruct Hstep as [j q p p' c s' Hq Hj H | me d p p' h h' c Hs H].
  - destruct (statement_keeps_store_safe q p p' _ s' H (Hp j p Hj) (conj Hu (conj Hb Hh)))
      as (Hu' & Hb' & Hh').
    split; [exact Hu' |]. split; [exact Hb' |]. split; [exact Hh' |].
    simpl. intros k x Hk.
    destruct (Nat.eq_dec k j) as [-> | Hne].
    + rewrite (nth_error_set_nth_same _ _ _ _ Hj) in Hk. injection Hk as <-.
      eapply statement_keeps_point_safe; eauto.
    + rewrite nth_error_set_nth_other in Hk by exact Hne. eauto.
  - destruct (callback_keeps_lock_columns _ _ _ _ _ _ H) as [Hm Hn].
    rewrite Hs in Hm, Hn.
    destruct (same_lock_columns_safe i o _ _ Hm Hn (conj Hu (conj Hb Hh))) as (Hu' & Hb' & Hh').
    split; [exact Hu' |]. split; [exact Hb' |]. split; [exact Hh' |]. exact Hp.
Qed.

Lemma interleaving_keeps_channel_safe (c c' : system) :
  interleaving fr qs c c' -> channel_safe i o c -> channel_safe i o c'.
Proof.
  induction 1 as [c | c1 c2 c3 H12 _ IH]; intros Hs; [exact Hs |].
  apply IH. eapply interleave_keeps_channel_safe; eauto.
Qed.

End ChannelSafe.


Lemma run_schedule_sound (qs : list call) (schedule : list nat) :
  forall c c', run_schedule fr qs schedule c = Some c' -> interleaving fr qs c c'.
Proof.
  induction schedule as [| i rest IH]; intros c c' H; simpl in H.
  - injection H as <-. constructor.
  - destruct (nth_error qs i) as [q |] eqn:Eq; [| discriminate].
    destruct (nth_error (points c) i) as [p |] eqn:Ep; [| discriminate].
    destruct (statement' q p (sys_store c)) as [[p' s'] |] eqn:Es; [| discriminate].
    eapply InterleavingCons; [| apply IH; exact H].
    eapply CallStep; eassumption.
Qed.

(** A dispatch that reads an order with a channel goes on with that
    channel and writes nothing, whatever the store has become when it
    reads the channel. *)
Lemma dopay_reads_stored_channel (r : Q) (t p : option string) (g : option Z) (s : db)
    (x : order) (rest : list order) :
  orders_by_trade_no (text t) s = x :: rest ->
  channel_locked x = true ->
  (exists p1, statement' (Dopay r t p g) Start s = Some (p1, s) /\
              (p1 = DopayChannel x \/ exists e, p1 = DopayDone (DopayRejected e))) /\
  forall s1, exists out,
    statement' (Dopay r t p g) (DopayChannel x) s1 = Some (DopayDone out, s1) /\
    ((exists e, out = DopayRejected e) \/
     exists ch, out = Dispatch x ch (o_pay_type x) /\ o_channel_id x = Some (ch_id ch)).
Proof.
  intros Ho Hl. split.
  - simpl. rewrite Ho, Hl.
    destruct (negb (present t)); [eexists; split; [reflexivity | right; eexists; reflexivity] |].
    destruct (negb (o_status x =? 0));
      [eexists; split; [reflexivity | right; eexists; reflexivity] |].
    eexists. split; [reflexivity | left; reflexivity].
  - intros s1. simpl.
    unfold channel_locked in Hl. destruct (o_channel_id x) as [cid |] eqn:Ec; [| discriminate].
    destruct (channels_by_id cid s1) as [| ch chs] eqn:Ech.
    + eexists. split; [reflexivity | left; eexists; reflexivity].
    + eexists. split; [reflexivity |]. right. exists ch. split; [reflexivity |].
      assert (Hin : In ch (channels_by_id cid s1)) by (rewrite Ech; left; reflexivity).
      apply filter_In in Hin. destruct Hin as [_ Hid]. apply Z.eqb_eq in Hid.
      congruence.
Qed.

(** C4 (amended): once an order carries a channel, that channel stays
    through every interleaving of the statements of dispatches, pay-type
    selections, payment callbacks and submissions, provided that no call
    in flight has read the order before it carried the channel and that
    none is a submission for the order's own merchant and out-trade-no;
    calls that arrive afterwards have read nothing.  A dispatch that reads
    the order from then on goes on with the stored channel and writes
    nothing. *)
Theorem stored_channel_survives_calls_that_read_it_later
    (qs : list call) (c c' : system) (i : nat) (o : order) :
  ids_unique (sys_store c) ->
  ids_below_next (sys_store c) ->
  nth_error (orders (sys_store c)) i = Some o ->
  channel_locked o = true ->
  (forall j p, nth_error (points c) j = Some p -> leaves_channel_of (o_id o) p) ->
  (forall j q, nth_error qs j = Some q -> ~ resubmits o q) ->
  interleaving fr qs c c' ->
  (exists o',
     nth_error (orders (sys_store c')) i = Some o' /\
     o_id o' = o_id o /\ o_channel_id o' = o_channel_id o) /\
  (forall j p, nth_error (points c') j = Some p -> leaves_channel_of (o_id o) p) /\
  (forall s j p, nth_error (points (arriving s qs)) j = Some p ->
                 leaves_channel_of (o_id o) p) /\
  (forall r t p g s x rest,
     orders_by_trade_no (text t) s = x :: rest ->
     channel_locked x = true ->
     (exists p1, statement' (Dopay r t p g) Start s = Some (p1, s) /\
                 (p1 = DopayChannel x \/ exists e, p1 = DopayDone (DopayRejected e))) /\
     forall s1, exists out,
       statement' (Dopay r t p g) (DopayChannel x) s1 = Some (DopayDone out, s1) /\
       ((exists e, out = DopayRejected e) \/
        exists ch, out = Dispatch x ch (o_pay_type x) /\ o_channel_id x = Some (ch_id ch))).
Proof.
  intros Hu Hb Hi Hl Hp Hq Hrun.
  assert (Hsafe : channel_safe i o c).
  { split; [exact Hu |]. split; [exact Hb |]. split; [| exact Hp].
    exists o. split; [exact Hi | reflexivity]. }
  destruct (interleaving_keeps_channel_safe qs i o Hl Hq c c' Hrun Hsafe)
    as (_ & _ & (o' & Ho' & Hc) & Hp').
  split.
  { exists o'. split; [exact Ho' |].
    destruct (lock_columns_fields _ _ Hc) as (H1 & H2 & _). auto. }
  split; [exact Hp' |].
  split.
  { intros s j p Hj. unfold arriving in Hj. simpl in Hj.
    rewrite nth_error_map in Hj. destruct (nth_error qs j); [| discriminate].
    injection Hj as <-. exact I. }
  intros r t p g s x rest. apply dopay_reads_stored_channel.
Qed.

(** X13: [createOrder] changes one row at most, whatever other requests do
    between its SELECT and its UPDATE or INSERT: every row stays in place
    with what was sold, to whom, for how much, and the state of its
    settlement, only the row whose id the SELECT answered is written, and
    merchants and channels are not.  In a call that runs alone that row is
    the merchant's pending order for the out-trade-no, so that a row that
    is not is not changed at all. *)
Theorem createOrder_changes_only_the_order_it_read
    (now : Z) (d : order_data) (existing : option order) (s w : db) :
  ids_unique s ->
  let s' := snd (createOrder now d s) in
  (forall p' w',
     statement' (CreateOrder now d) (CreateWrite existing) w = Some (p', w') ->
     merchants w' = merchants w /\ channels w' = channels w /\
     (List.length (orders w') <= S (List.length (orders w)))%nat /\
     forall i o,
       nth_error (orders w) i = Some o ->
       exists o',
         nth_error (orders w') i = Some o' /\
         record_of o' = record_of o /\
         (o' = o \/ exists e, existing = Some e /\ o_id o = o_id e)) /\
  alone' (CreateOrder now d) s = (CreateDone (fst (createOrder now d s)), s') /\
  merchants s' = merchants s /\ channels s' = channels s /\
  (List.length (orders s') <= S (List.length (orders s)))%nat /\
  forall i o,
    nth_error (orders s) i = Some o ->
    exists o',
      nth_error (orders s') i = Some o' /\
      record_of o' = record_of o /\
      (is_pending_for (merchantId d) (outTradeNo d) o = false -> o' = o).
Proof.
  intros Hu s'. subst s'.
  split.
  { intros p' w' H. simpl in H. destruct existing as [e |]; injection H as <- <-.
    - split; [reflexivity |]. split; [reflexivity |].
      split; [rewrite update_order_where_id_length; lia |].
      intros i o Hi. rewrite nth_error_update, Hi. simpl.
      eexists. split; [reflexivity |].
      destruct (o_id o =? o_id e) eqn:Eid.
      + split; [reflexivity |]. right. exists e. apply Z.eqb_eq in Eid. auto.
      + split; [reflexivity | left; reflexivity].
    - simpl. split; [reflexivity |]. split; [reflexivity |].
      split; [rewrite length_app; simpl; lia |].
      intros i o Hi. exists o.
      split; [| split; [reflexivity | left; reflexivity]].
      rewrite nth_error_app1; [exact Hi |].
      apply nth_error_Some. congruence. }
  split; [apply createOrder_alone |].
  destruct (existing_pending_order (merchantId d) (outTradeNo d) s) as [e |] eqn:E.
  - rewrite (createOrder_reuse now d s e E). simpl snd.
    split; [reflexivity |]. split; [reflexivity |].
    split; [rewrite update_order_where_id_length; lia |].
    intros i o Hi. rewrite nth_error_update, Hi. simpl.
    eexists. split; [reflexivity |].
    destruct (o_id o =? o_id e) eqn:Eid.
    + split; [reflexivity |]. intros Hnp. exfalso.
      apply Z.eqb_eq in Eid.
      destruct (existing_pending_order_found _ _ _ _ E) as (Hin & H1 & H2 & H3).
      assert (o = e)
        by (apply (ids_unique_same_row s); auto; eapply nth_error_In; eassumption).
      subst o.
      assert (Ht : is_pending_for (merchantId d) (outTradeNo d) e = true)
        by (apply is_pending_for_iff; auto).
      congruence.
    + split; reflexivity.
  - rewrite (createOrder_insert now d s E). simpl.
    split; [reflexivity |]. split; [reflexivity |].
    split; [rewrite length_app; simpl; lia |].
    intros i o Hi. exists o.
    split; [| split; reflexivity].
    rewrite nth_error_app1; [exact Hi |].
    apply nth_error_Some. congruence.
Qed.

(** X15: Every statement of the cashier routes [/dopay] and
    [/select_channel] keeps the orders table well formed, writes no
    merchant row, leaves every order in place with what was sold, to whom,
    for how much and the state of its settlement, and writes at most the
    row the call has read, whatever the other requests have done to the
    store in between.  In a call that runs alone, an order that is not
    pending is not changed at all, and [/dopay] does not change an order
    that carries a channel. *)
Theorem cashier_routes_keep_the_record
    (r : Q) (t p : option string) (g : option Z) (s : db) :
  table_ok s ->
  let s1 := snd (dopay fr r t p g s) in
  let s2 := snd (select_channel t p s) in
  (forall q at_ at' w w',
     (forall now d, q <> CreateOrder now d) ->
     table_ok w ->
     statement' q at_ w = Some (at', w') ->
     table_ok w' /\ merchants w' = merchants w /\
     forall i o,
       nth_error (orders w) i = Some o ->
       exists o',
         nth_error (orders w') i = Some o' /\
         record_of o' = record_of o /\
         (o' = o \/ exists h, row_in_hand at_ = Some h /\ o_id o = o_id h)) /\
  alone' (Dopay r t p g) s = (DopayDone (fst (dopay fr r t p g s)), s1) /\
  alone' (SelectChannel t p) s = (SelectDone (fst (select_channel t p s)), s2) /\
  table_ok s1 /\ table_ok s2 /\
  merchants s1 = merchants s /\ merchants s2 = merchants s /\
  forall i o,
    nth_error (orders s) i = Some o ->
    (exists o1,
       nth_error (orders s1) i = Some o1 /\
       record_of o1 = record_of o /\
       (o_status o <> 0 \/ channel_locked o = true -> o1 = o)) /\
    (exists o2,
       nth_error (orders s2) i = Some o2 /\
       record_of o2 = record_of o /\
       (o_status o <> 0 -> o2 = o) /\
       (o2 = o \/ o2 = set_pay_type (text p) o)).
Proof.
  intros Hok s1 s2.
  split.
  { intros q at_ at' w w' Hq Hw H.
    destruct (statement_effect q at_ at' w w' H)
      as [-> | [(h & f & Hh & -> & Hr & _) | (now & d & fee & real & -> & _)]].
    - split; [exact Hw |]. split; [reflexivity |].
      intros i o Hi. exists o. auto.
    - split; [apply update_keeps_table_ok; assumption |]. split; [reflexivity |].
      intros i o Hi. rewrite nth_error_update, Hi. simpl.
      eexists. split; [reflexivity |].
      destruct (o_id o =? o_id h) eqn:E.
      + split; [apply Hr |]. right. exists h. apply Z.eqb_eq in E. auto.
      + split; [reflexivity | left; reflexivity].
    - exfalso. exact (Hq now d eq_refl). }
  split; [apply dopay_alone |]. split; [apply select_channel_alone |].
  assert (Hu : ids_unique s) by apply Hok.
  assert (H1 : table_ok s1 /\ merchants s1 = merchants s /\
               forall i o, nth_error (orders s) i = Some o ->
                 exists o1, nth_error (orders s1) i = Some o1 /\
                   record_of o1 = record_of o /\
                   (o_status o <> 0 \/ channel_locked o = true -> o1 = o)).
  { subst s1.
    destruct (dopay_effect fr r t p g s)
      as [E | (order & rest & c & fpt & rate & payer & Ho & Hst & Hl & _ & _ & E)].
    - rewrite E. split; [exact Hok |]. split; [reflexivity |].
      intros i o Hi. exists o. auto.
    - rewrite E. simpl snd.
      destruct (orders_by_trade_no_head _ _ _ _ Ho) as [Hin _].
      split; [apply update_keeps_table_ok; [reflexivity | exact Hok] |].
      split; [reflexivity |].
      intros i o Hi.
      destruct (update_one_row (o_id order)
                  (lock_update (ch_id c) fpt (ch_plugin_name c)
                     (feeMoney (o_money order) rate)
                     (realMoney (o_money order) (feeMoney (o_money order) rate) payer) payer)
                  s order Hu Hin eq_refl (fun _ => eq_refl) i o Hi)
        as (o1 & Ho1 & Hr & Hc).
      exists o1. split; [exact Ho1 |]. split; [exact Hr |].
      intros Hne. destruct Hc as [-> | [-> _]]; [reflexivity |].
      destruct Hne as [Hne | Hne]; congruence. }
  assert (H2 : table_ok s2 /\ merchants s2 = merchants s /\
               forall i o, nth_error (orders s) i = Some o ->
                 exists o2, nth_error (orders s2) i = Some o2 /\
                   record_of o2 = record_of o /\
                   (o_status o <> 0 -> o2 = o) /\
                   (o2 = o \/ o2 = set_pay_type (text p) o)).
  { subst s2. unfold select_channel.
    assert (Hsame : table_ok s /\ merchants s = merchants s /\
               forall i o, nth_error (orders s) i = Some o ->
                 exists o2, nth_error (orders s) i = Some o2 /\
                   record_of o2 = record_of o /\
                   (o_status o <> 0 -> o2 = o) /\
                   (o2 = o \/ o2 = set_pay_type (text p) o)).
    { split; [exact Hok |]. split; [reflexivity |].
      intros i o Hi. exists o. auto. }
    destruct (negb (present t)); [exact Hsame |].
    destruct (negb (present p)); [exact Hsame |].
    destruct (orders_by_trade_no (text t) s) as [| order rest] eqn:Ho; [exact Hsame |].
    destruct (negb (o_status order =? 0)) eqn:Hst; [exact Hsame |].
    apply negb_false_iff, Z.eqb_eq in Hst. simpl snd.
    destruct (orders_by_trade_no_head _ _ _ _ Ho) as [Hin _].
    split; [apply update_keeps_table_ok; [reflexivity | exact Hok] |].
    split; [reflexivity |].
    intros i o Hi.
    destruct (update_one_row (o_id order) (set_pay_type (text p))
                s order Hu Hin eq_refl (fun _ => eq_refl) i o Hi)
      as (o2 & Ho2 & Hr & Hc).
    exists o2. split; [exact Ho2 |]. split; [exact Hr |].
    split.
    - intros Hne. destruct Hc as [-> | [-> _]]; [reflexivity | congruence].
    - destruct Hc as [-> | [-> ->]]; auto. }
  destruct H1 as (Ht1 & Hm1 & Hr1). destruct H2 as (Ht2 & Hm2 & Hr2).
  split; [exact Ht1 |]. split; [exact Ht2 |]. split; [exact Hm1 |]. split; [exact Hm2 |].
  intros i o Hi. split; [apply Hr1 | apply Hr2]; exact Hi.
Qed.

End StatementFacts.

Section StatementScenarios.
Import JS Fee Channel Store Gateway Settlement OrderTable Statements Scenarios.

Lemma stored_channel_survives_calls_that_read_it_later_witness :
  let s := snd (dopay (fun _ _ _ => None) 0 (Some "T1") (Some "alipay") None
                  (snd (createOrder 1 lock_demo_first lock_demo_store))) in
  let qs := [Dopay (1 # 2) (Some "T1") (Some "wxpay") None;
             SelectChannel (Some "T1") (Some "wxpay")] in
  map o_channel_id (orders s) = [Some 1] /\
  exists c',
    run_schedule (fun _ _ _ => None) qs [0; 1; 1; 0]%nat (arriving s qs) = Some c' /\
    exists o',
      nth_error (orders (sys_store c')) 0 = Some o' /\ o_channel_id o' = Some 1.
Proof.
  intros s qs.
  assert (Hrow : exists o, orders s = [o] /\ o_id o = 1 /\ o_channel_id o = Some 1 /\
                           o_merchant_id o = 7 /\ o_out_trade_no o = "A-100").
  { eexists. vm_compute. repeat split; reflexivity. }
  destruct Hrow as (o & Horders & Hid & Hch & Hm & Hotn).
  split; [rewrite Horders; simpl; rewrite Hch; reflexivity |].
  destruct (run_schedule (fun _ _ _ => None) qs [0; 1; 1; 0]%nat (arriving s qs))
    as [c' |] eqn:E; [| vm_compute in E; discriminate E].
  exists c'. split; [reflexivity |].
  assert (Hnext : next_order_id s = 2) by reflexivity.
  clearbody s.
  assert (Hu : ids_unique (sys_store (arriving s qs))).
  { unfold ids_unique, arriving, sys_store. rewrite Horders. repeat constructor. intros []. }
  assert (Hb : ids_below_next (sys_store (arriving s qs))).
  { intros x Hx. unfold arriving, sys_store in Hx |- *. rewrite Horders in Hx.
    destruct Hx as [<- | []]. rewrite Hid, Hnext. reflexivity. }
  assert (Hi : nth_error (orders (sys_store (arriving s qs))) 0 = Some o).
  { unfold arriving, sys_store. rewrite Horders. reflexivity. }
  assert (Hl : channel_locked o = true).
  { unfold channel_locked. rewrite Hch. reflexivity. }
  assert (Hp : forall j p, nth_error (points (arriving s qs)) j = Some p ->
                           leaves_channel_of (o_id o) p).
  { intros [| [| [| j]]] p Hj; simpl in Hj; try discriminate Hj;
      injection Hj as <-; exact I. }
  assert (Hq : forall j q, nth_error qs j = Some q -> ~ resubmits o q).
  { intros [| [| [| j]]] q Hj; simpl in Hj; try discriminate Hj;
      injection Hj as <-; intros []. }
  destruct (stored_channel_survives_calls_that_read_it_later
              (fun _ _ _ => None) qs (arriving s qs) c' 0 o Hu Hb Hi Hl Hp Hq
              (run_schedule_sound _ _ _ _ _ E))
    as ((o' & Ho' & _ & Hc) & _).
  exists o'. split; [exact Ho' | congruence].
Defined.

(** C4 (as stated) fails for a dispatch that has read the order before
    its channel was stored: of two dispatches of one order that both read
    it without a channel, the first stores channel 1 and returns, and the
    second, whose UPDATE asks for the id only, then writes channel 2 over
    it. *)
Lemma stale_dopay_replaces_stored_channel :
  let s0 := snd (createOrder 1 lock_demo_first lock_demo_store) in
  let qs := [Dopay 0 (Some "T1") (Some "alipay") None;
             Dopay 0 (Some "T1") (Some "wxpay") None] in
  exists c1 c2,
    run_schedule (fun _ _ _ => None) qs [0; 1; 0; 0; 0; 0]%nat (arriving s0 qs) = Some c1 /\
    interleaving (fun _ _ _ => None) qs (arriving s0 qs) c1 /\
    map o_channel_id (orders (sys_store c1)) = [Some 1] /\
    (exists o ch, nth_error (points c1) 0 = Some (DopayDone (Dispatch o ch "alipay")) /\
                  ch_id ch = 1) /\
    (exists o, nth_error (points c1) 1 = Some (DopaySelect o "wxpay") /\
               o_channel_id o = None) /\
    run_schedule (fun _ _ _ => None) qs [1; 1; 1; 1]%nat c1 = Some c2 /\
    interleaving (fun _ _ _ => None) qs c1 c2 /\
    map o_trade_no (orders (sys_store c2)) = ["T1"] /\
    map o_status (orders (sys_store c2)) = [0] /\
    map o_channel_id (orders (sys_store c2)) = [Some 2].
Proof.
  intros s0 qs.
  destruct (run_schedule (fun _ _ _ => None) qs [0; 1; 0; 0; 0; 0]%nat (arriving s0 qs))
    as [c1 |] eqn:E1; [| vm_compute in E1; discriminate E1].
  destruct (run_schedule (fun _ _ _ => None) qs [1; 1; 1; 1]%nat c1)
    as [c2 |] eqn:E2;
    [| vm_compute in E1; injection E1 as <-; vm_compute in E2; discriminate E2].
  exists c1, c2.
  split; [reflexivity |].
  split; [apply (run_schedule_sound _ _ _ _ _ E1) |].
  assert (H2 : interleaving (fun _ _ _ => None) qs c1 c2)
    by apply (run_schedule_sound _ _ _ _ _ E2).
  vm_compute in E1. injection E1 as <-.
  vm_compute in E2. injection E2 as <-.
  split; [reflexivity |].
  split; [do 2 eexists; split; reflexivity |].
  split; [eexists; split; reflexivity |].
  split; [reflexivity |].
  split; [exact H2 |].
  repeat split; reflexivity.
Qed.

Lemma createOrder_changes_only_the_order_it_read_witness :
  let d1 := mkOrderData 7 (Some 1) "T1" "A-100" "alipay" "book" 10 "" "pc"
              "https://m/notify" "" (Some (3 # 100)) "merchant" None None None in
  let d2 := mkOrderData 7 (Some 2) "T2" "A-100" "wxpay" "pen" 1000 "" "pc"
              "https://m/notify2" "" (Some (3 # 100)) "merchant" None None None in
  let s := snd (createOrder 1 d1 (mkDb [] [] [] [] [] 1)) in
  ids_unique s /\
  exists o',
    nth_error (orders (snd (createOrder 2 d2 s))) 0 = Some o' /\
    o_name o' = "book" /\ o_money o' == 10 /\ o_pay_type o' = "wxpay".
Proof.
  intros d1 d2 s.
  assert (Hu : ids_unique s) by (repeat constructor; intros []).
  split; [exact Hu |].
  destruct (createOrder_changes_only_the_order_it_read (fun _ _ _ => None) 2 d2 None s s Hu)
    as (_ & _ & _ & _ & _ & H).
  destruct (H 0%nat _ eq_refl) as (o' & Ho' & _).
  exists o'. split; [exact Ho' |].
  vm_compute in Ho'. injection Ho' as <-.
  repeat split; reflexivity.
Defined.

Lemma cashier_routes_keep_the_record_witness :
  let d1 := mkOrderData 7 None "T1" "A-100" "alipay" "book" 10 "" "pc"
              "https://m/notify" "" (Some (3 # 100)) "merchant" None None None in
  let s := snd (createOrder 1 d1 (mkDb [] [] [] [] [] 1)) in
  table_ok s /\
  exists o2,
    nth_error (orders (snd (select_channel (Some "T1") (Some "wxpay") s))) 0 = Some o2 /\
    o_money o2 == 10 /\ o_pay_type o2 = "wxpay".
Proof.
  intros d1 s.
  assert (H : table_ok s).
  { split; [repeat constructor; intros [] | split].
    - intros o [<- | []]. reflexivity.
    - intros [| i] [| j] a b Ha Hb; try reflexivity;
        simpl in Ha, Hb; destruct i || destruct j; discriminate. }
  split; [exact H |].
  destruct (cashier_routes_keep_the_record (fun _ _ _ => None) 0 (Some "T1") (Some "wxpay")
              None s H) as (_ & _ & _ & _ & _ & _ & _ & Hrows).
  destruct (Hrows 0%nat _ eq_refl) as [_ (o2 & Ho2 & _)].
  exists o2. split; [exact Ho2 |].
  vm_compute in Ho2. injection Ho2 as <-. split; reflexivity.
Defined.

End StatementScenarios.

Section OrderFees.
Import JS Fee Channel Store Gateway Settlement OrderTable Statements Scenarios.

Lemma updated_rows (k : Z) (f : order -> order) (s : db) (row : order) :
  In row (orders (update_order_where_id k f s)) ->
  (forall o, o_id (f o) = o_id o) -> o_id row = k ->
  exists o, In o (orders s) /\ o_id o = k /\ row = f o.
Proof.
  intros Hin Hf Hk. unfold update_order_where_id in Hin. simpl in Hin.
  apply in_map_iff in Hin. destruct Hin as (o & Ho & Hin).
  destruct (o_id o =? k) eqn:E.
  - apply Z.eqb_eq in E. exists o. auto.
  - apply Z.eqb_neq in E. subst row. contradiction.
Qed.

(** C7 (as stated) fails on both counts.  An order of 10.50 at a rate of
    1% is stored with a fee of 0.10: the product of the two doubles is
    above 0.105, which rounds to 0.11, but the double nearest to it is below
    0.105.  An order of 0.56 at 1% whose buyer pays the fee is stored with
    [real_money] 0.57, which is neither the sum of the stored amount and
    fee nor the double [money + fee_money] (0.5700000000000001). *)
Lemma stored_fee_is_not_the_rounded_product :
  let rate := nearest64 (1 # 100) in
  let d1 := mkOrderData 7 (Some 1) "T1" "A-100" "alipay" "book" (21 # 2) "" "pc"
              "https://m/notify" "" (Some rate) "merchant" None None None in
  let d2 := mkOrderData 7 (Some 1) "T1" "A-100" "alipay" "book" (nearest64 (56 # 100)) ""
              "pc" "https://m/notify" "" (Some rate) "buyer" None None None in
  (exists row,
     orders (snd (createOrder 1 d1 (mkDb [] [] [] [] [] 1))) = [row] /\
     o_money row = 21 # 2 /\
     parseFloat_string "10.5" = Fin (o_money row) /\
     parseFloat_string "0.01" = Fin rate /\
     (105 # 1000 < o_money row * rate)%Q /\
     rounds_to_cents (o_money row * rate) (11 # 100) /\
     o_fee_money row = nearest64 (10 # 100) /\
     ~ (o_fee_money row == nearest64 (11 # 100))%Q /\
     ~ rounds_to_cents (o_money row * rate) (10 # 100)) /\
  (exists row,
     orders (snd (createOrder 1 d2 (mkDb [] [] [] [] [] 1))) = [row] /\
     parseFloat_string "0.56" = Fin (o_money row) /\
     o_fee_money row = nearest64 (1 # 100) /\
     o_real_money row = nearest64 (57 # 100) /\
     ~ (o_real_money row == o_money row + o_fee_money row)%Q /\
     ~ (o_real_money row == nearest64 (o_money row + o_fee_money row))%Q).
Proof.
  intros rate d1 d2. split.
  - eexists. split; [vm_compute; reflexivity |].
    split; [reflexivity |]. split; [vm_compute; reflexivity |].
    split; [vm_compute; reflexivity |]. split; [vm_compute; reflexivity |].
    split.
    { split; [exists 11; reflexivity |].
      split; [vm_compute; discriminate | intros H; vm_compute in H; discriminate H]. }
    split; [vm_compute; reflexivity |].
    split; [vm_compute; discriminate |].
    intros (_ & H & _). vm_compute in H. apply H. reflexivity.
  - eexists. split; [vm_compute; reflexivity |].
    split; [vm_compute; reflexivity |]. split; [vm_compute; reflexivity |].
    split; [vm_compute; reflexivity |].
    split; vm_compute; discriminate.
Qed.

(** C7 (amended): the fee fields are computed in doubles.  [fee_money] is
    [parseFloat((money * rate).toFixed(2))]: the double nearest to the
    two-decimal numeral of the double product [money * rate], a tie of the
    numeral taken away from zero; it is 0 without a rate or with rate 0.
    [real_money] is [parseFloat((money + fee_money).toFixed(2))] when the
    buyer pays the fee and [money] otherwise.
    - [createOrder] writes these fields, computed from the amount, the rate
      and the fee payer of the request, to the row it answers with, which
      also carries that amount when it is a new one.
    - [/dopay] answers with a refusal and leaves the store as it is, or
      dispatches an order that already carried a channel and leaves the
      store as it is, or dispatches an order without a channel and writes
      these fields, computed from the amount of the row it read, the rate
      [getMerchantFeeRate] gives for the merchant of the order and the final
      pay type, and the fee payer of that merchant, to every row of that
      id.
    - Statement by statement: whatever the store has become when the UPDATE
      of [/dopay] or the UPDATE or INSERT of [createOrder] runs, the row it
      writes carries these fields; the rate [/dopay] uses is the one
      [getMerchantFeeRate] gave on the store of that moment.
    - Whenever the double product, the double sum and the number read
      back from the numeral are finite, they are the ones these fields are
      computed from.
    An order of 10.50 dispatched at 1% gets the fee 0.10. *)
Theorem order_fee_fields_follow_the_fee_rule :
  (forall now d s,
     exists row,
       In row (orders (snd (createOrder now d s))) /\
       o_id row = orderId (fst (createOrder now d s)) /\
       o_fee_money row = feeMoney (money d) (feeRate d) /\
       o_real_money row = realMoney (money d) (o_fee_money row) (feePayer d) /\
       fee_rule (money d) (feeRate d) (o_fee_money row) /\
       real_money_rule (money d) (o_fee_money row) (feePayer d) (o_real_money row) /\
       (isExisting (fst (createOrder now d s)) = false -> o_money row = money d)) /\
  (forall fr r t p g s,
     match fst (dopay fr r t p g s) with
     | DopayRejected _ => snd (dopay fr r t p g s) = s
     | Dispatch o c fpt =>
         exists order rest,
           orders_by_trade_no (text t) s = order :: rest /\
           o_status order = 0 /\
           if channel_locked order
           then snd (dopay fr r t p g s) = s /\ o = order
           else
             let merchant := hd_error (merchants_by_user_id (o_merchant_id order) s) in
             let rate := fr merchant fpt s in
             let payer :=
               match merchant with Some m => fee_payer_of m | None => "merchant" end in
             let fee := feeMoney (o_money order) rate in
             let real := realMoney (o_money order) fee payer in
             fpt = (if present p then text p else o_pay_type order) /\
             selectChannelFromGroup r fpt g (merchantMinAge order) s = Selected c /\
             snd (dopay fr r t p g s)
             = update_order_where_id (o_id order)
                 (lock_update (ch_id c) fpt (ch_plugin_name c) fee real payer) s /\
             fee_rule (o_money order) rate fee /\
             real_money_rule (o_money order) fee payer real /\
             o_real_money o = real /\
             (exists row,
                In row (orders (snd (dopay fr r t p g s))) /\
                o_id row = o_id order /\ o_money row = o_money order) /\
             (forall row,
                In row (orders (snd (dopay fr r t p g s))) -> o_id row = o_id order ->
                o_fee_money row = fee /\ o_real_money row = real /\
                o_fee_payer row = payer /\ o_channel_id row = Some (ch_id c))
     end) /\
  (forall fr r t p g s,
     alone fr (Dopay r t p g) s
     = (DopayDone (fst (dopay fr r t p g s)), snd (dopay fr r t p g s))) /\
  (forall fr r t p g order c fpt merchant w,
     statement fr (Dopay r t p g) (DopayFeeRate order c fpt merchant) w
     = Some (DopayLock order c fpt (fr merchant fpt w)
               match merchant with Some m => fee_payer_of m | None => "merchant" end, w)) /\
  (forall fr r t p g order c fpt rate payer w,
     exists w',
       statement fr (Dopay r t p g) (DopayLock order c fpt rate payer) w
       = Some (DopayDone
                 (Dispatch (local_after_lock (ch_id c)
                              (realMoney (o_money order) (feeMoney (o_money order) rate) payer)
                              order) c fpt), w') /\
       forall row,
         In row (orders w') -> o_id row = o_id order ->
         (exists before, In before (orders w) /\ o_id before = o_id order /\
                         o_money row = o_money before) /\
         o_fee_money row = feeMoney (o_money order) rate /\
         o_real_money row = realMoney (o_money order) (o_fee_money row) payer /\
         o_fee_payer row = payer) /\
  (forall fr now d e w,
     let fee := feeMoney (money d) (feeRate d) in
     let real := realMoney (money d) fee (feePayer d) in
     match e with
     | Some old =>
         statement fr (CreateOrder now d) (CreateWrite e) w
         = Some (CreateDone (mkCreateResult (o_id old) (o_trade_no old) true),
                 update_order_where_id (o_id old) (reuse_update d fee real) w) /\
         forall row,
           In row (orders (update_order_where_id (o_id old) (reuse_update d fee real) w)) ->
           o_id row = o_id old ->
           o_fee_money row = fee /\ o_real_money row = real
     | None =>
         exists row w',
           statement fr (CreateOrder now d) (CreateWrite e) w
           = Some (CreateDone (mkCreateResult (next_order_id w) (tradeNo d) false), w') /\
           orders w' = (orders w ++ [row])%list /\
           o_id row = next_order_id w /\ o_money row = money d /\
           o_fee_money row = fee /\ o_real_money row = real
     end) /\
  (forall m r product fee,
     round64 (m * r) = Fin product -> round64 (toFixed2 product) = Fin fee ->
     feeMoney m (Some r) = if Qeq_bool r 0 then 0%Q else fee) /\
  (forall m fee sum real,
     round64 (m + fee) = Fin sum -> round64 (toFixed2 sum) = Fin real ->
     realMoney m fee "buyer" = real) /\
  (let s := snd (createOrder 1
                   (mkOrderData 7 None "T1" "A-100" "" "book" (21 # 2) "" "pc"
                      "https://m/notify" "" None "merchant" (Some "normal") None None)
                   lock_demo_store) in
   let s' := snd (dopay (fun _ _ _ => Some (nearest64 (1 # 100))) 0
                    (Some "T1") (Some "alipay") None s) in
   map o_fee_money (orders s) = [0%Q] /\
   map o_channel_id (orders s') = [Some 1] /\
   map o_money (orders s') = [21 # 2] /\
   map o_fee_money (orders s') = [nearest64 (10 # 100)] /\
   map o_real_money (orders s') = [21 # 2]).
Proof.
  split; [| split; [| split; [| split; [| split; [| split; [| split; [| split]]]]]]].
  - intros now d s.
    destruct (existing_pending_order (merchantId d) (outTradeNo d) s) as [e |] eqn:E.
    + rewrite (createOrder_reuse _ _ _ _ E). simpl.
      destruct (existing_pending_order_found _ _ _ _ E) as [Hin _].
      eexists. split; [apply in_update_order_where_id; [exact Hin | reflexivity] |].
      simpl. split; [reflexivity |]. split; [reflexivity |]. split; [reflexivity |].
      split; [apply feeMoney_rule |]. split; [apply realMoney_rule | discriminate].
    + rewrite (createOrder_insert _ _ _ E). simpl.
      eexists. split; [apply in_or_app; right; left; reflexivity |].
      simpl. split; [reflexivity |]. split; [reflexivity |]. split; [reflexivity |].
      split; [apply feeMoney_rule |]. split; [apply realMoney_rule | reflexivity].
  - intros fr r t p g s. unfold dopay.
    destruct (negb (present t)); [reflexivity |].
    destruct (orders_by_trade_no (text t) s) as [| order rest] eqn:Eo; [reflexivity |].
    destruct (o_status order =? 0) eqn:Est; simpl; [| reflexivity].
    apply Z.eqb_eq in Est.
    destruct (channel_locked order) eqn:Elock.
    + destruct (channels_by_id _ s) as [| c cs]; [reflexivity |]. simpl.
      exists order, rest. rewrite Elock. auto.
    + destruct (String.eqb _ "") eqn:Ept; [reflexivity |].
      destruct (selectChannelFromGroup _ _ _ _ _) as [c | |] eqn:Esel;
        [| reflexivity | reflexivity].
      simpl. exists order, rest. rewrite Elock.
      destruct (orders_by_trade_no_head _ _ _ _ Eo) as [Hin _].
      split; [reflexivity |]. split; [exact Est |].
      split; [reflexivity |]. split; [exact Esel |]. split; [reflexivity |].
      split; [apply feeMoney_rule |]. split; [apply realMoney_rule |].
      split; [reflexivity |]. split.
      * eexists. split; [apply in_update_order_where_id; [exact Hin | reflexivity] |].
        split; reflexivity.
      * intros row Hrow Hid.
        destruct (updated_rows _ _ _ _ Hrow (fun _ => eq_refl) Hid) as (o & _ & _ & ->).
        repeat split; reflexivity.
  - intros fr r t p g s. apply dopay_alone.
  - reflexivity.
  - intros fr r t p g order c fpt rate payer w. eexists. split; [reflexivity |].
    intros row Hrow Hid.
    destruct (updated_rows _ _ _ _ Hrow (fun _ => eq_refl) Hid) as (o & Ho & Hio & ->).
    split; [exists o; repeat split; assumption |]. repeat split; reflexivity.
  - intros fr now d e w fee real. destruct e as [old |].
    + split; [reflexivity |]. intros row Hrow Hid.
      destruct (updated_rows _ _ _ _ Hrow (fun _ => eq_refl) Hid) as (o & _ & _ & ->).
      split; reflexivity.
    + do 2 eexists. split; [reflexivity |]. simpl. split; [reflexivity |].
      repeat split; reflexivity.
  - intros m r product fee Hp Hf. unfold feeMoney, fixed2.
    apply round64_finite in Hp. destruct Hp as [-> _].
    apply round64_finite in Hf. destruct Hf as [-> _].
    destruct (Qeq_bool r 0); reflexivity.
  - intros m fee sum real Hs Hr. unfold realMoney, fixed2. simpl.
    apply round64_finite in Hs. destruct Hs as [-> _].
    apply round64_finite in Hr. destruct Hr as [-> _]. reflexivity.
  - vm_compute. repeat split; reflexivity.
Qed.

End OrderFees.

Section CallbackFacts.
Import JS Fee Channel Store Settlement Callbacks.

Lemma step_before_payment (me : nat) (d : delivery) (p p' : pc) (h h' : shared) :
  carries_no_payment d h ->
  before_payment d h p ->
  step me d p h = Some (p', h') ->
  h' = h /\ before_payment d h p'.
Proof.
  intros Hno Hp Hs.
  destruct p as [| o | o ch | | | | | | | | | | o |]; simpl in Hp; try contradiction;
    simpl in Hs.
  - destruct (orders_by_trade_no (d_trade_no d) (store h)) as [| o rest] eqn:Eo.
    + injection Hs as <- <-. split; [reflexivity |].
      unfold answer_failure. destruct (d_transport d); exact I.
    + destruct (d_transport d), (channel_locked o); injection Hs as <- <-;
        (split; [reflexivity |]); simpl; eauto.
  - destruct Hp as [rest Eo].
    destruct (channels_by_id _ (store h)) as [| c cs].
    + destruct (d_transport d); injection Hs as <- <-; split; simpl; auto.
    + injection Hs as <- <-. split; [reflexivity |]. simpl. eauto.
  - destruct Hp as [rest Eo].
    destruct (d_plugin d ch o) as [| | v] eqn:Ep.
    + destruct (d_transport d); injection Hs as <- <-; split; simpl; auto.
    + destruct (d_transport d); injection Hs as <- <-; split; simpl; auto.
    + destruct (v_success v) eqn:Ev.
      * destruct (o_status o =? 0) eqn:Est.
        -- apply Z.eqb_eq in Est. exfalso. exact (Hno _ _ _ _ Eo Ep Ev Est).
        -- injection Hs as <- <-. split; simpl; auto.
      * destruct (d_transport d); [injection Hs as <- <-; split; simpl; auto |].
        destruct (present (v_msg v)); injection Hs as <- <-; split; simpl; auto.
  - destruct (d_transport d); [injection Hs as <- <-; split; simpl; auto |].
    destruct (String.eqb (o_return_url o) ""); injection Hs as <- <-; split; simpl; auto.
  - discriminate.
Qed.

Lemma run_alone_before_payment (fuel : nat) (me : nat) (d : delivery) (p : pc) (h : shared) :
  carries_no_payment d h ->
  before_payment d h p ->
  snd (run_alone fuel me d p h) = h /\
  before_payment d h (fst (run_alone fuel me d p h)).
Proof.
  intros Hno. revert p. induction fuel as [| n IH]; intros p Hp; simpl; [auto |].
  destruct (step me d p h) as [[p' h'] |] eqn:Es; [| auto].
  destruct (step_before_payment me d p p' h h' Hno Hp Es) as [-> Hp'].
  apply IH. exact Hp'.
Qed.

Lemma step_before_payment_goes_on (me : nat) (d : delivery) (p : pc) (h : shared) :
  carries_no_payment d h ->
  before_payment d h p ->
  is_finished p = false ->
  exists p', step me d p h = Some (p', h) /\
             (statements_left p' < statements_left p)%nat.
Proof.
  intros Hno Hp Hf.
  assert (Hstep : exists p' h', step me d p h = Some (p', h')).
  { destruct p as [| o | o ch | | | | | | | | | | o |]; simpl in Hp; try contradiction;
      simpl.
    - destruct (orders_by_trade_no _ _) as [| o rest]; [eauto |].
      destruct (d_transport d), (channel_locked o); eauto.
    - destruct (channels_by_id _ _); [destruct (d_transport d) |]; eauto.
    - destruct (d_plugin d ch o) as [| | v]; [destruct (d_transport d); eauto .. |].
      destruct (v_success v); [destruct (o_status o =? 0); eauto |].
      destruct (d_transport d); [eauto |]. destruct (present (v_msg v)); eauto.
    - destruct (d_transport d); [eauto |].
      destruct (String.eqb (o_return_url o) ""); eauto.
    - discriminate. }
  destruct Hstep as (p' & h' & Hs).
  destruct (step_before_payment me d p p' h h' Hno Hp Hs) as [-> Hp'].
  exists p'. split; [exact Hs |].
  destruct p as [| o | o ch | | | | | | | | | | o |]; simpl in Hp; try contradiction;
    simpl in Hs; try discriminate.
  - destruct (orders_by_trade_no _ _) as [| o rest].
    + injection Hs as <-. unfold answer_failure. destruct (d_transport d); simpl; lia.
    + destruct (d_transport d), (channel_locked o); injection Hs as <-; simpl; lia.
  - destruct (channels_by_id _ _); [destruct (d_transport d) |];
      injection Hs as <-; simpl; lia.
  - destruct p' as [| | | o' v' | | | | | | | | | |]; simpl in Hp'; try contradiction;
      simpl; try lia.
    + exfalso. destruct (d_plugin d ch o) as [| | v];
        [destruct (d_transport d); discriminate .. |].
      destruct (v_success v); [destruct (o_status o =? 0); discriminate |].
      destruct (d_transport d); [discriminate |]. destruct (present (v_msg v)); discriminate.
    + exfalso. destruct (d_plugin d ch o) as [| | v];
        [destruct (d_transport d); discriminate .. |].
      destruct (v_success v); [destruct (o_status o =? 0); discriminate |].
      destruct (d_transport d); [discriminate |]. destruct (present (v_msg v)); discriminate.
    + exfalso. destruct (d_plugin d ch o) as [| | v];
        [destruct (d_transport d); discriminate .. |].
      destruct (v_success v); [destruct (o_status o =? 0); discriminate |].
      destruct (d_transport d); [discriminate |]. destruct (present (v_msg v)); discriminate.
  - destruct (d_transport d); [injection Hs as <-; simpl; lia |].
    destruct (String.eqb (o_return_url o) ""); injection Hs as <-; simpl; lia.
Qed.

Lemma run_alone_finishes (fuel : nat) (me : nat) (d : delivery) (p : pc) (h : shared) :
  carries_no_payment d h ->
  before_payment d h p ->
  (statements_left p <= fuel)%nat ->
  is_finished (fst (run_alone fuel me d p h)) = true.
Proof.
  intros Hno. revert p. induction fuel as [| n IH]; intros p Hp Hle.
  - simpl. destruct p; simpl in *; try contradiction; try lia; reflexivity.
  - destruct (is_finished p) eqn:Hf.
    + destruct p; try discriminate. reflexivity.
    + destruct (step_before_payment_goes_on me d p h Hno Hp Hf) as (p' & Hs & Hlt).
      simpl. rewrite Hs. apply IH; [| lia].
      exact (proj2 (step_before_payment me d p p' h h Hno Hp Hs)).
Qed.

(** X16: A notify or return callback that brings no payment to record, because
    the plugin does not accept it or because the order of its trade number
    is no longer pending, leaves everything as it was, however far it is
    served: the store, the row locks, the credits, the paid transitions
    and the outbound notifications; and it has answered after four
    statements at most. *)
Theorem callback_without_payment_changes_nothing
    (fuel : nat) (me : nat) (d : delivery) (h : shared) :
  carries_no_payment d h ->
  snd (run_alone fuel me d AtStart h) = h /\
  ((4 <= fuel)%nat -> is_finished (fst (run_alone fuel me d AtStart h)) = true).
Proof.
  intros Hno. split.
  - apply run_alone_before_payment; [exact Hno | exact I].
  - intros Hfuel. apply run_alone_finishes; [exact Hno | exact I | exact Hfuel].
Qed.

Lemma callback_without_payment_changes_nothing_witness :
  let o := mkOrder 1 7 (Some 3) "T1" "A-100" "alipay" (Some "alipay") "book" 10 10 0
             "merchant" "" "https://m/notify" "" 1 "normal" None None None 0
             (Some 5) None None true 1 1 (Some 6) in
  let ch := mkChannel 3 "c" "alipay" "alipay" 1 0 0 0 None CfgNull in
  let s := mkDb [o] [] [ch] [] [] 2 in
  let d := mkDelivery ViaNotify "T1"
             (fun _ _ => Answer (mkVerdict true None None None)) true 9 in
  let h := mkShared s [] [] [] [] in
  run_alone 4 0 d AtStart h = (Finished (Ack true), h).
Proof.
  intros o ch s d h.
  assert (Hno : carries_no_payment d h).
  { intros order rest c v Ho _ _. vm_compute in Ho. injection Ho as <- _.
    discriminate. }
  destruct (callback_without_payment_changes_nothing 4 0 d h Hno) as [Hs Hf].
  specialize (Hf (le_n 4)).
  destruct (run_alone 4 0 d AtStart h) as [p h'] eqn:E.
  simpl in Hs. subst h'. vm_compute in E. injection E as <-. reflexivity.
Defined.

End CallbackFacts.

Section QueryFacts.
Import JS Fee Channel Store Gateway Query.

Variable verifySignRSA verifySignMD5 : list (string * string) -> string -> string -> bool.

Lemma string_of_Z_parses (z : Z) :
  NilZero.int_of_string (string_of_Z z) = Some (Z.to_int z).
Proof.
  unfold string_of_Z. apply NilZero.isi.
  - destruct z; simpl; try discriminate.
    intros H. injection H as H. exact (DecimalPos.Unsigned.to_uint_nonnil _ H).
  - destruct z; simpl; try discriminate.
    intros H. injection H as H. exact (DecimalPos.Unsigned.to_uint_nonnil _ H).
Qed.

Lemma string_of_Z_is (z z' : Z) :
  String.eqb (string_of_Z z') (string_of_Z z) = (z' =? z).
Proof.
  destruct (Z.eqb_spec z' z) as [-> | Hne]; [apply String.eqb_refl |].
  apply String.eqb_neq. intros E. apply Hne.
  apply DecimalZ.to_int_inj.
  pose proof (string_of_Z_parses z) as H1. pose proof (string_of_Z_parses z') as H2.
  rewrite E in H2. congruence.
Qed.

Lemma string_of_Z_not (k : string) (z : Z) :
  NilZero.int_of_string k = None -> String.eqb k (string_of_Z z) = false.
Proof.
  intros Hk. apply String.eqb_neq. intros E.
  rewrite E, string_of_Z_parses in Hk. discriminate.
Qed.

Lemma status_field_names (z : Z) : status_field statusMap_names z = 0.
Proof.
  unfold status_field, statusMap_names. cbn [property].
  rewrite !string_of_Z_not by reflexivity. reflexivity.
Qed.

Lemma status_field_numbers (z : Z) :
  status_field statusMap_numbers z = if (0 <=? z) && (z <=? 3) then z else 0.
Proof.
  unfold status_field, statusMap_numbers. cbn [property].
  change "0" with (string_of_Z 0). change "1" with (string_of_Z 1).
  change "2" with (string_of_Z 2). change "3" with (string_of_Z 3).
  rewrite !string_of_Z_is.
  destruct (Z.eqb_spec 0 z) as [<- | H0]; [reflexivity |].
  destruct (Z.eqb_spec 1 z) as [<- | H1]; [reflexivity |].
  destruct (Z.eqb_spec 2 z) as [<- | H2]; [reflexivity |].
  destruct (Z.eqb_spec 3 z) as [<- | H3]; [reflexivity |].
  destruct (Z.leb_spec 0 z); [| reflexivity].
  destruct (Z.leb_spec z 3); [lia | reflexivity].
Qed.

Local Abbreviation query_v1' := (query_v1 verifySignMD5).
Local Abbreviation query_v2' := (query_v2 verifySignRSA verifySignMD5).
Local Abbreviation handleQuery' := (handleQuery verifySignRSA verifySignMD5).

(** X17: The [status] of a query reply.  The V1 route [/query] and [/v2/query]
    look the numeric status column up in a map keyed by names, so they
    report status 0 for every order, paid or not; [handleQuery] reports
    the column when it is 1, 2 or 3 and 0 otherwise. *)
Theorem query_status_is_zero_on_the_v1_and_v2_routes
    (date_now : Z) (req : query_request) (s : db) :
  match query_v1' req s with
  | QueryOk o st => st = 0
  | QueryError _ => True
  end /\
  match query_v2' date_now req s with
  | QueryOk o st => st = 0
  | QueryError _ => True
  end /\
  match handleQuery' date_now req s with
  | QueryOk o st => st = if (0 <=? o_status o) && (o_status o <=? 3) then o_status o else 0
  | QueryError _ => True
  end.
Proof.
  split; [| split].
  - unfold query_v1.
    repeat match goal with
           | |- match (if ?b then _ else _) with _ => _ end => destruct b
           | |- match (match ?x with _ => _ end) with _ => _ end => destruct x
           end; try exact I.
    apply status_field_names.
  - unfold query_v2. cbv zeta.
    repeat match goal with
           | |- match (if ?b then _ else _) with _ => _ end => destruct b
           | |- match (match ?x with _ => _ end) with _ => _ end => destruct x
           end; try exact I; apply status_field_names.
  - unfold handleQuery. cbv zeta.
    repeat match goal with
           | |- match (if ?b then _ else _) with _ => _ end => destruct b
           | |- match (match ?x with _ => _ end) with _ => _ end => destruct x
           end; try exact I; apply status_field_numbers.
Qed.

Lemma orders_of_merchant_head (uid : Z) (req : query_request) (s : db)
    (o : order) (rest : list order) :
  orders_of_merchant uid req s = o :: rest ->
  In o (orders s) /\ o_merchant_id o = uid /\
  (if present (k_trade_no req)
   then o_trade_no o = text (k_trade_no req)
   else o_out_trade_no o = text (k_out_trade_no req)).
Proof.
  intros H.
  assert (Hin : In o (orders_of_merchant uid req s)) by (rewrite H; left; reflexivity).
  unfold orders_of_merchant in Hin. apply filter_In in Hin.
  destruct Hin as [Hin Hc]. apply andb_true_iff in Hc. destruct Hc as [Hm Hn].
  split; [exact Hin |]. split; [apply Z.eqb_eq; exact Hm |].
  destruct (present (k_trade_no req)); apply String.eqb_eq; exact Hn.
Qed.

(** X18: The three queries answer with an order only to the merchant it
    belongs to: the order is a row of that merchant with the trade number
    asked for (or the out-trade-no, when no trade number is given), the
    merchant is the active one of the [pid], and the signature of the
    request has been verified with that merchant's key. *)
Theorem queries_answer_only_with_the_merchants_own_orders
    (date_now : Z) (req : query_request) (s : db) :
  let own m o :=
    getMerchantByPid (text (k_pid req)) s = Some m /\
    In o (orders s) /\ o_merchant_id o = m_user_id m /\
    (if present (k_trade_no req)
     then o_trade_no o = text (k_trade_no req)
     else o_out_trade_no o = text (k_out_trade_no req)) in
  match query_v1' req s with
  | QueryOk o _ =>
      exists m, own m o /\
        verifySignMD5 (query_v1_signParams req) (text (k_sign req)) (m_api_key m) = true
  | QueryError _ => True
  end /\
  match query_v2' date_now req s with
  | QueryOk o _ =>
      exists m, own m o /\
        validateTimestamp date_now (as_value (k_timestamp req)) = true /\
        (if present (m_rsa_public_key m)
         then verifySignRSA (query_v2_signParams req) (text (k_sign req))
                (text (m_rsa_public_key m))
         else verifySignMD5 (query_v2_signParams req) (text (k_sign req)) (m_api_key m))
        = true
  | QueryError _ => True
  end /\
  match handleQuery' date_now req s with
  | QueryOk o _ =>
      exists m, own m o /\
        (present (k_timestamp req) = true ->
         validateTimestamp date_now (as_value (k_timestamp req)) = true) /\
        (if String.eqb (if present (k_sign_type req) then text (k_sign_type req)
                        else if present (k_timestamp req) then "RSA" else "MD5") "RSA"
         then present (m_rsa_public_key m)
              && verifySignRSA (handleQuery_signParams req) (text (k_sign req))
                   (text (m_rsa_public_key m))
         else verifySignMD5 (handleQuery_signParams req) (text (k_sign req)) (m_api_key m))
        = true
  | QueryError _ => True
  end.
Proof.
  intros own. split; [| split].
  - unfold query_v1, getMerchant.
    destruct (_ || _); [exact I |].
    destruct (_ && _); [exact I |].
    destruct (getMerchantByPid _ s) as [m |] eqn:Em; [| exact I].
    destruct (negb _) eqn:Ev; [exact I |]. apply negb_false_iff in Ev.
    destruct (orders_of_merchant _ req s) as [| o rest] eqn:Eo; [exact I |].
    exists m. split; [| exact Ev].
    unfold own. split; [first [exact Em | reflexivity] |]. exact (orders_of_merchant_head _ _ _ _ _ Eo).
  - unfold query_v2, getMerchant. cbv zeta.
    destruct (_ || _); [exact I |].
    destruct (_ && _); [exact I |].
    destruct (negb (validateTimestamp _ _)) eqn:Et; [exact I |].
    apply negb_false_iff in Et.
    destruct (getMerchantByPid _ s) as [m |] eqn:Em; [| exact I].
    destruct (negb _) eqn:Ev; [exact I |]. apply negb_false_iff in Ev.
    destruct (orders_of_merchant _ req s) as [| o rest] eqn:Eo; [exact I |].
    exists m. split; [| split; [exact Et | exact Ev]].
    unfold own. split; [first [exact Em | reflexivity] |]. exact (orders_of_merchant_head _ _ _ _ _ Eo).
  - unfold handleQuery. cbv zeta.
    destruct (_ || _); [exact I |].
    destruct (negb (present (k_trade_no req)) && _); [exact I |].
    destruct (present (k_timestamp req) && _) eqn:Et; [exact I |].
    destruct (getMerchantByPid _ s) as [m |] eqn:Em; [| exact I].
    set (est := if present (k_sign_type req) then _ else _).
    destruct (String.eqb est "RSA") eqn:Ers.
    + destruct (present (m_rsa_public_key m)) eqn:Ek; simpl; [| exact I].
      destruct (negb (verifySignRSA _ _ _)) eqn:Ev; [exact I |]. apply negb_false_iff in Ev.
      destruct (orders_of_merchant _ req s) as [| o rest] eqn:Eo; [exact I |].
      exists m. split; [| split; [| rewrite ?Ek; exact Ev]].
      * unfold own. split; [first [exact Em | reflexivity] |]. exact (orders_of_merchant_head _ _ _ _ _ Eo).
      * intros Hp. rewrite Hp in Et. simpl in Et. apply negb_false_iff. exact Et.
    + simpl.
      destruct (negb (verifySignMD5 _ _ _)) eqn:Ev; [exact I |]. apply negb_false_iff in Ev.
      destruct (orders_of_merchant _ req s) as [| o rest] eqn:Eo; [exact I |].
      exists m. split; [| split; [| rewrite ?Ek; exact Ev]].
      * unfold own. split; [first [exact Em | reflexivity] |]. exact (orders_of_merchant_head _ _ _ _ _ Eo).
      * intros Hp. rewrite Hp in Et. simpl in Et. apply negb_false_iff. exact Et.
Qed.

End QueryFacts.

Section QueryScenario.
Import JS Fee Channel Store Gateway Query.

(** A paid order of merchant 7, asked for by that merchant: the V1 route
    answers with status 0, [handleQuery] with status 1, and
    [/check_status] says paid. *)
Example paid_order_queries :
  let o := mkOrder 1 7 (Some 3) "T1" "A-100" "alipay" (Some "alipay") "book" 10 10 0
             "merchant" "" "https://m/notify" "" 1 "normal" None None None 0
             (Some 5) None None true 1 1 (Some 6) in
  let m := mkMerchant 7 "1000" "active" "key" None None None None 0 in
  let s := mkDb [o] [m] [] [] [] 2 in
  let req := mkQuery (Some "1000") (Some "T1") None (Some "sig") None None in
  let yes := fun _ _ _ => true in
  query_v1 yes req s = QueryOk o 0 /\
  handleQuery yes yes 0 req s = QueryOk o 1 /\
  check_status (Some "T1") s = Some (1, true).
Proof. repeat split; reflexivity. Qed.

End QueryScenario.

Section SettledOrder.
Import JS Fee Channel Store Gateway Settlement Callbacks Query.

Variable ds : list delivery.
Variable s0 : db.
Variable o0 : order.
Variable m0 : merchant.
Variable c0 : channel.
Variable cid : Z.
Variable fr : option merchant -> string -> db -> option Q.

Hypothesis deliveries_for_order :
  forall i d, nth_error ds i = Some d -> d_trade_no d = o_trade_no o0.
Hypothesis row_by_trade_no : orders_by_trade_no (o_trade_no o0) s0 = [o0].
Hypothesis row_by_id : orders_by_id (o_id o0) s0 = [o0].
Hypothesis row_pending : o_status o0 = 0.
Hypothesis row_not_credited : o_balance_added o0 = false.
Hypothesis row_channel : o_channel_id o0 = Some cid.
Hypothesis channel_set : cid <> 0.
Hypothesis channel_exists : hd_error (channels_by_id cid s0) = Some c0.
Hypothesis merchant_row : merchants_by_user_id (o_merchant_id o0) s0 = [m0].
Hypothesis settle_positive : (0 < settleAmount_of o0)%Q.
Hypothesis trade_no_given : o_trade_no o0 <> "".

(** X19: Settlement closes the order.  Once the callbacks for a pending order
    have all been served and the plugin has accepted one of them,
    [/check_status] says paid, [/dopay] and [/select_channel] refuse the
    order and leave the store alone, and any further callback for that
    trade number brings no payment to record. *)
Theorem settled_order_is_closed_to_the_cashier (c : config) :
  sys_steps ds (initial s0 ds) c ->
  all_finished c = true ->
  (exists i d, nth_error ds i = Some d /\ verifies d) ->
  let s := store (shared_state c) in
  let t := Some (o_trade_no o0) in
  check_status t s = Some (1, true) /\
  (forall r p g, dopay fr r t p g s = (DopayRejected OrderStatusInvalid, s)) /\
  (forall p, present p = true -> select_channel t p s = (Some OrderStatusInvalid, s)) /\
  (forall d, d_trade_no d = o_trade_no o0 -> carries_no_payment d (shared_state c)).
Proof.
  intros Hreach Hfin Hver s t.
  assert (HI : Inv ds s0 o0 m0 c).
  { eapply (sys_steps_keep_Inv ds s0 o0 m0 c0 cid); eauto.
    apply Inv_initial; assumption. }
  destruct HI as (row & m & HIat).
  destruct (Inv_at_finished ds s0 o0 m0 _ _ row m HIat Hver Hfin) as [Hst _].
  destruct HIat as (Hdata & _).
  pose proof (by_trade s0 o0 m0 _ _ _ Hdata) as Hrow. fold s in Hrow.
  assert (Hp : present t = true).
  { subst t. simpl. apply negb_true_iff, String.eqb_neq. exact trade_no_given. }
  split; [| split; [| split]].
  - unfold check_status. rewrite Hp. simpl. subst t. simpl. rewrite Hrow, Hst. reflexivity.
  - intros r p g. unfold dopay. rewrite Hp. simpl. subst t. simpl.
    rewrite Hrow, Hst. reflexivity.
  - intros p Hpp. unfold select_channel. rewrite Hp, Hpp. simpl. subst t. simpl.
    rewrite Hrow, Hst. reflexivity.
  - intros d Hd order rest ch v Ho _ _. rewrite Hd in Ho. fold s in Ho.
    rewrite Hrow in Ho. injection Ho as <- _. rewrite Hst. discriminate.
Qed.

End SettledOrder.

Section SettledOrderScenario.
Import JS Fee Channel Store Gateway Settlement Callbacks Query Scenarios.

Lemma settled_order_is_closed_to_the_cashier_witness :
  (exists c, sys_steps once_demo_deliveries (initial once_demo_store once_demo_deliveries) c
             /\ all_finished c = true) /\
  (forall c, sys_steps once_demo_deliveries (initial once_demo_store once_demo_deliveries) c ->
             all_finished c = true ->
             check_status (Some "T1") (store (shared_state c)) = Some (1, true) /\
             select_channel (Some "T1") (Some "wxpay") (store (shared_state c))
             = (Some OrderStatusInvalid, store (shared_state c))).
Proof.
  assert (Hds : forall i d, nth_error once_demo_deliveries i = Some d ->
                            d_trade_no d = o_trade_no once_demo_order).
  { intros [| [| [| i]]] d Hd; simpl in Hd; try (injection Hd as <-; reflexivity).
    destruct i; discriminate. }
  assert (H3 : 3 <> 0) by discriminate.
  assert (Hpos : (0 < settleAmount_of once_demo_order)%Q) by reflexivity.
  assert (Ht : o_trade_no once_demo_order <> "") by discriminate.
  split.
  - apply (Inv_completes once_demo_deliveries once_demo_store once_demo_order
             once_demo_merchant once_demo_channel 3 Hds eq_refl eq_refl H3 eq_refl Hpos
             (13 * 3)%nat).
    + rewrite total_rank_initial. simpl. lia.
    + apply Inv_initial; reflexivity.
  - intros c Hc Hfin.
    destruct (settled_order_is_closed_to_the_cashier once_demo_deliveries once_demo_store
                once_demo_order once_demo_merchant once_demo_channel 3
                (fun _ _ _ => None)
                Hds eq_refl eq_refl eq_refl eq_refl eq_refl H3 eq_refl eq_refl Hpos Ht
                c Hc Hfin) as (Hcs & _ & Hsel & _).
    + exists O, (mkDelivery ViaNotify "T1" (fun _ _ => Answer once_demo_verdict) true 9).
      split; [reflexivity |].
      intros ch o. exists once_demo_verdict. split; reflexivity.
    + split; [exact Hcs | exact (Hsel (Some "wxpay") eq_refl)].
Defined.

End SettledOrderScenario.

Section ChannelCloseFacts.
Import JS Fee Channel Store Gateway ChannelClose.

Lemma eligibleChannels_subset (minAge : value) (cs : list channel) (c : channel) :
  In c (eligibleChannels minAge cs) -> In c cs.
Proof.
  unfold eligibleChannels. destruct (requested_min_age minAge); [| auto].
  intros H. apply filter_In in H. tauto.
Qed.

Lemma filteredChannels_subset (minAge : value) (cs : list channel) (c : channel) :
  In c (filteredChannels minAge cs) -> In c cs.
Proof.
  unfold filteredChannels. destruct (requested_min_age minAge); [| auto].
  intros H. apply filter_In in H. tauto.
Qed.

Lemma select_in_polling_group_enabled
    (r : Q) (minAge : value) (gid : Z) (s : db) (c : channel) :
  select_in_polling_group r minAge gid s = Some (Selected c) ->
  In c (channels s) /\ ch_status c = 1.
Proof.
  unfold select_in_polling_group.
  destruct (hd_error _) as [group |]; [| discriminate].
  destruct (cg_channels group) as [| g0 gs] eqn:Eg; [discriminate |].
  set (all := filter _ (channels s)).
  destruct (eligibleChannels minAge all) as [| first rest] eqn:Ee; [discriminate |].
  assert (Hel : forall x, In x (first :: rest) -> In x (channels s) /\ ch_status x = 1).
  { intros x Hx. rewrite <- Ee in Hx. apply eligibleChannels_subset in Hx.
    unfold all in Hx. apply filter_In in Hx. destruct Hx as [Hin Hc].
    apply andb_true_iff in Hc. split; [exact Hin | apply Z.eqb_eq; tauto]. }
  set (fg := filter _ (g0 :: gs)).
  destruct (cg_mode group =? 2).
  - destruct (match fg with m0 :: _ => _ | [] => None end) as [c' |] eqn:Ef.
    + intros H. injection H as <-. apply Hel.
      destruct fg as [| m0 fgs]; [discriminate |]. eapply find_channel_In; eauto.
    + intros H. injection H as <-. apply Hel. left. reflexivity.
  - destruct (cg_mode group =? 1).
    + destruct (match weighted_pick _ fg with Some id => _ | None => None end) as [id |].
      * destruct (find_channel id (first :: rest)) as [c' |] eqn:Ef; [| discriminate].
        intros H. injection H as <-. apply Hel. eapply find_channel_In; eauto.
      * destruct fg as [| [id w] fgs]; [discriminate |].
        destruct (find_channel id (first :: rest)) as [c' |] eqn:Ef; [| discriminate].
        intros H. injection H as <-. apply Hel. eapply find_channel_In; eauto.
    + destruct (nth_error fg _) as [randomCh |]; [| discriminate].
      destruct (find_channel (gm_id randomCh) (first :: rest)) as [c' |] eqn:Ef;
        [| discriminate].
      intros H. injection H as <-. apply Hel. eapply find_channel_In; eauto.
Qed.

(** Whatever [selectChannelFromGroup] selects is an enabled channel of the
    table. *)
Lemma selected_channel_is_enabled
    (r : Q) (payType : string) (payGroupId : option Z) (minAge : value)
    (s : db) (c : channel) :
  selectChannelFromGroup r payType payGroupId minAge s = Selected c ->
  In c (channels s) /\ ch_status c = 1.
Proof.
  unfold selectChannelFromGroup.
  destruct (match match getPayTypeByName payType with Some id => _ | None => None end
            with Some tc => match channel_mode tc with Some 0 => true | _ => false end
               | None => false end); [discriminate |].
  cbv zeta.
  match goal with
  | |- match ?via with Some _ => _ | None => _ end = _ -> _ =>
      destruct via as [result |] eqn:Evia
  end.
  - intros ->.
    repeat match type of Evia with
           | match ?x with _ => _ end = _ => destruct x; try discriminate Evia
           end.
    eapply select_in_polling_group_enabled; eauto.
  - clear Evia.
    set (chs := filter _ (channels s)).
    assert (Hf : forall x, In x (filteredChannels minAge chs) ->
                           In x (channels s) /\ ch_status x = 1).
    { intros x Hx. apply filteredChannels_subset in Hx.
      unfold chs in Hx. apply filter_In in Hx. destruct Hx as [Hin Hc].
      apply andb_true_iff in Hc. split; [exact Hin | apply Z.eqb_eq; tauto]. }
    destruct (filteredChannels minAge chs) as [| first [| second rest]].
    + discriminate.
    + intros H. injection H as <-. apply Hf. left. reflexivity.
    + match goal with
      | |- (if ?b then _ else _) = _ -> _ => destruct b
      end.
      * destruct (find_channel _ _) as [sp |] eqn:Ef; intros H; injection H as <-;
          apply Hf; [eapply find_channel_In; eauto | left; reflexivity].
      * match goal with
        | |- (if ?b then _ else _) = _ -> _ => destruct b
        end.
        -- intros H. injection H as <-. apply Hf. left. reflexivity.
        -- destruct (nth_error _ _) as [c' |] eqn:En; [| discriminate].
           intros H. injection H as <-. apply Hf. eapply nth_error_In; eauto.
Qed.

Lemma closed_channel_status (id : Z) (s : db) (c : channel) :
  In c (channels (close_channel id s)) -> ch_id c = id -> ch_status c = 0.
Proof.
  unfold close_channel. simpl. intros Hin Hid.
  apply in_map_iff in Hin. destruct Hin as [x [Hx _]].
  destruct (ch_id x =? id) eqn:E.
  - subst c. reflexivity.
  - subst c. apply Z.eqb_neq in E. contradiction.
Qed.

(** X20: What [checkAndAutoCloseChannel] does.  It closes the channel exactly
    when there are an error message, a channel and a keyword of the
    setting that is not blank and that, trimmed, occurs in the message;
    the keyword it reports is the first such one.  Closing sets the
    status of the rows with the channel's id to 0 and changes nothing
    else; otherwise the store is as it was. *)
Theorem auto_close_closes_on_a_matching_keyword
    (errorMsg : option string) (channel : option channel)
    (checkPaymsg noticeEnabled : option string) (s : db) :
  let result := checkAndAutoCloseChannel errorMsg channel checkPaymsg noticeEnabled s in
  let hit k := negb (String.eqb (trim k) "") && includes (trim k) (text errorMsg) in
  match fst result with
  | NotClosed =>
      snd result = s /\
      (channel = None \/ present errorMsg = false \/ present checkPaymsg = false \/
       forall k, In k (split_on "|" (text checkPaymsg) "") -> hit k = false)
  | Closed k notice =>
      exists c,
        channel = Some c /\
        present errorMsg = true /\ present checkPaymsg = true /\
        find hit (split_on "|" (text checkPaymsg) "") = Some k /\
        notice = match noticeEnabled with Some v => String.eqb v "1" | None => false end /\
        snd result = close_channel (ch_id c) s
  end.
Proof.
  intros result hit. subst result. unfold checkAndAutoCloseChannel.
  destruct channel as [c |]; [| simpl; auto].
  destruct (present errorMsg) eqn:Ee; [| simpl; auto].
  destruct (present checkPaymsg) eqn:Ep; [| simpl; auto 6].
  cbn [negb]. cbv iota zeta.
  assert (Hfind : find (fun keyword => includes (trim keyword) (text errorMsg))
                       (keywords_of (text checkPaymsg))
                  = find hit (split_on "|" (text checkPaymsg) "")).
  { unfold keywords_of. induction (split_on "|" (text checkPaymsg) "") as [| k ks IH];
      [reflexivity |].
    cbn [filter find]. unfold hit at 1.
    destruct (negb (String.eqb (trim k) "")); cbn [find andb].
    - destruct (includes (trim k) (text errorMsg)); [reflexivity | exact IH].
    - exact IH. }
  rewrite Hfind.
  destruct (find hit _) as [k |] eqn:Ef; simpl.
  - exists c. repeat split; reflexivity.
  - split; [reflexivity |]. right. right. right.
    intros k Hin. exact (find_none _ _ Ef k Hin).
Qed.

Lemma auto_close_effect
    (errorMsg : option string) (c : channel) (checkPaymsg noticeEnabled : option string)
    (s : db) (k : string) (notice : bool) (s' : db) :
  checkAndAutoCloseChannel errorMsg (Some c) checkPaymsg noticeEnabled s
  = (Closed k notice, s') ->
  s' = close_channel (ch_id c) s.
Proof.
  unfold checkAndAutoCloseChannel.
  destruct (negb (present errorMsg)); [discriminate |].
  destruct (negb (present checkPaymsg)); [discriminate |].
  destruct (find _ _); [| discriminate].
  intros H. injection H as _ _ <-. reflexivity.
Qed.

Lemma getChannel_serves (type : string) (s : db) (c : channel) :
  getChannel type s = Some c -> In c (channels s) /\ ch_status c = 1.
Proof.
  unfold getChannel. intros H.
  pose proof (greatest_priority_spec
                (filter (fun c => find_in_set type (ch_pay_type c) && (ch_status c =? 1)
                           && match ch_is_deleted c with Some d => d =? 0 | None => true end)
                        (channels s)) None) as Hs.
  rewrite H in Hs. destruct Hs as [[Hin | Hb] _]; [| discriminate].
  apply filter_In in Hin. destruct Hin as [Hin Hc].
  apply andb_true_iff in Hc. destruct Hc as [Hc _].
  apply andb_true_iff in Hc. destruct Hc as [_ Hc].
  split; [exact Hin | apply Z.eqb_eq; exact Hc].
Qed.

(** X21: A channel that [checkAndAutoCloseChannel] has closed is not handed
    out again: neither [getChannel] nor [selectChannelFromGroup] answers with a
    channel of that id afterwards, for any pay type, pay group, age limit
    and random draw. *)
Theorem closed_channel_is_never_selected
    (errorMsg : option string) (c : channel) (checkPaymsg noticeEnabled : option string)
    (s : db) (k : string) (notice : bool) (s' : db) :
  checkAndAutoCloseChannel errorMsg (Some c) checkPaymsg noticeEnabled s
  = (Closed k notice, s') ->
  (forall type c', getChannel type s' = Some c' -> ch_id c' <> ch_id c) /\
  (forall r payType payGroupId minAge c',
     selectChannelFromGroup r payType payGroupId minAge s' = Selected c' ->
     ch_id c' <> ch_id c).
Proof.
  intros H. apply auto_close_effect in H. subst s'.
  split.
  - intros type c' Hg Hid.
    destruct (getChannel_serves _ _ _ Hg) as [Hin Hst].
    pose proof (closed_channel_status _ _ _ Hin Hid) as H0. congruence.
  - intros r payType payGroupId minAge c' Hsel Hid.
    destruct (selected_channel_is_enabled _ _ _ _ _ _ Hsel) as [Hin Hst].
    pose proof (closed_channel_status _ _ _ Hin Hid) as H0. congruence.
Qed.

Lemma closed_channel_is_never_selected_witness :
  let c := mkChannel 1 "Alipay A" "alipay_plugin" "alipay" 1 0 0 0 None CfgNull in
  let s := mkDb [] [] [c] [] [] 1 in
  let closing :=
    checkAndAutoCloseChannel (Some "merchant account frozen") (Some c)
      (Some "risk | frozen |") (Some "1") s in
  getChannel "alipay" s = Some c /\
  fst closing = Closed " frozen " true /\
  getChannel "alipay" (snd closing) = None.
Proof.
  intros c s closing.
  split; [reflexivity |]. split; [reflexivity |].
  destruct (closed_channel_is_never_selected (Some "merchant account frozen") c
              (Some "risk | frozen |") (Some "1") s " frozen " true (snd closing) eq_refl)
    as [Hg _].
  destruct (getChannel "alipay" (snd closing)) as [c' |] eqn:E; [| reflexivity].
  exfalso. apply (Hg "alipay" c' E).
  vm_compute in E. discriminate.
Defined.

End ChannelCloseFacts.

Section CallbackDomainFacts.
Import JS Store CallbackDomain.

Lemma endsWith_iff (s x : string) :
  endsWith s x = true <-> exists pre, s = pre ++ x.
Proof.
  split.
  - induction s as [| c r IH]; cbn [endsWith]; rewrite orb_true_iff.
    + intros [H | H]; [| discriminate]. apply String.eqb_eq in H. exists "". exact H.
    + intros [H | H].
      * apply String.eqb_eq in H. exists "". exact H.
      * destruct (IH H) as [pre ->]. exists (String c pre). reflexivity.
  - intros [pre ->]. induction pre as [| c p IH].
    + destruct x; cbn [endsWith append]; rewrite String.eqb_refl; reflexivity.
    + cbn [endsWith append]. rewrite IH. apply orb_true_r.
Qed.

Lemma startsWith_star (a : string) :
  startsWith a "*." = true <-> a = "*." ++ slice2 a.
Proof.
  unfold startsWith. rewrite String.prefix_correct.
  destruct a as [| c1 [| c2 r]]; cbn [substring String.length slice2 append].
  - split; discriminate.
  - split; discriminate.
  - assert (Hs : substring 0 0 r = "") by (destruct r; reflexivity).
    rewrite Hs. split; intros H; injection H as -> ->; reflexivity.
Qed.

Lemma string_append_assoc (a b c : string) : (a ++ b) ++ c = a ++ (b ++ c).
Proof. induction a as [| x a IH]; simpl; [reflexivity | rewrite IH; reflexivity]. Qed.

Lemma last_char_eq (p q : string) (x y : ascii) :
  p ++ String x "" = q ++ String y "" -> x = y.
Proof.
  revert q. induction p as [| a p IH]; intros [| b q] H; simpl in H.
  - injection H as H. exact H.
  - injection H as _ H. destruct q; discriminate.
  - injection H as _ H. destruct p; discriminate.
  - injection H as _ H. exact (IH q H).
Qed.

Lemma domain_matches_iff (domain approved : string) :
  domain_matches domain approved = true <->
  domain = toLowerCase approved \/
  exists pre base,
    toLowerCase approved = "*." ++ base /\ domain = pre ++ "." ++ base.
Proof.
  unfold domain_matches. cbv zeta.
  rewrite orb_true_iff, andb_true_iff, String.eqb_eq, startsWith_star, endsWith_iff.
  split.
  - intros [H | [Hs [pre Hp]]]; [left; exact H | right].
    exists pre, (slice2 (toLowerCase approved)). auto.
  - intros [H | (pre & base & Ha & Hd)]; [left; exact H | right].
    rewrite Ha. simpl. split; [reflexivity |]. exists pre. exact Hd.
Qed.

(** X22: How an approved domain matches.  A host name matches an approved
    entry exactly when it is the entry in lower case, or the entry in
    lower case is [*.base] and the host name ends with [.base].  So a wild
    card covers the sub-domains of its base at any depth, and never the
    base itself nor a name in which the base is not preceded by a dot. *)
Theorem wildcard_covers_subdomains_only (domain approved : string) :
  (domain_matches domain approved = true <->
   domain = toLowerCase approved \/
   exists pre base,
     toLowerCase approved = "*." ++ base /\ domain = pre ++ "." ++ base) /\
  (forall base, toLowerCase approved = "*." ++ base ->
     domain_matches base approved = false /\
     forall p x, x <> "."%char ->
                 domain_matches (p ++ String x base) approved = false).
Proof.
  split; [apply domain_matches_iff |].
  intros base Ha. split.
  - destruct (domain_matches base approved) eqn:E; [| reflexivity]. exfalso.
    apply domain_matches_iff in E. rewrite Ha in E.
    destruct E as [E | (pre & base' & Hb & E)].
    + apply (f_equal String.length) in E. simpl in E. lia.
    + injection Hb as <-.
      apply (f_equal String.length) in E. rewrite length_append in E. simpl in E. lia.
  - intros p x Hx.
    destruct (domain_matches (p ++ String x base) approved) eqn:E; [| reflexivity].
    exfalso. apply domain_matches_iff in E. rewrite Ha in E.
    destruct E as [E | (pre & base' & Hb & E)].
    + change ("*." ++ base) with (("*" ++ String "." "") ++ base) in E.
      change (String x base) with (String x "" ++ base) in E.
      rewrite <- string_append_assoc in E.
      apply append_secret_injective in E. apply last_char_eq in E. contradiction.
    + injection Hb as <-.
      change ("." ++ base) with (String "." "" ++ base) in E.
      change (String x base) with (String x "" ++ base) in E.
      rewrite <- !string_append_assoc in E.
      apply append_secret_injective in E. apply last_char_eq in E. contradiction.
Qed.

Section WithUrl.
Variable hostname : string -> option string.

(** X23: What [validateCallbackDomain] answers.  A notify url that does not
    parse is refused even when the whitelist is off.  Otherwise the url is
    accepted when the whitelist is off, and also when the configuration or
    the table cannot be read.  With the whitelist on, a merchant without
    an approved domain is refused, and a merchant with approved domains is
    accepted exactly when the host name, in lower case, matches one of its
    own approved rows; rows of other merchants and rows that are not
    approved never count. *)
Theorem validateCallbackDomain_outcomes
    (merchantId : Z) (notifyUrl : string)
    (enabled : attempt (option string)) (table : attempt (list merchant_domain)) :
  let answer := validateCallbackDomain hostname merchantId notifyUrl enabled table in
  match hostname notifyUrl with
  | None => answer = Some BadUrl
  | Some h =>
      match enabled with
      | Throws => answer = None
      | Got v =>
          if whitelist_on v then
            match table with
            | Throws => answer = None
            | Got rows =>
                (answer = None <->
                 exists d, In d rows /\ md_merchant_id d = merchantId /\
                           md_status d = "approved" /\
                           domain_matches (toLowerCase h) (md_domain d) = true) /\
                (answer = Some NoApprovedDomain <->
                 forall d, In d rows -> md_merchant_id d = merchantId ->
                           md_status d <> "approved")
            end
          else answer = None
      end
  end.
Proof.
  intros answer. subst answer. unfold validateCallbackDomain.
  destruct (hostname notifyUrl) as [h |]; [| reflexivity].
  destruct enabled as [| v]; [reflexivity |].
  destruct (whitelist_on v); [| reflexivity]. cbn [negb].
  destruct table as [| rows]; [reflexivity |]. cbv zeta.
  assert (Hap : forall d, In d (approved_domains merchantId rows) <->
                  In d rows /\ md_merchant_id d = merchantId /\ md_status d = "approved").
  { intros d. unfold approved_domains.
    rewrite filter_In, andb_true_iff, Z.eqb_eq, String.eqb_eq. tauto. }
  destruct (approved_domains merchantId rows) as [| d0 ds] eqn:Ea.
  - split.
    + split; [discriminate |]. intros (d & Hin & Hm & Hs & _).
      exfalso. apply (Hap d). auto.
    + split; [| reflexivity]. intros _ d Hin Hm Hs. apply (Hap d). auto.
  - destruct (existsb _ (d0 :: ds)) eqn:Ex.
    + split.
      * split; [| reflexivity]. intros _.
        apply existsb_exists in Ex. destruct Ex as (d & Hin & Hd).
        apply Hap in Hin. exists d. tauto.
      * split; [discriminate |]. intros Hnone. exfalso.
        destruct (proj1 (Hap d0) (or_introl eq_refl)) as (Hin & Hm & Hs).
        exact (Hnone d0 Hin Hm Hs).
    + split.
      * split; [discriminate |]. intros (d & Hin & Hm & Hs & Hd). exfalso.
        assert (Hex : existsb (fun d => domain_matches (toLowerCase h) (md_domain d))
                        (d0 :: ds) = true).
        { apply existsb_exists. exists d. split; [apply Hap; auto | exact Hd]. }
        congruence.
      * split; [discriminate |]. intros Hnone. exfalso.
        destruct (proj1 (Hap d0) (or_introl eq_refl)) as (Hin & Hm & Hs).
        exact (Hnone d0 Hin Hm Hs).
Qed.

End WithUrl.

(** The whitelist at work, with [*.Example.com] approved for merchant 7. *)
Example callback_domain_examples :
  let host (u : string) :=
    match u with
    | "https://api.example.com/n" => Some "api.example.com"
    | "https://example.com/n" => Some "example.com"
    | "https://evilexample.com/n" => Some "evilexample.com"
    | _ => None
    end in
  let rows := [mkMerchantDomain 7 "*.Example.com" "approved";
               mkMerchantDomain 8 "evilexample.com" "approved"] in
  let check u := validateCallbackDomain host 7 u (Got (Some "1")) (Got rows) in
  check "https://api.example.com/n" = None /\
  check "https://example.com/n" = Some (NotWhitelisted "example.com") /\
  check "https://evilexample.com/n" = Some (NotWhitelisted "evilexample.com") /\
  check "not a url" = Some BadUrl /\
  validateCallbackDomain host 7 "https://evilexample.com/n" (Got (Some "1")) Throws = None.
Proof. repeat split; reflexivity. Qed.

End CallbackDomainFacts.

Section FeeBounds.
Import JS Fee Channel Store Settlement.

Lemma amount_of_two_decimals_double (m : Q) :
  amount_of_two_decimals m -> representable m.
Proof.
  intros H. apply (representable_comp (fixed2 m)); [exact H |].
  apply nearest64_representable.
Qed.

(** Rounding a part of an amount of two decimals to two decimals stays
    within the amount. *)
Lemma fixed2_between (x m : Q) :
  (0 <= x)%Q -> (x <= m)%Q -> amount_of_two_decimals m ->
  (0 <= fixed2 x)%Q /\ (fixed2 x <= m)%Q.
Proof.
  intros H0 Hm H2. unfold fixed2. split.
  - apply nearest64_nonneg. apply toFixed2_nonneg. exact H0.
  - unfold amount_of_two_decimals, fixed2 in H2. rewrite <- H2.
    apply nearest64_monotone. apply toFixed2_monotone; assumption.
Qed.

Lemma feeMoney_between (amount : Q) (rate : option Q) :
  (0 <= amount)%Q -> amount_of_two_decimals amount ->
  (forall r, rate = Some r -> (0 <= r)%Q /\ (r <= 1)%Q) ->
  (0 <= feeMoney amount rate)%Q /\ (feeMoney amount rate <= amount)%Q.
Proof.
  intros H0 H2 Hr. unfold feeMoney.
  destruct rate as [r |]; [| split; [apply Qle_refl | exact H0]].
  destruct (Qeq_bool r 0); [split; [apply Qle_refl | exact H0] |].
  destruct (Hr r eq_refl) as [Hr0 Hr1].
  assert (Hp0 : (0 <= amount * r)%Q) by (apply Qmult_le_0_compat; assumption).
  assert (Hp1 : (amount * r <= amount)%Q).
  { rewrite <- (Qmult_1_r amount) at 2.
    rewrite !(Qmult_comm amount). apply Qmult_le_compat_r; assumption. }
  apply fixed2_between; [| | exact H2].
  - apply nearest64_nonneg. exact Hp0.
  - apply nearest64_le; [apply amount_of_two_decimals_double; exact H2 | exact Hp1].
Qed.

(** X24: The fee of a new order never exceeds its amount.  For an amount that
    is not negative and is a double of two decimals
    ([parseFloat(money.toFixed(2))] is [money] again), and a fee rate between
    0 and 1, the row that [createOrder] inserts has the fee the code
    computes in doubles, [parseFloat((money * feeRate).toFixed(2))], and that
    fee lies between 0 and the amount; so the difference [money - fee_money]
    lies between 0 and the amount as well. *)
Theorem new_order_fee_is_within_its_amount (now : Z) (d : order_data) (s : db) :
  (0 <= money d)%Q -> amount_of_two_decimals (money d) ->
  (forall r, feeRate d = Some r -> (0 <= r)%Q /\ (r <= 1)%Q) ->
  existing_pending_order (merchantId d) (outTradeNo d) s = None ->
  exists row,
    In row (orders (snd (createOrder now d s))) /\
    o_id row = orderId (fst (createOrder now d s)) /\
    o_money row = money d /\
    o_fee_money row = feeMoney (money d) (feeRate d) /\
    (forall r, feeRate d = Some r -> ~ (r == 0)%Q ->
       o_fee_money row = nearest64 (toFixed2 (nearest64 (money d * r)))) /\
    (0 <= o_fee_money row)%Q /\ (o_fee_money row <= o_money row)%Q /\
    (0 <= settleAmount_of row)%Q /\ (settleAmount_of row <= o_money row)%Q.
Proof.
  intros H0 H2 Hr E.
  destruct (feeMoney_between (money d) (feeRate d) H0 H2 Hr) as [Hf0 Hf1].
  rewrite (createOrder_insert now d s E). simpl.
  eexists. split; [apply in_or_app; right; left; reflexivity |].
  unfold settleAmount_of. simpl.
  split; [reflexivity |]. split; [reflexivity |]. split; [reflexivity |].
  split.
  { intros r Er Hn. rewrite Er. unfold feeMoney.
    destruct (Qeq_bool r 0) eqn:Eb; [| reflexivity].
    apply Qeq_bool_iff in Eb. contradiction. }
  split; [exact Hf0 |]. split; [exact Hf1 |]. split; lra.
Qed.

Lemma new_order_fee_is_within_its_amount_witness :
  let d := mkOrderData 7 (Some 1) "T1" "A-100" "alipay" "book" (nearest64 (1999 # 100)) ""
             "pc" "https://m/notify" "" (Some (nearest64 (6 # 1000))) "merchant"
             None None None in
  exists row,
    In row (orders (snd (createOrder 1 d (mkDb [] [] [] [] [] 1)))) /\
    o_fee_money row = nearest64 (12 # 100) /\ (0 <= settleAmount_of row)%Q.
Proof.
  intros d.
  assert (H0 : (0 <= money d)%Q) by (vm_compute; discriminate).
  assert (H2 : amount_of_two_decimals (money d)) by (vm_compute; reflexivity).
  assert (Hr : forall r, feeRate d = Some r -> (0 <= r)%Q /\ (r <= 1)%Q).
  { intros r Hr. injection Hr as <-. split; vm_compute; discriminate. }
  destruct (new_order_fee_is_within_its_amount 1 d (mkDb [] [] [] [] [] 1) H0 H2 Hr eq_refl)
    as (row & Hin & _ & _ & _ & _ & _ & _ & Hs & _).
  exists row. split; [exact Hin |]. split; [| exact Hs].
  destruct Hin as [<- | []]. vm_compute. reflexivity.
Defined.

End FeeBounds.

Section MerchantAdminFacts.
Import JS Fee Channel Store Gateway MerchantAdmin.

Variable verifySignRSA verifySignMD5 : list (string * string) -> string -> string -> bool.
Variable validateCallbackDomain : Z -> string -> db -> option string.
Variable getMerchantFeeRate : merchant -> string -> db -> option Q.
Variable create_channel_by_id unified_channel_by_id : string -> db -> option channel.

Local Abbreviation create' :=
  (create verifySignRSA verifySignMD5 validateCallbackDomain getMerchantFeeRate
          create_channel_by_id).
Local Abbreviation unified' :=
  (unified verifySignRSA verifySignMD5 getMerchantFeeRate unified_channel_by_id).
Local Abbreviation v1_order' :=
  (GatewayV1.v1_order verifySignMD5 validateCallbackDomain getMerchantFeeRate).

Lemma getMerchantByPid_found (pid : string) (s : db) (m : merchant) :
  getMerchantByPid pid s = Some m ->
  In m (merchants s) /\ m_pid m = pid /\ merchant_active m = true.
Proof.
  unfold getMerchantByPid. intros H.
  assert (Hin : In m (filter (fun m => String.eqb (m_pid m) pid && merchant_active m)
                             (merchants s))).
  { destruct (filter _ _) as [| x xs]; [discriminate |].
    injection H as <-. left. reflexivity. }
  apply filter_In in Hin. destruct Hin as [Hin Hc].
  apply andb_true_iff in Hc. destruct Hc as [Hp Ha].
  split; [exact Hin |]. split; [apply String.eqb_eq; exact Hp | exact Ha].
Qed.

Lemma paused_merchant_not_found (id : Z) (pid : string) (s : db) (m : merchant) :
  getMerchantByPid pid (update_merchant_status id "paused" s) = Some m ->
  m_user_id m <> id /\ In m (merchants s).
Proof.
  intros H. apply getMerchantByPid_found in H. destruct H as (Hin & _ & Ha).
  unfold update_merchant_status in Hin. simpl in Hin.
  apply in_map_iff in Hin. destruct Hin as (m0 & Hm & Hin0).
  destruct (m_user_id m0 =? id) eqn:E.
  - subst m. discriminate.
  - subst m. apply Z.eqb_neq in E. auto.
Qed.

(** X25: Pausing locks a merchant out.  After [/merchants/pause] no pid leads
    to that merchant any more, so a request for a pid that belongs to the
    merchant alone is rejected by [/create], by the V1 routes and by
    [handleSubmit] and [handleMapi], without a write.  The pause writes
    nothing but the status: orders, keys and balances stay, other
    merchants stay as they are, and the callback pipeline, which looks the
    merchant up by user id without regard to the status, still finds the
    row. *)
Theorem paused_merchant_is_locked_out (id : Z) (s : db) :
  id <> 0 ->
  let s' := snd (pause (Some id) s) in
  (forall pid m, getMerchantByPid pid s' = Some m -> m_user_id m <> id /\ In m (merchants s)) /\
  orders s' = orders s /\
  merchants s' = map (fun m => if m_user_id m =? id then set_merchant_status "paused" m else m)
                     (merchants s) /\
  (forall u, merchants_by_user_id u s'
             = map (fun m => if m_user_id m =? id then set_merchant_status "paused" m else m)
                   (merchants_by_user_id u s)) /\
  (forall date_now fresh req,
     (forall m, In m (merchants s) -> m_pid m = text (q_pid req) -> m_user_id m = id) ->
     (exists why w, run (create' date_now fresh req) s' = (Reply (Rejected why), w)
                    /\ w_db w = s') /\
     (exists why w, run (v1_order' date_now fresh req) s' = (Reply (Rejected why), w)
                    /\ w_db w = s') /\
     (forall sp ip dev,
        exists why w, run (unified' date_now fresh req sp ip dev) s'
                      = (Reply (Rejected why), w) /\ w_db w = s')).
Proof.
  intros Hid s'. subst s'. unfold pause. simpl no_id.
  apply Z.eqb_neq in Hid. rewrite Hid. simpl snd. simpl id_of.
  split; [intros pid m; apply paused_merchant_not_found |].
  split; [reflexivity |]. split; [reflexivity |].
  split.
  - intros u. unfold merchants_by_user_id, update_merchant_status. simpl.
    induction (merchants s) as [| m ms IH]; [reflexivity |].
    simpl. destruct (m_user_id m =? id) eqn:E; simpl;
      destruct (m_user_id m =? u); simpl; rewrite ?E, IH; reflexivity.
  - intros date_now fresh req Honly.
    assert (Hnone : forall m, getMerchantByPid (text (q_pid req))
                                (update_merchant_status id "paused" s) = Some m -> False).
    { intros m Hm.
      destruct (paused_merchant_not_found _ _ _ _ Hm) as [Hne Hin].
      apply getMerchantByPid_found in Hm. destruct Hm as (_ & Hp & _).
      apply Hne, Honly; assumption. }
    split; [| split].
    + destruct (run (create' date_now fresh req) _) as [res w] eqn:E.
      apply create_gate in E.
      destruct E as [[[why ->] Hw] | (m & t & p & _ & Hm & _)];
        [eauto | exfalso; eapply Hnone; eassumption].
    + destruct (run (v1_order' date_now fresh req) _) as [res w] eqn:E.
      apply v1_order_gate in E.
      destruct E as [[[why ->] Hw] | (m & o & _ & Hm & _)];
        [eauto | exfalso; eapply Hnone; eassumption].
    + intros sp ip dev.
      destruct (run (unified' date_now fresh req sp ip dev) _) as [res w] eqn:E.
      apply unified_gate in E.
      destruct E as [[[why ->] Hw] | (m & o & _ & Hm & _)];
        [eauto | exfalso; eapply Hnone; eassumption].
Qed.

End MerchantAdminFacts.

Section MerchantRestore.
Import JS Fee Channel Store Gateway MerchantAdmin.

Lemma pause_then_restore_rows (id : Z) (s : db) :
  merchants (update_merchant_status id "active" (update_merchant_status id "paused" s))
  = map (fun m => if m_user_id m =? id then set_merchant_status "active" m else m)
        (merchants s).
Proof.
  unfold update_merchant_status. simpl. rewrite map_map. apply map_ext.
  intros m. destruct (m_user_id m =? id) eqn:E; simpl; rewrite E; reflexivity.
Qed.

Lemma first_match_after_restore (id : Z) (pid : string) (l : list merchant) (m : merchant) :
  hd_error (filter (fun x => String.eqb (m_pid x) pid && merchant_active x) l) = Some m ->
  m_user_id m = id ->
  (forall x, In x l -> m_user_id x = id -> x = m) ->
  hd_error (filter (fun x => String.eqb (m_pid x) pid && merchant_active x)
              (map (fun x => if m_user_id x =? id then set_merchant_status "active" x else x)
                   l))
  = Some (set_merchant_status "active" m).
Proof.
  intros Hm Hid Huniq. induction l as [| x l IH]; [discriminate |].
  cbn [map filter] in Hm |- *.
  destruct (String.eqb (m_pid x) pid && merchant_active x) eqn:Px.
  - simpl in Hm. injection Hm as <-.
    apply Z.eqb_eq in Hid. rewrite Hid.
    apply andb_true_iff in Px. destruct Px as [Pp _].
    cbn [set_merchant_status m_pid]. unfold merchant_active at 1.
    cbn [set_merchant_status m_status m_pid]. rewrite Pp. reflexivity.
  - destruct (m_user_id x =? id) eqn:E.
    + apply Z.eqb_eq in E. exfalso.
      assert (x = m) by (apply Huniq; [left; reflexivity | exact E]). subst x.
      assert (Hin : In m (filter (fun x => String.eqb (m_pid x) pid && merchant_active x) l)).
      { destruct (filter _ l) as [| y ys]; [discriminate |].
        injection Hm as <-. left. reflexivity. }
      apply filter_In in Hin. destruct Hin as [_ Hc]. congruence.
    + rewrite Px. apply IH; [exact Hm |].
      intros y Hy. apply Huniq. right. exact Hy.
Qed.

(** X26: Restoring undoes a pause.  For a merchant that the API finds under
    a pid of its own, that is the only row of its user id and has an
    api_key, [/merchants/pause] locks the pid and a following
    [/merchants/restore] succeeds and lets the API find the same merchant
    again: same pid, keys, fee payer, pay group and balance, with the
    status [active]; orders are not touched. *)
Theorem restore_undoes_pause (id : Z) (pid : string) (s : db) (m : merchant) :
  id <> 0 ->
  getMerchantByPid pid s = Some m ->
  merchants_by_user_id id s = [m] ->
  (forall x, In x (merchants s) -> m_pid x = pid -> m_user_id x = id) ->
  pid <> "" -> m_api_key m <> "" ->
  let paused := snd (pause (Some id) s) in
  let restored := restore (Some id) paused in
  getMerchantByPid pid paused = None /\
  fst restored = Done /\
  getMerchantByPid pid (snd restored) = Some (set_merchant_status "active" m) /\
  orders (snd restored) = orders s.
Proof.
  intros Hid Hm Hrow Honly Hpid Hkey paused restored.
  assert (Hin : In m (merchants_by_user_id id s)) by (rewrite Hrow; left; reflexivity).
  unfold merchants_by_user_id in Hin. apply filter_In in Hin.
  destruct Hin as [Hin Hu]. apply Z.eqb_eq in Hu.
  assert (Huniq : forall x, In x (merchants s) -> m_user_id x = id -> x = m).
  { intros x Hx Hxu.
    assert (Hx' : In x (merchants_by_user_id id s))
      by (apply filter_In; split; [exact Hx | apply Z.eqb_eq; exact Hxu]).
    rewrite Hrow in Hx'. destruct Hx' as [<- | []]. reflexivity. }
  destruct (getMerchantByPid_found _ _ _ Hm) as (_ & Hp & Hact).
  assert (Hpaused : paused = update_merchant_status id "paused" s).
  { subst paused. unfold pause. simpl. apply Z.eqb_neq in Hid. rewrite Hid. reflexivity. }
  assert (Hrows : merchants_by_user_id id paused = [set_merchant_status "paused" m]).
  { rewrite Hpaused. unfold merchants_by_user_id, update_merchant_status. simpl.
    unfold merchants_by_user_id in Hrow. rewrite <- (map_id (filter _ (merchants s))) in Hrow.
    clear - Hrow.
    assert (G : forall l,
               filter (fun m0 => m_user_id m0 =? id)
                 (map (fun m0 => if m_user_id m0 =? id
                                 then set_merchant_status "paused" m0 else m0) l)
               = map (set_merchant_status "paused")
                     (filter (fun m0 => m_user_id m0 =? id) l)).
    { induction l as [| x l IH]; [reflexivity |].
      simpl. destruct (m_user_id x =? id) eqn:E; simpl; rewrite E, IH; reflexivity. }
    rewrite G. rewrite map_id in Hrow. rewrite Hrow. reflexivity. }
  assert (Hrestored : restored = (Done, update_merchant_status id "active" paused)).
  { subst restored. unfold restore. simpl no_id. apply Z.eqb_neq in Hid. rewrite Hid.
    simpl id_of. rewrite Hrows. cbn [set_merchant_status m_pid m_api_key].
    rewrite Hp.
    apply String.eqb_neq in Hpid. apply String.eqb_neq in Hkey.
    rewrite Hpid, Hkey. reflexivity. }
  split; [| split; [| split]].
  - destruct (getMerchantByPid pid paused) as [x |] eqn:Ex; [| reflexivity].
    exfalso. rewrite Hpaused in Ex.
    pose proof (getMerchantByPid_found _ _ _ Ex) as (_ & Hxp & _).
    destruct (paused_merchant_not_found _ _ _ _ Ex) as [Hne Hxin].
    apply Hne, Honly; assumption.
  - rewrite Hrestored. reflexivity.
  - rewrite Hrestored. simpl snd. rewrite Hpaused.
    unfold getMerchantByPid. rewrite pause_then_restore_rows.
    apply first_match_after_restore; [exact Hm | exact Hu | exact Huniq].
  - rewrite Hrestored, Hpaused. reflexivity.
Qed.

End MerchantRestore.

Section MerchantAdminScenario.
Import JS Fee Channel Store Gateway MerchantAdmin Scenarios.

Lemma paused_merchant_is_locked_out_witness :
  let m := mkMerchant 7 "100000000007" "active" "key7" None None None None 50 in
  let other := mkMerchant 8 "100000000008" "approved" "key8" None None None None 0 in
  let s := mkDb [] [m; other] [] [] [] 1 in
  let s' := snd (pause (Some 7) s) in
  getMerchantByPid "100000000007" s = Some m /\
  getMerchantByPid "100000000007" s' = None /\
  getMerchantByPid "100000000008" s' = Some other.
Proof.
  intros m other s s'.
  assert (H7 : 7 <> 0) by discriminate.
  pose proof (paused_merchant_is_locked_out (fun _ _ _ => true) (fun _ _ _ => true)
                (fun _ _ _ => None) (fun _ _ _ => None) (fun _ _ => None)
                (fun _ _ => None) 7 s H7) as (Hlock & _).
  split; [reflexivity |]. split; [| reflexivity].
  destruct (getMerchantByPid "100000000007" s') as [x |] eqn:E; [| reflexivity].
  exfalso. destruct (Hlock _ _ E) as [Hne Hin].
  apply getMerchantByPid_found in E. destruct E as (_ & Hpid & _).
  destruct Hin as [<- | [<- | []]]; [apply Hne; reflexivity | discriminate Hpid].
Defined.

Lemma restore_undoes_pause_witness :
  let m := mkMerchant 7 "100000000007" "approved" "key7" None None None None 50 in
  let s := mkDb [] [m] [] [] [] 1 in
  getMerchantByPid "100000000007"
    (snd (restore (Some 7) (snd (pause (Some 7) s))))
  = Some (mkMerchant 7 "100000000007" "active" "key7" None None None None 50).
Proof.
  intros m s.
  assert (H7 : 7 <> 0) by discriminate.
  assert (Honly : forall x, In x (merchants s) -> m_pid x = "100000000007" ->
                            m_user_id x = 7).
  { intros x [<- | []] _. reflexivity. }
  assert (Hp : "100000000007" <> "") by discriminate.
  assert (Hk : m_api_key m <> "") by discriminate.
  exact (proj1 (proj2 (proj2
           (restore_undoes_pause 7 "100000000007" s m H7 eq_refl eq_refl Honly Hp Hk)))).
Defined.

End MerchantAdminScenario.

Section VerificationStoreFacts.
Import JS CallbackDomain VerificationStore.

Lemma map_get_set_same {V} (k : string) (v : V) (m : jsmap V) :
  map_get k (map_set k v m) = Some v.
Proof.
  induction m as [| [k' v'] m IH]; simpl.
  - rewrite String.eqb_refl. reflexivity.
  - destruct (String.eqb k' k) eqn:E; simpl.
    + rewrite String.eqb_refl. reflexivity.
    + rewrite E. exact IH.
Qed.

Lemma map_get_set_other {V} (k k' : string) (v : V) (m : jsmap V) :
  k' <> k -> map_get k' (map_set k v m) = map_get k' m.
Proof.
  intros Hne. induction m as [| [k0 v0] m IH]; simpl.
  - apply String.eqb_neq in Hne. rewrite String.eqb_sym, Hne. reflexivity.
  - destruct (String.eqb k0 k) eqn:E; simpl.
    + apply String.eqb_eq in E. subst k0.
      apply String.eqb_neq in Hne. rewrite String.eqb_sym, Hne. reflexivity.
    + destruct (String.eqb k0 k'); [reflexivity | exact IH].
Qed.

Lemma map_get_delete_same {V} (k : string) (m : jsmap V) :
  map_get k (map_delete k m) = None.
Proof.
  induction m as [| [k' v'] m IH]; simpl; [reflexivity |].
  destruct (String.eqb k' k) eqn:E; simpl; [exact IH |].
  rewrite E. exact IH.
Qed.

Lemma map_get_not_in {V} (k : string) (m : jsmap V) :
  ~ In k (map fst m) -> map_get k m = None.
Proof.
  induction m as [| [k' v'] m IH]; simpl; [reflexivity |].
  intros H. destruct (String.eqb k' k) eqn:E.
  - apply String.eqb_eq in E. exfalso. apply H. left. exact E.
  - apply IH. intros Hin. apply H. right. exact Hin.
Qed.

Lemma map_get_filter {V} (p : V -> bool) (k : string) (m : jsmap V) :
  NoDup (map fst m) ->
  map_get k (filter (fun e => p (snd e)) m)
  = match map_get k m with
    | Some v => if p v then Some v else None
    | None => None
    end.
Proof.
  induction m as [| [k' v'] m IH]; simpl; [reflexivity |].
  intros Hnd. inversion Hnd as [| ? ? Hnot Hnd']; subst.
  destruct (String.eqb k' k) eqn:E.
  - apply String.eqb_eq in E. subst k'.
    destruct (p v') eqn:Ep; simpl.
    + rewrite String.eqb_refl. reflexivity.
    + apply map_get_not_in. intros Hin. apply Hnot.
      apply in_map_iff in Hin. destruct Hin as [e [He Hin]].
      apply filter_In in Hin. apply in_map_iff. exists e. tauto.
  - destruct (p v'); simpl; rewrite ?E; apply IH; exact Hnd'.
Qed.

Lemma verify_reads_the_key (email email' code type : string) (now : Z) (st : state) :
  toLowerCase email' = toLowerCase email ->
  verify email' code type now st = verify email code type now st.
Proof. intros H. unfold verify, _getKey. rewrite H. reflexivity. Qed.

(** X27: A saved code verifies once.  After [save(email, type, code)] at time
    [t0], [verify] with that code, for the same address in any
    capitalisation, succeeds at any time up to [t0] plus ten minutes, and
    after that success every further [verify] fails, whatever the code and
    the time.  A wrong code fails and leaves the state as it is, so the
    right code still verifies.  After the ten minutes every [verify]
    fails and removes the entry. *)
Theorem saved_code_verifies_once
    (email email' type code : string) (ip : option string) (t0 t1 : Z) (st : state) :
  toLowerCase email' = toLowerCase email ->
  let st1 := save email type code ip t0 st in
  (t1 <= t0 + EXPIRE_TIME ->
   fst (verify email' code type t1 st1) = true /\
   (forall c t2, fst (verify email' c type t2 (snd (verify email' code type t1 st1))) = false) /\
   (forall c, c <> code -> verify email' c type t1 st1 = (false, st1))) /\
  (t0 + EXPIRE_TIME < t1 ->
   forall c, fst (verify email' c type t1 st1) = false /\
             map_get (_getKey email type) (store (snd (verify email' c type t1 st1))) = None).
Proof.
  intros He st1. subst st1.
  split.
  - intros Ht.
    assert (Hcmp : (t0 + EXPIRE_TIME <? t1) = false) by (apply Z.ltb_ge; exact Ht).
    split; [| split].
    + rewrite (verify_reads_the_key _ _ _ _ _ _ He).
      unfold verify, save. cbn [store]. rewrite map_get_set_same.
      cbn [e_used e_expiresAt e_code]. rewrite Hcmp, String.eqb_refl. reflexivity.
    + intros c t2. rewrite !(verify_reads_the_key _ _ _ _ _ _ He).
      unfold verify at 2. unfold save. cbn [store rateLimitStore].
      rewrite map_get_set_same.
      cbn [e_used e_expiresAt e_code e_ip e_createdAt]. rewrite Hcmp, String.eqb_refl.
      cbn [negb snd]. unfold verify. cbn [store]. rewrite map_get_set_same.
      reflexivity.
    + intros c Hc. rewrite (verify_reads_the_key _ _ _ _ _ _ He).
      unfold verify, save. cbn [store]. rewrite map_get_set_same.
      cbn [e_used e_expiresAt e_code]. rewrite Hcmp.
      assert (Hne : String.eqb code c = false)
        by (apply String.eqb_neq; intros E; apply Hc; symmetry; exact E).
      rewrite Hne. reflexivity.
  - intros Ht c.
    assert (Hcmp : (t0 + EXPIRE_TIME <? t1) = true) by (apply Z.ltb_lt; exact Ht).
    rewrite (verify_reads_the_key _ _ _ _ _ _ He).
    unfold verify, save. cbn [store]. rewrite map_get_set_same.
    cbn [e_used e_expiresAt]. rewrite Hcmp. cbn [fst snd store].
    split; [reflexivity | apply map_get_delete_same].
Qed.

Lemma saved_code_verifies_once_witness :
  let st1 := save "Ann@Example.com" "register" "aB3dE6gH9j" None 1000 (mkState [] []) in
  let first := verify "ann@example.COM" "aB3dE6gH9j" "register" 600000 st1 in
  fst first = true /\
  fst (verify "ann@example.com" "aB3dE6gH9j" "register" 600001 (snd first)) = false.
Proof.
  intros st1 first.
  destruct (saved_code_verifies_once "Ann@Example.com" "ann@example.COM" "register"
              "aB3dE6gH9j" None 1000 600000 (mkState [] []) eq_refl) as [H _].
  assert (Ht : 600000 <= 1000 + EXPIRE_TIME) by (vm_compute; discriminate).
  destruct (H Ht) as (H1 & H2 & _).
  split; [exact H1 | exact (H2 "aB3dE6gH9j" 600001)].
Defined.

Lemma ceil_div_1000_pos (a : Z) : 0 < ceil_div_1000 a <-> 0 < a.
Proof.
  unfold ceil_div_1000. split; intros H.
  - destruct (Z_lt_le_dec 0 a) as [Hp | Hn]; [exact Hp |].
    assert (0 <= (- a) / 1000) by (apply Z.div_pos; lia). lia.
  - assert ((- a) / 1000 < 0) by (apply Z.div_lt_upper_bound; lia). lia.
Qed.

Lemma ceil_div_1000_le (a b : Z) : a <= 1000 * b -> ceil_div_1000 a <= b.
Proof.
  unfold ceil_div_1000. intros H.
  assert (- b <= (- a) / 1000) by (apply Z.div_le_lower_bound; lia). lia.
Qed.

(** X28: The two views of the sending limit agree.  In every state,
    [checkRateLimit] allows a code to be sent exactly when
    [getRateLimitRemaining] is 0.  After a [save] at a time [t0] other
    than 0, sending to the same address, in any capitalisation, is refused
    until sixty seconds have passed, and the remaining time is never
    negative and, from [t0] on, at most 60 seconds. *)
Theorem rate_limit_views_agree (email : string) (now : Z) (st : state) :
  (checkRateLimit email now st = true <-> getRateLimitRemaining email now st = 0) /\
  0 <= getRateLimitRemaining email now st /\
  (forall email' type code ip t0,
     toLowerCase email' = toLowerCase email -> t0 <> 0 ->
     let st1 := save email' type code ip t0 st in
     checkRateLimit email now st1 = negb (now - t0 <? RATE_LIMIT_INTERVAL) /\
     (t0 <= now -> getRateLimitRemaining email now st1 <= 60)).
Proof.
  split; [| split].
  - unfold checkRateLimit, getRateLimitRemaining.
    destruct (map_get _ _) as [last |]; [| tauto].
    destruct (last =? 0); cbn [negb andb]; [tauto |].
    set (a := RATE_LIMIT_INTERVAL - (now - last)).
    destruct (now - last <? RATE_LIMIT_INTERVAL) eqn:E.
    + apply Z.ltb_lt in E.
      assert (Hp : 0 < ceil_div_1000 a) by (apply ceil_div_1000_pos; unfold a; lia).
      apply Z.ltb_lt in Hp. rewrite Hp. apply Z.ltb_lt in Hp.
      split; [discriminate | lia].
    + apply Z.ltb_ge in E.
      assert (Hp : ~ 0 < ceil_div_1000 a) by (rewrite ceil_div_1000_pos; unfold a; lia).
      apply Z.ltb_nlt in Hp. rewrite Hp. tauto.
  - unfold getRateLimitRemaining.
    destruct (map_get _ _) as [last |]; [| lia].
    destruct (last =? 0); [lia |].
    destruct (0 <? ceil_div_1000 _) eqn:E; [apply Z.ltb_lt in E |]; lia.
  - intros email' type code ip t0 He Ht0 st1. subst st1.
    unfold checkRateLimit, getRateLimitRemaining, save. cbn [rateLimitStore].
    rewrite He, map_get_set_same.
    apply Z.eqb_neq in Ht0. rewrite Ht0. cbn [negb andb].
    split; [destruct (now - t0 <? RATE_LIMIT_INTERVAL); reflexivity |].
    intros Hle.
    destruct (0 <? ceil_div_1000 _); [| lia].
    apply ceil_div_1000_le. unfold RATE_LIMIT_INTERVAL. lia.
Qed.

(** X29: [cleanup] cannot be observed.  Run at a time [now], it keeps every
    code that has not expired and drops the others, and from [now] on
    every [verify], [checkRateLimit] and [getRateLimitRemaining] answers
    as it would have without the cleanup. *)
Theorem cleanup_is_not_observable (now now' : Z) (st : state) :
  keys_unique st -> now <= now' ->
  (forall k, map_get k (store (cleanup now st))
             = match map_get k (store st) with
               | Some v => if e_expiresAt v <? now then None else Some v
               | None => None
               end) /\
  (forall email code type,
     fst (verify email code type now' (cleanup now st))
     = fst (verify email code type now' st)) /\
  (forall email,
     checkRateLimit email now' (cleanup now st) = checkRateLimit email now' st /\
     getRateLimitRemaining email now' (cleanup now st)
     = getRateLimitRemaining email now' st).
Proof.
  intros [Hs Hr] Hle.
  assert (Hget : forall k, map_get k (store (cleanup now st))
             = match map_get k (store st) with
               | Some v => if e_expiresAt v <? now then None else Some v
               | None => None
               end).
  { intros k. unfold cleanup. cbn [store].
    rewrite (map_get_filter (fun v => negb (e_expiresAt v <? now)) k _ Hs).
    destruct (map_get k (store st)) as [v |]; [| reflexivity].
    destruct (e_expiresAt v <? now); reflexivity. }
  assert (Hrate : forall k, map_get k (rateLimitStore (cleanup now st))
             = match map_get k (rateLimitStore st) with
               | Some last => if last <? now - 60 * 60 * 1000 then None else Some last
               | None => None
               end).
  { intros k. unfold cleanup. cbn [rateLimitStore].
    rewrite (map_get_filter (fun last => negb (last <? now - 60 * 60 * 1000)) k _ Hr).
    destruct (map_get k (rateLimitStore st)) as [v |]; [| reflexivity].
    destruct (v <? now - 60 * 60 * 1000); reflexivity. }
  split; [exact Hget |]. split.
  - intros email code type. unfold verify. rewrite Hget.
    destruct (map_get _ (store st)) as [v |]; [| reflexivity].
    destruct (e_expiresAt v <? now) eqn:E.
    + apply Z.ltb_lt in E.
      assert (E' : (e_expiresAt v <? now') = true) by (apply Z.ltb_lt; lia).
      rewrite E'. destruct (e_used v); reflexivity.
    + destruct (e_used v); [reflexivity |].
      destruct (e_expiresAt v <? now'); [reflexivity |].
      destruct (negb _); reflexivity.
  - intros email. unfold checkRateLimit, getRateLimitRemaining. rewrite Hrate.
    destruct (map_get _ (rateLimitStore st)) as [last |]; [| auto].
    destruct (last <? now - 60 * 60 * 1000) eqn:E; [| auto].
    apply Z.ltb_lt in E.
    assert (E1 : (now' - last <? RATE_LIMIT_INTERVAL) = false)
      by (apply Z.ltb_ge; unfold RATE_LIMIT_INTERVAL; lia).
    rewrite E1, andb_false_r. split; [reflexivity |].
    destruct (last =? 0); [reflexivity |].
    assert (Hp : ~ 0 < ceil_div_1000 (RATE_LIMIT_INTERVAL - (now' - last)))
      by (rewrite ceil_div_1000_pos; unfold RATE_LIMIT_INTERVAL; lia).
    apply Z.ltb_nlt in Hp. rewrite Hp. reflexivity.
Qed.

Lemma cleanup_is_not_observable_witness :
  let st := save "b@x.com" "reset" "code2" None 900000
              (save "a@x.com" "register" "code1" None 1000 (mkState [] [])) in
  keys_unique st /\
  map_get (_getKey "a@x.com" "register") (store (cleanup 700000 st)) = None /\
  fst (verify "b@x.com" "code2" "reset" 900001 (cleanup 700000 st)) = true.
Proof.
  intros st.
  assert (Hu : keys_unique st).
  { split; simpl; repeat constructor; simpl; intuition discriminate. }
  assert (Hle : 700000 <= 900001) by discriminate.
  destruct (cleanup_is_not_observable 700000 900001 st Hu Hle) as (Hget & Hver & _).
  split; [exact Hu |]. split.
  - rewrite Hget. reflexivity.
  - rewrite Hver. reflexivity.
Defined.

End VerificationStoreFacts.

Section IpUtilsFacts.
Import JS Gateway CallbackDomain ChannelClose IpUtils.

Variable isIP : string -> Z.

Lemma first_header_ip_valid (names : list string) (headers : list (string * string))
    (ip : string) :
  first_header_ip isIP names headers = Some ip ->
  isValidIp isIP ip = true /\
  exists name, In name names /\ present (getHeader headers name) = true /\
               ip = normalizeIp (trim (text (getHeader headers name))).
Proof.
  induction names as [| n ns IH]; simpl; [discriminate |].
  destruct (present (getHeader headers n) && _) eqn:E.
  - intros H. injection H as <-. apply andb_true_iff in E. destruct E as [Hp Hv].
    split; [exact Hv |]. exists n. auto.
  - intros H. destruct (IH H) as (Hv & name & Hin & Hp & Hip).
    split; [exact Hv |]. exists name. auto.
Qed.


End IpUtilsFacts.
